(** * ia-docx-editor: extraction, validation and reconstruction of .docx blocks

    A shallow embedding of [src/server/extractor.js], [src/server/validator.js]
    and of the traversal and the markdown parser of the reconstructor, with the
    properties of the specification stated over it.  A second part embeds the
    rest of the reconstructor (the edits of the nodes, the new blocks, the body
    that is written), the maps of the heading styles, the name of the download
    in [index.js] and the cleaning of the answer in [src/server/ai-proxy.js],
    with properties read off the code.

    Conventions of the embedding.
    - A JavaScript string is the list of its UTF-16 code units ([jsstring]);
      [js "..."] turns an ASCII literal into one.
    - A DOM node is a rose tree ([Node]); an element carries its qualified
      name, its attributes and its child nodes.
    - A JSON value is [JsVal]; a property read on [null] or [undefined]
      raises a [TypeError], and so does the interpolation in a message of
      an object whose [toString] is no function: the embedding writes
      [None] for both.
    - Regular expressions are backtracking matchers that return every way to
      match, in the priority order of the engine: the first is the match.

    Outside the embedding.
    - The archive and the XML parser: [extractDocx] starts from the [w:body]
      element and from the map of the heading styles, and takes the time
      stamp as an argument.
    - Node kinds other than elements, texts and comments (processing
      instructions, for one).
    - Members the map of the heading styles inherits from its prototype: the
      map is a finite map of the style ids that were set, and what is proved
      of a read of the map assumes a style id that names no member of
      [Object.prototype] ([own_style]).
    - Numbers of a JSON text that are not rationals: there are none;
      [parseInt] giving [NaN] is written [None].
    - Numbers that are no integers.  The integers the code computes are
      rounded as doubles are ([roundToDouble]), with 2^1024 for
      [Infinity]; what is proved of [n + 1] assumes a safe integer [n]
      ([safe_integer]). *)

From Stdlib Require Import ZArith NArith QArith List Ascii String Lia Bool.
From Stdlib Require Import DecimalString DecimalNat.
From stdpp Require Import base option list gmap.
Import ListNotations.

Local Open Scope nat_scope.

(** ** JavaScript strings *)

Module JsString.

Definition jsstring := list N.

(** An ASCII literal as a list of code units. *)
Definition js (s : string) : jsstring :=
  List.map N_of_ascii (list_ascii_of_string s).

Fixpoint str_eqb (a b : jsstring) : bool :=
  match a, b with
  | [], [] => true
  | x :: a', y :: b' => N.eqb x y && str_eqb a' b'
  | _, _ => false
  end.

(** [s.startsWith(p)], also the test a regular expression makes for a
    literal. *)
Fixpoint starts_with (p s : jsstring) : bool :=
  match p, s with
  | [], _ => true
  | x :: p', y :: s' => N.eqb x y && starts_with p' s'
  | _ :: _, [] => false
  end.

(** WhiteSpace and LineTerminator of ECMAScript: what [String.prototype.trim]
    strips, what [\s] matches and what [parseInt] skips. *)
Definition is_space (c : N) : bool :=
  ((9 <=? c) && (c <=? 13) || (c =? 32) || (c =? 160) || (c =? 5760)
   || (8192 <=? c) && (c <=? 8202) || (c =? 8232) || (c =? 8233)
   || (c =? 8239) || (c =? 8287) || (c =? 12288) || (c =? 65279))%N.

(** LineTerminator: what [.] does not match. *)
Definition is_line_terminator (c : N) : bool :=
  ((c =? 10) || (c =? 13) || (c =? 8232) || (c =? 8233))%N.

(** [\d] *)
Definition is_digit (c : N) : bool := ((48 <=? c) && (c <=? 57))%N.

Fixpoint trimStart (s : jsstring) : jsstring :=
  match s with
  | c :: s' => if is_space c then trimStart s' else s
  | [] => []
  end.

Definition trimEnd (s : jsstring) : jsstring := rev (trimStart (rev s)).

Definition trim (s : jsstring) : jsstring := trimEnd (trimStart s).

(** [String(n)] for a non-negative integer: its decimal digits. *)
Definition String_of_nat (n : nat) : jsstring :=
  js (DecimalString.NilEmpty.string_of_uint (Nat.to_uint n)).

(** [s.padStart(width, '0')] *)
Definition padStart0 (width : nat) (s : jsstring) : jsstring :=
  repeat 48%N (width - length s) ++ s.

(** The numbers of the code that are integers are in [Z].  The double
    that is nearest to an integer, as an integer: the integer itself below
    2^53 in absolute value; beyond, the 53 leading bits rounded to
    nearest, a tie going to the even one.  What is rounded beyond the
    largest double is 2^1024, which stands for [Infinity]: it compares
    with the doubles as [Infinity] does, and adding 1 to it gives it
    back. *)
Definition roundToDouble (z : Z) : Z :=
  let a := Z.abs z in
  if (a <? 2 ^ 53)%Z then z
  else
    let e := (Z.log2 a - 52)%Z in
    let q := (a / 2 ^ e)%Z in
    let r := (a mod 2 ^ e)%Z in
    let half := (2 ^ (e - 1))%Z in
    let m := if (r <? half)%Z then q
             else if (half <? r)%Z then (q + 1)%Z
             else if Z.even q then q else (q + 1)%Z in
    (Z.sgn z * Z.min (m * 2 ^ e) (2 ^ 1024))%Z.

(** [parseInt(s, 10)]: leading white space, an optional sign, then the
    longest run of digits; [None] is NaN.  The value is the double
    nearest to the integer that is read, as Node's engine computes
    it. *)
Fixpoint digits_value (s : jsstring) (acc : Z) (seen : bool) : option Z :=
  match s with
  | c :: s' =>
      if is_digit c
      then digits_value s' (10 * acc + (Z.of_N c - 48))%Z true
      else if seen then Some acc else None
  | [] => if seen then Some acc else None
  end.

Definition parseInt (s : jsstring) : option Z :=
  roundToDouble <$>
    match trimStart s with
    | 45%N :: s' => Z.opp <$> digits_value s' 0%Z false
    | 43%N :: s' => digits_value s' 0%Z false
    | s' => digits_value s' 0%Z false
    end.

(** [a.join(sep)] on an array of strings *)
Fixpoint join (sep : jsstring) (parts : list jsstring) : jsstring :=
  match parts with
  | [] => []
  | [p] => p
  | p :: rest => p ++ sep ++ join sep rest
  end.

End JsString.
Export JsString.

(** ** The DOM of the markup part *)

Module Dom.

(** [Element]: nodeType 1.  [Text]: text and CDATA nodes.  [Comment]:
    comments, which [textContent] skips.  The node name of the last two
    starts with [#], so it equals no tag name. *)
#[warnings="-register-all"]
Inductive Node :=
| Element (nodeName : jsstring) (attributes : list (jsstring * jsstring))
          (childNodes : list Node)
| Text (data : jsstring)
| Comment (data : jsstring).

Definition is_element (n : Node) : bool :=
  match n with Element _ _ _ => true | _ => false end.

Definition nodeName (n : Node) : jsstring :=
  match n with
  | Element name _ _ => name
  | Text _ => js "#text"
  | Comment _ => js "#comment"
  end.

Definition childNodes (n : Node) : list Node :=
  match n with Element _ _ cs => cs | _ => [] end.

Definition has_name (tag : jsstring) (n : Node) : bool :=
  is_element n && str_eqb (nodeName n) tag.

(** [node.getAttribute(name)]; an absent attribute is [None]. *)
Fixpoint assoc (k : jsstring) (l : list (jsstring * jsstring)) : option jsstring :=
  match l with
  | [] => None
  | (k', v) :: l' => if str_eqb k' k then Some v else assoc k l'
  end.

Definition getAttribute (n : Node) (name : jsstring) : option jsstring :=
  match n with Element _ attrs _ => assoc name attrs | _ => None end.

Fixpoint textContent (n : Node) : jsstring :=
  match n with
  | Element _ _ cs => flat_map textContent cs
  | Text d => d
  | Comment _ => []
  end.

(** [node.getElementsByTagName(tag).length > 0]: some proper descendant
    is an element of that name. *)
Fixpoint hasDescendant (tag : jsstring) (n : Node) : bool :=
  match n with
  | Element _ _ cs =>
      existsb (fun c => has_name tag c || hasDescendant tag c) cs
  | _ => false
  end.

(** [getFirstChild(parent, tagName)] *)
Definition getFirstChild (parent : option Node) (tagName : jsstring) : option Node :=
  match parent with
  | None => None
  | Some p => List.find (has_name tagName) (childNodes p)
  end.

(** [getDirectChildren(parent, tagName)] *)
Definition getDirectChildren (parent : Node) (tagName : jsstring) : list Node :=
  List.filter (has_name tagName) (childNodes parent).

End Dom.
Export Dom.

(** ** Regular expressions *)

Module Regex.

(** A matcher applied to the input at the current position returns every
    way it can match there, each with the value it builds and the input
    left, in the order in which a backtracking engine tries them. *)
Definition Rx (A : Type) := jsstring -> list (A * jsstring).

Definition rx_ret {A} (a : A) : Rx A := fun s => [(a, s)].

Definition rx_bind {A B} (m : Rx A) (f : A -> Rx B) : Rx B :=
  fun s => flat_map (fun r => f (fst r) (snd r)) (m s).

(** [r1|r2]: the ways of [r1] come before those of [r2]. *)
Definition rx_alt {A} (a b : Rx A) : Rx A := fun s => a s ++ b s.

(** One code unit of a class. *)
Definition rx_class (p : N -> bool) : Rx jsstring :=
  fun s => match s with
           | c :: s' => if p c then [([c], s')] else []
           | [] => []
           end.

(** A literal. *)
Definition rx_lit (l : jsstring) : Rx jsstring :=
  fun s => if starts_with l s then [(l, skipn (length l) s)] else [].

(** [r*], greedy: one more turn first, stopping last.  A turn that
    consumes nothing is refused, as RepeatMatcher does.  Every accepted
    turn shortens the input, so [length s] turns are enough. *)
Fixpoint rx_star_fuel (fuel : nat) (m : Rx jsstring) : Rx jsstring :=
  fun s =>
    match fuel with
    | 0 => [([], s)]
    | S fuel' =>
        flat_map
          (fun r =>
             if length (snd r) <? length s
             then List.map (fun r' => (fst r ++ fst r', snd r'))
                           (rx_star_fuel fuel' m (snd r))
             else [])
          (m s)
        ++ [([], s)]
    end.

Definition rx_star (m : Rx jsstring) : Rx jsstring :=
  fun s => rx_star_fuel (length s) m s.

(** [r*?], lazy: stopping first. *)
Fixpoint rx_star_lazy_fuel (fuel : nat) (m : Rx jsstring) : Rx jsstring :=
  fun s =>
    match fuel with
    | 0 => [([], s)]
    | S fuel' =>
        ([], s) ::
        flat_map
          (fun r =>
             if length (snd r) <? length s
             then List.map (fun r' => (fst r ++ fst r', snd r'))
                           (rx_star_lazy_fuel fuel' m (snd r))
             else [])
          (m s)
    end.

Definition rx_star_lazy (m : Rx jsstring) : Rx jsstring :=
  fun s => rx_star_lazy_fuel (length s) m s.

Declare Scope rx_scope.
Delimit Scope rx_scope with rx.
Notation "x <~ m ;; k" := (rx_bind m (fun x => k))
  (at level 100, m at next level, right associativity) : rx_scope.

(** [r+] and [r+?] *)
Definition rx_plus (m : Rx jsstring) : Rx jsstring :=
  (a <~ m ;; b <~ rx_star m ;; rx_ret (a ++ b))%rx.

Definition rx_plus_lazy (m : Rx jsstring) : Rx jsstring :=
  (a <~ m ;; b <~ rx_star_lazy m ;; rx_ret (a ++ b))%rx.

(** The match of a regular expression anchored at the current position. *)
Definition rx_match {A} (m : Rx A) (s : jsstring) : option (A * jsstring) :=
  head (m s).

(** [regex.exec(text)] of a global regular expression from [lastIndex]:
    the first position at which it matches, with the text skipped before
    it, the value and the input left after the match. *)
Fixpoint rx_exec {A} (m : Rx A) (s : jsstring) : option (jsstring * A * jsstring) :=
  match rx_match m s with
  | Some (a, rest) => Some ([], a, rest)
  | None =>
      match s with
      | [] => None
      | c :: s' =>
          match rx_exec m s' with
          | Some (skipped, a, rest) => Some (c :: skipped, a, rest)
          | None => None
          end
      end
  end.

End Regex.
Export Regex.

(** ** Inline segments, shared by extraction and reconstruction *)

Record Segment := mkSegment { seg_text : jsstring; seg_bold : bool; seg_italic : bool }.

(** ** extractor.js *)

Module Extractor.

(** *** Plain text *)

(** [getPlainText(node)] *)
Fixpoint getPlainText (node : Node) : jsstring :=
  match node with
  | Element _ _ cs =>
      flat_map
        (fun child =>
           if has_name (js "w:t") child then textContent child
           else if has_name (js "w:tab") child then [9%N]
           else if has_name (js "w:br") child then [10%N]
           else if is_element child
                   && negb (str_eqb (nodeName child) (js "w:pPr"))
                   && negb (str_eqb (nodeName child) (js "w:rPr"))
                then getPlainText child
                else [])
        cs
  | _ => []
  end.

(** *** Formatted text *)

(** [hasBoolProp(rPr, propName)] *)
Definition hasBoolProp (rPr : option Node) (propName : jsstring) : bool :=
  match getFirstChild rPr propName with
  | None => false
  | Some prop =>
      match getAttribute prop (js "w:val") with
      | Some val => negb (str_eqb val (js "0")) && negb (str_eqb val (js "false"))
      | None => true
      end
  end.

(** The inner loop of [collectFormattedSegments] over the children of one
    run. *)
Definition runSegments (bold italic : bool) (rc : Node) : list Segment :=
  if has_name (js "w:t") rc then [mkSegment (textContent rc) bold italic]
  else if has_name (js "w:tab") rc then [mkSegment [9%N] false false]
  else if has_name (js "w:br") rc then [mkSegment [10%N] false false]
  else [].

(** [collectFormattedSegments(node, segments)]: the segments it pushes. *)
Fixpoint collectFormattedSegments (node : Node) : list Segment :=
  match node with
  | Element _ _ cs =>
      flat_map
        (fun child =>
           if has_name (js "w:r") child then
             let rPr := getFirstChild (Some child) (js "w:rPr") in
             let bold := hasBoolProp rPr (js "w:b") in
             let italic := hasBoolProp rPr (js "w:i") in
             flat_map (runSegments bold italic) (childNodes child)
           else if has_name (js "w:hyperlink") child then
             collectFormattedSegments child
           else [])
        cs
  | _ => []
  end.

(** [mergeSegments(segments)]: [last] is [result[result.length - 1]]. *)
Fixpoint mergeLoop (last : Segment) (rest : list Segment) : list Segment :=
  match rest with
  | [] => [last]
  | s :: rest' =>
      if Bool.eqb (seg_bold last) (seg_bold s)
         && Bool.eqb (seg_italic last) (seg_italic s)
      then mergeLoop (mkSegment (seg_text last ++ seg_text s)
                                (seg_bold last) (seg_italic last)) rest'
      else last :: mergeLoop s rest'
  end.

Definition mergeSegments (segments : list Segment) : list Segment :=
  match segments with
  | [] => []
  | s0 :: rest => mergeLoop s0 rest
  end.

(** One turn of the rendering loop of [getFormattedText]. *)
Definition renderSegment (seg : Segment) : jsstring :=
  match seg_text seg with
  | [] => []
  | _ =>
      if seg_bold seg && seg_italic seg
      then js "***" ++ seg_text seg ++ js "***"
      else if seg_bold seg then js "**" ++ seg_text seg ++ js "**"
      else if seg_italic seg then js "*" ++ seg_text seg ++ js "*"
      else seg_text seg
  end.

(** [getFormattedText(pNode)] *)
Definition getFormattedText (pNode : Node) : jsstring :=
  flat_map renderSegment (mergeSegments (collectFormattedSegments pNode)).

(** *** Images *)

Definition hasImage (node : Node) : bool :=
  hasDescendant (js "w:drawing") node
  || hasDescendant (js "w:pict") node
  || hasDescendant (js "mc:AlternateContent") node.

Definition isImageOnlyParagraph (pNode : Node) : bool :=
  if hasImage pNode
  then Nat.eqb (length (trim (getPlainText pNode))) 0
  else false.

(** *** Headings *)

(** The class [[\.\-–—:)]] *)
Definition is_heading_sep (c : N) : bool :=
  ((c =? 46) || (c =? 45) || (c =? 8211) || (c =? 8212) || (c =? 58) || (c =? 41))%N.

(** The class [[A-ZÁÀÂÃÉÈÊÍÏÓÔÕÖÚÇ]] *)
Definition is_heading_upper (c : N) : bool :=
  ((65 <=? c) && (c <=? 90)
   || (c =? 193) || (c =? 192) || (c =? 194) || (c =? 195) || (c =? 201)
   || (c =? 200) || (c =? 202) || (c =? 205) || (c =? 207) || (c =? 211)
   || (c =? 212) || (c =? 213) || (c =? 214) || (c =? 218) || (c =? 199))%N.

Definition is_dot (c : N) : bool := (c =? 46)%N.

(** [\d+ (?: \. \d+ )*], the first group of the first pattern *)
Definition dotted_numeral : Rx jsstring :=
  (d <~ rx_plus (rx_class is_digit) ;;
   more <~ rx_star (dot <~ rx_class is_dot ;;
                    ds <~ rx_plus (rx_class is_digit) ;;
                    rx_ret (dot ++ ds)) ;;
   rx_ret (d ++ more))%rx.

(** The first pattern, written with spaces between its parts:
    [^ ( \d+ (?: \. \d+ )* ) \s* [\.\-–—:)] \s*]; the value is group 1. *)
Definition heading_regex1 : Rx jsstring :=
  (g1 <~ dotted_numeral ;;
   _ <~ rx_star (rx_class is_space) ;;
   _ <~ rx_class is_heading_sep ;;
   _ <~ rx_star (rx_class is_space) ;;
   rx_ret g1)%rx.

(** The second pattern: [^ ( \d+ ) \s+ [A-ZÁÀÂÃÉÈÊÍÏÓÔÕÖÚÇ]]; the value is
    group 1. *)
Definition heading_regex2 : Rx jsstring :=
  (g1 <~ rx_plus (rx_class is_digit) ;;
   _ <~ rx_plus (rx_class is_space) ;;
   _ <~ rx_class is_heading_upper ;;
   rx_ret g1)%rx.

(** [s.split('.').length] *)
Definition split_dot_length (s : jsstring) : nat :=
  S (length (List.filter is_dot s)).

(** [detectHeadingByPattern(text)].  Both patterns start with [^] and
    have no [g] or [m] flag: they match at position 0 or nowhere. *)
Definition detectHeadingByPattern (text : jsstring) : option nat :=
  let trimmed := trim text in
  match rx_match heading_regex1 trimmed with
  | Some (g1, _) => Some (split_dot_length g1)
  | None =>
      match rx_match heading_regex2 trimmed with
      | Some _ => Some 1
      | None => None
      end
  end.

(** *** Lists *)

Definition isListItem (pNode : Node) : bool :=
  match getFirstChild (Some pNode) (js "w:pPr") with
  | None => false
  | Some pPr => bool_decide (is_Some (getFirstChild (Some pPr) (js "w:numPr")))
  end.

(** [parseInt(node.getAttribute('w:val'), 10)] *)
Definition parseIntAttr (n : Node) : option Z :=
  match getAttribute n (js "w:val") with
  | Some v => parseInt v
  | None => None
  end.

Definition getListLevel (pNode : Node) : Z :=
  match getFirstChild (Some pNode) (js "w:pPr") with
  | None => 1
  | Some pPr =>
      match getFirstChild (Some pPr) (js "w:numPr") with
      | None => 1
      | Some numPr =>
          match getFirstChild (Some numPr) (js "w:ilvl") with
          | None => 1
          | Some ilvl => roundToDouble (default 0 (parseIntAttr ilvl) + 1)
          end
      end
  end%Z.

(** *** Classification *)

(** What [classifyParagraph] returns: [{type, level?, text}]. *)
Inductive Classified :=
| CHeading (level : Z) (text : jsstring)
| CListItem (level : Z) (text : jsstring)
| CParagraph (text : jsstring).

(** The heading-style map is the object [buildHeadingStyleMap] returns:
    style id to level.  Only its own entries are modelled: the read
    [headingStyles[styleVal]] of the code is the lookup below unless
    [styleVal] names a member of [Object.prototype] that the map does not
    shadow ([inherited_member]); the properties that depend on the read
    assume a style id that names none ([own_style]). *)
Definition styleLevel (pPr : Node) (headingStyles : gmap jsstring Z) : option Z :=
  match getFirstChild (Some pPr) (js "w:pStyle") with
  | None => None
  | Some pStyle =>
      match getAttribute pStyle (js "w:val") with
      | Some (c :: v) => headingStyles !! (c :: v)
      | _ => None
      end
  end.

Definition outlineLevel (pPr : Node) : option Z :=
  match getFirstChild (Some pPr) (js "w:outlineLvl") with
  | None => None
  | Some outlineLvl => (fun lvl => roundToDouble (lvl + 1)) <$> parseIntAttr outlineLvl
  end.

(** [classifyParagraph(pNode, headingStyles)] *)
Definition classifyParagraph (pNode : Node) (headingStyles : gmap jsstring Z) : Classified :=
  let plainText := trim (getPlainText pNode) in
  let formattedText := trim (getFormattedText pNode) in
  let pPr := getFirstChild (Some pNode) (js "w:pPr") in
  match pPr ≫= (fun pPr => styleLevel pPr headingStyles) with
  | Some level => CHeading level formattedText
  | None =>
      match pPr ≫= outlineLevel with
      | Some level => CHeading level formattedText
      | None =>
          match detectHeadingByPattern plainText with
          | Some patternLevel => CHeading (Z.of_nat patternLevel) formattedText
          | None =>
              if isListItem pNode
              then CListItem (getListLevel pNode) formattedText
              else CParagraph formattedText
          end
      end
  end.

(** *** Blocks and documents *)

Record Cell := mkCell { cell_id : jsstring; cell_text : jsstring }.

(** A block is the object the extractor pushes: [{id, type, text}], with
    [level] when the type is heading or list_item, or [{id, type, rows}]
    for a table.  One constructor per value of [type]. *)
Inductive Block :=
| Title (id text : jsstring)
| Heading (id : jsstring) (level : Z) (text : jsstring)
| Paragraph (id text : jsstring)
| ListItem (id : jsstring) (level : Z) (text : jsstring)
| Table (id : jsstring) (rows : list (list Cell)).

Definition block_id (b : Block) : jsstring :=
  match b with
  | Title id _ | Heading id _ _ | Paragraph id _ | ListItem id _ _ | Table id _ => id
  end.

Definition is_table (b : Block) : bool :=
  match b with Table _ _ => true | _ => false end.

Record Metadata := mkMetadata {
  fileName : jsstring;
  extractedAt : jsstring;
  blockCount : nat;
  tableCount : nat
}.

Record Document := mkDocument { metadata : Metadata; blocks : list Block }.

(** [String(index).padStart(4, '0')] *)
Definition pad4 (index : nat) : jsstring := padStart0 4 (String_of_nat index).

Definition blockId (index : nat) : jsstring := js "block_" ++ pad4 index.

Definition cellId (index rowIdx cellIdx : nat) : jsstring :=
  js "cell_" ++ pad4 index ++ js "_" ++ String_of_nat rowIdx
    ++ js "_" ++ String_of_nat cellIdx.

(** *** Tables *)

Definition cellText (tc : Node) : jsstring :=
  trim (join [10%N] (List.map getFormattedText (getDirectChildren tc (js "w:p")))).

(** The loop over the cells of a row, from [cellIdx] on. *)
Fixpoint extractCells (index rowIdx cellIdx : nat) (tcNodes : list Node) : list Cell :=
  match tcNodes with
  | [] => []
  | tc :: rest =>
      mkCell (cellId index rowIdx cellIdx) (cellText tc)
        :: extractCells index rowIdx (S cellIdx) rest
  end.

(** The loop over the rows of a table, from [rowIdx] on. *)
Fixpoint extractRows (index rowIdx : nat) (trNodes : list Node) : list (list Cell) :=
  match trNodes with
  | [] => []
  | tr :: rest =>
      extractCells index rowIdx 0 (getDirectChildren tr (js "w:tc"))
        :: extractRows index (S rowIdx) rest
  end.

(** [extractTable(tblNode, index)] *)
Definition extractTable (tblNode : Node) (index : nat) : Block :=
  Table (blockId index) (extractRows index 0 (getDirectChildren tblNode (js "w:tr"))).

(** *** The traversal of the body *)

(** The block pushed for a paragraph that is kept. *)
Definition paragraphBlock (currentIdx : nat) (result : Classified) : Block :=
  match result with
  | CHeading level text => Heading (blockId currentIdx) level text
  | CListItem level text => ListItem (blockId currentIdx) level text
  | CParagraph text => Paragraph (blockId currentIdx) text
  end.

(** One turn of the loop over [body.childNodes]: the state is
    [(blocks, blockIndex)]. *)
Definition extractStep (headingStyles : gmap jsstring Z)
           (st : list Block * nat) (child : Node) : list Block * nat :=
  let '(blocks, blockIndex) := st in
  if negb (is_element child) then st
  else if str_eqb (nodeName child) (js "w:p") then
    let currentIdx := blockIndex in
    let blockIndex := S blockIndex in
    if isImageOnlyParagraph child then (blocks, blockIndex)
    else
      let result := classifyParagraph child headingStyles in
      let plain := trim (getPlainText child) in
      match plain with
      | [] => (blocks, blockIndex)
      | _ => (blocks ++ [paragraphBlock currentIdx result], blockIndex)
      end
  else if str_eqb (nodeName child) (js "w:tbl") then
    (blocks ++ [extractTable child blockIndex], S blockIndex)
  else st.

Definition extractBlocks (headingStyles : gmap jsstring Z) (body : Node) : list Block :=
  fst (fold_left (extractStep headingStyles) (childNodes body) ([], 0)).

(** *** The title pass *)

(** The loop that detects the title: it stops at the first heading or
    table, and at the first paragraph, which it retypes. *)
Fixpoint titlePass (blocks : list Block) : list Block :=
  match blocks with
  | [] => []
  | Heading _ _ _ :: _ | Table _ _ :: _ => blocks
  | Paragraph id text :: rest => Title id text :: rest
  | b :: rest => b :: titlePass rest
  end.

(** [extractDocx(buffer, fileName)] from the body element on.  Reading
    the archive and parsing the markup come before; [now] is
    [new Date().toISOString()]; an absent [fileName] is [None]. *)
Definition extractDocx (headingStyles : gmap jsstring Z) (body : Node)
           (fileName : option jsstring) (now : jsstring) : Document :=
  let blocks := titlePass (extractBlocks headingStyles body) in
  {| metadata := {| fileName := match fileName with
                                | Some (c :: f) => c :: f
                                | _ => js "document.docx"
                                end;
                    extractedAt := now;
                    blockCount := length blocks;
                    tableCount := length (List.filter is_table blocks) |};
     blocks := blocks |}.

End Extractor.

(** ** reconstructor.js: the markdown parser and the traversal *)

Module Reconstructor.

Import Extractor.

(** [.]: any code unit but a line terminator *)
Definition rx_dot : Rx jsstring := rx_class (fun c => negb (is_line_terminator c)).

(** One alternative of the pattern: marker, [(.+?)], marker. *)
Definition emphasis (marker : jsstring) (bold italic : bool) : Rx Segment :=
  (_ <~ rx_lit marker ;;
   inner <~ rx_plus_lazy rx_dot ;;
   _ <~ rx_lit marker ;;
   rx_ret (mkSegment inner bold italic))%rx.

(** The pattern of [parseMarkdown], three alternatives in this order:
    three stars (group 2), two stars (group 3), one star (group 4).  The
    value is the segment pushed for the group that is defined. *)
Definition markdown_regex : Rx Segment :=
  rx_alt (emphasis (js "***") true true)
         (rx_alt (emphasis (js "**") true false)
                 (emphasis (js "*") false true)).

Definition plainSegment (text : jsstring) : list Segment :=
  match text with
  | [] => []
  | _ => [mkSegment text false false]
  end.

(** The [while] loop of [parseMarkdown] on the text from [lastIndex] on.
    A match consumes at least three code units, so the loop ends within
    [length text] turns. *)
Fixpoint parseLoop (fuel : nat) (text : jsstring) : list Segment :=
  match fuel with
  | 0 => plainSegment text
  | S fuel' =>
      match rx_exec markdown_regex text with
      | Some (skipped, seg, rest) =>
          plainSegment skipped ++ seg :: parseLoop fuel' rest
      | None => plainSegment text
      end
  end.

(** [parseMarkdown(text)] *)
Definition parseMarkdown (text : jsstring) : list Segment :=
  match text with
  | [] => [mkSegment [] false false]
  | _ =>
      match parseLoop (length text) text with
      | [] => [mkSegment text false false]
      | segments => segments
      end
  end.

(** *** The traversal of [reconstructDocx] *)

Record Templates := mkTemplates {
  t_title : option Node;
  t_paragraph : option Node;
  t_headings : gmap Z Node;
  t_list_item : option Node;
  t_table : option Node
}.

Record Traversal := mkTraversal {
  originalBlockNodes : gmap jsstring Node;
  templates : Templates;
  nonBlockNodes : list Node;
  blockIndex : nat
}.

Definition emptyTemplates : Templates := mkTemplates None None ∅ None None.

(** [a || b] on template slots: [a] when it is set *)
Definition keep (slot : option Node) (child : Node) : option Node :=
  match slot with Some n => Some n | None => Some child end.

(** The template a paragraph node becomes, given the block of the
    original document with its id, if any. *)
Definition recordTemplate (origBlock : option Block) (child : Node) (t : Templates) : Templates :=
  match origBlock with
  | Some (Title _ _) =>
      match t_title t with
      | None => mkTemplates (Some child) (t_paragraph t) (t_headings t) (t_list_item t) (t_table t)
      | Some _ => t
      end
  | Some (Heading _ level _) =>
      if (level =? 0)%Z then t
      else match t_headings t !! level with
           | None => mkTemplates (t_title t) (t_paragraph t) (<[level := child]> (t_headings t))
                                 (t_list_item t) (t_table t)
           | Some _ => t
           end
  | Some (ListItem _ _ _) =>
      match t_list_item t with
      | None => mkTemplates (t_title t) (t_paragraph t) (t_headings t) (Some child) (t_table t)
      | Some _ => t
      end
  | Some (Paragraph _ _) | None =>
      mkTemplates (t_title t) (keep (t_paragraph t) child) (t_headings t) (t_list_item t) (t_table t)
  | Some (Table _ _) => t
  end.

(** One turn of the loop over [body.childNodes]. *)
Definition traverseStep (originalJson : option Document) (st : Traversal) (child : Node) : Traversal :=
  if negb (is_element child) then st
  else if str_eqb (nodeName child) (js "w:p") then
    let id := blockId (blockIndex st) in
    let origBlock :=
      originalJson ≫= (fun d => List.find (fun b => str_eqb (block_id b) id) (blocks d)) in
    mkTraversal (<[id := child]> (originalBlockNodes st))
                (recordTemplate origBlock child (templates st))
                (nonBlockNodes st)
                (S (blockIndex st))
  else if str_eqb (nodeName child) (js "w:tbl") then
    let id := blockId (blockIndex st) in
    let t := templates st in
    mkTraversal (<[id := child]> (originalBlockNodes st))
                (mkTemplates (t_title t) (t_paragraph t) (t_headings t) (t_list_item t)
                             (keep (t_table t) child))
                (nonBlockNodes st)
                (S (blockIndex st))
  else
    mkTraversal (originalBlockNodes st) (templates st)
                (nonBlockNodes st ++ [child]) (blockIndex st).

Definition traverse (originalJson : option Document) (body : Node) : Traversal :=
  fold_left (traverseStep originalJson) (childNodes body)
            (mkTraversal ∅ emptyTemplates [] 0).

End Reconstructor.

(** ** validator.js *)

Module Validator.

Import Extractor.

(** *** JavaScript values *)

(** The values a parsed JSON text is made of, and [undefined], which a
    read of an absent property gives.  A number is the rational a finite
    double denotes.  An object is the list of its own properties. *)
#[warnings="-register-all"]
Inductive JsVal :=
| JUndefined
| JNull
| JBool (b : bool)
| JNum (q : Q)
| JStr (s : jsstring)
| JArr (items : list JsVal)
| JObj (fields : list (jsstring * JsVal)).

(** [!!v] *)
Definition truthy (v : JsVal) : bool :=
  match v with
  | JUndefined | JNull => false
  | JBool b => b
  | JNum q => negb (Qeq_bool q 0)
  | JStr [] => false
  | JStr (_ :: _) => true
  | JArr _ | JObj _ => true
  end.

Inductive JsType := TUndefined | TObject | TBoolean | TNumber | TString.

(** [typeof v] *)
Definition typeof (v : JsVal) : JsType :=
  match v with
  | JUndefined => TUndefined
  | JNull | JArr _ | JObj _ => TObject
  | JBool _ => TBoolean
  | JNum _ => TNumber
  | JStr _ => TString
  end.

Definition is_object (v : JsVal) : bool :=
  match typeof v with TObject => true | _ => false end.

Definition is_string (v : JsVal) : bool :=
  match v with JStr _ => true | _ => false end.

Definition isArray (v : JsVal) : bool :=
  match v with JArr _ => true | _ => false end.

Definition num_of_nat (n : nat) : JsVal := JNum (inject_Z (Z.of_nat n)).

Fixpoint field (name : jsstring) (fields : list (jsstring * JsVal)) : JsVal :=
  match fields with
  | [] => JUndefined
  | (k, v) :: rest => if str_eqb k name then v else field name rest
  end.

(** [v.name], for the names the validator reads: metadata, blocks, id,
    type, level, text, rows and length.  [None] is the TypeError of a
    read on [null] or [undefined]. *)
Definition getProp (v : JsVal) (name : jsstring) : option JsVal :=
  match v with
  | JUndefined | JNull => None
  | JObj fields => Some (field name fields)
  | JArr items =>
      Some (if str_eqb name (js "length") then num_of_nat (length items) else JUndefined)
  | JStr s =>
      Some (if str_eqb name (js "length") then num_of_nat (length s) else JUndefined)
  | JBool _ | JNum _ => Some JUndefined
  end.

(** [v[i]] for an index [i] *)
Definition getIndex (v : JsVal) (i : nat) : option JsVal :=
  match v with
  | JUndefined | JNull => None
  | JArr items => Some (nth i items JUndefined)
  | JStr s => Some (match nth_error s i with Some c => JStr [c] | None => JUndefined end)
  | JObj fields => Some (field (String_of_nat i) fields)
  | JBool _ | JNum _ => Some JUndefined
  end.

(** [a === b], also the SameValueZero of [Set], [Map] and [includes] on
    these values.  The two documents are separate object graphs: an
    object or an array is identical to no other value met. *)
Definition strict_eq (a b : JsVal) : bool :=
  match a, b with
  | JUndefined, JUndefined => true
  | JNull, JNull => true
  | JBool x, JBool y => Bool.eqb x y
  | JNum x, JNum y => Qeq_bool x y
  | JStr x, JStr y => str_eqb x y
  | _, _ => false
  end.

(** [typeof v !== 'number' || v < 1] *)
Definition bad_level (v : JsVal) : bool :=
  match v with
  | JNum q => negb (Qle_bool 1 q)
  | _ => true
  end.

(** [`${v}`]: a template literal applies ToString to the value.  An
    object of a parsed JSON text holds no function.  When it has an own
    property [toString], neither that property nor [valueOf] gives a
    primitive, and a TypeError is raised; without one,
    [Object.prototype.toString] answers.  An array joins the strings of
    its items, [null] and [undefined] counting as the empty string, so it
    raises when one of its items does.  [stringifies v] says that no
    TypeError is raised. *)
Fixpoint stringifies (v : JsVal) : bool :=
  match v with
  | JObj fields => negb (existsb (fun kv => str_eqb (fst kv) (js "toString")) fields)
  | JArr items => forallb stringifies items
  | _ => true
  end.

(** *** Violations *)

(** One constructor per message of the validator, with the values its
    template interpolates: the position [i] of the block (the prefix
    [Bloco i]), its id, and so on.  In the order of the source:
    - [ENotObject]: the candidate is not an object (the early return);
    - [EMetadata]: the field metadata is missing or invalid;
    - [EBlocksNotArray]: the field blocks must be an array (the early
      return);
    - [EBlockInvalid]: the block is missing or invalid;
    - [EIdInvalid]: the field id is missing or invalid;
    - [EDuplicateId]: duplicated id;
    - [ETypeInvalid]: the type is not one of the accepted ones;
    - [ETypeChanged]: the type of an existing block was changed;
    - [ELevelChanged]: the level of an existing heading was changed;
    - [EHeadingLevel]: a heading needs a numeric level of at least 1;
    - [ETextNotString]: the field text must be a string;
    - [EListLevel]: a list item needs a numeric level of at least 1;
    - [ERowsNotArray]: the field rows must be an array;
    - [ERowNotArray]: row [r] must be an array of cells;
    - [ECellInvalid]: cell [r], [c] is missing or invalid;
    - [ECellIdMissing]: cell [r], [c] has no id;
    - [ECellDuplicateId]: cell [r], [c] has a duplicated id;
    - [ECellText]: the text of cell [r], [c] must be a string;
    - [ERowCount]: the number of rows was changed;
    - [ECellCount]: the number of cells of row [r] was changed. *)
Inductive Violation :=
| ENotObject
| EMetadata
| EBlocksNotArray
| EBlockInvalid (i : nat)
| EIdInvalid (i : nat)
| EDuplicateId (i : nat) (id : jsstring)
| ETypeInvalid (i : nat) (id : jsstring) (type : JsVal)
| ETypeChanged (i : nat) (id : jsstring) (from to : JsVal)
| ELevelChanged (i : nat) (id : jsstring) (from to : JsVal)
| EHeadingLevel (i : nat) (id : jsstring)
| ETextNotString (i : nat) (id : jsstring)
| EListLevel (i : nat) (id : jsstring)
| ERowsNotArray (i : nat) (id : jsstring)
| ERowNotArray (i : nat) (id : jsstring) (r : nat)
| ECellInvalid (i : nat) (id : jsstring) (r c : nat)
| ECellIdMissing (i : nat) (id : jsstring) (r c : nat)
| ECellDuplicateId (i : nat) (id : jsstring) (r c : nat) (cellId : JsVal)
| ECellText (i : nat) (id : jsstring) (r c : nat)
| ERowCount (i : nat) (id : jsstring) (from : JsVal) (to : nat)
| ECellCount (i : nat) (id : jsstring) (r : nat) (from to : JsVal).

Record Result := mkResult { valid : bool; errors : list Violation }.

(** The two accumulators of the loop: [errors] and [seenIds]. *)
Record VState := mkVState { st_errors : list Violation; st_seen : list JsVal }.

(** [errors.push(e)] *)
Definition push (e : Violation) (st : VState) : VState :=
  mkVState (st_errors st ++ [e]) (st_seen st).

(** [if (cond) errors.push(e)] *)
Definition push_if (cond : bool) (e : Violation) (st : VState) : VState :=
  if cond then push e st else st.

(** [errors.push(`... ${v} ...`)]: the message is built before it is
    pushed; [None] is the TypeError of an interpolated value that has no
    string. *)
Definition push_with (vs : list JsVal) (e : Violation) (st : VState) : option VState :=
  if forallb stringifies vs then Some (push e st) else None.

(** [if (cond) errors.push(`... ${v} ...`)] *)
Definition push_if_with (cond : bool) (vs : list JsVal) (e : Violation) (st : VState)
  : option VState :=
  if cond then push_with vs e st else Some st.

(** [seenIds.has(v)] and [seenIds.add(v)] *)
Definition seen_has (v : JsVal) (st : VState) : bool := existsb (strict_eq v) (st_seen st).

Definition seen_add (v : JsVal) (st : VState) : VState :=
  mkVState (st_errors st) (v :: st_seen st).

(** [originalBlockMap]: the entries set, the latest first. *)
Definition BlockMap := list (JsVal * JsVal).

(** [map.get(k)] *)
Fixpoint map_get (k : JsVal) (m : BlockMap) : JsVal :=
  match m with
  | [] => JUndefined
  | (k', v) :: rest => if strict_eq k' k then v else map_get k rest
  end.

(** The loop that fills [originalBlockMap]. *)
Fixpoint buildMap (blocks : list JsVal) (m : BlockMap) : option BlockMap :=
  match blocks with
  | [] => Some m
  | block :: rest =>
      id ← getProp block (js "id");
      buildMap rest ((id, block) :: m)
  end.

(** [original && Array.isArray(original.blocks)], then the loop *)
Definition originalMap (original : JsVal) : option BlockMap :=
  if truthy original then
    blocks ← getProp original (js "blocks");
    match blocks with
    | JArr items => buildMap items []
    | _ => Some []
    end
  else Some [].

Definition validTypes : list JsVal :=
  [JStr (js "title"); JStr (js "heading"); JStr (js "paragraph");
   JStr (js "list_item"); JStr (js "table")].

(** [typeof block.text !== 'string'] pushes the text message *)
Definition checkText (i : nat) (id : jsstring) (block : JsVal) (st : VState) : option VState :=
  text ← getProp block (js "text");
  Some (push_if (negb (is_string text)) (ETextNotString i id) st).

(** [typeof block.level !== 'number' || block.level < 1] pushes [e] *)
Definition checkLevel (e : Violation) (block : JsVal) (st : VState) : option VState :=
  level ← getProp block (js "level");
  Some (push_if (bad_level level) e st).

(** The cross-reference with the original block of the same id *)
Definition crossReference (i : nat) (id : jsstring) (block type origBlock : JsVal)
           (st : VState) : option VState :=
  if truthy origBlock then
    otype ← getProp origBlock (js "type");
    st ← push_if_with (negb (strict_eq type otype)) [otype; type]
                      (ETypeChanged i id otype type) st;
    if strict_eq otype (JStr (js "heading")) && strict_eq type (JStr (js "heading")) then
      level ← getProp block (js "level");
      olevel ← getProp origBlock (js "level");
      push_if_with (negb (strict_eq level olevel)) [olevel; level]
                   (ELevelChanged i id olevel level) st
    else Some st
  else Some st.

(** One turn of the loop over the cells of a row.  The id interpolated
    in the message of a duplicate is identical to an id seen before: it
    is no object and no array, and has a string. *)
Definition validateCell (i : nat) (id : jsstring) (r c : nat) (cell : JsVal)
           (st : VState) : option VState :=
  if negb (truthy cell) || negb (is_object cell) then Some (push (ECellInvalid i id r c) st)
  else
    cid ← getProp cell (js "id");
    let st := push_if (negb (truthy cid) || negb (is_string cid)) (ECellIdMissing i id r c) st in
    let st := push_if (seen_has cid st) (ECellDuplicateId i id r c cid) st in
    let st := if truthy cid then seen_add cid st else st in
    text ← getProp cell (js "text");
    Some (push_if (negb (is_string text)) (ECellText i id r c) st).

Fixpoint validateCells (i : nat) (id : jsstring) (r c : nat) (cells : list JsVal)
         (st : VState) : option VState :=
  match cells with
  | [] => Some st
  | cell :: rest =>
      st' ← validateCell i id r c cell st;
      validateCells i id r (S c) rest st'
  end.

(** The loop over the rows of a table block *)
Fixpoint validateRows (i : nat) (id : jsstring) (r : nat) (rows : list JsVal)
         (st : VState) : option VState :=
  match rows with
  | [] => Some st
  | row :: rest =>
      st' ← match row with
            | JArr cells => validateCells i id r 0 cells st
            | _ => Some (push (ERowNotArray i id r) st)
            end;
      validateRows i id (S r) rest st'
  end.

(** One turn of the loop over the rows of the original table, entered
    when the two row counts are equal *)
Definition compareRow (i : nat) (id : jsstring) (rows origRows : JsVal) (r : nat)
           (st : VState) : option VState :=
  row ← getIndex rows r;
  orow ← getIndex origRows r;
  if truthy row && truthy orow then
    len ← getProp row (js "length");
    olen ← getProp orow (js "length");
    push_if_with (negb (strict_eq len olen)) [olen; len] (ECellCount i id r olen len) st
  else Some st.

Fixpoint compareRows (i : nat) (id : jsstring) (rows origRows : JsVal) (rs : list nat)
         (st : VState) : option VState :=
  match rs with
  | [] => Some st
  | r :: rest =>
      st' ← compareRow i id rows origRows r st;
      compareRows i id rows origRows rest st'
  end.

(** The geometry check of a table block whose [rows] is the array
    [items].  In the second branch [origBlock.rows.length] equals
    [items.length], so [r] runs over [0 .. items.length - 1]. *)
Definition tableGeometry (i : nat) (id : jsstring) (items : list JsVal) (origBlock : JsVal)
           (st : VState) : option VState :=
  if truthy origBlock then
    otype ← getProp origBlock (js "type");
    if strict_eq otype (JStr (js "table")) then
      origRows ← getProp origBlock (js "rows");
      olen ← getProp origRows (js "length");
      if negb (strict_eq (num_of_nat (length items)) olen)
      then push_with [olen; num_of_nat (length items)] (ERowCount i id olen (length items)) st
      else compareRows i id (JArr items) origRows (seq 0 (length items)) st
    else Some st
  else Some st.

(** The checks by type *)
Definition validateByType (i : nat) (id : jsstring) (block type origBlock : JsVal)
           (st : VState) : option VState :=
  st ← (if strict_eq type (JStr (js "heading"))
        then st' ← checkLevel (EHeadingLevel i id) block st; checkText i id block st'
        else Some st);
  st ← (if strict_eq type (JStr (js "title")) then checkText i id block st else Some st);
  st ← (if strict_eq type (JStr (js "paragraph")) then checkText i id block st else Some st);
  st ← (if strict_eq type (JStr (js "list_item"))
        then st' ← checkText i id block st; checkLevel (EListLevel i id) block st'
        else Some st);
  if strict_eq type (JStr (js "table")) then
    rows ← getProp block (js "rows");
    match rows with
    | JArr items =>
        st' ← validateRows i id 0 items st;
        tableGeometry i id items origBlock st'
    | _ => Some (push (ERowsNotArray i id) st)
    end
  else Some st.

(** One turn of the loop over [modified.blocks] *)
Definition validateBlock (originalBlockMap : BlockMap) (i : nat) (block : JsVal)
           (st : VState) : option VState :=
  if negb (truthy block) || negb (is_object block) then Some (push (EBlockInvalid i) st)
  else
    idv ← getProp block (js "id");
    match idv with
    | JStr (c :: s) =>
        let id := c :: s in
        let st := push_if (seen_has idv st) (EDuplicateId i id) st in
        let st := seen_add idv st in
        type ← getProp block (js "type");
        if negb (existsb (strict_eq type) validTypes)
        then push_with [type] (ETypeInvalid i id type) st
        else
          let origBlock := map_get idv originalBlockMap in
          st' ← crossReference i id block type origBlock st;
          validateByType i id block type origBlock st'
    | _ => Some (push (EIdInvalid i) st)
    end.

Fixpoint validateBlocks (originalBlockMap : BlockMap) (i : nat) (blocks : list JsVal)
         (st : VState) : option VState :=
  match blocks with
  | [] => Some st
  | block :: rest =>
      st' ← validateBlock originalBlockMap i block st;
      validateBlocks originalBlockMap (S i) rest st'
  end.

(** [validateModifiedJson(modified, original)]; [None] is an uncaught
    TypeError: of a property read on [null] or [undefined], or of a
    message that interpolates a value without a string. *)
Definition validateModifiedJson (modified original : JsVal) : option Result :=
  if negb (truthy modified) || negb (is_object modified)
  then Some (mkResult false [ENotObject])
  else
    metadata ← getProp modified (js "metadata");
    let errors :=
      if negb (truthy metadata) || negb (is_object metadata) then [EMetadata] else [] in
    blocks ← getProp modified (js "blocks");
    match blocks with
    | JArr items =>
        originalBlockMap ← originalMap original;
        st ← validateBlocks originalBlockMap 0 items (mkVState errors []);
        Some (mkResult (Nat.eqb (length (st_errors st)) 0) (st_errors st))
    | _ => Some (mkResult false [EBlocksNotArray])
    end.

(** *** Documents as JavaScript values *)

Definition cell_to_js (c : Cell) : JsVal :=
  JObj [(js "id", JStr (cell_id c)); (js "text", JStr (cell_text c))].

Definition row_to_js (row : list Cell) : JsVal := JArr (List.map cell_to_js row).

Definition level_to_js (level : Z) : JsVal := JNum (inject_Z level).

Definition block_to_js (b : Block) : JsVal :=
  match b with
  | Title id text =>
      JObj [(js "id", JStr id); (js "type", JStr (js "title")); (js "text", JStr text)]
  | Heading id level text =>
      JObj [(js "id", JStr id); (js "type", JStr (js "heading")); (js "text", JStr text);
            (js "level", level_to_js level)]
  | Paragraph id text =>
      JObj [(js "id", JStr id); (js "type", JStr (js "paragraph")); (js "text", JStr text)]
  | ListItem id level text =>
      JObj [(js "id", JStr id); (js "type", JStr (js "list_item")); (js "text", JStr text);
            (js "level", level_to_js level)]
  | Table id rows =>
      JObj [(js "id", JStr id); (js "type", JStr (js "table"));
            (js "rows", JArr (List.map (fun row => JArr (List.map cell_to_js row)) rows))]
  end.

Definition metadata_to_js (m : Metadata) : JsVal :=
  JObj [(js "fileName", JStr (fileName m)); (js "extractedAt", JStr (extractedAt m));
        (js "blockCount", num_of_nat (blockCount m));
        (js "tableCount", num_of_nat (tableCount m))].

Definition document_to_js (d : Document) : JsVal :=
  JObj [(js "metadata", metadata_to_js (metadata d));
        (js "blocks", JArr (List.map block_to_js (blocks d)))].

End Validator.

(** ** Notions used to state the properties *)

Import Extractor Reconstructor Validator.

(** *** Validation *)

(** The state with the violations [e0] recorded before those of [st]. *)
Definition prepend (e0 : list Violation) (st : VState) : VState :=
  mkVState (e0 ++ st_errors st) (st_seen st).

(** A step of the validator that only appends to [errors]. *)
Definition commutes (e0 : list Violation) (f : VState -> option VState) : Prop :=
  forall st, f (prepend e0 st) = prepend e0 <$> f st.

(** The violations of the geometry check: row count and cell count. *)
Definition is_geometry (e : Violation) : bool :=
  match e with
  | ERowCount _ _ _ _ | ECellCount _ _ _ _ _ => true
  | _ => false
  end.

Definition geometry (st : VState) : list Violation :=
  List.filter is_geometry (st_errors st).

(** One cell-count violation for each row index at which the candidate
    row and the original row differ in length. *)
Definition cellCountAt (i : nat) (id : jsstring) (rows orows : list (list Cell)) (r : nat)
  : list Violation :=
  let n := length (nth r rows []) in
  let n0 := length (nth r orows []) in
  if n =? n0 then [] else [ECellCount i id r (num_of_nat n0) (num_of_nat n)].

Definition cellCountViolations (i : nat) (id : jsstring) (rows orows : list (list Cell))
  : list Violation :=
  flat_map (cellCountAt i id rows orows) (seq 0 (length rows)).

(** What the geometry check must report for a candidate table with
    [rows] against an original table with [orows]. *)
Definition geometryViolations (i : nat) (id : jsstring) (rows orows : list (list Cell))
  : list Violation :=
  if length rows =? length orows
  then cellCountViolations i id rows orows
  else [ERowCount i id (num_of_nat (length orows)) (length rows)].

(** The ids of a block, in the order in which the validator meets them:
    the id of the block, then those of its cells. *)
Definition block_ids (b : Block) : list jsstring :=
  block_id b ::
  match b with
  | Table _ rows => List.map cell_id (concat rows)
  | _ => []
  end.

Definition all_ids (bs : list Block) : list jsstring := flat_map block_ids bs.

(** Ids are not empty and pairwise distinct, blocks and cells together. *)
Definition ids_ok (bs : list Block) : Prop :=
  NoDup (all_ids bs) /\ Forall (fun id => id <> []) (all_ids bs).

(** Levels of headings and list items are at least 1. *)
Definition level_ok (b : Block) : Prop :=
  match b with
  | Heading _ level _ | ListItem _ level _ => (1 <= level)%Z
  | _ => True
  end.

(** *** The traversal *)

(** The children of the body that consume an index: the [w:p] and [w:tbl]
    elements. *)
Definition isBlockNode (child : Node) : bool :=
  is_element child
  && (str_eqb (nodeName child) (js "w:p") || str_eqb (nodeName child) (js "w:tbl")).

Definition blockNodes (body : Node) : list Node :=
  List.filter isBlockNode (childNodes body).

(** The blocks the extractor pushes for the child [child] met when
    [blockIndex] is [k]: none or one. *)
Definition emitted (headingStyles : gmap jsstring Z) (k : nat) (child : Node) : list Block :=
  fst (extractStep headingStyles ([], k) child).

(** *** The title pass *)

(** The blocks the title scan passes over: neither a heading, a table nor
    a paragraph. *)
Definition passed_over (b : Block) : bool :=
  match b with
  | ListItem _ _ _ | Title _ _ => true
  | _ => false
  end.

Definition is_title (b : Block) : bool :=
  match b with Title _ _ => true | _ => false end.

(** *** Paragraphs used as examples *)

Definition wt (text : jsstring) : Node := Element (js "w:t") [] [Text text].

Definition wtab : Node := Element (js "w:tab") [] [].

Definition flag (name : string) : Node := Element (js name) [] [].

(** A run with the properties [props] and the content [content] *)
Definition wr (props content : list Node) : Node :=
  Element (js "w:r") [] (Element (js "w:rPr") [] props :: content).

Definition wp (children : list Node) : Node := Element (js "w:p") [] children.

Definition bold_props : list Node := [flag "w:b"].
Definition italic_props : list Node := [flag "w:i"].
Definition bold_italic_props : list Node := [flag "w:b"; flag "w:i"].

(** Three runs: bold [a], italic [b], bold and italic [c] *)
Definition three_runs : Node :=
  wp [wr bold_props [wt (js "a")]; wr italic_props [wt (js "b")];
      wr bold_italic_props [wt (js "c")]].

(** The same with an unformatted run holding a space between them *)
Definition five_runs : Node :=
  wp [wr bold_props [wt (js "a")]; wr [] [wt (js " ")]; wr italic_props [wt (js "b")];
      wr [] [wt (js " ")]; wr bold_italic_props [wt (js "c")]].

Definition spaced_markdown : jsstring := js "**a** *b* ***c***".

Definition three_segments : list Segment :=
  [mkSegment (js "a") true false; mkSegment (js "b") false true;
   mkSegment (js "c") true true].

Definition five_segments : list Segment :=
  [mkSegment (js "a") true false; mkSegment (js " ") false false;
   mkSegment (js "b") false true; mkSegment (js " ") false false;
   mkSegment (js "c") true true].

(** *** Numbered headings *)

(** [dotted k p]: [p] is [k] non-empty runs of digits separated by dots. *)
Inductive dotted : nat -> jsstring -> Prop :=
| dotted_one d :
    d <> [] -> forallb is_digit d = true -> dotted 1 d
| dotted_more k p d :
    dotted k p -> d <> [] -> forallb is_digit d = true ->
    dotted (S k) (p ++ 46%N :: d).

(** The text starts with a dotted numeral of [k] components, then
    optional white space, then a separator. *)
Definition numbered_prefix (k : nat) (t : jsstring) : Prop :=
  exists p ws sep rest,
    t = p ++ ws ++ sep :: rest /\ dotted k p
    /\ forallb is_space ws = true /\ is_heading_sep sep = true.

(** The text starts with an integer, then white space, then an uppercase
    or accented letter. *)
Definition integer_then_upper (t : jsstring) : Prop :=
  exists d ws c rest,
    t = d ++ ws ++ c :: rest /\ d <> [] /\ forallb is_digit d = true
    /\ ws <> [] /\ forallb is_space ws = true /\ is_heading_upper c = true.

(** *** What a matcher matches *)

(** [matches X Q]: the matcher [X] yields exactly the splits of the input
    into a prefix that satisfies [Q] and the rest. *)
Definition matches (X : Rx jsstring) (Q : jsstring -> Prop) : Prop :=
  forall s a r, In (a, r) (X s) <-> s = a ++ r /\ Q a.

(** Zero or more pieces that satisfy [Q], one after the other *)
Inductive pieces (Q : jsstring -> Prop) : jsstring -> Prop :=
| pieces_nil : pieces Q []
| pieces_cons a b : Q a -> pieces Q b -> pieces Q (a ++ b).

Definition one_of (p : N -> bool) (a : jsstring) : Prop :=
  exists c, a = [c] /\ p c = true.

Definition seq_of (Qa Qb : jsstring -> Prop) (m : jsstring) : Prop :=
  exists a b, m = a ++ b /\ Qa a /\ Qb b.

(** *** The order of the ways to match *)

(** The length of the text a way to match consumes *)
Definition consumed (x : jsstring * jsstring) : nat := length (fst x).

(** The ways are listed from the longest to the shortest. *)
Fixpoint descending (strict : bool) (l : list (jsstring * jsstring)) : Prop :=
  match l with
  | [] => True
  | x :: rest =>
      (forall y, In y rest ->
         if strict then consumed y < consumed x else consumed y <= consumed x)
      /\ descending strict rest
  end.

(** After every way but the first, the input left starts with a code unit
    of the class [p]. *)
Definition followed_by (p : N -> bool) (l : list (jsstring * jsstring)) : Prop :=
  forall y, In y (tail l) -> exists c r, snd y = c :: r /\ p c = true.

(** [(?: \. \d+ )], one turn of the star of the first pattern *)
Definition dot_then_digits : Rx jsstring :=
  (dot <~ rx_class is_dot ;;
   ds <~ rx_plus (rx_class is_digit) ;;
   rx_ret (dot ++ ds))%rx.

(** *** Classification *)

(** The level [l] the numbered-heading patterns give to the trimmed text
    [t]: the number of components of the longest dotted numeral that is
    followed by a separator, or 1 for an integer followed by a letter. *)
Definition pattern_level (t : jsstring) (l : nat) : Prop :=
  (numbered_prefix l t /\ forall k, numbered_prefix k t -> k <= l)
  \/ ((forall k, ~ numbered_prefix k t) /\ integer_then_upper t /\ l = 1).

(** The indent of a list paragraph: the value of [w:ilvl], 0 when it is
    absent or not a number. *)
Definition listIndent (numPr : Node) : Z :=
  match getFirstChild (Some numPr) (js "w:ilvl") with
  | Some ilvl => default 0%Z (parseIntAttr ilvl)
  | None => 0%Z
  end.

(** The text starts with a dotted numeral of [k] components that is
    taken whole (no dot and digit follow it), then optional white space,
    then a separator. *)
Definition numeral_then_separator (k : nat) (t : jsstring) : Prop :=
  exists p ws sep rest,
    t = p ++ ws ++ sep :: rest /\ dotted k p
    /\ forallb is_space ws = true /\ is_heading_sep sep = true
    /\ ~ (ws = [] /\ sep = 46%N
          /\ exists c rest', rest = c :: rest' /\ is_digit c = true).

(** *** Where the embedding is exact *)

(** The names of the members that an object created by [{}] inherits
    from [Object.prototype].  A read of one of them on the map of the
    heading styles finds the inherited member when the map has no entry
    of that name, and an assignment to [__proto__] sets no entry. *)
Definition objectPrototypeMembers : list jsstring :=
  [js "constructor"; js "__defineGetter__"; js "__defineSetter__";
   js "hasOwnProperty"; js "__lookupGetter__"; js "__lookupSetter__";
   js "isPrototypeOf"; js "propertyIsEnumerable"; js "toString";
   js "valueOf"; js "__proto__"; js "toLocaleString"].

Definition inherited_member (s : jsstring) : bool :=
  existsb (str_eqb s) objectPrototypeMembers.

(** The style id of the paragraph: the [w:val] of the [w:pStyle] of its
    [w:pPr]. *)
Definition paragraphStyleId (pNode : Node) : option jsstring :=
  match getFirstChild (getFirstChild (Some pNode) (js "w:pPr")) (js "w:pStyle") with
  | Some pStyle => getAttribute pStyle (js "w:val")
  | None => None
  end.

(** The style id of the paragraph, if it has one, names no member of
    [Object.prototype]: the read [headingStyles[styleVal]] finds an entry
    of the map or nothing. *)
Definition own_style (pNode : Node) : bool :=
  match paragraphStyleId pNode with
  | Some v => negb (inherited_member v)
  | None => true
  end.

(** An integer that a double holds exactly, with its successor. *)
Definition safe_integer (z : Z) : bool := (Z.abs z <? 2 ^ 53)%Z.

(** The [w:val] of the element, if it has one that [parseInt] reads, is a
    safe integer: the [+ 1] of the code is exact. *)
Definition safe_attribute (o : option Node) : bool :=
  match o ≫= parseIntAttr with
  | Some n => safe_integer n
  | None => true
  end.

(** The outline level and the list level of the paragraph are safe
    integers. *)
Definition safe_levels (pNode : Node) : bool :=
  let pPr := getFirstChild (Some pNode) (js "w:pPr") in
  safe_attribute (getFirstChild pPr (js "w:outlineLvl"))
  && safe_attribute (getFirstChild (getFirstChild pPr (js "w:numPr")) (js "w:ilvl")).

(** *** Examples *)

(** A paragraph with an outline level of -1 and the text [x] *)
Definition negative_outline_body : Node :=
  Element (js "w:body") []
    [wp [Element (js "w:pPr") [] [Element (js "w:outlineLvl") [(js "w:val", js "-1")] []];
         wr [] [wt (js "x")]]].

Definition negative_outline_document : Document :=
  extractDocx ∅ negative_outline_body None (js "2026-01-01T00:00:00.000Z").

(** The heading of the specification: [block_0002], level 1 *)
Definition original_heading (extra : list (jsstring * JsVal)) : JsVal :=
  JObj ([(js "id", JStr (js "block_0002")); (js "type", JStr (js "heading"));
         (js "level", level_to_js 1)] ++ extra).

Definition candidate_heading (level : Z) (text : jsstring) : JsVal :=
  JObj [(js "id", JStr (js "block_0002")); (js "type", JStr (js "heading"));
        (js "level", level_to_js level); (js "text", JStr text)].

Definition candidate_paragraph (text : jsstring) : JsVal :=
  JObj [(js "id", JStr (js "block_0002")); (js "type", JStr (js "paragraph"));
        (js "text", JStr text)].

(** A document value with empty metadata and the given blocks *)
Definition document_of (blocks : list JsVal) : JsVal :=
  JObj [(js "metadata", JObj []); (js "blocks", JArr blocks)].

(** An original with a [null] entry in [blocks] *)
Definition null_block_original : JsVal := JObj [(js "blocks", JArr [JNull])].

(** A table of [nrows] rows and [ncols] columns with empty cells *)
Definition grid (index nrows ncols : nat) : list (list Cell) :=
  List.map (fun r => List.map (fun c => mkCell (cellId index r c) []) (seq 0 ncols))
           (seq 0 nrows).

Definition original_with_table : Document :=
  mkDocument (mkMetadata (js "t.docx") (js "now") 1 1) [Table (blockId 5) (grid 5 2 3)].

(** *** The shortest inner text *)

(** What [(.+?)] followed by the closing marker matches once its first
    code unit is taken: the text up to the first place where the marker
    starts, with no line terminator before it. *)
Fixpoint lazy_rest (marker s : jsstring) : option (jsstring * jsstring) :=
  if starts_with marker s then Some ([], skipn (length marker) s)
  else match s with
       | [] => None
       | c :: s' =>
           if is_line_terminator c then None
           else match lazy_rest marker s' with
                | Some (m, rest) => Some (c :: m, rest)
                | None => None
                end
       end.

(** The inner text of an emphasis that opens at the start of [s], after
    the opening marker: at least one code unit, as short as possible. *)
Definition shortest_inner (marker s : jsstring) : option (jsstring * jsstring) :=
  match s with
  | [] => None
  | c :: s' =>
      if is_line_terminator c then None
      else match lazy_rest marker s' with
           | Some (m, rest) => Some (c :: m, rest)
           | None => None
           end
  end.

(** More examples *)

Definition paragraph_of (text : string) : Node := wp [wr [] [wt (js text)]].

(** A bold run whose [w:t] holds a tab character between [a] and [b] *)
Definition bold_text_with_tab : Node :=
  wp [wr bold_props [wt (js "a" ++ [9%N] ++ js "b")]].

(** Two paragraphs with the same id *)
Definition duplicate_ids_document : Document :=
  mkDocument (mkMetadata (js "d.docx") (js "now") 2 0)
             [Paragraph (js "block_0000") (js "a"); Paragraph (js "block_0000") (js "b")].

(** ** Auxiliary notions of the proofs *)

(** The value of [type] of a typed block *)
Definition type_name (b : Block) : jsstring :=
  match b with
  | Title _ _ => js "title"
  | Heading _ _ _ => js "heading"
  | Paragraph _ _ => js "paragraph"
  | ListItem _ _ _ => js "list_item"
  | Table _ _ => js "table"
  end.

(** The entry [originalBlockMap.set(block.id, block)] makes for a typed block *)
Definition block_entry (b : Block) : JsVal * JsVal := (JStr (block_id b), block_to_js b).

(** The object [{"toString": 1}]: a value of a parsed JSON text that has
    no string *)
Definition unprintable : JsVal := JObj [(js "toString", JNum 1)].

(** A candidate whose only block has that object as its type *)
Definition unprintable_type_candidate : JsVal :=
  document_of [JObj [(js "id", JStr (js "a")); (js "type", unprintable);
                     (js "text", JStr (js "x"))]].

(** A candidate that keeps the heading [block_0002] of the specification
    and gives it that object as its level *)
Definition unprintable_level_candidate : JsVal :=
  document_of [JObj [(js "id", JStr (js "block_0002")); (js "type", JStr (js "heading"));
                     (js "level", unprintable); (js "text", JStr (js "x"))]].

(** A candidate that keeps the table of [original_with_table], with two
    rows, the first of which is an object whose [length] is that
    object *)
Definition unprintable_length_candidate : JsVal :=
  document_of [JObj [(js "id", JStr (blockId 5)); (js "type", JStr (js "table"));
                     (js "rows", JArr [JObj [(js "length", unprintable)]; JArr []])]].

(** [seenIds] after the ids [ids] were added in this order *)
Definition seen_after (ids : list jsstring) (seen : list JsVal) : list JsVal :=
  rev (List.map JStr ids) ++ seen.

(** None of the ids [ids] is in [seenIds]. *)
Definition fresh (ids : list jsstring) (seen : list JsVal) : Prop :=
  forall x, In x ids -> ~ In (JStr x) seen.

(** Back from code units to an ASCII string *)
Definition unjs (s : jsstring) : string := string_of_list_ascii (List.map ascii_of_N s).

(** The padding of [padStart]: [n] zeros *)
Fixpoint zeros (n : nat) : string :=
  match n with
  | 0 => EmptyString
  | S n' => String "0"%char (zeros n')
  end.

(** An id the extractor derives from the index [k]. *)
Definition owned (k : nat) (id : jsstring) : Prop :=
  id = blockId k \/ exists r c, id = cellId k r c.

(** What the loop of the extractor keeps true: the ids so far are pairwise
    distinct and derive from indices below [blockIndex]. *)
Definition ids_invariant (st : list Block * nat) : Prop :=
  NoDup (all_ids (fst st))
  /\ forall id, In id (all_ids (fst st)) -> exists k, k < snd st /\ owned k id.

(** One or more code units of a class *)
Definition some_of (p : N -> bool) (m : jsstring) : Prop := m <> [] /\ forallb p m = true.

(** A dot and a run of digits *)
Definition dot_digits : jsstring -> Prop := seq_of (one_of is_dot) (some_of is_digit).

(** What follows the inner text: the closing marker, then the segment. *)
Definition closing (marker : jsstring) (bold italic : bool) (inner : jsstring) : Rx Segment :=
  (_ <~ rx_lit marker ;; rx_ret (mkSegment inner bold italic))%rx.

(** A body with a paragraph, a section property, an empty paragraph and a
    table *)
Definition sample_body : Node :=
  Element (js "w:body") []
    [wp [wr [] [wt (js "Hello")]];
     Element (js "w:sectPr") [] [];
     wp [];
     Element (js "w:tbl") [] []].

(** A paragraph with [w:outlineLvl] 2 and no style *)
Definition outline_paragraph : Node :=
  wp [Element (js "w:pPr") [] [Element (js "w:outlineLvl") [(js "w:val", js "2")] []];
      wr [] [wt (js "Scope")]].

(** The extraction of a single paragraph [Hello World] *)
Definition hello_document : Document :=
  mkDocument (mkMetadata (js "hello.docx") (js "now") 1 0)
             [Title (js "block_0000") (js "Hello World")].

(** A candidate without [metadata] whose only block is [null] *)
Definition no_metadata_candidate : JsVal := JObj [(js "blocks", JArr [JNull])].

(** ** More strings *)

Module JsString2.

(** [s.endsWith(suffix)] *)
Definition ends_with (suffix s : jsstring) : bool :=
  starts_with (rev suffix) (rev s).

(** [s.split(sep)] for a separator of one code unit: the pieces between
    its occurrences, a single empty piece for the empty string. *)
Fixpoint splitOn (sep : N) (s : jsstring) : list jsstring :=
  match s with
  | [] => [[]]
  | c :: s' =>
      if (c =? sep)%N then [] :: splitOn sep s'
      else match splitOn sep s' with
           | piece :: pieces => (c :: piece) :: pieces
           | [] => [[c]]
           end
  end.

(** [String(z)] for an integer: a minus sign before the digits of a
    negative one.  This is what the code writes for an integer below
    10^21 in absolute value; beyond, it writes an exponent. *)
Definition String_of_Z (z : Z) : jsstring :=
  if (z <? 0)%Z then 45%N :: String_of_nat (Z.abs_nat z) else String_of_nat (Z.abs_nat z).

(** A lower-case ASCII letter [p] of a pattern with the flag [i] matches
    [p] and its upper-case form, and nothing else: canonicalisation maps
    no code unit above 127 to one below. *)
Definition eq_ci (p c : N) : bool := ((c =? p) || (c =? p - 32))%N.

(** A literal of lower-case letters and other code units under the flag
    [i]: the letters match in both cases, the others as they are. *)
Definition is_lower (p : N) : bool := ((97 <=? p) && (p <=? 122))%N.

Fixpoint rx_lit_ci (l : jsstring) : Rx jsstring :=
  match l with
  | [] => rx_ret []
  | p :: l' =>
      (a <~ rx_class (fun c => if is_lower p then eq_ci p c else (c =? p)%N) ;;
       b <~ rx_lit_ci l' ;;
       rx_ret (a ++ b))%rx
  end.

(** [$] without the flag [m]: the end of the input. *)
Definition rx_eof : Rx jsstring :=
  fun s => match s with [] => [([], [])] | _ => [] end.

End JsString2.
Export JsString2.

(** ** More of the DOM: queries and edits *)

Module DomEdit.

Definition attributes (n : Node) : list (jsstring * jsstring) :=
  match n with Element _ attrs _ => attrs | _ => [] end.

(** The proper descendants of a node, in document order. *)
Fixpoint descendants (n : Node) : list Node :=
  match n with
  | Element _ _ cs => flat_map (fun c => c :: descendants c) cs
  | _ => []
  end.

(** [node.getElementsByTagName(tag)] *)
Definition getElementsByTagName (n : Node) (tag : jsstring) : list Node :=
  List.filter (has_name tag) (descendants n).

(** The node with other children; the edits below build the node they
    leave instead of changing it in place.  Every node that is edited is
    a clone or was just created, so no other reference sees the change. *)
Definition withChildren (n : Node) (cs : list Node) : Node :=
  match n with Element name attrs _ => Element name attrs cs | _ => n end.

(** [parent.appendChild(child)] for a child that has no parent yet *)
Definition appendChild (parent child : Node) : Node :=
  withChildren parent (childNodes parent ++ [child]).

(** [node.setAttribute(name, value)] *)
Fixpoint setAttr (name value : jsstring) (attrs : list (jsstring * jsstring))
  : list (jsstring * jsstring) :=
  match attrs with
  | [] => [(name, value)]
  | (k, v) :: rest =>
      if str_eqb k name then (k, value) :: rest else (k, v) :: setAttr name value rest
  end.

Definition setAttribute (n : Node) (name value : jsstring) : Node :=
  match n with
  | Element nm attrs cs => Element nm (setAttr name value attrs) cs
  | _ => n
  end.

(** [doc.createElementNS(W_NS, name)] *)
Definition createElement (name : jsstring) : Node := Element name [] [].

(** An edit of the direct children named [tag]: the one met when [k] of
    them were met before becomes [f k] of it; the other children stay. *)
Fixpoint mapNamed (tag : jsstring) (f : nat -> Node -> Node) (k : nat) (cs : list Node)
  : list Node :=
  match cs with
  | [] => []
  | c :: cs' =>
      if has_name tag c then f k c :: mapNamed tag f (S k) cs'
      else c :: mapNamed tag f k cs'
  end.

Definition editNamed (tag : jsstring) (f : nat -> Node -> Node) (n : Node) : Node :=
  withChildren n (mapNamed tag f 0 (childNodes n)).

(** [removeChildrenByName(parent, tagName)] *)
Definition removeChildrenByName (parent : Node) (tagName : jsstring) : Node :=
  withChildren parent
    (List.filter (fun c => negb (str_eqb (nodeName c) tagName)) (childNodes parent)).

End DomEdit.
Export DomEdit.

(** ** extractor.js: the heading styles *)

Module ExtractorStyles.

Import Extractor.

(** [^heading \s* \d+ $] with the flag [i], written with spaces between
    its parts; the value is the run of digits. *)
Definition heading_name_regex : Rx jsstring :=
  (_ <~ rx_lit_ci (js "heading") ;;
   _ <~ rx_star (rx_class is_space) ;;
   d <~ rx_plus (rx_class is_digit) ;;
   _ <~ rx_eof ;;
   rx_ret d)%rx.

(** [/^heading\s*\d+$/i.test(name)] *)
Definition is_heading_name (name : jsstring) : bool :=
  bool_decide (is_Some (rx_match heading_name_regex name)).

(** [name.match(/\d+/)]: the first run of digits, [m[0]]. *)
Definition first_digits (name : jsstring) : option jsstring :=
  match rx_exec (rx_plus (rx_class is_digit)) name with
  | Some (_, d, _) => Some d
  | None => None
  end.

(** The name of a style: the [w:val] of the first [w:name] below it, the
    empty string without one. *)
Definition styleName (style : Node) : jsstring :=
  match getElementsByTagName style (js "w:name") with
  | [] => []
  | nameEl :: _ => default [] (getAttribute nameEl (js "w:val"))
  end.

(** [headingMap[styleId] = level].  The map is an object created by
    [{}]: the assignment of a number to [__proto__] calls the setter it
    inherits, which ignores what is no object, and sets no entry; any
    other name becomes an entry of the map. *)
Definition setStyleLevel (styleId : jsstring) (level : Z) (headingMap : gmap jsstring Z)
  : gmap jsstring Z :=
  if str_eqb styleId (js "__proto__") then headingMap
  else <[styleId := level]> headingMap.

(** One turn of the loop of [buildHeadingStyleMap] over the styles. *)
Definition headingStyleStep (headingMap : gmap jsstring Z) (style : Node) : gmap jsstring Z :=
  match getAttribute style (js "w:type"), getAttribute style (js "w:styleId") with
  | Some type, Some (c :: styleId) =>
      if negb (str_eqb type (js "paragraph")) then headingMap
      else
        let name := styleName style in
        match getElementsByTagName style (js "w:outlineLvl") with
        | outlineLvl :: _ =>
            match parseIntAttr outlineLvl with
            | Some level => setStyleLevel (c :: styleId) (roundToDouble (level + 1)) headingMap
            | None => headingMap
            end
        | [] =>
            if is_heading_name name then
              match first_digits name ≫= parseInt with
              | Some level => setStyleLevel (c :: styleId) level headingMap
              | None => headingMap
              end
            else headingMap
        end
  | _, _ => headingMap
  end.

(** [buildHeadingStyleMap(stylesXml, parser)] from the parsed styles part
    on: [None] is an absent or empty part, [Some doc] the document node,
    whose children are the root element and what surrounds it. *)
Definition buildHeadingStyleMap (stylesXml : option Node) : gmap jsstring Z :=
  match stylesXml with
  | None => ∅
  | Some doc => fold_left headingStyleStep (getElementsByTagName doc (js "w:style")) ∅
  end.

End ExtractorStyles.

(** ** reconstructor.js: the nodes it builds *)

Module Rebuild.

Import Extractor Reconstructor ExtractorStyles.

(** *** Images *)

(** The first loop of [removeImages] for one tag: every element of that
    name below [n] is removed from its parent.  The list is walked from
    its end, so a removal leaves the entries still to come in place. *)
Fixpoint removeByTagName (tag : jsstring) (n : Node) : Node :=
  match n with
  | Element name attrs cs =>
      Element name attrs
        (flat_map (fun c => if has_name tag c then [] else [removeByTagName tag c]) cs)
  | _ => n
  end.

(** [hasContent] of a run *)
Definition hasContent (run : Node) : bool :=
  hasDescendant (js "w:t") run || hasDescendant (js "w:br") run
  || hasDescendant (js "w:tab") run.

(** The second loop of [removeImages]: every run below [n] without
    content is removed.  A run inside a run is met first; removing it
    takes no content from the run around it. *)
Fixpoint removeEmptyRuns (n : Node) : Node :=
  match n with
  | Element name attrs cs =>
      Element name attrs
        (flat_map (fun c => if has_name (js "w:r") c && negb (hasContent c) then []
                            else [removeEmptyRuns c]) cs)
  | _ => n
  end.

(** [removeImages(node)] *)
Definition removeImages (node : Node) : Node :=
  let node := removeByTagName (js "w:drawing") node in
  let node := removeByTagName (js "w:pict") node in
  let node := removeByTagName (js "mc:AlternateContent") node in
  if str_eqb (nodeName node) (js "w:p") || str_eqb (nodeName node) (js "w:tc")
  then removeEmptyRuns node
  else node.

(** *** The heading styles by level *)

(** One turn of the loop of [buildHeadingStyleReverseMap]. *)
Definition reverseStyleStep (map : gmap Z jsstring) (style : Node) : gmap Z jsstring :=
  match getAttribute style (js "w:type"), getAttribute style (js "w:styleId") with
  | Some type, Some (c :: styleId) =>
      if negb (str_eqb type (js "paragraph")) then map
      else
        let name := styleName style in
        let level :=
          match getElementsByTagName style (js "w:outlineLvl") with
          | outlineLvl :: _ => (fun l => roundToDouble (l + 1)) <$> parseIntAttr outlineLvl
          | [] => if is_heading_name name then first_digits name ≫= parseInt else None
          end in
        match level with
        | Some level => <[level := c :: styleId]> map
        | None => map
        end
  | _, _ => map
  end.

(** [buildHeadingStyleReverseMap(stylesXml, parser)], from the parsed
    styles part on. *)
Definition buildHeadingStyleReverseMap (stylesXml : option Node) : gmap Z jsstring :=
  match stylesXml with
  | None => ∅
  | Some doc => fold_left reverseStyleStep (getElementsByTagName doc (js "w:style")) ∅
  end.

(** *** Text of a paragraph *)

(** The [w:b], [w:bCs], [w:i] and [w:iCs] elements appended for a
    segment. *)
Definition formatProps (seg : Segment) : list Node :=
  (if seg_bold seg then [createElement (js "w:b"); createElement (js "w:bCs")] else [])
  ++ (if seg_italic seg then [createElement (js "w:i"); createElement (js "w:iCs")] else []).

(** The [w:t] element with the text [text] *)
Definition textElement (text : jsstring) : Node :=
  Element (js "w:t") [(js "xml:space", js "preserve")] [Text text].

(** [baseRPr]: the properties of the first run, without bold and italic. *)
Definition baseRPr (pNode : Node) : option Node :=
  match getDirectChildren pNode (js "w:r") with
  | [] => None
  | run :: _ =>
      match getFirstChild (Some run) (js "w:rPr") with
      | None => None
      | Some rPr =>
          let rPr := removeChildrenByName rPr (js "w:b") in
          let rPr := removeChildrenByName rPr (js "w:bCs") in
          let rPr := removeChildrenByName rPr (js "w:i") in
          Some (removeChildrenByName rPr (js "w:iCs"))
      end
  end.

(** The run created for a segment in [updateParagraphText]. *)
Definition formattedRun (base : option Node) (seg : Segment) : Node :=
  let rPr := fold_left appendChild (formatProps seg)
                       (default (createElement (js "w:rPr")) base) in
  Element (js "w:r") []
    (match childNodes rPr with [] => [] | _ => [rPr] end ++ [textElement (seg_text seg)]).

(** The children [updateParagraphText] removes *)
Definition is_replaced (c : Node) : bool :=
  str_eqb (nodeName c) (js "w:r") || str_eqb (nodeName c) (js "w:hyperlink")
  || str_eqb (nodeName c) (js "w:bookmarkStart") || str_eqb (nodeName c) (js "w:bookmarkEnd").

(** A segment with an empty text is skipped. *)
Definition forSegments (f : Segment -> Node) (segments : list Segment) : list Node :=
  flat_map (fun seg => match seg_text seg with [] => [] | _ => [f seg] end) segments.

(** [updateParagraphText(pNode, newText)] *)
Definition updateParagraphText (pNode : Node) (newText : jsstring) : Node :=
  let base := baseRPr pNode in
  withChildren pNode
    (List.filter (fun c => negb (is_replaced c)) (childNodes pNode)
     ++ forSegments (formattedRun base) (parseMarkdown newText)).

(** *** Text of a table *)

(** [lastT.textContent = (lastT.textContent || '') + '\n' + extra] on the
    first [w:t] of the last run of [lastP], when there are both. *)
Definition appendExtra (lastP : Node) (extra : jsstring) : Node :=
  let runs := getDirectChildren lastP (js "w:r") in
  editNamed (js "w:r")
    (fun k run =>
       if k =? length runs - 1 then
         editNamed (js "w:t")
           (fun j lastT =>
              if j =? 0
              then withChildren lastT [Text (textContent lastT ++ [10%N] ++ extra)]
              else lastT)
           run
       else run)
    lastP.

(** [updateCellText(tcNode, newText)] *)
Definition updateCellText (tcNode : Node) (newText : jsstring) : Node :=
  let paragraphs := getDirectChildren tcNode (js "w:p") in
  match paragraphs with
  | [] => tcNode
  | _ =>
      let segments := splitOn 10%N newText in
      editNamed (js "w:p")
        (fun i p =>
           let p := updateParagraphText p (nth i segments []) in
           if (i =? length paragraphs - 1) && (length paragraphs <? length segments)
           then appendExtra p (join [10%N] (skipn (length paragraphs) segments))
           else p)
        tcNode
  end.

(** [updateTableText(tblNode, modifiedRows)] *)
Definition updateTableText (tblNode : Node) (modifiedRows : list (list Cell)) : Node :=
  editNamed (js "w:tr")
    (fun rowIdx tr =>
       match nth_error modifiedRows rowIdx with
       | Some modRow =>
           editNamed (js "w:tc")
             (fun cellIdx tc =>
                match nth_error modRow cellIdx with
                | Some cell => updateCellText tc (cell_text cell)
                | None => tc
                end)
             tr
       | None => tr
       end)
    tblNode.

(** *** New blocks *)

(** The run created for a segment in [createBasicParagraph]. *)
Definition basicRun (seg : Segment) : Node :=
  Element (js "w:r") []
    ((if seg_bold seg || seg_italic seg
      then [Element (js "w:rPr") [] (formatProps seg)]
      else [])
     ++ [textElement (seg_text seg)]).

(** [createBasicParagraph(doc, text)] *)
Definition createBasicParagraph (text : jsstring) : Node :=
  Element (js "w:p") []
    (match text with
     | [] => []
     | _ => forSegments basicRun (parseMarkdown text)
     end).

(** [createNewParagraph(doc, text, template)] *)
Definition createNewParagraph (text : jsstring) (template : option Node) : Node :=
  match template with
  | Some template => updateParagraphText (removeImages template) text
  | None => createBasicParagraph text
  end.

(** [templates.headings] is an object whose keys are levels.  It is
    modelled by its properties in the order in which they were set.  The
    keys of an object are distinct; the traversal sets no key twice
    ([headingsStep]). *)
Definition HeadingTemplates := list (Z * Node).

(** [headingTemplates[level]] *)
Fixpoint templateAt (level : Z) (headingTemplates : HeadingTemplates) : option Node :=
  match headingTemplates with
  | [] => None
  | (l, node) :: rest => if (l =? level)%Z then Some node else templateAt level rest
  end.

(** A key that is an array index: an integer from 0 to 2^32 - 2. *)
Definition is_index (e : Z * Node) : bool :=
  ((0 <=? fst e) && (fst e <? 4294967295))%Z.

Fixpoint insertByKey (e : Z * Node) (l : list (Z * Node)) : list (Z * Node) :=
  match l with
  | [] => [e]
  | x :: l' => if (fst e <=? fst x)%Z then e :: l else x :: insertByKey e l'
  end.

(** [Object.keys(headingTemplates).map(Number)], each key with its node:
    the array indices in ascending order, then the other keys in the
    order in which they were set. *)
Definition objectEntries (headingTemplates : HeadingTemplates) : list (Z * Node) :=
  fold_right insertByKey [] (List.filter is_index headingTemplates)
  ++ List.filter (fun e => negb (is_index e)) headingTemplates.

(** [Math.abs(k - level)] for the key [k] of a template: the difference
    of two doubles is rounded. *)
Definition distance (level : Z) (e : Z * Node) : Z :=
  Z.abs (roundToDouble (fst e - level)).

(** The [reduce] of [createNewHeading]: the first of the keys at the
    least distance from [level]. *)
Definition closestEntry (level : Z) (first : Z * Node) (rest : list (Z * Node)) : Z * Node :=
  fold_left (fun a b => if (distance level b <? distance level a)%Z then b else a)
            rest first.

(** The style of the cloned heading is set to that of [level], when the
    clone has paragraph properties and the styles part has such a
    style. *)
Definition restyle (level : Z) (headingStyleMap : gmap Z jsstring) (node : Node) : Node :=
  match headingStyleMap !! level with
  | Some (c :: styleId) =>
      editNamed (js "w:pPr")
        (fun k pPr =>
           if k =? 0 then
             match getFirstChild (Some pPr) (js "w:pStyle") with
             | Some _ =>
                 editNamed (js "w:pStyle")
                   (fun j pStyle =>
                      if j =? 0 then setAttribute pStyle (js "w:val") (c :: styleId)
                      else pStyle)
                   pPr
             | None =>
                 withChildren pPr
                   (setAttribute (createElement (js "w:pStyle")) (js "w:val") (c :: styleId)
                    :: childNodes pPr)
             end
           else pPr)
        node
  | _ => node
  end.

(** The run created for a segment in the last branch of
    [createNewHeading]: no segment is skipped there. *)
Definition headingRun (seg : Segment) : Node :=
  Element (js "w:r") []
    ((if seg_bold seg || seg_italic seg
      then [Element (js "w:rPr") []
              ((if seg_bold seg then [createElement (js "w:b")] else [])
               ++ (if seg_italic seg then [createElement (js "w:i")] else []))]
      else [])
     ++ [textElement (seg_text seg)]).

(** [headingStyleMap[level] || `Heading${level}`] *)
Definition headingStyleId (level : Z) (headingStyleMap : gmap Z jsstring) : jsstring :=
  match headingStyleMap !! level with
  | Some (c :: styleId) => c :: styleId
  | _ => js "Heading" ++ String_of_Z level
  end.

(** [createNewHeading(doc, text, level, headingTemplates, headingStyleMap)] *)
Definition createNewHeading (text : jsstring) (level : Z) (headingTemplates : HeadingTemplates)
           (headingStyleMap : gmap Z jsstring) : Node :=
  match templateAt level headingTemplates with
  | Some template => updateParagraphText (removeImages template) text
  | None =>
      match objectEntries headingTemplates with
      | first :: rest =>
          let template := snd (closestEntry level first rest) in
          updateParagraphText (restyle level headingStyleMap (removeImages template)) text
      | [] =>
          Element (js "w:p") []
            (Element (js "w:pPr") []
               [Element (js "w:pStyle") [(js "w:val", headingStyleId level headingStyleMap)] []]
             :: List.map headingRun (parseMarkdown text))
      end
  end.

(** The clone of the child named [tag] of the template, if any. *)
Definition cloneOf (template : option Node) (tag : jsstring) : list Node :=
  match getFirstChild template tag with
  | Some n => [n]
  | None => []
  end.

(** [createNewTable(doc, rows, template)] *)
Definition createNewTable (rows : list (list Cell)) (template : option Node) : Node :=
  let templateRow := template ≫= (fun t => head (getDirectChildren t (js "w:tr"))) in
  let templateCell := templateRow ≫= (fun tr => head (getDirectChildren tr (js "w:tc"))) in
  Element (js "w:tbl") []
    (match template with
     | Some _ => cloneOf template (js "w:tblPr") ++ cloneOf template (js "w:tblGrid")
     | None =>
         [Element (js "w:tblPr") []
            [Element (js "w:tblW") [(js "w:w", js "0"); (js "w:type", js "auto")] []]]
     end
     ++ List.map
          (fun rowCells =>
             Element (js "w:tr") []
               (cloneOf templateRow (js "w:trPr")
                ++ List.map
                     (fun cell =>
                        Element (js "w:tc") []
                          (cloneOf templateCell (js "w:tcPr")
                           ++ [createBasicParagraph (cell_text cell)]))
                     rowCells))
          rows).

(** [a || b] on two template slots *)
Definition orElse (a b : option Node) : option Node :=
  match a with Some n => Some n | None => b end.

(** [createNewBlock(doc, block, templates, headingStyleMap)] for a block
    of one of the five types; [headings] is [templates.headings]. *)
Definition createNewBlock (block : Block) (templates : Templates) (headings : HeadingTemplates)
           (headingStyleMap : gmap Z jsstring) : Node :=
  match block with
  | Title _ text =>
      createNewParagraph text (orElse (t_title templates) (t_paragraph templates))
  | Paragraph _ text => createNewParagraph text (t_paragraph templates)
  | Heading _ level text => createNewHeading text level headings headingStyleMap
  | ListItem _ _ text =>
      createNewParagraph text (orElse (t_list_item templates) (t_paragraph templates))
  | Table _ rows => createNewTable rows (t_table templates)
  end.

(** *** The new body *)

(** [templates.headings] as the traversal fills it, with the order in
    which its keys are set: one turn of the loop over [body.childNodes],
    the state being the object and [blockIndex]. *)
Definition headingsStep (originalJson : option Document) (st : HeadingTemplates * nat)
           (child : Node) : HeadingTemplates * nat :=
  let '(headings, blockIndex) := st in
  if negb (is_element child) then st
  else if str_eqb (nodeName child) (js "w:p") then
    let id := blockId blockIndex in
    let origBlock :=
      originalJson ≫= (fun d => List.find (fun b => str_eqb (block_id b) id) (blocks d)) in
    (match origBlock with
     | Some (Heading _ level _) =>
         if (level =? 0)%Z then headings
         else match templateAt level headings with
              | None => headings ++ [(level, child)]
              | Some _ => headings
              end
     | _ => headings
     end, S blockIndex)
  else if str_eqb (nodeName child) (js "w:tbl") then (headings, S blockIndex)
  else st.

Definition headingTemplatesOf (originalJson : option Document) (body : Node) : HeadingTemplates :=
  fst (fold_left (headingsStep originalJson) (childNodes body) ([], 0)).

(** The text of a block that is not a table *)
Definition block_text (b : Block) : jsstring :=
  match b with
  | Title _ text | Heading _ _ text | Paragraph _ text | ListItem _ _ text => text
  | Table _ _ => []
  end.

(** One turn of the loop over [modifiedJson.blocks]: the node appended to
    the body. *)
Definition rebuildBlock (tr : Traversal) (headings : HeadingTemplates)
           (headingStyleMap : gmap Z jsstring) (block : Block) : Node :=
  match originalBlockNodes tr !! block_id block with
  | Some original =>
      let node := removeImages original in
      match block with
      | Table _ rows => updateTableText node rows
      | _ => updateParagraphText node (block_text block)
      end
  | None => createNewBlock block (templates tr) headings headingStyleMap
  end.

(** [reconstructDocx(originalBuffer, modifiedJson, originalJson)] from
    the body element and the map of the styles by level to the body that
    is serialised: emptied, then filled with one node for each block of
    the candidate, then with the nodes that are no blocks. *)
Definition reconstructDocx (body : Node) (headingStyleMap : gmap Z jsstring)
           (modifiedJson : Document) (originalJson : option Document) : Node :=
  let tr := traverse originalJson body in
  let headings := headingTemplatesOf originalJson body in
  withChildren body
    (List.map (rebuildBlock tr headings headingStyleMap) (blocks modifiedJson)
     ++ nonBlockNodes tr).

End Rebuild.

(** ** index.js: the name of the download *)

Module Server.

(** [\.docx$] with the flag [i] *)
Definition docx_suffix_regex : Rx jsstring :=
  (m <~ rx_lit_ci (js ".docx") ;; _ <~ rx_eof ;; rx_ret m)%rx.

(** [fileName.replace(/\.docx$/i, '_modificado.docx')]: the first match
    is replaced, a name without a match is returned as it is. *)
Definition newFileName (fileName : jsstring) : jsstring :=
  match rx_exec docx_suffix_regex fileName with
  | Some (before, _, rest) => before ++ js "_modificado.docx" ++ rest
  | None => fileName
  end.

End Server.

(** ** ai-proxy.js: the text of the answer *)

Module AiProxy.

Import Validator.

(** The text [parseJsonResponse] hands to [JSON.parse]: trimmed, without
    a leading and a trailing code fence, trimmed again. *)
Definition cleanResponse (text : jsstring) : jsstring :=
  let clean := trim text in
  let clean :=
    if starts_with (js "```json") clean then skipn 7 clean
    else if starts_with (js "```") clean then skipn 3 clean
    else clean in
  let clean :=
    if ends_with (js "```") clean then firstn (length clean - 3) clean else clean in
  trim clean.

Section ParseJsonResponse.

(** [JSON.parse]: [None] when it throws. *)
Variable JSON_parse : jsstring -> option JsVal.

(** [parseJsonResponse(text)]: [None] is the error thrown for a text
    that is no JSON. *)
Definition parseJsonResponse (text : jsstring) : option JsVal :=
  JSON_parse (cleanResponse text).

End ParseJsonResponse.

End AiProxy.

(** ** More notions used to state the properties *)

Import ExtractorStyles Rebuild Server AiProxy.

(** *** Segments *)

(** A code unit that is neither a star nor a line terminator *)
Definition clean_unit (c : N) : bool :=
  negb (c =? 42)%N && negb (is_line_terminator c).

(** A text that is not empty and holds neither a star nor a line
    terminator *)
Definition clean_text (t : jsstring) : bool :=
  negb (Nat.eqb (length t) 0) && forallb clean_unit t.

(** A segment that is neither bold nor italic *)
Definition is_plain (seg : Segment) : bool :=
  negb (seg_bold seg) && negb (seg_italic seg).

(** No two plain segments are next to each other. *)
Fixpoint no_plain_neighbours (segs : list Segment) : bool :=
  match segs with
  | a :: (b :: _) as rest => negb (is_plain a && is_plain b) && no_plain_neighbours rest
  | _ => true
  end.

(** Two segments with the same flags *)
Definition same_flags (a b : Segment) : bool :=
  Bool.eqb (seg_bold a) (seg_bold b) && Bool.eqb (seg_italic a) (seg_italic b).

(** No two segments next to each other have the same flags. *)
Fixpoint alternating (segs : list Segment) : bool :=
  match segs with
  | a :: (b :: _) as rest => negb (same_flags a b) && alternating rest
  | _ => true
  end.

(** The code units of a segment, each with the flags of the segment *)
Definition styled_units (seg : Segment) : list (N * bool * bool) :=
  List.map (fun c => (c, seg_bold seg, seg_italic seg)) (seg_text seg).

(** *** What the markup of a paragraph says *)

(** The level the paragraph properties give: that of the style when the
    style is a heading style, else that of the outline level. *)
Definition markupLevel (p : Node) (headingStyles : gmap jsstring Z) : option Z :=
  let pPr := getFirstChild (Some p) (js "w:pPr") in
  match pPr ≫= (fun pPr => styleLevel pPr headingStyles) with
  | Some level => Some level
  | None => pPr ≫= outlineLevel
  end.

(** A text that formatted-text extraction can produce from segments with
    clean texts: the empty text, or the rendering of such segments, no
    two neighbours with the same flags. *)
Definition canonical (text : jsstring) : Prop :=
  text = [] \/
  exists segs, segs <> []
               /\ Forall (fun seg => clean_text (seg_text seg) = true) segs
               /\ alternating segs = true
               /\ text = flat_map renderSegment segs.

(** *** Tables *)

(** The number of cells of each row of a table element *)
Definition grid_shape (tbl : Node) : list nat :=
  List.map (fun tr => length (getDirectChildren tr (js "w:tc")))
           (getDirectChildren tbl (js "w:tr")).

(** The rows of a table block *)
Definition table_rows (b : Block) : list (list Cell) :=
  match b with Table _ rows => rows | _ => [] end.

(** *** Heading styles *)

(** The ids of the styles of a styles part, in document order *)
Definition style_ids (doc : Node) : list jsstring :=
  omap (fun style => getAttribute style (js "w:styleId"))
       (getElementsByTagName doc (js "w:style")).

(** *** The template of a new heading *)

(** The number [buildHeadingStyleMap] reads from the style, if it reads
    one, is a safe integer. *)
Definition safe_style (style : Node) : bool :=
  match getElementsByTagName style (js "w:outlineLvl") with
  | outlineLvl :: _ => safe_attribute (Some outlineLvl)
  | [] =>
      match first_digits (styleName style) ≫= parseInt with
      | Some n => safe_integer n
      | None => true
      end
  end.

(** The numbers read from the styles of the styles part are safe
    integers. *)
Definition safe_styles (doc : Node) : bool :=
  forallb safe_style (getElementsByTagName doc (js "w:style")).

(** Levels whose differences are exact: [level] and the levels of the
    templates are below 2^52 in absolute value. *)
Definition exact_distances (level : Z) (headings : list (Z * Node)) : bool :=
  (Z.abs level <? 2 ^ 52)%Z && forallb (fun e => (Z.abs (fst e) <? 2 ^ 52)%Z) headings.

(** *** What a candidate may change *)

(** The block [b] of the candidate agrees with the block [o] of the
    original that has its id: the same type; for headings the same
    level; for tables the same number of rows and, row by row, of
    cells.  Texts and the levels of list items are free. *)
Definition agrees (o b : Block) : Prop :=
  match o, b with
  | Title _ _, Title _ _ => True
  | Paragraph _ _, Paragraph _ _ => True
  | ListItem _ _ _, ListItem _ _ _ => True
  | Heading _ level _, Heading _ level' _ => level = level'
  | Table _ orows, Table _ rows =>
      List.map (@length Cell) orows = List.map (@length Cell) rows
  | _, _ => False
  end.

(** The block [b] agrees with every block of the original that has its
    id; a block with a new id agrees with the original. *)
Definition compatible (original : list Block) (b : Block) : Prop :=
  forall o, In o original -> block_id o = block_id b -> agrees o b.

(** ** More auxiliary notions of the proofs *)

(** The text holds a tab or a line feed. *)
Definition has_break (t : jsstring) : bool :=
  existsb (fun c => (c =? 9)%N || (c =? 10)%N) t.

(** No [w:t] element below the node holds a tab or a line feed in its
    text. *)
Definition texts_without_breaks (p : Node) : bool :=
  forallb (fun t => negb (has_name (js "w:t") t) || negb (has_break (textContent t)))
          (descendants p).

(** The segment has a flag: it is rendered inside markers. *)
Definition flagged (seg : Segment) : bool := seg_bold seg || seg_italic seg.

(** The text is made of the texts of [w:t] elements below the node. *)
Definition made_of_texts (p : Node) (text : jsstring) : Prop :=
  exists ts, Forall (fun t => In t (descendants p) /\ has_name (js "w:t") t = true) ts
             /\ text = flat_map textContent ts.

(** A segment that formatted-text extraction collects below the node: the
    unformatted tab, the unformatted line feed, or the text of a [w:t]
    element. *)
Definition collected (p : Node) (seg : Segment) : Prop :=
  seg = mkSegment [9%N] false false \/ seg = mkSegment [10%N] false false
  \/ exists t, In t (descendants p) /\ has_name (js "w:t") t = true
               /\ seg_text seg = textContent t.

(** One turn of the loop of [collectFormattedSegments] *)
Definition collectStep (child : Node) : list Segment :=
  if has_name (js "w:r") child then
    let rPr := getFirstChild (Some child) (js "w:rPr") in
    flat_map (runSegments (hasBoolProp rPr (js "w:b")) (hasBoolProp rPr (js "w:i")))
             (childNodes child)
  else if has_name (js "w:hyperlink") child then collectFormattedSegments child
  else [].

(** A node none of whose children is a [w:b] or a [w:i] element *)
Definition no_flag_children (n : Node) : Prop :=
  Forall (fun c => has_name (js "w:b") c = false /\ has_name (js "w:i") c = false)
         (childNodes n).

(** Whether the embedding of the read of the style map and of [parseInt]
    is exact on the paragraph *)
Definition exactness (p : Node) : bool * bool := (own_style p, safe_levels p).

(** The elements named [tag] are not among those [drop] removes. *)
Definition kept (drop : Node -> bool) (tag : jsstring) : Prop :=
  forall c, has_name tag c = true -> drop c = false.

(** The facts about a paragraph that depend on its properties only *)
Definition markup (p : Node) (hs : gmap jsstring Z) : option Z * bool * Z :=
  (markupLevel p hs, isListItem p, getListLevel p).

(** The id and the level of a style that is a heading style *)
Definition styleEntry (style : Node) : option (jsstring * Z) :=
  match getAttribute style (js "w:type"), getAttribute style (js "w:styleId") with
  | Some type, Some (c :: styleId) =>
      if negb (str_eqb type (js "paragraph")) then None
      else
        match getElementsByTagName style (js "w:outlineLvl") with
        | outlineLvl :: _ =>
            (fun l => (c :: styleId, roundToDouble (l + 1))) <$> parseIntAttr outlineLvl
        | [] =>
            if is_heading_name (styleName style)
            then (fun l => (c :: styleId, l)) <$> (first_digits (styleName style) ≫= parseInt)
            else None
        end
  | _, _ => None
  end.

(** What holds of the two maps while the styles are walked: the map by
    level only points to ids the map by id sends back to that level,
    [__proto__] apart, for which the map by id never has an entry. *)
Definition maps_agree (seen : list jsstring) (fm : gmap jsstring Z) (rm : gmap Z jsstring)
  : Prop :=
  (forall l id, rm !! l = Some id ->
                id <> [] /\ (id <> js "__proto__" -> fm !! id = Some l))
  /\ (forall id, is_Some (fm !! id) -> In id seen)
  /\ fm !! js "__proto__" = None.

(** Two nodes of the same kind and name *)
Definition same_kind (a b : Node) : Prop :=
  nodeName a = nodeName b /\ is_element a = is_element b.

(** Every template is a paragraph of the body, the one for tables a
    table of the body. *)
Definition templates_are_blocks (t : Templates) : Prop :=
  (forall n, t_title t = Some n -> has_name (js "w:p") n = true)
  /\ (forall n, t_paragraph t = Some n -> has_name (js "w:p") n = true)
  /\ (forall l n, t_headings t !! l = Some n -> has_name (js "w:p") n = true)
  /\ (forall n, t_list_item t = Some n -> has_name (js "w:p") n = true)
  /\ (forall n, t_table t = Some n -> has_name (js "w:tbl") n = true).

(** The state of the loop that records the heading templates in order
    and the state of the traversal agree. *)
Definition headings_agree (hst : HeadingTemplates * nat) (st : Traversal) : Prop :=
  snd hst = blockIndex st
  /\ (forall l, templateAt l (fst hst) = t_headings (templates st) !! l)
  /\ Forall (fun e => has_name (js "w:p") (snd e) = true) (fst hst).

(** Entries in ascending order of their keys *)
Fixpoint ascending (l : list (Z * Node)) : Prop :=
  match l with
  | [] => True
  | x :: l' => (forall y, In y l' -> (fst x <= fst y)%Z) /\ ascending l'
  end.

(** A step of the validator started without violations, with [seen] as
    [seenIds]: it returns; it records no violation exactly when [good]
    holds; and then [seenIds] is [seen']. *)
Definition verdict (f : VState -> option VState) (seen : list JsVal) (good : Prop)
           (seen' : list JsVal) : Prop :=
  exists E s, f (mkVState [] seen) = Some (mkVState E s)
              /\ (E = [] <-> good) /\ (E = [] -> s = seen').

(** What the cross-reference asks of a candidate block [b], given the
    block [o] of the original with its id: the same type, and the same
    level for two headings. *)
Definition cross_ok (o b : Block) : Prop :=
  type_name b = type_name o
  /\ match o, b with
     | Heading _ level _, Heading _ level' _ => level' = level
     | _, _ => True
     end.

(** What the geometry check asks: the same grid for two tables. *)
Definition geom_ok (o b : Block) : Prop :=
  match o, b with
  | Table _ orows, Table _ rows =>
      List.map (@length Cell) orows = List.map (@length Cell) rows
  | _, _ => True
  end.

(** What the validator asks of one typed block of the candidate when
    [seenIds] is [seen]. *)
Definition good_block (original : list Block) (seen : list JsVal) (b : Block) : Prop :=
  (Forall (fun y => y <> []) (block_ids b) /\ NoDup (block_ids b) /\ fresh (block_ids b) seen)
  /\ level_ok b /\ compatible original b.

(** The checks by type of a typed block, after the cross-reference *)
Definition typedChecks (i : nat) (b : Block) (origBlock : JsVal) (st : VState)
  : option VState :=
  match b with
  | Title _ _ | Paragraph _ _ => Some st
  | Heading id level _ => Some (push_if (bad_level (level_to_js level)) (EHeadingLevel i id) st)
  | ListItem id level _ => Some (push_if (bad_level (level_to_js level)) (EListLevel i id) st)
  | Table id rows =>
      st' ← validateRows i id 0 (List.map row_to_js rows) st;
      tableGeometry i id (List.map row_to_js rows) origBlock st'
  end.

(** [.docx] in any mix of upper and lower case *)
Definition is_docx (ext : jsstring) : bool :=
  match ext with
  | [p; d; o; c; x] =>
      (p =? 46)%N && ((d =? 100) || (d =? 68))%N && ((o =? 111) || (o =? 79))%N
      && ((c =? 99) || (c =? 67))%N && ((x =? 120) || (x =? 88))%N
  | _ => false
  end.

(** A literal under the flag [i] matches the text [s] from its first to
    its last unit. *)
Fixpoint matches_ci (l s : jsstring) : bool :=
  match l, s with
  | [], [] => true
  | p :: l', c :: s' =>
      (if is_lower p then eq_ci p c else (c =? p)%N) && matches_ci l' s'
  | _, _ => false
  end.

(** A text of white space only *)
Definition blank (ws : jsstring) : bool := forallb is_space ws.

(** The cells of a table element, row by row *)
Definition table_cells (tbl : Node) : list (list Node) :=
  List.map (fun tr => getDirectChildren tr (js "w:tc")) (getDirectChildren tbl (js "w:tr")).

(** The text fits the cell: the cell has a paragraph for each line of
    the text, and every line is canonical. *)
Definition fits (tc : Node) (text : jsstring) : Prop :=
  length (splitOn 10%N text) <= length (getDirectChildren tc (js "w:p"))
  /\ Forall canonical (splitOn 10%N text).

(** Some element named [tag] is the node or below it. *)
Definition at_or_below (tag : jsstring) (c : Node) : bool :=
  has_name tag c || hasDescendant tag c.

(** The names of the elements that hold an image *)
Definition image_tag (tag : jsstring) : Prop :=
  tag = js "w:drawing" \/ tag = js "w:pict" \/ tag = js "mc:AlternateContent".

(** The segments of [a **b**]: a plain one and a bold one *)
Definition bold_after_plain : list Segment :=
  [mkSegment (js "a ") false false; mkSegment (js "b") true false].

(** A candidate with one new paragraph *)
Definition one_new_paragraph : Document :=
  mkDocument (mkMetadata (js "hello.docx") (js "now") 1 0)
             [Paragraph (js "new_001") (js "New")].

(** A table element of one row and one cell, which holds an empty
    paragraph *)
Definition one_cell_table : Node :=
  Element (js "w:tbl") [] [Element (js "w:tr") [] [Element (js "w:tc") [] [wp []]]].

(** The rows of a candidate for that table *)
Definition one_cell_rows : list (list Cell) := [[mkCell (js "x") (js "a")]].

(** A parser that knows the empty object only *)
Definition empty_object_parser (text : jsstring) : option JsVal :=
  if str_eqb text (js "{}") then Some (JObj []) else None.

(** A paragraph of two bold runs, the first ending in a [w:tab], and a
    hyperlink whose italic run starts with a [w:br] *)
Definition runs_with_breaks : Node :=
  wp [wr bold_props [wt (js "a"); wtab];
      wr bold_props [wt (js "b")];
      Element (js "w:hyperlink") []
        [wr italic_props [Element (js "w:br") [] []; wt (js "c")]]].

(** The heading templates of an original whose first heading has level
    3 and whose second has level 1 *)
Definition two_heading_templates : HeadingTemplates :=
  [(3%Z, wp [wr [] [wt (js "three")]]); (1%Z, wp [wr [] [wt (js "one")]])].

(** A styles part with two heading styles, the second read from its
    outline level, and a style that is no heading *)
Definition two_heading_styles : Node :=
  Element (js "w:styles") []
    [Element (js "w:style") [(js "w:type", js "paragraph"); (js "w:styleId", js "Heading1")]
       [Element (js "w:name") [(js "w:val", js "heading 1")] []];
     Element (js "w:style") [(js "w:type", js "paragraph"); (js "w:styleId", js "Heading2")]
       [Element (js "w:name") [(js "w:val", js "Section")] [];
        Element (js "w:pPr") [] [Element (js "w:outlineLvl") [(js "w:val", js "1")] []]];
     Element (js "w:style") [(js "w:type", js "paragraph"); (js "w:styleId", js "Normal")]
       [Element (js "w:name") [(js "w:val", js "Normal")] []]].

(** A heading of the original with the style [Heading2] *)
Definition styled_heading : Node :=
  wp [Element (js "w:pPr") [] [Element (js "w:pStyle") [(js "w:val", js "Heading2")] []];
      wr [] [wt (js "Old")]].

(** * Properties *)

Section Prepend.
Variable e0 : list Violation.

Lemma push_prepend e st : push e (prepend e0 st) = prepend e0 (push e st).
Proof. unfold push, prepend; simpl. by rewrite app_assoc. Qed.

Lemma push_if_prepend b e st : push_if b e (prepend e0 st) = prepend e0 (push_if b e st).
Proof. destruct b; simpl; [apply push_prepend | done]. Qed.

Lemma push_with_commutes vs e : commutes e0 (push_with vs e).
Proof.
  intros st. unfold push_with. destruct (forallb stringifies vs); [|done].
  simpl. by rewrite push_prepend.
Qed.

Lemma push_if_with_commutes b vs e : commutes e0 (push_if_with b vs e).
Proof. destruct b; [apply push_with_commutes | done]. Qed.

Lemma seen_has_prepend v st : seen_has v (prepend e0 st) = seen_has v st.
Proof. done. Qed.

Lemma seen_add_prepend v st : seen_add v (prepend e0 st) = prepend e0 (seen_add v st).
Proof. done. Qed.

Lemma commutes_bind f g :
  commutes e0 f -> commutes e0 g -> commutes e0 (fun st => f st ≫= g).
Proof.
  intros Hf Hg st. rewrite Hf. destruct (f st) as [st'|]; simpl; [apply Hg | done].
Qed.

Lemma commutes_if (b : bool) f g : commutes e0 f -> commutes e0 g -> commutes e0 (fun st => if b then f st else g st).
Proof. destruct b; auto. Qed.

Lemma checkText_commutes i id block : commutes e0 (checkText i id block).
Proof.
  intros st. unfold checkText. destruct (getProp block (js "text")); simpl; [|done].
  by rewrite push_if_prepend.
Qed.

Lemma checkLevel_commutes e block : commutes e0 (checkLevel e block).
Proof.
  intros st. unfold checkLevel. destruct (getProp block (js "level")); simpl; [|done].
  by rewrite push_if_prepend.
Qed.

Lemma crossReference_commutes i id block type origBlock :
  commutes e0 (crossReference i id block type origBlock).
Proof.
  intros st. unfold crossReference.
  destruct (truthy origBlock); [|done].
  destruct (getProp origBlock (js "type")) as [otype|]; simpl; [|done].
  rewrite push_if_with_commutes.
  destruct (push_if_with _ _ _ st) as [st1|]; simpl; [|done].
  destruct (strict_eq otype _ && strict_eq type _); [|done].
  destruct (getProp block (js "level")); simpl; [|done].
  destruct (getProp origBlock (js "level")); simpl; [|done].
  apply push_if_with_commutes.
Qed.

Lemma validateCell_commutes i id r c cell : commutes e0 (validateCell i id r c cell).
Proof.
  intros st. unfold validateCell.
  destruct (negb (truthy cell) || negb (is_object cell)); [by rewrite push_prepend|].
  destruct (getProp cell (js "id")) as [cid|]; simpl; [|done].
  rewrite !push_if_prepend, seen_has_prepend.
  destruct (truthy cid); destruct (getProp cell (js "text")); simpl; try done;
    by rewrite ?seen_add_prepend, ?push_if_prepend.
Qed.

Lemma validateCells_commutes i id r cells : forall c, commutes e0 (validateCells i id r c cells).
Proof.
  induction cells as [|cell rest IH]; intros c st; simpl; [done|].
  rewrite validateCell_commutes.
  destruct (validateCell i id r c cell st); simpl; [apply IH | done].
Qed.

Lemma validateRows_commutes i id rows : forall r, commutes e0 (validateRows i id r rows).
Proof.
  induction rows as [|row rest IH]; intros r st; simpl; [done|].
  assert (H : commutes e0 (fun st => match row with
                                   | JArr cells => validateCells i id r 0 cells st
                                   | _ => Some (push (ERowNotArray i id r) st)
                                   end)).
  { destruct row; intros st'; simpl; rewrite ?push_prepend; try done.
    apply validateCells_commutes. }
  rewrite H. destruct row; simpl; try apply IH.
  destruct (validateCells i id r 0 items st); simpl; [apply IH | done].
Qed.

Lemma compareRow_commutes i id rows origRows r : commutes e0 (compareRow i id rows origRows r).
Proof.
  intros st. unfold compareRow.
  destruct (getIndex rows r) as [row|]; simpl; [|done].
  destruct (getIndex origRows r) as [orow|]; simpl; [|done].
  destruct (truthy row && truthy orow); [|done].
  destruct (getProp row _); simpl; [|done].
  destruct (getProp orow _); simpl; [|done].
  apply push_if_with_commutes.
Qed.

Lemma compareRows_commutes i id rows origRows rs : commutes e0 (compareRows i id rows origRows rs).
Proof.
  induction rs as [|r rest IH]; intros st; simpl; [done|].
  rewrite compareRow_commutes.
  destruct (compareRow i id rows origRows r st); simpl; [apply IH | done].
Qed.

Lemma tableGeometry_commutes i id items origBlock : commutes e0 (tableGeometry i id items origBlock).
Proof.
  intros st. unfold tableGeometry.
  destruct (truthy origBlock); [|done].
  destruct (getProp origBlock (js "type")) as [otype|]; simpl; [|done].
  destruct (strict_eq otype _); [|done].
  destruct (getProp origBlock (js "rows")) as [origRows|]; simpl; [|done].
  destruct (getProp origRows (js "length")) as [olen|]; simpl; [|done].
  destruct (negb _); [apply push_with_commutes | apply compareRows_commutes].
Qed.

Lemma validateByType_commutes i id block type origBlock :
  commutes e0 (validateByType i id block type origBlock).
Proof.
  unfold validateByType.
  apply commutes_bind.
  { apply commutes_if; [|done].
    apply (commutes_bind _ _ (checkLevel_commutes _ _) (checkText_commutes _ _ _)). }
  apply commutes_bind.
  { apply commutes_if; [apply checkText_commutes | done]. }
  apply commutes_bind.
  { apply commutes_if; [apply checkText_commutes | done]. }
  apply commutes_bind.
  { apply commutes_if; [|done].
    apply (commutes_bind _ _ (checkText_commutes _ _ _) (checkLevel_commutes _ _)). }
  intros st.
  destruct (strict_eq type _); [|done].
  destruct (getProp block (js "rows")) as [rows|]; simpl; [|done].
  destruct rows; simpl; rewrite ?push_prepend; try done.
  rewrite validateRows_commutes.
  destruct (validateRows i id 0 items st); simpl; [apply tableGeometry_commutes | done].
Qed.

Lemma validateBlock_commutes m i block : commutes e0 (validateBlock m i block).
Proof.
  intros st. unfold validateBlock.
  destruct (negb (truthy block) || negb (is_object block)); [by rewrite push_prepend|].
  destruct (getProp block (js "id")) as [idv|]; simpl; [|done].
  destruct idv as [| | | |[|c s]| |]; simpl; rewrite ?push_prepend; try done.
  rewrite seen_has_prepend, push_if_prepend, seen_add_prepend.
  destruct (getProp block (js "type")) as [type|]; simpl; [|done].
  destruct (negb _); [apply push_with_commutes|].
  rewrite crossReference_commutes.
  destruct (crossReference _ _ _ _ _ _); simpl; [apply validateByType_commutes | done].
Qed.

Lemma validateBlocks_commutes m blocks : forall i, commutes e0 (validateBlocks m i blocks).
Proof.
  induction blocks as [|b rest IH]; intros i st; simpl; [done|].
  rewrite validateBlock_commutes.
  destruct (validateBlock m i b st); simpl; [apply IH | done].
Qed.
End Prepend.

Lemma push_with_ok vs e st :
  forallb stringifies vs = true -> push_with vs e st = Some (push e st).
Proof. intros H. unfold push_with. by rewrite H. Qed.

Lemma push_if_with_ok b vs e st :
  forallb stringifies vs = true -> push_if_with b vs e st = Some (push_if b e st).
Proof. intros H. destruct b; [by apply push_with_ok | done]. Qed.

(** *** Strings and values *)

Lemma str_eqb_eq a b : str_eqb a b = true <-> a = b.
Proof.
  revert b; induction a as [|x a IH]; intros [|y b]; simpl; try (split; congruence).
  rewrite andb_true_iff, N.eqb_eq, IH. split; [intros [-> ->]; done | intros [= -> ->]; done].
Qed.

Lemma str_eqb_refl a : str_eqb a a = true.
Proof. by apply str_eqb_eq. Qed.

Lemma str_eqb_neq a b : a <> b -> str_eqb a b = false.
Proof. intros H. destruct (str_eqb a b) eqn:E; [|done]. by apply str_eqb_eq in E. Qed.

Lemma strict_eq_str a v : strict_eq (JStr a) v = true <-> v = JStr a.
Proof.
  destruct v; simpl; try (split; congruence).
  rewrite str_eqb_eq. split; congruence.
Qed.

Lemma strict_eq_str_l a v : strict_eq v (JStr a) = true <-> v = JStr a.
Proof.
  destruct v; simpl; try (split; congruence).
  rewrite str_eqb_eq. split; congruence.
Qed.

Lemma Qeq_bool_inject x y : Qeq_bool (inject_Z x) (inject_Z y) = (x =? y)%Z.
Proof. unfold Qeq_bool, inject_Z; simpl. by rewrite !Z.mul_1_r. Qed.

Lemma strict_eq_num a b : strict_eq (num_of_nat a) (num_of_nat b) = (a =? b).
Proof.
  unfold num_of_nat; simpl. rewrite Qeq_bool_inject.
  destruct (Nat.eqb_spec a b) as [->|Hne]; [apply Z.eqb_refl|].
  apply Z.eqb_neq. lia.
Qed.

Lemma strict_eq_level l : strict_eq (level_to_js l) (level_to_js l) = true.
Proof. unfold level_to_js; simpl. rewrite Qeq_bool_inject. apply Z.eqb_refl. Qed.

Lemma bad_level_ok l : (1 <= l)%Z -> bad_level (level_to_js l) = false.
Proof.
  intros H. unfold level_to_js, bad_level, Qle_bool, inject_Z; simpl.
  apply negb_false_iff, Z.leb_le. lia.
Qed.

(** *** The metadata check *)

(** C9.  A candidate that is an object, whose [blocks] is an array and whose
    [metadata] is missing or not an object, is rejected with the metadata
    violation first, followed by everything the per-block checks report:
    the check does not stop the validation.  When [blocks] is not an array
    the result is the single blocks violation, whatever [metadata] is. *)
Theorem metadata_violation_accumulates (modified original metadata blocks : JsVal) :
  truthy modified = true -> is_object modified = true ->
  getProp modified (js "metadata") = Some metadata ->
  getProp modified (js "blocks") = Some blocks ->
  (isArray blocks = false ->
   validateModifiedJson modified original = Some (mkResult false [EBlocksNotArray]))
  /\ (forall items, blocks = JArr items -> negb (truthy metadata) || negb (is_object metadata) = true ->
      validateModifiedJson modified original =
        (m ← originalMap original;
         st ← validateBlocks m 0 items (mkVState [] []);
         Some (mkResult false (EMetadata :: st_errors st)))).
Proof.
  intros Ht Ho Hm Hb. unfold validateModifiedJson. rewrite Ht, Ho, Hm, Hb. simpl. split.
  - by destruct blocks.
  - intros items -> Hbad. rewrite Hbad.
    destruct (originalMap original) as [m|]; simpl; [|done].
    pose proof (validateBlocks_commutes [EMetadata] m items 0 (mkVState [] [])) as H.
    unfold prepend in H; simpl in H. rewrite H.
    by destruct (validateBlocks m 0 items (mkVState [] [])).
Qed.

(** *** Typed blocks under the validator *)

Lemma getProp_block_id b : getProp (block_to_js b) (js "id") = Some (JStr (block_id b)).
Proof. by destruct b. Qed.

Lemma getProp_block_type b : getProp (block_to_js b) (js "type") = Some (JStr (type_name b)).
Proof. by destruct b. Qed.

Lemma truthy_block b : truthy (block_to_js b) = true.
Proof. by destruct b. Qed.

Lemma geometry_push e st :
  geometry (push e st) = geometry st ++ (if is_geometry e then [e] else []).
Proof. unfold geometry, push; simpl. rewrite List.filter_app; simpl. by destruct (is_geometry e). Qed.

Lemma geometry_push_if b e st :
  is_geometry e = false -> geometry (push_if b e st) = geometry st.
Proof.
  intros H. destruct b; simpl; [|done]. rewrite geometry_push, H. apply app_nil_r.
Qed.

Lemma geometry_seen_add v st : geometry (seen_add v st) = geometry st.
Proof. done. Qed.

Lemma geometry_push_other e st : is_geometry e = false -> geometry (push e st) = geometry st.
Proof. intros H. rewrite geometry_push, H. apply app_nil_r. Qed.

Lemma validateCell_typed i id r c (cell : Cell) st :
  exists st', validateCell i id r c (cell_to_js cell) st = Some st'
              /\ geometry st' = geometry st.
Proof.
  unfold validateCell, cell_to_js. simpl. eexists; split; [done|].
  destruct (cell_id cell) as [|x cid]; simpl;
    rewrite ?geometry_seen_add, ?geometry_push_if, ?geometry_push_other; done.
Qed.

Lemma validateCells_typed i id r (cells : list Cell) : forall c st,
  exists st', validateCells i id r c (List.map cell_to_js cells) st = Some st'
              /\ geometry st' = geometry st.
Proof.
  induction cells as [|cell rest IH]; intros c st; [simpl; eauto|].
  change (List.map cell_to_js (cell :: rest)) with (cell_to_js cell :: List.map cell_to_js rest).
  cbn [validateCells].
  destruct (validateCell_typed i id r c cell st) as (st1 & -> & Hg1).
  destruct (IH (S c) st1) as (st' & H & Hg). exists st'. split; [done | congruence].
Qed.

Lemma validateRows_typed i id (rows : list (list Cell)) : forall r st,
  exists st', validateRows i id r (List.map row_to_js rows) st = Some st'
              /\ geometry st' = geometry st.
Proof.
  induction rows as [|row rest IH]; intros r st; simpl; [eauto|].
  destruct (validateCells_typed i id r row 0 st) as (st1 & -> & Hg1). simpl.
  destruct (IH (S r) st1) as (st' & -> & Hg). eexists; split; [done|]. congruence.
Qed.

Lemma nth_row_to_js (rows : list (list Cell)) r :
  r < length rows ->
  nth r (List.map row_to_js rows) JUndefined = row_to_js (nth r rows []).
Proof.
  intros H. rewrite (nth_indep _ JUndefined (row_to_js [])) by (by rewrite length_map).
  apply (map_nth row_to_js).
Qed.

Lemma getProp_row_length (row : list Cell) :
  getProp (row_to_js row) (js "length") = Some (num_of_nat (length row)).
Proof. unfold row_to_js; simpl. by rewrite length_map. Qed.

Lemma compareRow_typed i id (rows orows : list (list Cell)) r st :
  r < length rows -> length rows = length orows ->
  exists st', compareRow i id (JArr (List.map row_to_js rows)) (JArr (List.map row_to_js orows))
                         r st = Some st'
              /\ geometry st' = geometry st ++ cellCountAt i id rows orows r.
Proof.
  intros Hr Hlen. unfold compareRow, getIndex.
  rewrite !nth_row_to_js by lia. cbn [mbind option_bind truthy row_to_js andb].
  fold (row_to_js (nth r rows [])). fold (row_to_js (nth r orows [])).
  rewrite !getProp_row_length. cbn [mbind option_bind].
  rewrite push_if_with_ok by reflexivity.
  rewrite strict_eq_num. eexists; split; [done|]. unfold cellCountAt.
  destruct (_ =? _); simpl; [by rewrite app_nil_r|].
  by rewrite geometry_push.
Qed.

Lemma compareRows_typed i id (rows orows : list (list Cell)) (rs : list nat) : forall st,
  Forall (fun r => r < length rows) rs -> length rows = length orows ->
  exists st', compareRows i id (JArr (List.map row_to_js rows)) (JArr (List.map row_to_js orows))
                          rs st = Some st'
              /\ geometry st' = geometry st ++ flat_map (cellCountAt i id rows orows) rs.
Proof.
  induction rs as [|r rest IH]; intros st Hall Hlen.
  { simpl. eexists; split; [done|]. by rewrite app_nil_r. }
  inversion Hall as [|? ? Hr Hrest]; subst.
  cbn [compareRows flat_map].
  destruct (compareRow_typed i id rows orows r st Hr Hlen) as (st1 & -> & Hg1).
  destruct (IH st1 Hrest Hlen) as (st' & H & Hg). exists st'. split; [done|].
  rewrite Hg, Hg1. by rewrite <- app_assoc.
Qed.

(** *** The map of the original blocks *)

Lemma buildMap_typed (bs : list Block) : forall m,
  buildMap (List.map block_to_js bs) m = Some (rev (List.map block_entry bs) ++ m).
Proof.
  induction bs as [|b rest IH]; intros m; simpl; [done|].
  rewrite getProp_block_id. simpl. rewrite IH. by rewrite <- app_assoc.
Qed.

Lemma originalMap_typed (d : Document) :
  originalMap (document_to_js d) = Some (rev (List.map block_entry (blocks d))).
Proof.
  unfold originalMap, document_to_js. simpl. rewrite buildMap_typed. by rewrite app_nil_r.
Qed.

Lemma map_get_app_absent k (m1 m2 : BlockMap) :
  (forall k' v, In (k', v) m1 -> strict_eq k' k = false) ->
  map_get k (m1 ++ m2) = map_get k m2.
Proof.
  induction m1 as [|[k' v] rest IH]; intros H; simpl; [done|].
  rewrite (H k' v) by (by left). apply IH. intros k'' v' Hin. apply (H k'' v'). by right.
Qed.

Lemma strict_eq_id_neq a b : a <> b -> strict_eq (JStr a) (JStr b) = false.
Proof. intros H. simpl. by apply str_eqb_neq. Qed.

Lemma map_get_snoc k (m : BlockMap) (e : JsVal * JsVal) :
  map_get k (m ++ [e]) =
    if existsb (fun e => strict_eq (fst e) k) m then map_get k m
    else if strict_eq (fst e) k then snd e else JUndefined.
Proof.
  induction m as [|[k0 v0] m IH]; simpl; [by destruct e|].
  destruct (strict_eq k0 k); simpl; [done | apply IH].
Qed.

Lemma map_get_typed (bs : list Block) (b : Block) :
  NoDup (List.map block_id bs) -> In b bs ->
  map_get (JStr (block_id b)) (rev (List.map block_entry bs)) = block_to_js b.
Proof.
  induction bs as [|b0 rest IH]; intros Hnd Hin; [done|].
  simpl in *. inversion Hnd as [|? ? Hnotin Hnd']; subst.
  rewrite list_elem_of_In in Hnotin.
  destruct Hin as [->|Hin].
  - rewrite map_get_app_absent.
    + simpl. by rewrite str_eqb_refl.
    + intros k' v Hk. apply in_rev, in_map_iff in Hk as (b' & [= <- <-] & Hb').
      apply strict_eq_id_neq. intros Heq. apply Hnotin. rewrite <- Heq. by apply in_map.
  - rewrite map_get_snoc.
    assert (Hex : existsb (fun e => strict_eq (fst e) (JStr (block_id b)))
                          (rev (List.map block_entry rest)) = true).
    { apply existsb_exists. exists (block_entry b). split.
      - apply -> in_rev. by apply in_map.
      - simpl. apply str_eqb_refl. }
    rewrite Hex. by apply IH.
Qed.

Lemma map_get_typed_absent (bs : list Block) id :
  (forall b, In b bs -> block_id b <> id) ->
  map_get (JStr id) (rev (List.map block_entry bs)) = JUndefined.
Proof.
  intros H. rewrite <- (app_nil_r (rev _)). rewrite map_get_app_absent; [done|].
  intros k' v Hk. apply in_rev, in_map_iff in Hk as (b' & [= <- <-] & Hb').
  apply strict_eq_id_neq. by apply H.
Qed.

(** *** Table geometry *)

Lemma NoDup_block_id_inj (bs : list Block) (b1 b2 : Block) :
  NoDup (List.map block_id bs) -> In b1 bs -> In b2 bs -> block_id b1 = block_id b2 -> b1 = b2.
Proof.
  induction bs as [|b rest IH]; intros Hnd H1 H2 Heq; [done|].
  simpl in Hnd. inversion Hnd as [|? ? Hnotin Hnd']; subst.
  rewrite list_elem_of_In in Hnotin.
  destruct H1 as [->|H1], H2 as [->|H2]; try done.
  - exfalso. apply Hnotin. rewrite Heq. by apply in_map.
  - exfalso. apply Hnotin. rewrite <- Heq. by apply in_map.
  - by apply IH.
Qed.

Lemma classic_in_blocks (d : Document) (id : jsstring) :
  (exists b, In b (blocks d) /\ block_id b = id)
  \/ (forall b, In b (blocks d) -> block_id b <> id).
Proof.
  induction (blocks d) as [|b rest IH]; [right; by intros ? []|].
  destruct (str_eqb (block_id b) id) eqn:E.
  - apply str_eqb_eq in E. left. exists b. split; [by left | done].
  - destruct IH as [(b' & Hb' & Hid)|Habs].
    + left. exists b'. split; [by right | done].
    + right. intros b' [<-|Hin]; [|by apply Habs].
      intros Heq. apply str_eqb_eq in Heq. congruence.
Qed.

Lemma getProp_table_rows id (rows : list (list Cell)) :
  getProp (block_to_js (Table id rows)) (js "rows") = Some (JArr (List.map row_to_js rows)).
Proof. reflexivity. Qed.

Lemma getProp_array_length items :
  getProp (JArr items) (js "length") = Some (num_of_nat (length items)).
Proof. reflexivity. Qed.

Lemma strict_eq_str_refl a : strict_eq (JStr a) (JStr a) = true.
Proof. apply str_eqb_refl. Qed.

Lemma tableGeometry_typed i id (rows orows : list (list Cell)) oid st :
  exists st', tableGeometry i id (List.map row_to_js rows) (block_to_js (Table oid orows)) st
              = Some st'
              /\ geometry st' = geometry st ++ geometryViolations i id rows orows.
Proof.
  unfold tableGeometry, geometryViolations.
  rewrite truthy_block, getProp_block_type. cbn [mbind option_bind type_name].
  rewrite strict_eq_str_refl, getProp_table_rows. cbn [mbind option_bind].
  rewrite getProp_array_length. cbn [mbind option_bind].
  rewrite !length_map, strict_eq_num.
  destruct (Nat.eqb_spec (length rows) (length orows)) as [Hlen|Hne]; cbn [negb].
  - destruct (compareRows_typed i id rows orows (seq 0 (length rows)) st) as (st' & H & Hg).
    + apply Forall_forall. intros r Hr%elem_of_seq. lia.
    + done.
    + exists st'. split; [done|]. by rewrite Hg.
  - rewrite push_with_ok by reflexivity.
    eexists; split; [done|]. by rewrite geometry_push.
Qed.

Lemma validateBlock_table m i c s (rows : list (list Cell)) st :
  let id := c :: s in
  validateBlock m i (block_to_js (Table id rows)) st =
    (let st1 := seen_add (JStr id) (push_if (seen_has (JStr id) st) (EDuplicateId i id) st) in
     st2 ← crossReference i id (block_to_js (Table id rows)) (JStr (js "table"))
                          (map_get (JStr id) m) st1;
     st3 ← validateRows i id 0 (List.map row_to_js rows) st2;
     tableGeometry i id (List.map row_to_js rows) (map_get (JStr id) m) st3).
Proof. reflexivity. Qed.

Lemma crossReference_table i id block (b : Block) st :
  exists st', crossReference i id block (JStr (js "table")) (block_to_js b) st = Some st'
              /\ geometry st' = geometry st /\ st_seen st' = st_seen st.
Proof.
  unfold crossReference. rewrite truthy_block, getProp_block_type. cbn [mbind option_bind].
  rewrite push_if_with_ok by reflexivity. cbn [mbind option_bind].
  change (strict_eq (JStr (js "table")) (JStr (js "heading"))) with false.
  rewrite andb_false_r. eexists; split; [done|]. split.
  - by apply geometry_push_if.
  - by destruct (negb _).
Qed.

Lemma tableGeometry_other i id items (b : Block) st :
  is_table b = false -> tableGeometry i id items (block_to_js b) st = Some st.
Proof. intros H. by destruct b. Qed.

Lemma tableGeometry_absent i id items st : tableGeometry i id items JUndefined st = Some st.
Proof. reflexivity. Qed.

(** C4.  Against an original document with distinct block ids, a typed
    candidate table block with a non-empty id always validates to a state
    whose geometry violations grow as follows.  If the original holds a
    table with the same id: by exactly one row-count violation when the
    row counts differ, and otherwise by one cell-count violation for each
    row index at which the cell counts differ ([geometryViolations]).  If
    no original block has that id: by nothing, whatever the rows are. *)
Theorem table_geometry_enforcement (original : Document) (id : jsstring)
        (rows : list (list Cell)) :
  NoDup (List.map block_id (blocks original)) -> id <> [] ->
  exists m, originalMap (document_to_js original) = Some m /\
    forall (i : nat) (st : VState),
    exists st', validateBlock m i (block_to_js (Table id rows)) st = Some st' /\
      (forall orows, In (Table id orows) (blocks original) ->
         geometry st' = geometry st ++ geometryViolations i id rows orows) /\
      ((forall b, In b (blocks original) -> block_id b <> id) ->
         geometry st' = geometry st).
Proof.
  intros Hnd Hid. eexists; split; [apply originalMap_typed|]. intros i st.
  destruct id as [|c s]; [done|]. rewrite validateBlock_table. cbv zeta.
  set (st1 := seen_add _ _).
  assert (Hg1 : geometry st1 = geometry st).
  { unfold st1. by rewrite geometry_seen_add, geometry_push_if. }
  destruct (classic_in_blocks original (c :: s)) as [(b & Hb & Hbid)|Habs].
  - pose proof (map_get_typed _ b Hnd Hb) as Hget. rewrite Hbid in Hget. rewrite Hget.
    destruct (crossReference_table i (c :: s) (block_to_js (Table (c :: s) rows)) b st1)
      as (st2 & -> & Hg2 & _).
    cbn [mbind option_bind].
    destruct (validateRows_typed i (c :: s) rows 0 st2) as (st3 & -> & Hg3).
    cbn [mbind option_bind].
    destruct (is_table b) eqn:Htab.
    + destruct b as [| | | |bid orows]; try done. simpl in Hbid; subst bid.
      destruct (tableGeometry_typed i (c :: s) rows orows (c :: s) st3) as (st' & -> & Hg).
      eexists; split; [done|]. split.
      * intros orows' Hin.
        pose proof (NoDup_block_id_inj _ _ _ Hnd Hb Hin eq_refl) as [= ->].
        rewrite Hg. congruence.
      * intros Habs; exfalso; by apply (Habs _ Hb).
    + rewrite tableGeometry_other by done. eexists; split; [done|]. split.
      * intros orows Hin.
        pose proof (NoDup_block_id_inj _ _ _ Hnd Hb Hin Hbid) as ->. done.
      * intros Habs; exfalso; by apply (Habs _ Hb).
  - rewrite (map_get_typed_absent _ _ Habs). cbn [crossReference truthy mbind option_bind].
    destruct (validateRows_typed i (c :: s) rows 0 st1) as (st3 & -> & Hg3).
    cbn [mbind option_bind]. rewrite tableGeometry_absent.
    eexists; split; [done|]. split.
    + intros orows Hin. exfalso. by apply (Habs _ Hin).
    + intros _. congruence.
Qed.

(** *** Values without a string *)

(** C6.  The validator does not always return.  The message of an
    invalid type interpolates the type, that of a changed level the two
    levels, that of a changed number of cells the two lengths: on a
    candidate that holds the object [{"toString": 1}] there, building the
    message raises a TypeError, whatever the original is in the first
    case.  The validator also raises on an original with a [null] block.
    Whenever it returns, [valid] is true exactly when [errors] is
    empty. *)
Theorem validator_throws_on_value_without_string :
  (forall original, validateModifiedJson unprintable_type_candidate original = None)
  /\ validateModifiedJson unprintable_level_candidate (document_of [original_heading []]) = None
  /\ validateModifiedJson unprintable_length_candidate (document_to_js original_with_table)
     = None
  /\ validateModifiedJson (document_of []) null_block_original = None
  /\ (forall modified original r,
        validateModifiedJson modified original = Some r ->
        (valid r = true <-> errors r = [])).
Proof.
  split; [|split; [|split; [|split]]]; try reflexivity.
  - intros original.
    unfold validateModifiedJson, unprintable_type_candidate, document_of.
    cbn [truthy is_object typeof negb orb getProp field mbind option_bind].
    change (str_eqb (js "metadata") (js "metadata")) with true.
    change (str_eqb (js "metadata") (js "blocks")) with false.
    change (str_eqb (js "blocks") (js "blocks")) with true.
    cbv beta iota. by destruct (originalMap original).
  - intros modified original r. unfold validateModifiedJson.
    destruct (negb (truthy modified) || negb (is_object modified)).
    { intros [= <-]. simpl. split; discriminate. }
    destruct (getProp modified (js "metadata")) as [metadata|]; [|discriminate].
    cbn [mbind option_bind].
    destruct (getProp modified (js "blocks")) as [blocks|]; [|discriminate].
    cbn [mbind option_bind].
    destruct blocks; try (intros [= <-]; simpl; split; discriminate).
    destruct (originalMap original) as [m|]; [|discriminate]. cbn [mbind option_bind].
    destruct (validateBlocks m 0 items _) as [st|]; [|discriminate]. cbn [mbind option_bind].
    intros [= <-]. cbn [valid errors]. destruct (st_errors st); simpl; split; done.
Qed.

(** *** Validating a document against itself *)

Lemma seen_has_fresh x errs seen :
  ~ In (JStr x) seen -> seen_has (JStr x) (mkVState errs seen) = false.
Proof.
  intros H. unfold seen_has; simpl. destruct (existsb _ _) eqn:E; [|done].
  apply existsb_exists in E as (v & Hv & Heq). apply strict_eq_str in Heq. by subst v.
Qed.

Lemma seen_after_cons x ids seen :
  seen_after (x :: ids) seen = seen_after ids (JStr x :: seen).
Proof. unfold seen_after; simpl. by rewrite <- app_assoc. Qed.

Lemma seen_after_app ids1 ids2 seen :
  seen_after (ids1 ++ ids2) seen = seen_after ids2 (seen_after ids1 seen).
Proof. unfold seen_after. by rewrite map_app, rev_app_distr, <- app_assoc. Qed.

Lemma fresh_cons_inv x ids seen :
  NoDup (x :: ids) -> fresh (x :: ids) seen ->
  ~ In (JStr x) seen /\ NoDup ids /\ fresh ids (JStr x :: seen).
Proof.
  intros Hnd Hf. apply NoDup_cons in Hnd as [Hx Hnd]. rewrite list_elem_of_In in Hx.
  split; [apply Hf; by left|]. split; [done|].
  intros y Hy [Heq|Hin]; [injection Heq as ->; done|]. apply (Hf y); [by right | done].
Qed.

Lemma fresh_app_inv ids1 ids2 seen :
  NoDup (ids1 ++ ids2) -> fresh (ids1 ++ ids2) seen ->
  NoDup ids1 /\ fresh ids1 seen /\ NoDup ids2 /\ fresh ids2 (seen_after ids1 seen).
Proof.
  intros Hnd Hf. apply NoDup_app in Hnd as (Hnd1 & Hdisj & Hnd2).
  split; [done|]. split; [intros x Hx; apply Hf, in_or_app; by left|]. split; [done|].
  intros y Hy Hin. unfold seen_after in Hin. apply in_app_or in Hin as [Hin|Hin].
  - apply in_rev, in_map_iff in Hin as (z & [= ->] & Hz).
    apply (Hdisj y); by apply list_elem_of_In.
  - apply (Hf y); [apply in_or_app; by right | done].
Qed.

Lemma getProp_cell_id (cell : Cell) :
  getProp (cell_to_js cell) (js "id") = Some (JStr (cell_id cell)).
Proof. reflexivity. Qed.

Lemma getProp_cell_text (cell : Cell) :
  getProp (cell_to_js cell) (js "text") = Some (JStr (cell_text cell)).
Proof. reflexivity. Qed.

Lemma validateCell_self i id r c x xs text seen :
  ~ In (JStr (x :: xs)) seen ->
  validateCell i id r c (cell_to_js (mkCell (x :: xs) text)) (mkVState [] seen)
  = Some (mkVState [] (JStr (x :: xs) :: seen)).
Proof.
  intros H. unfold validateCell.
  change (truthy (cell_to_js (mkCell (x :: xs) text))) with true.
  change (is_object (cell_to_js (mkCell (x :: xs) text))) with true.
  rewrite getProp_cell_id, getProp_cell_text.
  cbn [negb orb mbind option_bind cell_id cell_text truthy is_string push_if].
  by rewrite seen_has_fresh.
Qed.

Lemma validateCells_self i id r (cells : list Cell) : forall c seen,
  NoDup (List.map cell_id cells) -> Forall (fun x => x <> []) (List.map cell_id cells) ->
  fresh (List.map cell_id cells) seen ->
  validateCells i id r c (List.map cell_to_js cells) (mkVState [] seen)
  = Some (mkVState [] (seen_after (List.map cell_id cells) seen)).
Proof.
  induction cells as [|cell rest IH]; intros c seen Hnd Hne Hf; [done|].
  change (List.map cell_to_js (cell :: rest)) with (cell_to_js cell :: List.map cell_to_js rest).
  change (List.map cell_id (cell :: rest)) with (cell_id cell :: List.map cell_id rest) in *.
  apply fresh_cons_inv in Hf as (Hx & Hnd' & Hf'); [|done].
  apply Forall_cons in Hne as [Hne1 Hne'].
  cbn [validateCells].
  destruct cell as [[|x xs] text]; [done|]. cbn [cell_id] in *.
  rewrite validateCell_self by done. cbn [mbind option_bind].
  rewrite IH by done. by rewrite seen_after_cons.
Qed.

Lemma validateRows_self i id (rows : list (list Cell)) : forall r seen,
  NoDup (List.map cell_id (concat rows)) ->
  Forall (fun x => x <> []) (List.map cell_id (concat rows)) ->
  fresh (List.map cell_id (concat rows)) seen ->
  validateRows i id r (List.map row_to_js rows) (mkVState [] seen)
  = Some (mkVState [] (seen_after (List.map cell_id (concat rows)) seen)).
Proof.
  induction rows as [|row rest IH]; intros r seen Hnd Hne Hf; [done|].
  change (concat (row :: rest)) with (row ++ concat rest) in *.
  rewrite map_app in *.
  apply fresh_app_inv in Hf as (Hnd1 & Hf1 & Hnd2 & Hf2); [|done].
  apply Forall_app in Hne as [Hne1 Hne2].
  cbn [List.map validateRows row_to_js].
  rewrite validateCells_self by done. cbn [mbind option_bind].
  rewrite IH by done. by rewrite seen_after_app.
Qed.

Lemma crossReference_self i id (b : Block) st :
  crossReference i id (block_to_js b) (JStr (type_name b)) (block_to_js b) st = Some st.
Proof.
  unfold crossReference. rewrite truthy_block, getProp_block_type. cbn [mbind option_bind].
  rewrite strict_eq_str_refl. cbn [negb push_if].
  destruct b; try reflexivity.
  cbn [type_name]. rewrite strict_eq_str_refl. cbn [andb].
  change (getProp (block_to_js (Heading id0 level text)) (js "level"))
    with (Some (level_to_js level)).
  cbn [mbind option_bind]. by rewrite strict_eq_level.
Qed.

Lemma compareRows_self i id (rows : list (list Cell)) st :
  compareRows i id (JArr (List.map row_to_js rows)) (JArr (List.map row_to_js rows))
              (seq 0 (length rows)) st = Some st.
Proof.
  assert (H : forall rs, Forall (fun r => r < length rows) rs ->
            compareRows i id (JArr (List.map row_to_js rows)) (JArr (List.map row_to_js rows))
                        rs st = Some st).
  { induction rs as [|r rest IH]; intros Hall; [done|].
    apply Forall_cons in Hall as [Hr Hrest].
    cbn [compareRows]. unfold compareRow, getIndex.
    rewrite !nth_row_to_js by lia. cbn [mbind option_bind truthy row_to_js andb].
    fold (row_to_js (nth r rows [])). rewrite !getProp_row_length. cbn [mbind option_bind].
    rewrite strict_eq_num, Nat.eqb_refl. cbn [negb push_if]. by apply IH. }
  apply H. apply Forall_forall. intros r Hr%elem_of_seq. lia.
Qed.

Lemma tableGeometry_self i id oid (rows : list (list Cell)) st :
  tableGeometry i id (List.map row_to_js rows) (block_to_js (Table oid rows)) st = Some st.
Proof.
  unfold tableGeometry.
  rewrite truthy_block, getProp_block_type. cbn [mbind option_bind type_name].
  rewrite strict_eq_str_refl, getProp_table_rows. cbn [mbind option_bind].
  rewrite getProp_array_length. cbn [mbind option_bind].
  rewrite strict_eq_num, Nat.eqb_refl. cbn [negb].
  rewrite length_map. apply compareRows_self.
Qed.

Lemma validateBlock_title m i c s text st :
  let id := c :: s in
  validateBlock m i (block_to_js (Title id text)) st =
    (st' ← crossReference i id (block_to_js (Title id text)) (JStr (js "title"))
           (map_get (JStr id) m)
           (seen_add (JStr id) (push_if (seen_has (JStr id) st) (EDuplicateId i id) st));
     Some st').
Proof. reflexivity. Qed.

Lemma validateBlock_paragraph m i c s text st :
  let id := c :: s in
  validateBlock m i (block_to_js (Paragraph id text)) st =
    (st' ← crossReference i id (block_to_js (Paragraph id text)) (JStr (js "paragraph"))
           (map_get (JStr id) m)
           (seen_add (JStr id) (push_if (seen_has (JStr id) st) (EDuplicateId i id) st));
     Some st').
Proof. reflexivity. Qed.

Lemma validateBlock_heading m i c s level text st :
  let id := c :: s in
  validateBlock m i (block_to_js (Heading id level text)) st =
    (st' ← crossReference i id (block_to_js (Heading id level text)) (JStr (js "heading"))
           (map_get (JStr id) m)
           (seen_add (JStr id) (push_if (seen_has (JStr id) st) (EDuplicateId i id) st));
     Some (push_if (bad_level (level_to_js level)) (EHeadingLevel i id) st')).
Proof. reflexivity. Qed.

Lemma validateBlock_list_item m i c s level text st :
  let id := c :: s in
  validateBlock m i (block_to_js (ListItem id level text)) st =
    (st' ← crossReference i id (block_to_js (ListItem id level text)) (JStr (js "list_item"))
           (map_get (JStr id) m)
           (seen_add (JStr id) (push_if (seen_has (JStr id) st) (EDuplicateId i id) st));
     Some (push_if (bad_level (level_to_js level)) (EListLevel i id) st')).
Proof. reflexivity. Qed.

Lemma validateBlock_self m i (b : Block) seen :
  map_get (JStr (block_id b)) m = block_to_js b ->
  level_ok b -> NoDup (block_ids b) -> Forall (fun x => x <> []) (block_ids b) ->
  fresh (block_ids b) seen ->
  validateBlock m i (block_to_js b) (mkVState [] seen)
  = Some (mkVState [] (seen_after (block_ids b) seen)).
Proof.
  intros Hget Hlvl Hnd Hne Hf.
  unfold block_ids in *. apply fresh_cons_inv in Hf as (Hx & Hnd' & Hf'); [|done].
  apply Forall_cons in Hne as [Hne1 Hne'].
  rewrite seen_after_cons.
  destruct b as [id t|id l t|id t|id l t|id rows]; cbn [block_id] in *;
    (destruct id as [|c s]; [done|]).
  - rewrite validateBlock_title. cbv zeta. rewrite Hget.
    rewrite (crossReference_self i (c :: s) (Title (c :: s) t)).
    cbn [mbind option_bind]. by rewrite seen_has_fresh.
  - rewrite validateBlock_heading. cbv zeta. rewrite Hget.
    rewrite (crossReference_self i (c :: s) (Heading (c :: s) l t)).
    cbn [mbind option_bind]. rewrite bad_level_ok by done. by rewrite seen_has_fresh.
  - rewrite validateBlock_paragraph. cbv zeta. rewrite Hget.
    rewrite (crossReference_self i (c :: s) (Paragraph (c :: s) t)).
    cbn [mbind option_bind]. by rewrite seen_has_fresh.
  - rewrite validateBlock_list_item. cbv zeta. rewrite Hget.
    rewrite (crossReference_self i (c :: s) (ListItem (c :: s) l t)).
    cbn [mbind option_bind]. rewrite bad_level_ok by done. by rewrite seen_has_fresh.
  - rewrite validateBlock_table. cbv zeta. rewrite Hget.
    rewrite (crossReference_self i (c :: s) (Table (c :: s) rows)).
    cbn [mbind option_bind]. rewrite seen_has_fresh by done.
    unfold seen_add; cbn [push_if st_errors st_seen].
    rewrite validateRows_self by done. cbn [mbind option_bind].
    apply tableGeometry_self.
Qed.

Lemma validateBlocks_self m (bs : list Block) : forall i seen,
  (forall b, In b bs -> map_get (JStr (block_id b)) m = block_to_js b) ->
  Forall level_ok bs -> NoDup (all_ids bs) -> Forall (fun x => x <> []) (all_ids bs) ->
  fresh (all_ids bs) seen ->
  validateBlocks m i (List.map block_to_js bs) (mkVState [] seen)
  = Some (mkVState [] (seen_after (all_ids bs) seen)).
Proof.
  induction bs as [|b rest IH]; intros i seen Hget Hlvl Hnd Hne Hf; [done|].
  change (all_ids (b :: rest)) with (block_ids b ++ all_ids rest) in *.
  apply fresh_app_inv in Hf as (Hnd1 & Hf1 & Hnd2 & Hf2); [|done].
  apply Forall_app in Hne as [Hne1 Hne2].
  apply Forall_cons in Hlvl as [Hl1 Hl2].
  cbn [List.map validateBlocks].
  rewrite validateBlock_self; try done; [|apply Hget; by left].
  cbn [mbind option_bind]. rewrite IH; try done.
  - by rewrite seen_after_app.
  - intros b' Hb'. apply Hget. by right.
Qed.

Lemma NoDup_all_ids_block_id (bs : list Block) :
  NoDup (all_ids bs) -> NoDup (List.map block_id bs).
Proof.
  induction bs as [|b rest IH]; intros Hnd; [constructor|].
  change (all_ids (b :: rest)) with (block_ids b ++ all_ids rest) in Hnd.
  apply NoDup_app in Hnd as (Hnd1 & Hdisj & Hnd2).
  simpl. apply NoDup_cons. split; [|by apply IH].
  intros Hin. apply list_elem_of_In, in_map_iff in Hin as (b' & Heq & Hb').
  apply (Hdisj (block_id b)).
  - unfold block_ids. apply list_elem_of_In. by left.
  - apply list_elem_of_In. unfold all_ids. apply in_flat_map. exists b'. split; [done|].
    unfold block_ids. left. done.
Qed.

Theorem self_validation_typed (d : Document) :
  ids_ok (blocks d) -> Forall level_ok (blocks d) ->
  validateModifiedJson (document_to_js d) (document_to_js d) = Some (mkResult true []).
Proof.
  intros [Hnd Hne] Hlvl. unfold validateModifiedJson.
  change (truthy (document_to_js d)) with true.
  change (is_object (document_to_js d)) with true.
  change (getProp (document_to_js d) (js "metadata")) with (Some (metadata_to_js (metadata d))).
  change (getProp (document_to_js d) (js "blocks"))
    with (Some (JArr (List.map block_to_js (blocks d)))).
  cbn [negb orb mbind option_bind truthy metadata_to_js is_object typeof].
  rewrite originalMap_typed. cbn [mbind option_bind].
  rewrite validateBlocks_self; [done | | done | done | done | by intros x _ []].
  intros b Hb. apply map_get_typed; [by apply NoDup_all_ids_block_id | done].
Qed.

(** *** Identifiers *)

Lemma unjs_js s : unjs (js s) = s.
Proof.
  unfold unjs, js. rewrite List.map_map.
  rewrite (List.map_ext _ (fun a => a)) by apply ascii_N_embedding.
  rewrite List.map_id. apply string_of_list_ascii_of_string.
Qed.

Lemma js_inj a b : js a = js b -> a = b.
Proof. intros H. apply (f_equal unjs) in H. by rewrite !unjs_js in H. Qed.

Lemma js_app a b : js (String.append a b) = js a ++ js b.
Proof.
  induction a as [|x a IH]; [done|].
  change (js (String x (String.append a b)) = js (String x a) ++ js b).
  unfold js in *. simpl. by rewrite IH.
Qed.

Lemma String_of_nat_inj n n' : String_of_nat n = String_of_nat n' -> n = n'.
Proof.
  intros H%js_inj. apply DecimalNat.Unsigned.to_uint_inj.
  apply (f_equal NilEmpty.uint_of_string) in H. rewrite !NilEmpty.usu in H. congruence.
Qed.

Lemma string_of_uint_digits d :
  Forall (fun c => is_digit c = true) (js (NilEmpty.string_of_uint d)).
Proof. induction d; simpl; constructor; done. Qed.

Lemma String_of_nat_digits n : Forall (fun c => is_digit c = true) (String_of_nat n).
Proof. apply string_of_uint_digits. Qed.

Lemma pad4_digits n : Forall (fun c => is_digit c = true) (pad4 n).
Proof.
  unfold pad4, padStart0. apply Forall_app. split; [|apply String_of_nat_digits].
  induction (4 - _) as [|k IH]; simpl; constructor; done.
Qed.

Lemma repeat_zero_js n : repeat 48%N n = js (zeros n).
Proof. induction n as [|n IH]; simpl; [done|]. unfold js, zeros in *. simpl. by rewrite IH. Qed.

Lemma of_uint_zeros n d :
  Nat.of_uint <$> NilEmpty.uint_of_string (String.append (zeros n) (NilEmpty.string_of_uint d))
  = Some (Nat.of_uint d).
Proof.
  induction n as [|n IH].
  - change (String.append (zeros 0) (NilEmpty.string_of_uint d))
      with (NilEmpty.string_of_uint d).
    by rewrite NilEmpty.usu.
  - change (String.append (zeros (S n)) (NilEmpty.string_of_uint d))
      with (String "0"%char (String.append (zeros n) (NilEmpty.string_of_uint d))).
    cbn [NilEmpty.uint_of_string].
    destruct (NilEmpty.uint_of_string _) as [d'|]; simpl in *; [|done].
    injection IH as IH. f_equal. rewrite <- IH. reflexivity.
Qed.

Lemma pad4_inj n n' : pad4 n = pad4 n' -> n = n'.
Proof.
  unfold pad4, padStart0, String_of_nat. rewrite !repeat_zero_js, <- !js_app.
  intros H%js_inj.
  apply (f_equal (fun s => Nat.of_uint <$> NilEmpty.uint_of_string s)) in H.
  rewrite !of_uint_zeros, !DecimalNat.Unsigned.of_to in H. congruence.
Qed.

Lemma split_at_sep (x : N) (a a' b b' : jsstring) :
  ~ In x a -> ~ In x a' -> a ++ x :: b = a' ++ x :: b' -> a = a' /\ b = b'.
Proof.
  revert a'. induction a as [|y a IH]; intros [|y' a'] Ha Ha' H; simpl in *.
  - by injection H.
  - injection H as -> _. exfalso. apply Ha'. by left.
  - injection H as -> _. exfalso. apply Ha. by left.
  - injection H as -> H. destruct (IH a') as [-> ->]; auto.
Qed.

Lemma digits_no_underscore (s : jsstring) :
  Forall (fun c => is_digit c = true) s -> ~ In 95%N s.
Proof.
  intros H Hin. rewrite Forall_forall in H. apply list_elem_of_In in Hin.
  by apply H in Hin.
Qed.

Lemma blockId_inj k k' : blockId k = blockId k' -> k = k'.
Proof. unfold blockId. intros H%app_inv_head. by apply pad4_inj. Qed.

Lemma cellId_inj k r c k' r' c' :
  cellId k r c = cellId k' r' c' -> k = k' /\ r = r' /\ c = c'.
Proof.
  unfold cellId. intros H%app_inv_head.
  change (js "_") with [95%N] in H. simpl in H.
  apply split_at_sep in H as [Hk H]; try apply digits_no_underscore, pad4_digits.
  apply split_at_sep in H as [Hr Hc]; try apply digits_no_underscore, String_of_nat_digits.
  split; [by apply pad4_inj|]. split; by apply String_of_nat_inj.
Qed.

Lemma blockId_not_cellId k k' r c : blockId k <> cellId k' r c.
Proof. unfold blockId, cellId. discriminate. Qed.

Lemma blockId_nonempty k : blockId k <> [].
Proof. unfold blockId. discriminate. Qed.

Lemma cellId_nonempty k r c : cellId k r c <> [].
Proof. unfold cellId. discriminate. Qed.

Lemma owned_unique k k' id : owned k id -> owned k' id -> k = k'.
Proof.
  intros [->|(r & c & ->)] [H|(r' & c' & H)].
  - by apply blockId_inj.
  - by apply blockId_not_cellId in H.
  - symmetry in H. by apply blockId_not_cellId in H.
  - by apply cellId_inj in H as [? _].
Qed.

Lemma owned_nonempty k id : owned k id -> id <> [].
Proof. intros [->|(r & c & ->)]; [apply blockId_nonempty | apply cellId_nonempty]. Qed.

Lemma extractCells_ids k r tcs : forall c0,
  NoDup (List.map cell_id (extractCells k r c0 tcs))
  /\ forall id, In id (List.map cell_id (extractCells k r c0 tcs)) ->
                exists c, c0 <= c /\ id = cellId k r c.
Proof.
  induction tcs as [|tc rest IH]; intros c0; simpl.
  - split; [constructor | by intros ? []].
  - destruct (IH (S c0)) as [Hnd Hin]. split.
    + apply NoDup_cons. split; [|done]. intros H%list_elem_of_In.
      apply Hin in H as (c & Hc & Heq). apply cellId_inj in Heq as (_ & _ & ->). lia.
    + intros id [<-|H]; [exists c0; split; [lia | done]|].
      apply Hin in H as (c & Hc & ->). exists c. split; [lia | done].
Qed.

Lemma extractRows_ids k trs : forall r0,
  NoDup (List.map cell_id (concat (extractRows k r0 trs)))
  /\ forall id, In id (List.map cell_id (concat (extractRows k r0 trs))) ->
                exists r c, r0 <= r /\ id = cellId k r c.
Proof.
  induction trs as [|tr rest IH]; intros r0; simpl.
  - split; [constructor | by intros ? []].
  - destruct (IH (S r0)) as [Hnd Hin].
    destruct (extractCells_ids k r0 (getDirectChildren tr (js "w:tc")) 0) as [Hnd0 Hin0].
    rewrite map_app. split.
    + apply NoDup_app. split; [done|]. split; [|done].
      intros id H1%list_elem_of_In H2%list_elem_of_In.
      apply Hin0 in H1 as (c & _ & ->). apply Hin in H2 as (r & c' & Hr & Heq).
      apply cellId_inj in Heq as (_ & -> & _). lia.
    + intros id H%in_app_or. destruct H as [H|H].
      * apply Hin0 in H as (c & _ & ->). exists r0, c. split; [lia | done].
      * apply Hin in H as (r & c & Hr & ->). exists r, c. split; [lia | done].
Qed.

Lemma extractTable_ids tbl k :
  NoDup (block_ids (extractTable tbl k))
  /\ forall id, In id (block_ids (extractTable tbl k)) -> owned k id.
Proof.
  unfold extractTable, block_ids; simpl.
  destruct (extractRows_ids k (getDirectChildren tbl (js "w:tr")) 0) as [Hnd Hin]. split.
  - apply NoDup_cons. split; [|done]. intros H%list_elem_of_In.
    apply Hin in H as (r & c & _ & Heq). by apply blockId_not_cellId in Heq.
  - intros id [<-|H]; [by left|]. apply Hin in H as (r & c & _ & ->). right. eauto.
Qed.

Lemma paragraphBlock_ids k result :
  block_ids (paragraphBlock k result) = [blockId k].
Proof. by destruct result. Qed.

Lemma all_ids_snoc bs b : all_ids (bs ++ [b]) = all_ids bs ++ block_ids b.
Proof. unfold all_ids. rewrite flat_map_app. simpl. by rewrite app_nil_r. Qed.

Lemma ids_invariant_push bs k b :
  ids_invariant (bs, k) -> NoDup (block_ids b) ->
  (forall id, In id (block_ids b) -> owned k id) ->
  ids_invariant (bs ++ [b], S k).
Proof.
  intros [Hnd Hown] Hndb Hownb. unfold ids_invariant; simpl in *.
  rewrite all_ids_snoc. split.
  - apply NoDup_app. split; [done|]. split; [|done].
    intros id H1%list_elem_of_In H2%list_elem_of_In.
    apply Hown in H1 as (k' & Hlt & Ho). apply Hownb in H2.
    pose proof (owned_unique _ _ _ Ho H2). lia.
  - intros id H%in_app_or. destruct H as [H|H].
    + apply Hown in H as (k' & Hlt & Ho). exists k'. split; [lia | done].
    + exists k. split; [lia | by apply Hownb].
Qed.

Lemma ids_invariant_skip bs k : ids_invariant (bs, k) -> ids_invariant (bs, S k).
Proof.
  intros [Hnd Hown]. split; [done|]. simpl in *.
  intros id H. apply Hown in H as (k' & Hlt & Ho). exists k'. split; [lia | done].
Qed.

Lemma extractStep_invariant hs st child :
  ids_invariant st -> ids_invariant (extractStep hs st child).
Proof.
  destruct st as [bs k]. intros Hinv. unfold extractStep.
  destruct (negb (is_element child)); [done|].
  destruct (str_eqb (nodeName child) (js "w:p")).
  - destruct (isImageOnlyParagraph child); [by apply ids_invariant_skip|].
    destruct (trim (getPlainText child)); [by apply ids_invariant_skip|].
    apply ids_invariant_push; [done | |]; rewrite paragraphBlock_ids.
    + apply NoDup_singleton.
    + intros id [<-|[]]. by left.
  - destruct (str_eqb (nodeName child) (js "w:tbl")); [|done].
    apply ids_invariant_push; [done | |]; apply extractTable_ids.
Qed.

Lemma fold_extract_invariant hs children : forall st,
  ids_invariant st -> ids_invariant (fold_left (extractStep hs) children st).
Proof.
  induction children as [|c rest IH]; intros st Hinv; simpl; [done|].
  by apply IH, extractStep_invariant.
Qed.

Lemma extractBlocks_ids_ok hs body : ids_ok (extractBlocks hs body).
Proof.
  unfold extractBlocks.
  destruct (fold_extract_invariant hs (childNodes body) ([], 0)) as [Hnd Hown].
  { split; [constructor | by intros ? []]. }
  split; [done|]. apply Forall_forall. intros id H%list_elem_of_In.
  apply Hown in H as (k & _ & Ho). by apply owned_nonempty in Ho.
Qed.

Lemma titlePass_ids bs : all_ids (titlePass bs) = all_ids bs.
Proof.
  induction bs as [|b rest IH]; [done|].
  destruct b; simpl; try done; by rewrite IH.
Qed.

Lemma extractDocx_ids_ok hs body fn now : ids_ok (blocks (extractDocx hs body fn now)).
Proof.
  unfold extractDocx, ids_ok; simpl. rewrite titlePass_ids. apply extractBlocks_ids_ok.
Qed.

(** *** The two traversals *)

Lemma extractStep_other hs st child :
  isBlockNode child = false -> extractStep hs st child = st.
Proof.
  unfold isBlockNode, extractStep. destruct st as [bs k].
  destruct (is_element child); simpl; [|done].
  intros H%orb_false_iff. destruct H as [-> ->]. done.
Qed.

Lemma extractStep_block hs bs k child :
  isBlockNode child = true ->
  extractStep hs (bs, k) child = (bs ++ emitted hs k child, S k).
Proof.
  unfold isBlockNode, emitted, extractStep.
  destruct (is_element child); simpl; [|done].
  destruct (str_eqb (nodeName child) (js "w:p")); simpl.
  - intros _. destruct (isImageOnlyParagraph child); simpl; [by rewrite app_nil_r|].
    destruct (trim (getPlainText child)); simpl; [by rewrite app_nil_r | done].
  - intros ->. done.
Qed.

Lemma fold_extract hs children : forall bs k,
  fold_left (extractStep hs) children (bs, k)
  = (bs ++ concat (imap (fun j c => emitted hs (k + j) c) (List.filter isBlockNode children)),
     k + length (List.filter isBlockNode children)).
Proof.
  induction children as [|c rest IH]; intros bs k; cbn [fold_left List.filter].
  - simpl. by rewrite app_nil_r, Nat.add_0_r.
  - destruct (isBlockNode c) eqn:Hc.
    + rewrite extractStep_block by done. rewrite IH. simpl.
      rewrite Nat.add_0_r, <- app_assoc. f_equal; [|lia]. do 3 f_equal.
      apply imap_ext. intros j x _. simpl. f_equal. lia.
    + rewrite extractStep_other by done. apply IH.
Qed.

Lemma emitted_id hs k child b : In b (emitted hs k child) -> block_id b = blockId k.
Proof.
  unfold emitted, extractStep.
  destruct (negb (is_element child)); [done|].
  destruct (str_eqb (nodeName child) (js "w:p")).
  - destruct (isImageOnlyParagraph child); [done|].
    destruct (trim (getPlainText child)); [done|].
    simpl. intros [<-|[]]. by destruct (classifyParagraph child hs).
  - destruct (str_eqb (nodeName child) (js "w:tbl")); [|done].
    simpl. intros [<-|[]]. done.
Qed.

Lemma emitted_at_most_one hs k child : length (emitted hs k child) <= 1.
Proof.
  unfold emitted, extractStep.
  destruct (negb (is_element child)); [simpl; lia|].
  destruct (str_eqb (nodeName child) (js "w:p")).
  - destruct (isImageOnlyParagraph child); [simpl; lia|].
    destruct (trim (getPlainText child)); simpl; lia.
  - destruct (str_eqb (nodeName child) (js "w:tbl")); simpl; lia.
Qed.

Lemma traverseStep_other oj st child :
  isBlockNode child = false ->
  originalBlockNodes (traverseStep oj st child) = originalBlockNodes st
  /\ blockIndex (traverseStep oj st child) = blockIndex st.
Proof.
  unfold isBlockNode, traverseStep.
  destruct (is_element child); simpl; [|done].
  intros H%orb_false_iff. destruct H as [-> ->]. done.
Qed.

Lemma traverseStep_block oj st child :
  isBlockNode child = true ->
  originalBlockNodes (traverseStep oj st child)
  = <[blockId (blockIndex st) := child]> (originalBlockNodes st)
  /\ blockIndex (traverseStep oj st child) = S (blockIndex st).
Proof.
  unfold isBlockNode, traverseStep.
  destruct (is_element child); simpl; [|done].
  destruct (str_eqb (nodeName child) (js "w:p")); simpl; [done|].
  intros ->. done.
Qed.

Lemma fold_traverse oj children : forall st,
  let st' := fold_left (traverseStep oj) children st in
  let ns := List.filter isBlockNode children in
  blockIndex st' = blockIndex st + length ns
  /\ (forall j c, ns !! j = Some c ->
        originalBlockNodes st' !! blockId (blockIndex st + j) = Some c)
  /\ (forall id, (forall j, j < length ns -> id <> blockId (blockIndex st + j)) ->
        originalBlockNodes st' !! id = originalBlockNodes st !! id).
Proof.
  induction children as [|c rest IH]; intros st; cbv zeta; cbn [fold_left List.filter].
  { simpl. split; [lia|]. split; [by intros j c' H | done]. }
  destruct (isBlockNode c) eqn:Hc.
  - destruct (traverseStep_block oj st c Hc) as [Hmap Hidx].
    destruct (IH (traverseStep oj st c)) as (Hlen & Hfound & Hother).
    rewrite Hidx in *. rewrite Hmap in *. simpl. split; [lia|]. split.
    + intros [|j] c' Hj; simpl in Hj.
      * injection Hj as <-. rewrite Hother.
        -- rewrite Nat.add_0_r. apply lookup_insert_eq.
        -- intros j _ Heq%blockId_inj. lia.
      * replace (blockIndex st + S j) with (S (blockIndex st) + j) by lia. by apply Hfound.
    + intros id Hid. rewrite Hother.
      * apply lookup_insert_ne. intros Heq. apply (Hid 0); [lia|].
        by rewrite Nat.add_0_r.
      * intros j Hj. replace (S (blockIndex st) + j) with (blockIndex st + S j) by lia.
        apply Hid. lia.
  - destruct (traverseStep_other oj st c Hc) as [Hmap Hidx].
    destruct (IH (traverseStep oj st c)) as (Hlen & Hfound & Hother).
    rewrite Hidx in *. rewrite Hmap in *. done.
Qed.

Lemma blockId_among_dec id n :
  (exists j, j < n /\ id = blockId j) \/ (forall j, j < n -> id <> blockId j).
Proof.
  induction n as [|n IH]; [right; intros; lia|].
  destruct IH as [(j & Hj & ->)|Hno]; [left; exists j; split; [lia | done]|].
  destruct (str_eqb id (blockId n)) eqn:E.
  - apply str_eqb_eq in E. left. exists n. split; [lia | done].
  - right. intros j Hj. destruct (Nat.eq_dec j n) as [->|Hne].
    + intros Heq. apply str_eqb_eq in Heq. congruence.
    + apply Hno. lia.
Qed.

Lemma titlePass_block_ids bs : List.map block_id (titlePass bs) = List.map block_id bs.
Proof.
  induction bs as [|b rest IH]; [done|].
  destruct b; simpl; try done; by rewrite IH.
Qed.

(** C1.  Over the same body, the traversal of the reconstructor and that of
    the extractor consume one index for each [w:p] or [w:tbl] child, in
    document order, and none for any other child: each loop ends with the
    number of these children as its index.  A turn of the loop of the
    extractor on such a child met at index [k] advances the index by one
    and appends what is emitted for the child: the table block
    [extractTable c k] for a table; nothing for a paragraph that holds
    only an image or whose plain text is empty; the block of the
    classified paragraph for any other paragraph; in each case at most
    one block, with the id [blockId k].  The map of the reconstructor
    sends [blockId k] to the k-th such child and holds nothing else; the
    blocks of the extractor are those emitted for these children in
    order, so the map sends the id of every block to the node it was
    extracted from.  The title pass keeps the ids, and [blockId] is
    injective. *)
Theorem traversals_agree (hs : gmap jsstring Z) (oj : option Document) (body : Node)
        (fn : option jsstring) (now : jsstring) :
  let ns := blockNodes body in
  let tr := traverse oj body in
  blockIndex tr = length ns
  /\ snd (fold_left (extractStep hs) (childNodes body) ([], 0)) = length ns
  /\ (forall bs k c,
        extractStep hs (bs, k) c
        = if isBlockNode c then (bs ++ emitted hs k c, S k) else (bs, k))
  /\ (forall k c, has_name (js "w:tbl") c = true -> emitted hs k c = [extractTable c k])
  /\ (forall k c, has_name (js "w:p") c = true ->
        isImageOnlyParagraph c = false -> trim (getPlainText c) <> [] ->
        emitted hs k c = [paragraphBlock k (classifyParagraph c hs)])
  /\ (forall k c, has_name (js "w:p") c = true ->
        isImageOnlyParagraph c = true \/ trim (getPlainText c) = [] ->
        emitted hs k c = [])
  /\ (forall k r, block_id (paragraphBlock k r) = blockId k)
  /\ (forall k c, block_id (extractTable c k) = blockId k)
  /\ (forall k c, ns !! k = Some c -> originalBlockNodes tr !! blockId k = Some c)
  /\ (forall id c, originalBlockNodes tr !! id = Some c ->
        exists k, id = blockId k /\ ns !! k = Some c)
  /\ extractBlocks hs body = concat (imap (emitted hs) ns)
  /\ (forall k c b, ns !! k = Some c -> In b (emitted hs k c) ->
        block_id b = blockId k /\ emitted hs k c = [b]
        /\ originalBlockNodes tr !! block_id b = Some c)
  /\ List.map block_id (blocks (extractDocx hs body fn now))
     = List.map block_id (extractBlocks hs body)
  /\ (forall k k', blockId k = blockId k' -> k = k').
Proof.
  cbv zeta. unfold traverse, blockNodes.
  destruct (fold_traverse oj (childNodes body) (mkTraversal ∅ emptyTemplates [] 0))
    as (Hlen & Hfound & Hother). simpl in Hlen, Hfound, Hother.
  split; [done|]. split; [by rewrite fold_extract|].
  split; [|split; [|split; [|split; [|split; [|split; [|split; [done|]]]]]]].
  - intros bs k c. destruct (isBlockNode c) eqn:Hc.
    + by apply extractStep_block.
    + by apply extractStep_other.
  - intros k c Hc. unfold emitted, extractStep.
    unfold has_name in Hc. apply andb_true_iff in Hc as [-> Hname].
    apply str_eqb_eq in Hname. rewrite Hname. reflexivity.
  - intros k c Hc Himg Hplain. unfold emitted, extractStep.
    unfold has_name in Hc. apply andb_true_iff in Hc as [-> ->]. simpl.
    rewrite Himg. by destruct (trim (getPlainText c)).
  - intros k c Hc Hskip. unfold emitted, extractStep.
    unfold has_name in Hc. apply andb_true_iff in Hc as [-> ->]. simpl.
    destruct (isImageOnlyParagraph c); [done|].
    destruct Hskip as [Hskip| ->]; done.
  - intros k r. by destruct r.
  - done.
  - split; [|split; [|split; [|split]]].
    + intros id c Hid.
      destruct (blockId_among_dec id (length (List.filter isBlockNode (childNodes body))))
        as [(j & Hj & ->)|Hno].
      * exists j. split; [done|].
        destruct (lookup_lt_is_Some_2 (List.filter isBlockNode (childNodes body)) j Hj)
          as [c' Hc'].
        rewrite (Hfound _ _ Hc') in Hid. congruence.
      * rewrite Hother in Hid by done. by rewrite lookup_empty in Hid.
    + unfold extractBlocks. rewrite fold_extract. done.
    + intros k c b Hk Hb. pose proof (emitted_id _ _ _ _ Hb) as Hidb.
      split; [done|]. split.
      * pose proof (emitted_at_most_one hs k c) as Hle.
        destruct (emitted hs k c) as [|b0 [|b1 l]]; simpl in *; [done | | lia].
        destruct Hb as [->|[]]. done.
      * rewrite Hidb. by apply Hfound.
    + unfold extractDocx; simpl. apply titlePass_block_ids.
    + apply blockId_inj.
Qed.

(** *** The title pass *)

Lemma titlePass_passed_over (pre rest : list Block) :
  Forall (fun b => passed_over b = true) pre ->
  titlePass (pre ++ rest) = pre ++ titlePass rest.
Proof.
  induction pre as [|b pre IH]; intros H; [done|].
  apply Forall_cons in H as [Hb Hpre].
  destruct b; try done; simpl; by rewrite IH.
Qed.

Lemma emitted_not_title hs k c : Forall (fun b => is_title b = false) (emitted hs k c).
Proof.
  unfold emitted, extractStep.
  destruct (negb (is_element c)); [constructor|].
  destruct (str_eqb (nodeName c) (js "w:p")).
  - destruct (isImageOnlyParagraph c); [constructor|].
    destruct (trim (getPlainText c)); [constructor|].
    simpl. constructor; [|constructor]. by destruct (classifyParagraph c hs).
  - destruct (str_eqb (nodeName c) (js "w:tbl")); simpl; repeat constructor.
Qed.

Lemma extractBlocks_no_title hs body :
  Forall (fun b => is_title b = false) (extractBlocks hs body).
Proof.
  unfold extractBlocks. rewrite fold_extract. simpl.
  apply Forall_concat, Forall_forall. intros l Hl.
  apply elem_of_lookup_imap in Hl as (j & c & -> & _). apply emitted_not_title.
Qed.

(** C8.  Let [pre] hold only blocks the title scan passes over (list items;
    the extractor builds no title before the pass).  If the next block is a
    heading or a table, the pass changes nothing.  If it is a paragraph, the
    pass retypes exactly that paragraph as the title and leaves [pre] and
    everything after it as they are.  With no such block it changes
    nothing.  [extractDocx] applies this pass to the sequence built. *)
Theorem title_pass_first_paragraph (pre post : list Block) :
  Forall (fun b => passed_over b = true) pre ->
  (forall id level text,
      titlePass (pre ++ Heading id level text :: post) = pre ++ Heading id level text :: post)
  /\ (forall id rows,
      titlePass (pre ++ Table id rows :: post) = pre ++ Table id rows :: post)
  /\ (forall id text,
      titlePass (pre ++ Paragraph id text :: post) = pre ++ Title id text :: post)
  /\ titlePass pre = pre
  /\ (forall hs body fn now,
      blocks (extractDocx hs body fn now) = titlePass (extractBlocks hs body)
      /\ Forall (fun b => is_title b = false) (extractBlocks hs body)).
Proof.
  intros Hpre. repeat split; intros; try (by rewrite titlePass_passed_over).
  - rewrite <- (app_nil_r pre) at 1. rewrite titlePass_passed_over by done.
    simpl. apply app_nil_r.
  - apply extractBlocks_no_title.
Qed.

(** *** Tabs and line breaks in formatted text *)

Lemma has_name_eq tag n : has_name tag n = true -> nodeName n = tag.
Proof. unfold has_name. intros [_ H]%andb_true_iff. by apply str_eqb_eq. Qed.

Lemma has_name_other tag tag' n :
  has_name tag n = true -> tag <> tag' -> has_name tag' n = false.
Proof.
  intros H Hne. apply has_name_eq in H. unfold has_name. rewrite H.
  rewrite str_eqb_neq by done. apply andb_false_r.
Qed.

Lemma textContent_wt text : textContent (wt text) = text.
Proof. simpl. apply app_nil_r. Qed.

(** A tab character inside the text of a [w:t] is text of the run: it
    stays inside the markers. *)
Lemma tab_character_in_text_stays_inside_markers :
  getFormattedText bold_text_with_tab = js "**a" ++ [9%N] ++ js "b**"
  /\ getFormattedText bold_text_with_tab <> js "**a**" ++ [9%N] ++ js "**b**".
Proof. split; [reflexivity|]. intros H. vm_compute in H. discriminate H. Qed.

(** *** Markdown *)

Lemma head_app {A} (l1 l2 : list A) :
  head (l1 ++ l2) = match head l1 with Some x => Some x | None => head l2 end.
Proof. by destruct l1. Qed.

Lemma markdown_precedence (s : jsstring) :
  rx_match markdown_regex s =
    match rx_match (emphasis (js "***") true true) s with
    | Some r => Some r
    | None =>
        match rx_match (emphasis (js "**") true false) s with
        | Some r => Some r
        | None => rx_match (emphasis (js "*") false true) s
        end
    end.
Proof. unfold rx_match, markdown_regex, rx_alt. by rewrite !head_app. Qed.

(** *** Matchers *)

Lemma in_rx_bind {A B} (m : Rx A) (f : A -> Rx B) s b r :
  In (b, r) (rx_bind m f s) <-> exists a s', In (a, s') (m s) /\ In (b, r) (f a s').
Proof.
  unfold rx_bind. rewrite in_flat_map. split.
  - intros ([a s'] & H1 & H2). eauto.
  - intros (a & s' & H1 & H2). exists (a, s'). eauto.
Qed.

Lemma in_rx_ret {A} (a : A) s b r : In (b, r) (rx_ret a s) <-> b = a /\ r = s.
Proof. unfold rx_ret. simpl. split; [intros [[= <- <-]|[]]; done | intros [-> ->]; by left]. Qed.

Lemma matches_class p : matches (rx_class p) (one_of p).
Proof.
  intros s a r. unfold rx_class, one_of. destruct s as [|c s']; simpl.
  - split; [done|]. intros [H (c & -> & _)]. discriminate.
  - destruct (p c) eqn:Hp; simpl.
    + split.
      * intros [[= <- <-]|[]]. split; [done|]. eauto.
      * intros [H (c' & -> & Hc')]. injection H as -> ->. by left.
    + split; [done|]. intros [H (c' & -> & Hc')]. injection H as -> ->. congruence.
Qed.

Lemma matches_seq X Y Qa Qb :
  matches X Qa -> matches Y Qb ->
  matches (a <~ X ;; b <~ Y ;; rx_ret (a ++ b))%rx (seq_of Qa Qb).
Proof.
  intros HX HY s m r. rewrite in_rx_bind. split.
  - intros (a & s1 & Ha & H). apply in_rx_bind in H as (b & s2 & Hb & H).
    apply in_rx_ret in H as [-> ->].
    apply HX in Ha as [-> Ha]. apply HY in Hb as [-> Hb].
    split; [by rewrite <- app_assoc|]. exists a, b. done.
  - intros [-> (a & b & -> & Ha & Hb)]. exists a, (b ++ r). split.
    + apply HX. split; [by rewrite <- app_assoc | done].
    + apply in_rx_bind. exists b, r. split; [by apply HY|]. by apply in_rx_ret.
Qed.

Lemma star_fuel_sound X Q fuel :
  matches X Q -> forall s m r, In (m, r) (rx_star_fuel fuel X s) -> s = m ++ r /\ pieces Q m.
Proof.
  intros HX. induction fuel as [|n IH]; intros s m r; simpl.
  - intros [[= <- <-]|[]]. split; [done | constructor].
  - intros H%in_app_or. destruct H as [H|[[= <- <-]|[]]]; [|split; [done | constructor]].
    apply in_flat_map in H as ([a s1] & Ha & H). simpl in H.
    destruct (length s1 <? length s); [|done].
    apply in_map_iff in H as ([b s2] & [= <- <-] & Hb). simpl.
    apply HX in Ha as [-> Ha]. apply IH in Hb as [-> Hb].
    split; [by rewrite <- app_assoc | by constructor].
Qed.

Lemma star_fuel_complete X Q :
  matches X Q -> (forall a, Q a -> a <> []) ->
  forall m, pieces Q m -> forall r fuel, length (m ++ r) <= fuel ->
  In (m, r) (rx_star_fuel fuel X (m ++ r)).
Proof.
  intros HX Hne m Hm. induction Hm as [|a b Ha Hb IH]; intros r fuel Hlen.
  - destruct fuel; simpl; [by left|]. apply in_or_app. right. by left.
  - assert (Hpos : 0 < length a) by (specialize (Hne a Ha); destruct a; [done | simpl; lia]).
    rewrite <- app_assoc in *. rewrite length_app in Hlen.
    destruct fuel as [|n]; [lia|]. simpl. apply in_or_app. left.
    apply in_flat_map. exists (a, b ++ r). split; [by apply HX|]. simpl.
    assert (Hlt : (length (b ++ r) <? length (a ++ b ++ r)) = true).
    { apply Nat.ltb_lt. rewrite (length_app a). lia. }
    rewrite Hlt. apply in_map_iff. exists (b, r). split; [done|]. apply IH. lia.
Qed.

Lemma matches_star X Q :
  matches X Q -> (forall a, Q a -> a <> []) -> matches (rx_star X) (pieces Q).
Proof.
  intros HX Hne s m r. unfold rx_star. split.
  - by apply (star_fuel_sound X Q (length s) HX).
  - intros [-> Hm]. by apply (star_fuel_complete X Q HX Hne).
Qed.

Lemma one_of_nonempty p a : one_of p a -> a <> [].
Proof. by intros (c & -> & _). Qed.

Lemma pieces_one_of p m : pieces (one_of p) m <-> forallb p m = true.
Proof.
  split.
  - induction 1 as [|a b (c & -> & Hc) Hb IH]; [done|]. simpl. by rewrite Hc, IH.
  - induction m as [|c m IH]; simpl; [constructor|].
    intros [Hc Hm]%andb_true_iff. apply (pieces_cons _ [c] m); [by exists c | by apply IH].
Qed.

Lemma matches_plus_class p : matches (rx_plus (rx_class p)) (some_of p).
Proof.
  intros s m r. unfold rx_plus.
  rewrite (matches_seq _ _ _ _ (matches_class p)
             (matches_star _ _ (matches_class p) (one_of_nonempty p)) s m r).
  unfold seq_of, some_of. split; intros [-> H]; (split; [done|]).
  - destruct H as (a & b & -> & (c & -> & Hc) & Hb%pieces_one_of).
    split; [done|]. simpl. by rewrite Hc, Hb.
  - destruct H as [Hne Hall]. destruct m as [|c m]; [done|].
    simpl in Hall. apply andb_true_iff in Hall as [Hc Hm].
    exists [c], m. split; [done|]. split; [by exists c | by apply pieces_one_of].
Qed.

Lemma matches_star_class p : matches (rx_star (rx_class p)) (fun m => forallb p m = true).
Proof.
  intros s m r.
  rewrite (matches_star _ _ (matches_class p) (one_of_nonempty p) s m r).
  by rewrite pieces_one_of.
Qed.

(** *** Dotted numerals *)

Lemma dot_digits_nonempty a : dot_digits a -> a <> [].
Proof. intros (x & y & -> & (c & -> & _) & _). done. Qed.

Lemma is_dot_eq c : is_dot c = true -> c = 46%N.
Proof. unfold is_dot. by intros H%N.eqb_eq. Qed.

Lemma dotted_extend more : pieces dot_digits more ->
  forall k p, dotted k p -> exists k', dotted k' (p ++ more).
Proof.
  induction 1 as [|a b Ha Hb IH]; intros k p Hp.
  - rewrite app_nil_r. eauto.
  - destruct Ha as (x & d & -> & (c & -> & Hc%is_dot_eq) & [Hne Hd]). subst c.
    rewrite app_assoc. apply (IH (S k)). simpl. by constructor.
Qed.

Lemma pieces_snoc Q m a : pieces Q m -> Q a -> pieces Q (m ++ a).
Proof.
  induction 1 as [|x y Hx Hy IH]; intros Ha.
  - rewrite <- (app_nil_r a). simpl. constructor; [done | constructor].
  - rewrite <- app_assoc. constructor; [done | by apply IH].
Qed.

Lemma dotted_split k p : dotted k p ->
  exists d more, p = d ++ more /\ some_of is_digit d /\ pieces dot_digits more.
Proof.
  induction 1 as [d Hne Hd|k p d Hp IH Hne Hd].
  - exists d, []. rewrite app_nil_r. repeat split; [done | done | constructor].
  - destruct IH as (d0 & more & -> & Hd0 & Hmore).
    exists d0, (more ++ 46%N :: d). split; [by rewrite <- app_assoc|]. split; [done|].
    apply pieces_snoc; [done|]. exists [46%N], d. split; [done|].
    split; [by exists 46%N | done].
Qed.

Lemma matches_dotted_numeral : matches dotted_numeral (fun m => exists k, dotted k m).
Proof.
  intros s m r. unfold dotted_numeral.
  pose proof (matches_seq _ _ _ _ (matches_plus_class is_digit)
                (matches_star _ _
                   (matches_seq _ _ _ _ (matches_class is_dot) (matches_plus_class is_digit))
                   dot_digits_nonempty)) as H.
  rewrite (H s m r). split; intros [-> Hm]; (split; [done|]).
  - destruct Hm as (d & more & -> & [Hne Hd] & Hmore).
    apply (dotted_extend more Hmore 1 d). by constructor.
  - destruct Hm as [k Hk]. apply dotted_split in Hk as (d & more & -> & Hd & Hmore).
    exists d, more. done.
Qed.

Lemma filter_is_dot_digits d : forallb is_digit d = true -> List.filter is_dot d = [].
Proof.
  induction d as [|c d IH]; simpl; [done|]. intros [Hc Hd]%andb_true_iff.
  rewrite IH by done.
  unfold is_digit, is_dot in *. apply andb_true_iff in Hc as [H1 H2].
  apply N.leb_le in H1, H2. destruct (N.eqb_spec c 46); [lia | done].
Qed.

Lemma dotted_level k p : dotted k p -> split_dot_length p = k.
Proof.
  unfold split_dot_length. induction 1 as [d Hne Hd|k p d Hp IH Hne Hd].
  - by rewrite (filter_is_dot_digits d Hd).
  - rewrite List.filter_app, length_app. simpl.
    rewrite (filter_is_dot_digits d Hd). simpl. lia.
Qed.

(** *** The two patterns *)

Lemma in_heading_regex1 s g1 r :
  In (g1, r) (heading_regex1 s) <->
  exists ws sep ws2,
    s = g1 ++ ws ++ sep :: ws2 ++ r /\ (exists k, dotted k g1)
    /\ forallb is_space ws = true /\ is_heading_sep sep = true
    /\ forallb is_space ws2 = true.
Proof.
  unfold heading_regex1. rewrite in_rx_bind. split.
  - intros (g & s1 & Hg & H).
    apply in_rx_bind in H as (ws & s2 & Hws & H).
    apply in_rx_bind in H as (sep & s3 & Hsep & H).
    apply in_rx_bind in H as (ws2 & s4 & Hws2 & H).
    apply in_rx_ret in H as [-> ->].
    apply matches_dotted_numeral in Hg as [-> Hg].
    apply matches_star_class in Hws as [-> Hws].
    apply matches_class in Hsep as [-> (c & -> & Hc)].
    apply matches_star_class in Hws2 as [-> Hws2].
    exists ws, c, ws2. done.
  - intros (ws & sep & ws2 & -> & Hg & Hws & Hsep & Hws2).
    exists g1, (ws ++ sep :: ws2 ++ r). split; [by apply matches_dotted_numeral|].
    apply in_rx_bind. exists ws, (sep :: ws2 ++ r). split; [by apply matches_star_class|].
    apply in_rx_bind. exists [sep], (ws2 ++ r). split.
    { apply matches_class. split; [done | by exists sep]. }
    apply in_rx_bind. exists ws2, r. split; [by apply matches_star_class|].
    by apply in_rx_ret.
Qed.

Lemma in_heading_regex2 s g1 r :
  In (g1, r) (heading_regex2 s) <->
  exists ws c,
    s = g1 ++ ws ++ c :: r /\ some_of is_digit g1 /\ some_of is_space ws
    /\ is_heading_upper c = true.
Proof.
  unfold heading_regex2. rewrite in_rx_bind. split.
  - intros (g & s1 & Hg & H).
    apply in_rx_bind in H as (ws & s2 & Hws & H).
    apply in_rx_bind in H as (c & s3 & Hc & H).
    apply in_rx_ret in H as [-> ->].
    apply matches_plus_class in Hg as [-> Hg].
    apply matches_plus_class in Hws as [-> Hws].
    apply matches_class in Hc as [-> (c' & -> & Hc)].
    exists ws, c'. done.
  - intros (ws & c & -> & Hg & Hws & Hc).
    exists g1, (ws ++ c :: r). split; [by apply matches_plus_class|].
    apply in_rx_bind. exists ws, (c :: r). split; [by apply matches_plus_class|].
    apply in_rx_bind. exists [c], r. split.
    { apply matches_class. split; [done | by exists c]. }
    by apply in_rx_ret.
Qed.

Lemma head_in {A} (l : list A) x : head l = Some x -> In x l.
Proof. destruct l; [done|]. intros [= ->]. by left. Qed.

Lemma head_none {A} (l : list A) : head l = None -> forall x, ~ In x l.
Proof. destruct l; [by intros _ x [] | done]. Qed.

Lemma regex1_numbered_prefix s :
  (exists g1 r, In (g1, r) (heading_regex1 s)) <-> exists k, numbered_prefix k s.
Proof.
  split.
  - intros (g1 & r & H). apply in_heading_regex1 in H
      as (ws & sep & ws2 & -> & [k Hk] & Hws & Hsep & _).
    exists k, g1, ws, sep, (ws2 ++ r). done.
  - intros (k & p & ws & sep & rest & -> & Hk & Hws & Hsep).
    exists p, rest. apply in_heading_regex1. exists ws, sep, []. simpl. eauto 10.
Qed.

Lemma regex2_integer_then_upper s :
  (exists g1 r, In (g1, r) (heading_regex2 s)) <-> integer_then_upper s.
Proof.
  split.
  - intros (g1 & r & H). apply in_heading_regex2 in H
      as (ws & c & -> & [Hg1 Hg2] & [Hw1 Hw2] & Hc).
    exists g1, ws, c, r. done.
  - intros (d & ws & c & rest & -> & Hd1 & Hd2 & Hw1 & Hw2 & Hc).
    exists d, rest. apply in_heading_regex2. exists ws, c. done.
Qed.

(** *** The longest numeral wins *)

Lemma descending_app strict l1 l2 :
  descending strict l1 -> descending strict l2 ->
  (forall a b, In a l1 -> In b l2 ->
     if strict then consumed b < consumed a else consumed b <= consumed a) ->
  descending strict (l1 ++ l2).
Proof.
  induction l1 as [|x rest IH]; intros H1 H2 H12; [done|].
  destruct H1 as [Hx Hrest]. simpl. split.
  - intros y Hy%in_app_or. destruct Hy as [Hy|Hy]; [by apply Hx|].
    apply H12; [by left | done].
  - apply IH; [done | done|]. intros a b Ha Hb. apply H12; [by right | done].
Qed.

Lemma descending_map strict (a : jsstring) l :
  descending strict l ->
  descending strict (List.map (fun r => (a ++ fst r, snd r)) l).
Proof.
  induction l as [|x rest IH]; [done|]. intros [Hx Hrest]. simpl. split; [|by apply IH].
  intros y Hy. apply in_map_iff in Hy as (y0 & <- & Hy0). specialize (Hx y0 Hy0).
  unfold consumed, jsstring in *. simpl. rewrite !length_app. destruct strict; lia.
Qed.

Lemma descending_head l x y :
  descending false l -> head l = Some x -> In y l -> consumed y <= consumed x.
Proof.
  destruct l as [|x0 rest]; [done|]. intros [H _] [= ->] [<-|Hy]; [done | by apply H].
Qed.

Lemma in_tail_app {A} (l1 l2 : list A) y :
  In y (tail (l1 ++ l2)) -> In y (tail l1) \/ In y l2.
Proof.
  destruct l1 as [|x l1]; simpl.
  - intros H. right. destruct l2; [done | by right].
  - intros H%in_app_or. done.
Qed.

Lemma followed_by_map p (a : jsstring) l :
  followed_by p l -> followed_by p (List.map (fun r => (a ++ fst r, snd r)) l).
Proof.
  intros H y Hy. destruct l as [|x rest]; [done|]. simpl in Hy.
  apply in_map_iff in Hy as (y0 & <- & Hy0). simpl. by apply H.
Qed.

Lemma rx_bind_ret {A B} (Y : Rx A) (f : A -> B) s :
  rx_bind Y (fun b => rx_ret (f b)) s = List.map (fun r => (f (fst r), snd r)) (Y s).
Proof.
  unfold rx_bind, rx_ret. induction (Y s) as [|x l IH]; simpl; [done|]. by rewrite IH.
Qed.

Lemma order_nil p : descending true [] /\ followed_by p [].
Proof. split; [done | by intros y []]. Qed.

Lemma order_single p x : descending true [x] /\ followed_by p [x].
Proof. split; [by split | by intros y []]. Qed.

Lemma star_class_order p fuel : forall s,
  descending true (rx_star_fuel fuel (rx_class p) s)
  /\ followed_by p (rx_star_fuel fuel (rx_class p) s).
Proof.
  induction fuel as [|n IH]; intros s.
  { apply order_single. }
  cbn [rx_star_fuel]. destruct s as [|c s1]; [apply order_single|].
  cbn [rx_class]. destruct (p c) eqn:Hc; [|apply order_single].
  cbn [flat_map snd fst]. rewrite app_nil_r.
  destruct (length s1 <? length (c :: s1)); [|apply order_single].
  destruct (IH s1) as [Hd Hf]. split.
  - apply descending_app; [by apply descending_map | by split|].
    intros a b Ha [<-|[]]. apply in_map_iff in Ha as (a0 & <- & _).
    unfold consumed, jsstring. simpl. lia.
  - intros y Hy%in_tail_app. destruct Hy as [Hy|[<-|[]]].
    + by apply (followed_by_map p [c] _ Hf).
    + simpl. eauto.
Qed.

Lemma rx_plus_class_eq p s :
  rx_plus (rx_class p) s =
    match s with
    | c :: s1 =>
        if p c then List.map (fun r => ([c] ++ fst r, snd r)) (rx_star (rx_class p) s1) else []
    | [] => []
    end.
Proof.
  unfold rx_plus, rx_bind at 1. destruct s as [|c s1]; [done|].
  cbn [rx_class]. destruct (p c); [|done].
  cbn [flat_map fst snd]. by rewrite app_nil_r, rx_bind_ret.
Qed.

Lemma plus_class_order p s :
  descending true (rx_plus (rx_class p) s) /\ followed_by p (rx_plus (rx_class p) s).
Proof.
  rewrite rx_plus_class_eq. destruct s as [|c s1]; [apply order_nil|].
  destruct (p c); [|apply order_nil].
  destruct (star_class_order p (length s1) s1) as [Hd Hf]. split.
  - by apply descending_map.
  - by apply followed_by_map.
Qed.

Lemma dot_then_digits_eq s :
  dot_then_digits s =
    match s with
    | c :: s1 =>
        if is_dot c
        then List.map (fun r => ([c] ++ fst r, snd r)) (rx_plus (rx_class is_digit) s1)
        else []
    | [] => []
    end.
Proof.
  unfold dot_then_digits, rx_bind at 1. destruct s as [|c s1]; [done|].
  cbn [rx_class]. destruct (is_dot c); [|done].
  cbn [flat_map fst snd]. by rewrite app_nil_r, rx_bind_ret.
Qed.

Lemma dot_then_digits_order s :
  descending true (dot_then_digits s) /\ followed_by is_digit (dot_then_digits s).
Proof.
  rewrite dot_then_digits_eq. destruct s as [|c s1]; [apply order_nil|].
  destruct (is_dot c); [|apply order_nil].
  destruct (plus_class_order is_digit s1) as [Hd Hf]. split.
  - by apply descending_map.
  - by apply followed_by_map.
Qed.

Lemma digit_not_dot c : is_digit c = true -> is_dot c = false.
Proof.
  unfold is_digit, is_dot. intros [H1 H2]%andb_true_iff.
  apply N.leb_le in H1, H2. apply N.eqb_neq. lia.
Qed.

Lemma star_on_digit fuel c r :
  is_digit c = true -> rx_star_fuel fuel dot_then_digits (c :: r) = [([], c :: r)].
Proof.
  intros Hc. destruct fuel; [done|]. cbn [rx_star_fuel].
  rewrite dot_then_digits_eq. by rewrite (digit_not_dot c Hc).
Qed.

(** A list of ways each of which a step keeps as it is or drops, but for
    the first, which it may extend *)
Lemma descending_flat_map (F : jsstring * jsstring -> list (jsstring * jsstring)) l :
  descending true l ->
  (forall x, head l = Some x ->
     descending false (F x) /\ forall y, In y (F x) -> consumed x <= consumed y) ->
  (forall x, In x (tail l) -> F x = [x] \/ F x = []) ->
  descending false (flat_map F l).
Proof.
  destruct l as [|x1 rest]; [done|]. intros [Hx1 Hrest] Hfirst Hkeep.
  destruct (Hfirst x1 eq_refl) as [Hd Hle]. simpl in Hkeep.
  assert (Hsub : forall y, In y (flat_map F rest) -> In y rest).
  { intros y Hy. apply in_flat_map in Hy as (x & Hx & Hy).
    destruct (Hkeep x Hx) as [H|H]; rewrite H in Hy; [|done].
    destruct Hy as [<-|[]]. done. }
  cbn [flat_map]. apply descending_app; [done | |].
  - clear Hx1 Hfirst Hd Hle Hsub. induction rest as [|x rest IH]; [done|].
    destruct Hrest as [Hx Hrest]. cbn [flat_map].
    assert (Htail : descending false (flat_map F rest)).
    { apply IH; [done|]. intros z Hz. apply Hkeep. by right. }
    destruct (Hkeep x) as [H|H]; [by left | |]; rewrite H; [|done].
    simpl. split; [|done]. intros y Hy.
    apply in_flat_map in Hy as (z & Hz & Hy).
    destruct (Hkeep z) as [H'|H']; [by right | |]; rewrite H' in Hy; [|done].
    destruct Hy as [<-|[]]. specialize (Hx z Hz). simpl in Hx. lia.
  - intros a b Ha Hb%Hsub. specialize (Hle a Ha). specialize (Hx1 b Hb). simpl in Hx1. lia.
Qed.

Lemma star_dot_digits_order fuel : forall s,
  descending false (rx_star_fuel fuel dot_then_digits s).
Proof.
  induction fuel as [|n IH]; intros s; [by split|].
  cbn [rx_star_fuel]. destruct (dot_then_digits_order s) as [Hd Hf].
  apply descending_app; [|by split|].
  - apply descending_flat_map; [done | |].
    + intros x _. destruct (_ <? _); [|split; [done | by intros y []]]. split.
      * by apply descending_map.
      * intros y Hy. apply in_map_iff in Hy as (y0 & <- & _).
        unfold consumed, jsstring. simpl. rewrite length_app. lia.
    + intros x Hx. destruct (Hf x Hx) as (c & r & Hsnd & Hc).
      destruct (_ <? _); [|by right]. left.
      unfold jsstring in *. rewrite Hsnd, star_on_digit by done. simpl.
      rewrite app_nil_r, <- Hsnd.
      by destruct x.
  - intros a b _ [<-|[]]. unfold consumed, jsstring. simpl. lia.
Qed.

Lemma dotted_numeral_order s : descending false (dotted_numeral s).
Proof.
  unfold dotted_numeral, rx_bind at 1.
  destruct (plus_class_order is_digit s) as [Hd Hf].
  apply descending_flat_map; [done | |].
  - intros x _. rewrite rx_bind_ret. split.
    + apply descending_map. apply star_dot_digits_order.
    + intros y Hy. apply in_map_iff in Hy as (y0 & <- & _).
      unfold consumed, jsstring. simpl. rewrite length_app. lia.
  - intros x Hx. destruct (Hf x Hx) as (c & r & Hsnd & Hc). left.
    rewrite rx_bind_ret. fold dot_then_digits. unfold rx_star.
    unfold jsstring in *. rewrite Hsnd, star_on_digit by done. simpl.
    rewrite app_nil_r, <- Hsnd.
    by destruct x.
Qed.

Lemma descending_flat_map_same (K : jsstring * jsstring -> list (jsstring * jsstring)) l :
  descending false l ->
  (forall x y, In x l -> In y (K x) -> fst y = fst x) ->
  descending false (flat_map K l).
Proof.
  induction l as [|x rest IH]; [done|]. intros [Hx Hrest] Hsame.
  cbn [flat_map]. apply descending_app.
  - assert (H : forall y, In y (K x) -> fst y = fst x) by (intros y; apply Hsame; by left).
    induction (K x) as [|y l IHl]; [done|]. split.
    + intros z Hz. unfold consumed. rewrite (H y), (H z); [lia | by right | by left].
    + apply IHl. intros z Hz. apply H. by right.
  - apply IH; [done|]. intros x' y Hx' Hy. apply (Hsame x' y); [by right | done].
  - intros a b Ha Hb. apply in_flat_map in Hb as (x' & Hx' & Hb).
    unfold consumed. rewrite (Hsame x a), (Hsame x' b); [| by right | done | by left | done].
    by apply Hx.
Qed.

Lemma heading_regex1_order s : descending false (heading_regex1 s).
Proof.
  unfold heading_regex1, rx_bind at 1.
  apply descending_flat_map_same; [apply dotted_numeral_order|].
  intros x [g r] _ H.
  apply in_rx_bind in H as (ws & s2 & _ & H).
  apply in_rx_bind in H as (sep & s3 & _ & H).
  apply in_rx_bind in H as (ws2 & s4 & _ & H).
  by apply in_rx_ret in H as [-> _].
Qed.

Lemma prefix_of_longer (t p g r1 r2 : jsstring) :
  t = p ++ r1 -> t = g ++ r2 -> length p <= length g -> exists z, g = p ++ z.
Proof.
  intros -> H Hlen. revert g H Hlen. induction p as [|c p IH]; intros g H Hlen.
  - by exists g.
  - destruct g as [|c' g]; [simpl in Hlen; lia|].
    simpl in H. injection H as -> H. destruct (IH g H) as [z ->]; [simpl in Hlen; lia|].
    by exists z.
Qed.

Lemma regex1_level_maximal s g1 r k :
  head (heading_regex1 s) = Some (g1, r) -> numbered_prefix k s -> k <= split_dot_length g1.
Proof.
  intros Hhead (p & ws & sep & rest & Heq & Hk & Hws & Hsep).
  assert (Hin : In (p, rest) (heading_regex1 s)).
  { apply in_heading_regex1. exists ws, sep, []. simpl. eauto 10. }
  pose proof (descending_head _ _ _ (heading_regex1_order s) Hhead Hin) as Hlen.
  unfold consumed in Hlen. simpl in Hlen.
  apply head_in, in_heading_regex1 in Hhead as (ws' & sep' & ws2 & Heq' & _).
  destruct (prefix_of_longer s p g1 _ _ Heq Heq' Hlen) as [z ->].
  rewrite <- (dotted_level _ _ Hk). unfold split_dot_length.
  rewrite List.filter_app, length_app. lia.
Qed.

(** *** The inner text of an emphasis is the shortest *)

Lemma head_flat_map_cons {A B} (f : A -> list B) x l :
  head (flat_map f (x :: l)) =
    match head (f x) with Some y => Some y | None => head (flat_map f l) end.
Proof. simpl. apply head_app. Qed.

Lemma flat_map_map {A B C} (g : A -> B) (f : B -> list C) l :
  flat_map f (List.map g l) = flat_map (fun x => f (g x)) l.
Proof. induction l as [|x l IH]; simpl; [done|]. by rewrite IH. Qed.

Lemma closing_eq marker bold italic inner s :
  closing marker bold italic inner s =
    if starts_with marker s
    then [(mkSegment inner bold italic, skipn (length marker) s)]
    else [].
Proof.
  unfold closing, rx_bind, rx_lit, rx_ret. by destruct (starts_with marker s).
Qed.

Lemma rx_dot_cons c s :
  rx_dot (c :: s) = if is_line_terminator c then [] else [([c], s)].
Proof. unfold rx_dot, rx_class. by destruct (is_line_terminator c). Qed.

Lemma lazy_star_head marker bold italic : forall fuel s acc,
  length s <= fuel ->
  head (flat_map (fun r => closing marker bold italic (acc ++ fst r) (snd r))
                 (rx_star_lazy_fuel fuel rx_dot s))
  = match lazy_rest marker s with
    | Some (m, rest) => Some (mkSegment (acc ++ m) bold italic, rest)
    | None => None
    end.
Proof.
  induction fuel as [|n IH]; intros s acc Hlen.
  - destruct s; [|simpl in Hlen; lia]. simpl. rewrite closing_eq, app_nil_r.
    destruct marker; simpl; rewrite ?app_nil_r; reflexivity.
  - cbn [rx_star_lazy_fuel]. rewrite head_flat_map_cons. cbn [fst snd].
    rewrite closing_eq.
    destruct s as [|c s'].
    + simpl. destruct marker; simpl; rewrite ?app_nil_r; reflexivity.
    + cbn [lazy_rest]. destruct (starts_with marker (c :: s')) eqn:Hm.
      { simpl. by rewrite app_nil_r. }
      cbn [head]. rewrite rx_dot_cons.
      destruct (is_line_terminator c); [reflexivity|]. cbn [flat_map fst snd].
      rewrite app_nil_r.
      assert (Hlt : (length s' <? length (c :: s')) = true) by (apply Nat.ltb_lt; simpl; lia).
      rewrite Hlt, flat_map_map. cbn [fst snd].
      rewrite (flat_map_ext _ (fun r => closing marker bold italic ((acc ++ [c]) ++ fst r) (snd r))).
      * rewrite IH by (simpl in Hlen; lia).
        destruct (lazy_rest marker s') as [[m rest]|]; [|done].
        by rewrite <- app_assoc.
      * intros r. by rewrite <- app_assoc.
Qed.

Lemma emphasis_eq marker bold italic s :
  emphasis marker bold italic s =
    if starts_with marker s
    then flat_map (fun r => closing marker bold italic (fst r) (snd r))
                  (rx_plus_lazy rx_dot (skipn (length marker) s))
    else [].
Proof.
  unfold emphasis, closing, rx_bind, rx_lit.
  destruct (starts_with marker s); [|reflexivity].
  cbn [flat_map fst snd]. by rewrite app_nil_r.
Qed.

Lemma rx_plus_lazy_dot_eq s :
  rx_plus_lazy rx_dot s =
    match s with
    | c :: s' =>
        if is_line_terminator c then []
        else List.map (fun r => ([c] ++ fst r, snd r)) (rx_star_lazy rx_dot s')
    | [] => []
    end.
Proof.
  unfold rx_plus_lazy. destruct s as [|c s']; [reflexivity|].
  unfold rx_bind at 1. rewrite rx_dot_cons.
  destruct (is_line_terminator c); [reflexivity|].
  cbn [flat_map fst snd]. by rewrite app_nil_r, rx_bind_ret.
Qed.

Lemma emphasis_shortest marker bold italic s :
  rx_match (emphasis marker bold italic) s =
    if starts_with marker s
    then match shortest_inner marker (skipn (length marker) s) with
         | Some (inner, rest) => Some (mkSegment inner bold italic, rest)
         | None => None
         end
    else None.
Proof.
  unfold rx_match. rewrite emphasis_eq.
  destruct (starts_with marker s); [|reflexivity].
  rewrite rx_plus_lazy_dot_eq. unfold shortest_inner.
  destruct (skipn (length marker) s) as [|c s']; [reflexivity|].
  destruct (is_line_terminator c); [reflexivity|].
  rewrite flat_map_map. cbn [fst snd].
  pose proof (lazy_star_head marker bold italic (length s') s' [c] (Nat.le_refl _)) as H.
  unfold rx_star_lazy. rewrite H.
  by destruct (lazy_rest marker s') as [[m rest]|].
Qed.

(** *** The numbered-heading patterns *)

Lemma detectHeadingByPattern_spec (text : jsstring) (l : nat) :
  detectHeadingByPattern text = Some l <-> pattern_level (trim text) l.
Proof.
  unfold detectHeadingByPattern, rx_match, pattern_level.
  destruct (head (heading_regex1 (trim text))) as [[g1 r]|] eqn:H1.
  - pose proof (head_in _ _ H1) as Hin.
    apply in_heading_regex1 in Hin as (ws & sep & ws2 & Heq & [k Hk] & Hws & Hsep & _).
    assert (Hnp : numbered_prefix (split_dot_length g1) (trim text)).
    { rewrite (dotted_level _ _ Hk). exists g1, ws, sep, (ws2 ++ r). done. }
    assert (Hmax : forall k', numbered_prefix k' (trim text) -> k' <= split_dot_length g1)
      by (intros k'; by apply (regex1_level_maximal _ g1 r)).
    split.
    + intros [= <-]. left. split; [done|]. intros k'. apply Hmax.
    + intros [[Hl Hlmax]|[Hno _]]; [|exfalso; by apply (Hno _ Hnp)].
      f_equal. apply Nat.le_antisymm; [by apply Hlmax | by apply Hmax].
  - assert (Hno : forall k, ~ numbered_prefix k (trim text)).
    { intros k Hk. destruct (proj2 (regex1_numbered_prefix (trim text))) as (g1 & r & Hin);
        [eauto|]. by apply (head_none _ H1) in Hin. }
    destruct (head (heading_regex2 (trim text))) as [[g1 r]|] eqn:H2.
    + assert (Hup : integer_then_upper (trim text)).
      { apply regex2_integer_then_upper. exists g1, r. by apply head_in. }
      split.
      * intros [= <-]. right. done.
      * intros [[Hl _]|(_ & _ & ->)]; [exfalso; by apply (Hno l) | done].
    + assert (Hnup : ~ integer_then_upper (trim text)).
      { intros (g1 & r & Hin)%regex2_integer_then_upper. by apply (head_none _ H2) in Hin. }
      split; [done|]. intros [[Hl _]|(_ & Hup & _)]; [exfalso; by apply (Hno l) | done].
Qed.

(** *** Classification at concrete paragraphs *)

(** An integer directly followed by an uppercase letter is no numbered
    heading: the second pattern asks for white space between them.  White
    space may stand between a numeral and its separator. *)
Lemma integer_and_letter_need_white_space :
  classifyParagraph (paragraph_of "3D printing") ∅ = CParagraph (js "3D printing")
  /\ classifyParagraph (paragraph_of "1 - x") ∅ = CHeading 1 (js "1 - x").
Proof. split; vm_compute; reflexivity. Qed.

(** The example of the comment above [detectHeadingByPattern]: the code
    gives level 2 to a text that starts with three components. *)
Example three_components_give_level_two :
  detectHeadingByPattern (js "2.1.1 Detalhe") = Some 2
  /\ detectHeadingByPattern (js "1. OBJETIVO") = Some 1
  /\ detectHeadingByPattern (js "2.1 - Cab") = Some 2.
Proof. repeat split; reflexivity. Qed.

(** *** Markdown round trip *)

(** C3, as amended.  The three runs bold [a], italic [b], bold-italic [c]
    are extracted as the three spans with nothing between them, and that
    text parses back to exactly the three segments.  The text with a space
    between the spans is what the five runs with two unformatted spaces
    give, and it parses to five segments: the three and the two spaces.  At
    each position the parser tries three stars, then two, then one, and
    takes the first that matches; the inner text of an emphasis is the
    shortest one, at least one code unit long and free of line terminators,
    that the closing marker follows. *)
Theorem markdown_round_trip :
  getFormattedText three_runs = js "**a***b****c***"
  /\ getFormattedText five_runs = spaced_markdown
  /\ parseMarkdown spaced_markdown = five_segments
  /\ parseMarkdown (js "**a***b****c***") = three_segments
  /\ (forall s, rx_match markdown_regex s =
        match rx_match (emphasis (js "***") true true) s with
        | Some r => Some r
        | None =>
            match rx_match (emphasis (js "**") true false) s with
            | Some r => Some r
            | None => rx_match (emphasis (js "*") false true) s
            end
        end)
  /\ (forall marker bold italic s,
        rx_match (emphasis marker bold italic) s =
          if starts_with marker s
          then match shortest_inner marker (skipn (length marker) s) with
               | Some (inner, rest) => Some (mkSegment inner bold italic, rest)
               | None => None
               end
          else None)
  /\ parseMarkdown (js "*a* *b*")
     = [mkSegment (js "a") false true; mkSegment (js " ") false false;
        mkSegment (js "b") false true].
Proof.
  split; [reflexivity|]. split; [reflexivity|]. split; [vm_compute; reflexivity|].
  split; [vm_compute; reflexivity|]. split; [apply markdown_precedence|].
  split; [apply emphasis_shortest|]. vm_compute; reflexivity.
Qed.

(** The three runs do not give the text with spaces, and that text does
    not parse to three segments. *)
Lemma markdown_round_trip_as_stated_fails :
  getFormattedText three_runs <> spaced_markdown
  /\ parseMarkdown spaced_markdown <> three_segments.
Proof. split; intros H; vm_compute in H; discriminate H. Qed.

(** *** Self-validation *)

(** C2, as amended.  A document whose ids (blocks and cells together) are
    non-empty and pairwise distinct and whose heading and list levels are
    at least 1 validates against itself with no violation.  Every document
    [extractDocx] produces has such ids, so it validates against itself as
    soon as its levels are at least 1. *)
Theorem self_validation :
  (forall d : Document,
      ids_ok (blocks d) -> Forall level_ok (blocks d) ->
      validateModifiedJson (document_to_js d) (document_to_js d) = Some (mkResult true []))
  /\ (forall hs body fn now,
      let d := extractDocx hs body fn now in
      ids_ok (blocks d)
      /\ (Forall level_ok (blocks d) ->
          validateModifiedJson (document_to_js d) (document_to_js d)
          = Some (mkResult true []))).
Proof.
  split; [apply self_validation_typed|].
  intros hs body fn now d. split; [apply extractDocx_ids_ok|].
  intros Hlvl. apply self_validation_typed; [apply extractDocx_ids_ok | done].
Qed.

(** A paragraph whose outline level is -1 is extracted as a heading of
    level 0, which the validator rejects; two blocks with the same id are
    rejected too. *)
Lemma self_validation_fails_on_level_zero :
  blocks negative_outline_document = [Heading (js "block_0000") 0 (js "x")]
  /\ validateModifiedJson (document_to_js negative_outline_document)
                          (document_to_js negative_outline_document)
     = Some (mkResult false [EHeadingLevel 0 (js "block_0000")])
  /\ validateModifiedJson (document_to_js negative_outline_document)
                          (document_to_js negative_outline_document)
     <> Some (mkResult true [])
  /\ validateModifiedJson (document_to_js duplicate_ids_document)
                          (document_to_js duplicate_ids_document)
     = Some (mkResult false [EDuplicateId 1 (js "block_0000")]).
Proof.
  split; [|split; [|split]]; vm_compute; [reflexivity | reflexivity | discriminate | reflexivity].
Qed.

(** *** Heading stability *)

(** C5.  Against the original heading [block_0002] of level 1, the candidate
    heading [block_0002] of level 2 with any text gives exactly one
    violation, the level change; the candidate paragraph [block_0002] with
    any text gives exactly one violation, the type change, and no level
    violation. *)
Theorem heading_stability (extra : list (jsstring * JsVal)) (text : jsstring) :
  validateModifiedJson (document_of [candidate_heading 2 text])
                       (document_of [original_heading extra])
  = Some (mkResult false
            [ELevelChanged 0 (js "block_0002") (level_to_js 1) (level_to_js 2)])
  /\ validateModifiedJson (document_of [candidate_paragraph text])
                          (document_of [original_heading extra])
     = Some (mkResult false
               [ETypeChanged 0 (js "block_0002") (JStr (js "heading"))
                             (JStr (js "paragraph"))]).
Proof. split; reflexivity. Qed.

(** *** The theorems at concrete inputs *)

Lemma traversals_agree_witness :
  originalBlockNodes (traverse None sample_body) !! blockId 2
  = Some (Element (js "w:tbl") [] [])
  /\ emitted ∅ 0 (wp [wr [] [wt (js "Hello")]])
     = [paragraphBlock 0 (classifyParagraph (wp [wr [] [wt (js "Hello")]]) ∅)]
  /\ emitted ∅ 1 (wp []) = [].
Proof.
  destruct (traversals_agree ∅ None sample_body None [])
    as (_ & _ & _ & _ & Hpar & Hskip & _ & _ & Hmap & _).
  split; [apply (Hmap 2); reflexivity|]. split.
  - apply Hpar; [reflexivity | reflexivity | vm_compute; discriminate].
  - apply Hskip; [reflexivity|]. right. reflexivity.
Defined.

Lemma self_validation_witness :
  validateModifiedJson (document_to_js hello_document) (document_to_js hello_document)
  = Some (mkResult true []).
Proof.
  apply (proj1 self_validation hello_document).
  - split; [apply NoDup_singleton | repeat constructor; discriminate].
  - repeat constructor.
Defined.

Lemma table_geometry_enforcement_witness :
  exists m st',
    originalMap (document_to_js original_with_table) = Some m
    /\ validateBlock m 0 (block_to_js (Table (blockId 5) (grid 5 3 3))) (mkVState [] [])
       = Some st'
    /\ geometry st' = [ERowCount 0 (blockId 5) (num_of_nat 2) 3].
Proof.
  destruct (table_geometry_enforcement original_with_table (blockId 5) (grid 5 3 3))
    as (m & Hm & H); [apply NoDup_singleton | discriminate |].
  destruct (H 0 (mkVState [] [])) as (st' & Hst & Hgeo & _).
  exists m, st'. split; [exact Hm|]. split; [exact Hst|].
  apply (Hgeo (grid 5 2 3)). left. reflexivity.
Defined.

Lemma title_pass_first_paragraph_witness :
  titlePass ([ListItem (js "block_0000") 1 (js "a")]
               ++ Paragraph (js "block_0001") (js "b") :: [Paragraph (js "block_0002") (js "c")])
  = [ListItem (js "block_0000") 1 (js "a")]
      ++ Title (js "block_0001") (js "b") :: [Paragraph (js "block_0002") (js "c")].
Proof.
  assert (H : Forall (fun b => passed_over b = true) [ListItem (js "block_0000") 1 (js "a")])
    by (repeat constructor).
  apply (proj1 (proj2 (proj2 (title_pass_first_paragraph
                                [ListItem (js "block_0000") 1 (js "a")]
                                [Paragraph (js "block_0002") (js "c")] H)))).
Defined.

Lemma metadata_violation_accumulates_witness :
  validateModifiedJson no_metadata_candidate JNull =
    (m ← originalMap JNull;
     st ← validateBlocks m 0 [JNull] (mkVState [] []);
     Some (mkResult false (EMetadata :: st_errors st))).
Proof.
  apply (proj2 (metadata_violation_accumulates no_metadata_candidate JNull JUndefined
                  (JArr [JNull]) eq_refl eq_refl eq_refl eq_refl) [JNull] eq_refl eq_refl).
Defined.

(** *** The scenarios of the specification, evaluated *)

(** A single paragraph [Hello World] is extracted as the title
    [block_0000]: one block, no table. *)
Example hello_world_extraction :
  extractDocx ∅ (Element (js "w:body") [] [paragraph_of "Hello World"])
              (Some (js "hello.docx")) (js "now")
  = mkDocument (mkMetadata (js "hello.docx") (js "now") 1 0)
               [Title (js "block_0000") (js "Hello World")].
Proof. vm_compute. reflexivity. Qed.

(** An empty paragraph consumes an index and a section property none: the
    table after them is [block_0002]. *)
Example skipped_paragraph_consumes_index :
  List.map block_id (extractBlocks ∅ sample_body) = [blockId 0; blockId 2].
Proof. vm_compute. reflexivity. Qed.

(** Three rows for the table [block_0005] of two rows: one row-count
    violation.  The same shape under a new id: none. *)
Example three_rows_for_two :
  validateModifiedJson
    (document_of [block_to_js (Table (blockId 5) (grid 5 3 3))])
    (document_to_js original_with_table)
  = Some (mkResult false [ERowCount 0 (blockId 5) (num_of_nat 2) 3])
  /\ validateModifiedJson
       (document_of [block_to_js (Table (blockId 6) (grid 6 3 4))])
       (document_to_js original_with_table)
     = Some (mkResult true []).
Proof. split; vm_compute; reflexivity. Qed.

(** Two rows of two cells for two rows of three: one cell-count violation
    for each row. *)
Example two_cells_for_three :
  errors <$> validateModifiedJson
    (document_of [block_to_js (Table (blockId 5) (grid 5 2 2))])
    (document_to_js original_with_table)
  = Some [ECellCount 0 (blockId 5) 0 (num_of_nat 3) (num_of_nat 2);
          ECellCount 0 (blockId 5) 1 (num_of_nat 3) (num_of_nat 2)].
Proof. vm_compute. reflexivity. Qed.

(** * Properties of rebuilding, of the style maps and of the answers *)

(** ** Numbers *)

Lemma roundToDouble_exact z : (Z.abs z < 2 ^ 53)%Z -> roundToDouble z = z.
Proof. unfold roundToDouble. cbv zeta. intros H%Z.ltb_lt. by rewrite H. Qed.

(** Adding 1 to a safe integer is exact. *)
Lemma roundToDouble_succ n : safe_integer n = true -> roundToDouble (n + 1) = (n + 1)%Z.
Proof.
  unfold safe_integer. intros H%Z.ltb_lt.
  destruct (Z.eq_dec n (2 ^ 53 - 1)%Z) as [->|Hn]; [vm_compute; reflexivity|].
  apply roundToDouble_exact. lia.
Qed.

(** *** The markdown parser loses nothing *)

Lemma starts_with_app p s : starts_with p (p ++ s) = true.
Proof. induction p as [|x p IH]; simpl; [done|]. by rewrite N.eqb_refl. Qed.

Lemma starts_with_split p : forall s, starts_with p s = true -> s = p ++ skipn (length p) s.
Proof.
  induction p as [|x p IH]; intros s H; [done|].
  destruct s as [|y s]; [done|]. simpl in H.
  apply andb_true_iff in H as [Hx Hp]. apply N.eqb_eq in Hx as ->.
  simpl. f_equal. by apply IH.
Qed.

Lemma skipn_app_length {A} (p s : list A) : skipn (length p) (p ++ s) = s.
Proof. induction p; simpl; auto. Qed.

Lemma lazy_rest_split marker : forall s m rest,
  lazy_rest marker s = Some (m, rest) -> s = m ++ marker ++ rest.
Proof.
  induction s as [|c s IH]; intros m rest H.
  - simpl in H. destruct (starts_with marker []) eqn:Hs; [|done].
    injection H as <- <-. by apply starts_with_split in Hs.
  - cbn [lazy_rest] in H. destruct (starts_with marker (c :: s)) eqn:Hs.
    + injection H as <- <-. by apply starts_with_split in Hs.
    + destruct (is_line_terminator c); [done|].
      destruct (lazy_rest marker s) as [[m' rest']|] eqn:Hl; [|done].
      injection H as <- <-. simpl. f_equal. by apply IH.
Qed.

Lemma shortest_inner_split marker s inner rest :
  shortest_inner marker s = Some (inner, rest) ->
  s = inner ++ marker ++ rest /\ inner <> [].
Proof.
  unfold shortest_inner. destruct s as [|c s]; [done|].
  destruct (is_line_terminator c); [done|].
  destruct (lazy_rest marker s) as [[m rest']|] eqn:Hl; [|done].
  intros H. injection H as <- <-. split; [|done].
  simpl. f_equal. by apply lazy_rest_split.
Qed.

Lemma emphasis_match_split marker bold italic s seg rest :
  rx_match (emphasis marker bold italic) s = Some (seg, rest) ->
  exists inner, seg = mkSegment inner bold italic /\ inner <> []
                /\ s = marker ++ inner ++ marker ++ rest.
Proof.
  rewrite emphasis_shortest. destruct (starts_with marker s) eqn:Hs; [|done].
  destruct (shortest_inner marker (skipn (length marker) s)) as [[inner r]|] eqn:Hi; [|done].
  intros H. injection H as <- <-. exists inner. split; [done|].
  apply shortest_inner_split in Hi as [Hi Hne]. split; [done|].
  rewrite <- Hi. by apply starts_with_split.
Qed.

Lemma render_bold_italic inner : inner <> [] ->
  renderSegment (mkSegment inner true true) = js "***" ++ inner ++ js "***".
Proof. by destruct inner. Qed.

Lemma render_bold inner : inner <> [] ->
  renderSegment (mkSegment inner true false) = js "**" ++ inner ++ js "**".
Proof. by destruct inner. Qed.

Lemma render_italic inner : inner <> [] ->
  renderSegment (mkSegment inner false true) = js "*" ++ inner ++ js "*".
Proof. by destruct inner. Qed.

Lemma render_plain text : renderSegment (mkSegment text false false) = text.
Proof. by destruct text. Qed.

Lemma markdown_match_split s seg rest :
  rx_match markdown_regex s = Some (seg, rest) ->
  s = renderSegment seg ++ rest /\ seg_text seg <> [].
Proof.
  rewrite markdown_precedence.
  destruct (rx_match (emphasis (js "***") true true) s) as [[g r]|] eqn:H3.
  { intros H. injection H as <- <-.
    apply emphasis_match_split in H3 as (inner & -> & Hne & ->).
    rewrite render_bold_italic by done. split; [|done]. by rewrite <- !app_assoc. }
  destruct (rx_match (emphasis (js "**") true false) s) as [[g r]|] eqn:H2.
  { intros H. injection H as <- <-.
    apply emphasis_match_split in H2 as (inner & -> & Hne & ->).
    rewrite render_bold by done. split; [|done]. by rewrite <- !app_assoc. }
  intros H1. apply emphasis_match_split in H1 as (inner & -> & Hne & ->).
  rewrite render_italic by done. split; [|done]. by rewrite <- !app_assoc.
Qed.

Lemma rx_exec_split {A} (m : Rx A) : forall s skipped a rest,
  rx_exec m s = Some (skipped, a, rest) ->
  exists t, s = skipped ++ t /\ rx_match m t = Some (a, rest).
Proof.
  induction s as [|c s IH]; intros skipped a rest H.
  - simpl in H. destruct (rx_match m []) as [[a' r']|] eqn:Hm; [|done].
    injection H as <- <- <-. by exists [].
  - cbn [rx_exec] in H. destruct (rx_match m (c :: s)) as [[a' r']|] eqn:Hm.
    + injection H as <- <- <-. by exists (c :: s).
    + destruct (rx_exec m s) as [[[sk a'] r']|] eqn:He; [|done].
      injection H as <- <- <-.
      destruct (IH _ _ _ eq_refl) as (t & -> & Ht). by exists t.
Qed.

Lemma render_plainSegment text : flat_map renderSegment (plainSegment text) = text.
Proof. destruct text; [done|]. simpl. by rewrite app_nil_r. Qed.

Lemma plainSegment_nonempty text :
  Forall (fun seg => seg_text seg <> []) (plainSegment text).
Proof. destruct text; simpl; [constructor|]. by repeat constructor. Qed.

Lemma parseLoop_render fuel : forall text,
  flat_map renderSegment (parseLoop fuel text) = text.
Proof.
  induction fuel as [|fuel IH]; intros text; simpl; [apply render_plainSegment|].
  destruct (rx_exec markdown_regex text) as [[[skipped seg] rest]|] eqn:He;
    [|apply render_plainSegment].
  apply rx_exec_split in He as (t & -> & Hm).
  apply markdown_match_split in Hm as [-> _].
  rewrite flat_map_app, render_plainSegment. simpl. by rewrite IH.
Qed.

Lemma parseLoop_nonempty fuel : forall text,
  Forall (fun seg => seg_text seg <> []) (parseLoop fuel text).
Proof.
  induction fuel as [|fuel IH]; intros text; simpl; [apply plainSegment_nonempty|].
  destruct (rx_exec markdown_regex text) as [[[skipped seg] rest]|] eqn:He;
    [|apply plainSegment_nonempty].
  apply rx_exec_split in He as (t & -> & Hm).
  apply markdown_match_split in Hm as [_ Hne].
  apply Forall_app. split; [apply plainSegment_nonempty|]. constructor; [done|apply IH].
Qed.

Lemma parseMarkdown_nonempty text : text <> [] ->
  Forall (fun seg => seg_text seg <> []) (parseMarkdown text).
Proof.
  intros Hne. unfold parseMarkdown. destruct text as [|c text]; [done|].
  pose proof (parseLoop_nonempty (length (c :: text)) (c :: text)) as H.
  destruct (parseLoop (length (c :: text)) (c :: text)); [|done].
  by repeat constructor.
Qed.

Lemma parseMarkdown_render text : flat_map renderSegment (parseMarkdown text) = text.
Proof.
  unfold parseMarkdown. destruct text as [|c text]; [done|].
  pose proof (parseLoop_render (length (c :: text)) (c :: text)) as H.
  destruct (parseLoop (length (c :: text)) (c :: text)) eqn:Hp; [|done].
  simpl in H. discriminate H.
Qed.

(** X1. Whatever the text, its segments rendered one after the other give
    it back: every code unit of the text is in one segment, the markers of
    an emphasis are those its flags stand for, and no segment of a text
    that is not empty is empty. *)
Theorem parseMarkdown_loses_nothing (text : jsstring) :
  flat_map renderSegment (parseMarkdown text) = text
  /\ (text <> [] -> Forall (fun seg => seg_text seg <> []) (parseMarkdown text)).
Proof. split; [apply parseMarkdown_render | apply parseMarkdown_nonempty]. Qed.

(** *** From segments to markdown and back *)

Lemma clean_cons c t : clean_text (c :: t) = true ->
  c <> 42%N /\ is_line_terminator c = false /\ forallb clean_unit t = true.
Proof.
  unfold clean_text. simpl. intros H.
  apply andb_true_iff in H as [H Ht]. unfold clean_unit in H at 1.
  apply andb_true_iff in H as [Hs Hl]. apply negb_true_iff in Hs, Hl.
  apply N.eqb_neq in Hs. done.
Qed.

Lemma starts_with_star_other m c s : c <> 42%N -> starts_with (42%N :: m) (c :: s) = false.
Proof.
  intros H. cbn [starts_with]. apply N.eqb_neq in H. rewrite N.eqb_sym in H. by rewrite H.
Qed.

Lemma lazy_rest_clean m rest : forall inner,
  forallb clean_unit inner = true ->
  lazy_rest (42%N :: m) (inner ++ (42%N :: m) ++ rest) = Some (inner, rest).
Proof.
  induction inner as [|c inner IH]; intros H.
  - cbn [app lazy_rest]. change (starts_with (42%N :: m) (42%N :: m ++ rest))
      with (starts_with (42%N :: m) ((42%N :: m) ++ rest)).
    rewrite starts_with_app.
    change (42%N :: m ++ rest) with ((42%N :: m) ++ rest). by rewrite skipn_app_length.
  - simpl in H. apply andb_true_iff in H as [Hc Ht]. unfold clean_unit in Hc.
    apply andb_true_iff in Hc as [Hs Hl]. apply negb_true_iff in Hs, Hl.
    apply N.eqb_neq in Hs.
    change ((c :: inner) ++ (42%N :: m) ++ rest) with (c :: inner ++ (42%N :: m) ++ rest).
    cbn [lazy_rest]. rewrite starts_with_star_other by done. rewrite Hl.
    by rewrite IH.
Qed.

Lemma shortest_inner_clean m rest inner :
  clean_text inner = true ->
  shortest_inner (42%N :: m) (inner ++ (42%N :: m) ++ rest) = Some (inner, rest).
Proof.
  intros H. destruct inner as [|c inner]; [done|].
  apply clean_cons in H as (Hs & Hl & Ht).
  change ((c :: inner) ++ (42%N :: m) ++ rest) with (c :: inner ++ (42%N :: m) ++ rest).
  unfold shortest_inner. rewrite Hl. by rewrite lazy_rest_clean.
Qed.

Lemma emphasis_clean m bold italic inner rest :
  clean_text inner = true ->
  rx_match (emphasis (42%N :: m) bold italic) ((42%N :: m) ++ inner ++ (42%N :: m) ++ rest)
  = Some (mkSegment inner bold italic, rest).
Proof.
  intros H. rewrite emphasis_shortest, starts_with_app, skipn_app_length.
  by rewrite shortest_inner_clean.
Qed.

Lemma emphasis_other m bold italic c s : c <> 42%N ->
  rx_match (emphasis (42%N :: m) bold italic) (c :: s) = None.
Proof. intros H. rewrite emphasis_shortest. by rewrite starts_with_star_other. Qed.

Lemma markdown_match_other c s : c <> 42%N -> rx_match markdown_regex (c :: s) = None.
Proof.
  intros H. rewrite markdown_precedence.
  change (js "***") with [42%N; 42%N; 42%N]. change (js "**") with [42%N; 42%N].
  change (js "*") with [42%N]. by rewrite !emphasis_other.
Qed.

Lemma markdown_match_nil : rx_match markdown_regex [] = None.
Proof. reflexivity. Qed.

Lemma emphasis_short m bold italic c s : c <> 42%N ->
  rx_match (emphasis (42%N :: 42%N :: m) bold italic) (42%N :: c :: s) = None.
Proof.
  intros H. rewrite emphasis_shortest. cbn [starts_with].
  apply N.eqb_neq in H. rewrite N.eqb_sym in H. rewrite H.
  by rewrite ?N.eqb_refl.
Qed.

Lemma emphasis_shorter m bold italic c s : c <> 42%N ->
  rx_match (emphasis (42%N :: 42%N :: 42%N :: m) bold italic) (42%N :: 42%N :: c :: s) = None.
Proof.
  intros H. rewrite emphasis_shortest. cbn [starts_with].
  apply N.eqb_neq in H. rewrite N.eqb_sym in H. rewrite H.
  by rewrite ?N.eqb_refl.
Qed.

(** At the start of the rendering of an emphasised segment with a clean
    text the pattern matches that segment, whatever comes after. *)
Lemma markdown_match_rendered seg rest :
  clean_text (seg_text seg) = true -> is_plain seg = false ->
  rx_match markdown_regex (renderSegment seg ++ rest) = Some (seg, rest).
Proof.
  destruct seg as [text bold italic]. cbn [seg_text]. intros Hc Hp.
  destruct text as [|c text]; [done|].
  pose proof (clean_cons _ _ Hc) as (Hs & _ & _).
  rewrite markdown_precedence.
  change (js "***") with [42%N; 42%N; 42%N]. change (js "**") with [42%N; 42%N].
  change (js "*") with [42%N].
  destruct bold, italic; try done.
  - rewrite render_bold_italic by done. change (js "***") with [42%N; 42%N; 42%N].
    rewrite <- !app_assoc. by rewrite emphasis_clean.
  - rewrite render_bold by done. change (js "**") with [42%N; 42%N].
    rewrite <- !app_assoc.
    change ([42%N; 42%N] ++ (c :: text) ++ [42%N; 42%N] ++ rest)
      with (42%N :: 42%N :: c :: text ++ [42%N; 42%N] ++ rest) at 1.
    rewrite emphasis_shorter by done. by rewrite emphasis_clean.
  - rewrite render_italic by done. change (js "*") with [42%N].
    rewrite <- !app_assoc.
    change ([42%N] ++ (c :: text) ++ [42%N] ++ rest)
      with (42%N :: c :: text ++ [42%N] ++ rest) at 1 2.
    rewrite !emphasis_short by done.
    change (42%N :: c :: text ++ [42%N] ++ rest)
      with ([42%N] ++ (c :: text) ++ [42%N] ++ rest).
    by rewrite emphasis_clean.
Qed.

Lemma rx_exec_here {A} (m : Rx A) s a rest :
  rx_match m s = Some (a, rest) -> rx_exec m s = Some ([], a, rest).
Proof. intros H. destruct s; simpl; by rewrite H. Qed.

Lemma rx_exec_plain_prefix u : forall t,
  forallb clean_unit t = true ->
  rx_exec markdown_regex (t ++ u) =
    match rx_exec markdown_regex u with
    | Some (skipped, seg, rest) => Some (t ++ skipped, seg, rest)
    | None => None
    end.
Proof.
  induction t as [|c t IH]; intros H.
  - simpl. by destruct (rx_exec markdown_regex u) as [[[? ?] ?]|].
  - simpl in H. apply andb_true_iff in H as [Hc Ht]. unfold clean_unit in Hc.
    apply andb_true_iff in Hc as [Hs _]. apply negb_true_iff, N.eqb_neq in Hs.
    change ((c :: t) ++ u) with (c :: t ++ u). cbn [rx_exec].
    rewrite markdown_match_other by done. rewrite IH by done.
    by destruct (rx_exec markdown_regex u) as [[[? ?] ?]|].
Qed.

Lemma rx_exec_nil : rx_exec markdown_regex [] = None.
Proof. reflexivity. Qed.

Lemma clean_text_units t : clean_text t = true -> forallb clean_unit t = true.
Proof. unfold clean_text. by intros [_ H]%andb_true_iff. Qed.

Lemma clean_text_nonempty t : clean_text t = true -> t <> [].
Proof. by destruct t. Qed.

Lemma plain_eta seg : is_plain seg = true -> seg = mkSegment (seg_text seg) false false.
Proof. by destruct seg as [t [] []]. Qed.

Lemma render_plain_seg seg : is_plain seg = true -> renderSegment seg = seg_text seg.
Proof. intros H. rewrite (plain_eta seg H). apply render_plain. Qed.

Lemma plainSegment_clean t : t <> [] -> plainSegment t = [mkSegment t false false].
Proof. by destruct t. Qed.

Lemma parseLoop_rendered : forall segs fuel,
  Forall (fun seg => clean_text (seg_text seg) = true) segs ->
  no_plain_neighbours segs = true ->
  length (List.filter (fun seg => negb (is_plain seg)) segs) <= fuel ->
  parseLoop fuel (flat_map renderSegment segs) = segs.
Proof.
  induction segs as [|seg segs IH]; intros fuel Hc Hn Hf.
  - destruct fuel; reflexivity.
  - apply Forall_cons in Hc as [Hc Hcs].
    assert (Hns : no_plain_neighbours segs = true).
    { destruct segs; [done|]. simpl in Hn. by apply andb_true_iff in Hn as [_ Hn]. }
    cbn [flat_map]. destruct (is_plain seg) eqn:Hp.
    + rewrite render_plain_seg by done.
      destruct segs as [|e segs'].
      * cbn [flat_map]. rewrite app_nil_r.
        assert (Hr : rx_exec markdown_regex (seg_text seg) = None).
        { rewrite <- (app_nil_r (seg_text seg)).
          rewrite rx_exec_plain_prefix by (by apply clean_text_units).
          by rewrite rx_exec_nil. }
        rewrite (plain_eta seg Hp) at 2.
        destruct fuel; cbn [parseLoop]; rewrite ?Hr;
          apply plainSegment_clean; by apply clean_text_nonempty.
      * assert (He : is_plain e = false).
        { simpl in Hn. rewrite Hp in Hn. by destruct (is_plain e). }
        pose proof Hcs as Hcs'. apply Forall_cons in Hcs' as [Hce _].
        cbn [List.filter] in Hf. rewrite Hp in Hf. cbn [negb] in Hf.
        rewrite He in Hf. cbn [negb length] in Hf.
        destruct fuel as [|fuel]; [lia|].
        specialize (IH (S fuel) Hcs Hns).
        cbn [List.filter] in IH. rewrite He in IH. cbn [negb length] in IH.
        specialize (IH Hf). cbn [flat_map] in IH |- *.
        cbn [parseLoop] in IH |- *.
        rewrite rx_exec_plain_prefix by (by apply clean_text_units).
        rewrite (rx_exec_here _ _ e (flat_map renderSegment segs')) in IH |- *
          by (by apply markdown_match_rendered).
        rewrite app_nil_r. cbn [plainSegment app] in IH.
        rewrite plainSegment_clean by (by apply clean_text_nonempty).
        cbn [app]. rewrite IH. by rewrite <- (plain_eta seg Hp).
    + cbn [List.filter] in Hf. rewrite Hp in Hf. cbn [negb length] in Hf.
      destruct fuel as [|fuel]; [lia|]. cbn [parseLoop].
      rewrite (rx_exec_here _ _ seg (flat_map renderSegment segs))
        by (by apply markdown_match_rendered).
      cbn [plainSegment app]. f_equal. apply IH; [done|done|lia].
Qed.

Lemma render_length seg : clean_text (seg_text seg) = true ->
  1 <= length (renderSegment seg).
Proof.
  destruct seg as [[|c t] b i]; [done|]. intros _.
  unfold renderSegment. cbn [seg_text seg_bold seg_italic].
  destruct b, i; simpl; lia.
Qed.

Lemma emphasised_count segs :
  Forall (fun seg => clean_text (seg_text seg) = true) segs ->
  length (List.filter (fun seg => negb (is_plain seg)) segs)
  <= length (flat_map renderSegment segs).
Proof.
  induction 1 as [|seg segs Hc _ IH]; [done|].
  cbn [flat_map List.filter]. rewrite length_app.
  pose proof (render_length seg Hc).
  destruct (negb (is_plain seg)); simpl; lia.
Qed.

Lemma parseMarkdown_rendered segs :
  segs <> [] ->
  Forall (fun seg => clean_text (seg_text seg) = true) segs ->
  no_plain_neighbours segs = true ->
  parseMarkdown (flat_map renderSegment segs) = segs.
Proof.
  intros Hne Hc Hn. unfold parseMarkdown.
  destruct (flat_map renderSegment segs) as [|c text] eqn:Hr.
  - destruct segs as [|seg segs]; [done|].
    apply Forall_cons in Hc as [Hc _]. pose proof (render_length seg Hc) as Hl.
    cbn [flat_map] in Hr. apply app_eq_nil in Hr as [Hr _]. rewrite Hr in Hl.
    simpl in Hl. lia.
  - rewrite <- Hr. rewrite parseLoop_rendered; [|done|done|by apply emphasised_count].
    by destruct segs.
Qed.

(** X2. Segments whose texts are not empty and hold neither a star nor a
    line terminator, no two plain ones next to each other, are what the
    parser finds in their rendering: rendering is a right inverse of
    parsing on such lists. *)
Theorem parseMarkdown_inverts_rendering (segs : list Segment) :
  segs <> [] ->
  Forall (fun seg => clean_text (seg_text seg) = true) segs ->
  no_plain_neighbours segs = true ->
  parseMarkdown (flat_map renderSegment segs) = segs.
Proof. apply parseMarkdown_rendered. Qed.

(** *** Merging segments *)

Lemma styled_units_merge a b : same_flags a b = true ->
  styled_units (mkSegment (seg_text a ++ seg_text b) (seg_bold a) (seg_italic a))
  = styled_units a ++ styled_units b.
Proof.
  unfold same_flags, styled_units. intros H. apply andb_true_iff in H as [Hb Hi].
  apply eqb_prop in Hb, Hi. cbn [seg_text seg_bold seg_italic].
  rewrite List.map_app. by rewrite Hb, Hi.
Qed.

Lemma mergeLoop_units : forall rest last,
  flat_map styled_units (mergeLoop last rest)
  = styled_units last ++ flat_map styled_units rest.
Proof.
  induction rest as [|s rest IH]; intros last; cbn [mergeLoop flat_map].
  - reflexivity.
  - fold (same_flags last s). destruct (same_flags last s) eqn:Hf.
    + rewrite IH, styled_units_merge by done. by rewrite <- app_assoc.
    + cbn [flat_map]. by rewrite IH.
Qed.

Lemma mergeLoop_head : forall rest last,
  exists first others, mergeLoop last rest = first :: others
                       /\ seg_bold first = seg_bold last /\ seg_italic first = seg_italic last.
Proof.
  induction rest as [|s rest IH]; intros last; cbn [mergeLoop].
  - by exists last, [].
  - destruct (Bool.eqb (seg_bold last) (seg_bold s) && Bool.eqb (seg_italic last) (seg_italic s)).
    + destruct (IH (mkSegment (seg_text last ++ seg_text s) (seg_bold last) (seg_italic last)))
        as (f & o & -> & Hb & Hi). by exists f, o.
    + by exists last, (mergeLoop s rest).
Qed.

Lemma mergeLoop_alternating : forall rest last, alternating (mergeLoop last rest) = true.
Proof.
  induction rest as [|s rest IH]; intros last; cbn [mergeLoop]; [done|].
  fold (same_flags last s). destruct (same_flags last s) eqn:Hf; [apply IH|].
  destruct (mergeLoop_head rest s) as (f & o & He & Hb & Hi).
  pose proof (IH s) as Hs. rewrite He in Hs |- *.
  change (alternating (last :: f :: o))
    with (negb (same_flags last f) && alternating (f :: o)).
  rewrite Hs, andb_true_r.
  unfold same_flags in *. by rewrite Hb, Hi, Hf.
Qed.

Lemma mergeLoop_fixed : forall rest last,
  alternating (last :: rest) = true -> mergeLoop last rest = last :: rest.
Proof.
  induction rest as [|s rest IH]; intros last H; cbn [mergeLoop]; [done|].
  change (alternating (last :: s :: rest))
    with (negb (same_flags last s) && alternating (s :: rest)) in H.
  apply andb_true_iff in H as [Hf Hr].
  apply negb_true_iff in Hf. unfold same_flags in Hf. rewrite Hf.
  f_equal. by apply IH.
Qed.

Lemma mergeSegments_alternating segs : alternating (mergeSegments segs) = true.
Proof. destruct segs; [done|apply mergeLoop_alternating]. Qed.

Lemma mergeSegments_fixed segs : alternating segs = true -> mergeSegments segs = segs.
Proof. destruct segs; [done|apply mergeLoop_fixed]. Qed.

Lemma mergeSegments_units segs :
  flat_map styled_units (mergeSegments segs) = flat_map styled_units segs.
Proof. destruct segs; [done|apply mergeLoop_units]. Qed.

(** X3. Merging keeps every code unit with its flags, in order; it leaves
    no two neighbours with the same flags; and it changes nothing in a
    list that has no such neighbours, so merging twice is merging once. *)
Theorem mergeSegments_spec (segments : list Segment) :
  flat_map styled_units (mergeSegments segments) = flat_map styled_units segments
  /\ alternating (mergeSegments segments) = true
  /\ mergeSegments (mergeSegments segments) = mergeSegments segments.
Proof.
  split; [apply mergeSegments_units|]. split; [apply mergeSegments_alternating|].
  apply mergeSegments_fixed, mergeSegments_alternating.
Qed.

(** ** Tabs and line breaks in the formatted text *)

Lemma Node_induction (P : Node -> Prop) :
  (forall name attrs cs, Forall P cs -> P (Element name attrs cs)) ->
  (forall d, P (Text d)) -> (forall d, P (Comment d)) -> forall n, P n.
Proof.
  intros HE HT HC. fix IH 1. intros [name attrs cs|d|d]; [|apply HT|apply HC].
  apply HE. induction cs as [|c cs IHcs]; constructor; [apply IH|apply IHcs].
Qed.

Lemma descendants_child nm a cs c t :
  In c cs -> In t (c :: descendants c) -> In t (descendants (Element nm a cs)).
Proof. intros Hc Ht. cbn [descendants]. apply in_flat_map. eauto. Qed.

Lemma collected_below nm a cs c seg :
  In c cs -> collected c seg -> collected (Element nm a cs) seg.
Proof.
  intros Hc [H|[H|(t & Ht & Hn & Heq)]]; [by left|by right; left|].
  right; right. exists t. split; [|done].
  apply (descendants_child _ _ _ c); [done|by right].
Qed.

Lemma runSegments_collected bold italic r rc :
  In rc (childNodes r) -> Forall (collected r) (runSegments bold italic rc).
Proof.
  intros Hrc. unfold runSegments.
  destruct (has_name (js "w:t") rc) eqn:Ht.
  { constructor; [|constructor]. right; right. exists rc. split; [|done].
    destruct r as [nm a cs|d|d]; try done.
    apply (descendants_child _ _ _ rc); [done|by left]. }
  destruct (has_name (js "w:tab") rc); [constructor; [by left|constructor]|].
  destruct (has_name (js "w:br") rc); [constructor; [by right; left|constructor]|].
  constructor.
Qed.

Lemma collectFormattedSegments_collected :
  forall p, Forall (collected p) (collectFormattedSegments p).
Proof.
  induction p as [nm a cs IH|d|d] using Node_induction; [|constructor..].
  cbn [collectFormattedSegments]. apply List.Forall_forall. intros seg Hin.
  apply in_flat_map in Hin as (c & Hc & Hseg).
  apply (collected_below _ _ _ c); [done|].
  destruct (has_name (js "w:r") c).
  - apply in_flat_map in Hseg as (rc & Hrc & Hseg).
    pose proof (runSegments_collected
                  (hasBoolProp (getFirstChild (Some c) (js "w:rPr")) (js "w:b"))
                  (hasBoolProp (getFirstChild (Some c) (js "w:rPr")) (js "w:i"))
                  c rc Hrc) as HF.
    by apply (proj1 (List.Forall_forall _ _) HF).
  - destruct (has_name (js "w:hyperlink") c); [|done].
    pose proof (proj1 (List.Forall_forall _ _) IH c Hc) as HF.
    by apply (proj1 (List.Forall_forall _ _) HF).
Qed.

Lemma collected_flagged p seg :
  collected p seg -> flagged seg = true -> made_of_texts p (seg_text seg).
Proof.
  intros [->|[->|(t & Ht & Hn & Heq)]] Hf; [done..|].
  exists [t]. split; [by repeat constructor|]. cbn [flat_map]. by rewrite app_nil_r.
Qed.

Lemma made_of_texts_app p s t :
  made_of_texts p s -> made_of_texts p t -> made_of_texts p (s ++ t).
Proof.
  intros (ts1 & H1 & ->) (ts2 & H2 & ->). exists (ts1 ++ ts2).
  split; [by apply Forall_app|]. by rewrite flat_map_app.
Qed.

Lemma mergeLoop_made_of_texts p : forall rest last,
  (flagged last = true -> made_of_texts p (seg_text last)) ->
  Forall (fun seg => flagged seg = true -> made_of_texts p (seg_text seg)) rest ->
  Forall (fun seg => flagged seg = true -> made_of_texts p (seg_text seg))
         (mergeLoop last rest).
Proof.
  induction rest as [|s rest IH]; intros last Hlast Hrest; cbn [mergeLoop].
  { by constructor. }
  inversion Hrest as [|? ? Hs Hrest']; subst.
  destruct (Bool.eqb (seg_bold last) (seg_bold s)
            && Bool.eqb (seg_italic last) (seg_italic s)) eqn:Hsame.
  - apply IH; [|done]. unfold flagged. cbn [seg_text seg_bold seg_italic]. intros Hf.
    apply andb_true_iff in Hsame as [Hb Hi].
    apply Bool.eqb_prop in Hb, Hi.
    apply made_of_texts_app; [by apply Hlast|].
    apply Hs. unfold flagged. by rewrite <- Hb, <- Hi.
  - constructor; [done|]. by apply IH.
Qed.

Lemma merged_made_of_texts p :
  Forall (fun seg => flagged seg = true -> made_of_texts p (seg_text seg))
         (mergeSegments (collectFormattedSegments p)).
Proof.
  pose proof (collectFormattedSegments_collected p) as HF.
  assert (HQ : Forall (fun seg => flagged seg = true -> made_of_texts p (seg_text seg))
                      (collectFormattedSegments p)).
  { eapply Forall_impl; [exact HF|]. intros seg Hc Hf. by apply (collected_flagged p). }
  destruct (collectFormattedSegments p) as [|s0 rest]; [constructor|].
  inversion HQ; subst. by apply mergeLoop_made_of_texts.
Qed.

Lemma has_break_app s t : has_break (s ++ t) = has_break s || has_break t.
Proof. apply existsb_app. Qed.

Lemma made_of_texts_no_break p text :
  texts_without_breaks p = true -> made_of_texts p text -> has_break text = false.
Proof.
  intros Hp (ts & Hts & ->). unfold texts_without_breaks in Hp.
  rewrite forallb_forall in Hp.
  induction Hts as [|t ts [Hin Hn] _ IH]; [done|].
  cbn [flat_map]. rewrite has_break_app, IH, orb_false_r.
  specialize (Hp t Hin). rewrite Hn in Hp. cbn in Hp.
  by apply negb_true_iff in Hp.
Qed.

Lemma renderSegment_unflagged seg : flagged seg = false -> renderSegment seg = seg_text seg.
Proof.
  unfold flagged, renderSegment. intros [-> ->]%orb_false_iff. by destruct (seg_text seg).
Qed.

(** C10, as amended.  Whatever the flags of the enclosing run, a [w:tab]
    child is recorded as the unformatted segment of a tab and a [w:br]
    child as the unformatted segment of a line feed.  For every paragraph,
    whatever its runs and hyperlinks: every segment that is collected is
    one of these two or the text of a [w:t] element; merging neighbours
    keeps the flags of every code unit; hence the text of every merged
    segment that is rendered inside markers is made of texts of [w:t]
    elements only, and a segment without flags is rendered as its bare
    text: no marker pair encloses the tab of a [w:tab] or the line feed of
    a [w:br].  In particular, when no [w:t] text holds a tab or a line
    feed, every tab and line feed of the formatted text lies in a segment
    without markers.  A run with the texts [a] and [b] around a [w:tab]
    is rendered as [a] and [b] each inside its own markers, with the bare
    tab between them; for a bold run holding a, [w:tab], b the text is two
    bold spans around a tab. *)
Theorem tab_and_break_are_unformatted (bold italic : bool) (rc : Node) (props : list Node)
        (a b : jsstring) (p : Node) :
  (has_name (js "w:tab") rc = true ->
     runSegments bold italic rc = [mkSegment [9%N] false false])
  /\ (has_name (js "w:br") rc = true ->
     runSegments bold italic rc = [mkSegment [10%N] false false])
  /\ Forall (collected p) (collectFormattedSegments p)
  /\ flat_map styled_units (mergeSegments (collectFormattedSegments p))
     = flat_map styled_units (collectFormattedSegments p)
  /\ getFormattedText p
     = flat_map renderSegment (mergeSegments (collectFormattedSegments p))
  /\ Forall (fun seg =>
               (flagged seg = true -> made_of_texts p (seg_text seg))
               /\ (flagged seg = false -> renderSegment seg = seg_text seg))
            (mergeSegments (collectFormattedSegments p))
  /\ (texts_without_breaks p = true ->
      Forall (fun seg => has_break (seg_text seg) = true ->
                         flagged seg = false /\ renderSegment seg = seg_text seg)
             (mergeSegments (collectFormattedSegments p)))
  /\ (let rPr := Some (Element (js "w:rPr") [] props) in
      let bold := hasBoolProp rPr (js "w:b") in
      let italic := hasBoolProp rPr (js "w:i") in
      getFormattedText (wp [wr props [wt a; wtab; wt b]])
      = renderSegment (mkSegment a bold italic) ++ [9%N]
          ++ renderSegment (mkSegment b bold italic))
  /\ getFormattedText (wp [wr bold_props [wt (js "a"); wtab; wt (js "b")]])
     = js "**a**" ++ [9%N] ++ js "**b**".
Proof.
  split; [|split; [|split; [|split; [|split; [|split; [|split; [|split]]]]]]].
  - intros H. unfold runSegments.
    rewrite (has_name_other _ (js "w:t") _ H) by discriminate. by rewrite H.
  - intros H. unfold runSegments.
    rewrite (has_name_other _ (js "w:t") _ H) by discriminate.
    rewrite (has_name_other _ (js "w:tab") _ H) by discriminate. by rewrite H.
  - apply collectFormattedSegments_collected.
  - apply mergeSegments_units.
  - reflexivity.
  - eapply Forall_impl; [apply merged_made_of_texts|].
    intros seg Hseg. split; [exact Hseg|apply renderSegment_unflagged].
  - intros Hp. eapply Forall_impl; [apply merged_made_of_texts|].
    intros seg Hseg Hbreak. cbv beta in Hseg. destruct (flagged seg) eqn:Hf.
    + rewrite (made_of_texts_no_break p _ Hp (Hseg eq_refl)) in Hbreak. discriminate.
    + split; [done|by apply renderSegment_unflagged].
  - cbv zeta. unfold getFormattedText.
    change (collectFormattedSegments (wp [wr props [wt a; wtab; wt b]]))
      with [mkSegment (textContent (wt a))
                      (hasBoolProp (Some (Element (js "w:rPr") [] props)) (js "w:b"))
                      (hasBoolProp (Some (Element (js "w:rPr") [] props)) (js "w:i"));
            mkSegment [9%N] false false;
            mkSegment (textContent (wt b))
                      (hasBoolProp (Some (Element (js "w:rPr") [] props)) (js "w:b"))
                      (hasBoolProp (Some (Element (js "w:rPr") [] props)) (js "w:i"))].
    rewrite !textContent_wt.
    destruct (hasBoolProp _ (js "w:b")), (hasBoolProp _ (js "w:i")); simpl;
      rewrite ?app_nil_r; try done.
    unfold renderSegment; simpl. destruct a, b; simpl; rewrite ?app_nil_r; try done.
    by rewrite <- app_assoc.
  - reflexivity.
Qed.

(** *** Reading back a paragraph that was written *)

Lemma collect_children n : collectFormattedSegments n = flat_map collectStep (childNodes n).
Proof. destruct n; reflexivity. Qed.

Lemma find_app {A} (P : A -> bool) (l1 l2 : list A) :
  List.find P (l1 ++ l2) =
    match List.find P l1 with Some x => Some x | None => List.find P l2 end.
Proof. induction l1 as [|x l1 IH]; simpl; [done|]. by destruct (P x). Qed.

Lemma find_none_forall {A} (P : A -> bool) (l : list A) :
  Forall (fun x => P x = false) l -> List.find P l = None.
Proof. induction 1 as [|x l Hx _ IH]; simpl; [done|]. by rewrite Hx. Qed.

Lemma fold_left_appendChild l : forall name attrs cs,
  fold_left appendChild l (Element name attrs cs) = Element name attrs (cs ++ l).
Proof.
  induction l as [|x l IH]; intros name attrs cs; cbn [fold_left].
  - by rewrite app_nil_r.
  - change (appendChild (Element name attrs cs) x) with (Element name attrs (cs ++ [x])).
    rewrite IH. by rewrite <- app_assoc.
Qed.

Lemma has_name_false tag n : str_eqb (nodeName n) tag = false -> has_name tag n = false.
Proof. unfold has_name. intros ->. apply andb_false_r. Qed.

Lemma collect_kept cs :
  flat_map collectStep (List.filter (fun c => negb (is_replaced c)) cs) = [].
Proof.
  induction cs as [|c cs IH]; simpl; [done|].
  destruct (is_replaced c) eqn:Hr; simpl; [done|]. rewrite IH, app_nil_r.
  unfold is_replaced in Hr.
  apply orb_false_iff in Hr as [Hr _]. apply orb_false_iff in Hr as [Hr _].
  apply orb_false_iff in Hr as [Hr Hh].
  unfold collectStep. by rewrite !has_name_false.
Qed.

Lemma find_flag_props_b seg :
  List.find (has_name (js "w:b")) (formatProps seg)
  = if seg_bold seg then Some (createElement (js "w:b")) else None.
Proof. unfold formatProps. by destruct (seg_bold seg), (seg_italic seg). Qed.

Lemma find_flag_props_i seg :
  List.find (has_name (js "w:i")) (formatProps seg)
  = if seg_italic seg then Some (createElement (js "w:i")) else None.
Proof. unfold formatProps. by destruct (seg_bold seg), (seg_italic seg). Qed.

Lemma hasBoolProp_props_b attrs cs seg :
  Forall (fun c => has_name (js "w:b") c = false /\ has_name (js "w:i") c = false) cs ->
  hasBoolProp (Some (Element (js "w:rPr") attrs (cs ++ formatProps seg))) (js "w:b")
  = seg_bold seg.
Proof.
  intros H. unfold hasBoolProp, getFirstChild. cbn [childNodes].
  rewrite find_app, find_none_forall, find_flag_props_b.
  - by destruct (seg_bold seg).
  - eapply Forall_impl; [exact H|]. by intros c [? ?].
Qed.

Lemma hasBoolProp_props_i attrs cs seg :
  Forall (fun c => has_name (js "w:b") c = false /\ has_name (js "w:i") c = false) cs ->
  hasBoolProp (Some (Element (js "w:rPr") attrs (cs ++ formatProps seg))) (js "w:i")
  = seg_italic seg.
Proof.
  intros H. unfold hasBoolProp, getFirstChild. cbn [childNodes].
  rewrite find_app, find_none_forall, find_flag_props_i.
  - by destruct (seg_italic seg).
  - eapply Forall_impl; [exact H|]. by intros c [? ?].
Qed.

Lemma formatProps_nil seg : formatProps seg = [] -> seg_bold seg = false /\ seg_italic seg = false.
Proof. unfold formatProps. by destruct (seg_bold seg), (seg_italic seg). Qed.

Lemma segment_eta seg : mkSegment (seg_text seg) (seg_bold seg) (seg_italic seg) = seg.
Proof. by destruct seg. Qed.

Lemma collectStep_run attrs cs :
  collectStep (Element (js "w:r") attrs cs)
  = let rPr := getFirstChild (Some (Element (js "w:r") attrs cs)) (js "w:rPr") in
    flat_map (runSegments (hasBoolProp rPr (js "w:b")) (hasBoolProp rPr (js "w:i"))) cs.
Proof. reflexivity. Qed.

Lemma getFirstChild_rPr name attrs attrs' cs' rest :
  getFirstChild (Some (Element name attrs (Element (js "w:rPr") attrs' cs' :: rest)))
                (js "w:rPr")
  = Some (Element (js "w:rPr") attrs' cs').
Proof. reflexivity. Qed.

Lemma getFirstChild_rPr_none name attrs text :
  getFirstChild (Some (Element name attrs [textElement text])) (js "w:rPr") = None.
Proof. reflexivity. Qed.

Lemma runSegments_text bold italic text :
  runSegments bold italic (textElement text) = [mkSegment text bold italic].
Proof.
  change (runSegments bold italic (textElement text))
    with [mkSegment (text ++ []) bold italic].
  by rewrite app_nil_r.
Qed.

Lemma runSegments_rPr bold italic attrs cs :
  runSegments bold italic (Element (js "w:rPr") attrs cs) = [].
Proof. reflexivity. Qed.

Lemma collect_run_with_props attrs cs seg :
  Forall (fun c => has_name (js "w:b") c = false /\ has_name (js "w:i") c = false) cs ->
  collectStep
    (Element (js "w:r") []
       (match cs ++ formatProps seg with
        | [] => []
        | _ => [Element (js "w:rPr") attrs (cs ++ formatProps seg)]
        end ++ [textElement (seg_text seg)]))
  = [seg].
Proof.
  intros H. rewrite collectStep_run. cbv zeta.
  destruct (cs ++ formatProps seg) as [|x l] eqn:Hc.
  - apply app_eq_nil in Hc as [_ Hp]. apply formatProps_nil in Hp as [Hb Hi].
    cbn [app]. rewrite getFirstChild_rPr_none. cbn [flat_map].
    rewrite runSegments_text, app_nil_r.
    change (hasBoolProp None ?x) with false.
    rewrite <- (segment_eta seg) at 2. by rewrite Hb, Hi.
  - rewrite <- Hc. cbn [app]. rewrite getFirstChild_rPr.
    rewrite hasBoolProp_props_b, hasBoolProp_props_i by done.
    cbn [flat_map]. rewrite runSegments_rPr, runSegments_text. cbn [app].
    by rewrite segment_eta.
Qed.

Lemma removeChildrenByName_children parent tag c :
  In c (childNodes (removeChildrenByName parent tag)) ->
  In c (childNodes parent) /\ has_name tag c = false.
Proof.
  unfold removeChildrenByName. destruct parent as [name attrs cs| |]; simpl; [|done..].
  intros [Hin Hn]%filter_In. split; [done|].
  apply has_name_false. by apply negb_true_iff.
Qed.

Lemma removeChildrenByName_name parent tag :
  nodeName (removeChildrenByName parent tag) = nodeName parent
  /\ is_element (removeChildrenByName parent tag) = is_element parent.
Proof. by destruct parent. Qed.

Lemma has_name_removeChildren tag' parent tag :
  has_name tag' (removeChildrenByName parent tag) = has_name tag' parent.
Proof. by destruct parent. Qed.

Lemma baseRPr_ok p b : baseRPr p = Some b ->
  has_name (js "w:rPr") b = true /\ no_flag_children b.
Proof.
  unfold baseRPr. destruct (getDirectChildren p (js "w:r")) as [|run runs]; [done|].
  destruct (getFirstChild (Some run) (js "w:rPr")) as [rPr|] eqn:Hr; [|done].
  intros H. injection H as <-. split.
  - rewrite !has_name_removeChildren. unfold getFirstChild in Hr.
    by apply find_some in Hr as [_ Hr].
  - apply List.Forall_forall. intros c Hc.
    apply removeChildrenByName_children in Hc as [Hc _].
    apply removeChildrenByName_children in Hc as [Hc Hi].
    apply removeChildrenByName_children in Hc as [Hc _].
    apply removeChildrenByName_children in Hc as [Hc Hb]. done.
Qed.

Lemma has_name_element tag n : has_name tag n = true ->
  exists attrs cs, n = Element tag attrs cs.
Proof.
  unfold has_name. destruct n as [name attrs cs| |]; simpl; [|done..].
  intros H%str_eqb_eq. subst. eauto.
Qed.

Lemma collect_formattedRun p seg : collectStep (formattedRun (baseRPr p) seg) = [seg].
Proof.
  unfold formattedRun. destruct (baseRPr p) as [b|] eqn:Hb; cbn [default].
  - apply baseRPr_ok in Hb as [Hn Hf].
    apply has_name_element in Hn as (attrs & cs & ->).
    unfold id. rewrite fold_left_appendChild. cbn [childNodes].
    by apply collect_run_with_props.
  - unfold createElement. rewrite fold_left_appendChild. cbn [childNodes].
    by apply (collect_run_with_props [] []).
Qed.

Lemma forSegments_nonempty f segs :
  Forall (fun seg => seg_text seg <> []) segs -> forSegments f segs = List.map f segs.
Proof.
  induction 1 as [|seg segs Hs _ IH]; [done|].
  unfold forSegments in *. cbn [flat_map List.map]. rewrite IH.
  by destruct (seg_text seg).
Qed.

Lemma flat_map_singletons {A B} (f : A -> B) (g : B -> list A) l :
  (forall x, g (f x) = [x]) -> flat_map g (List.map f l) = l.
Proof. intros H. induction l as [|x l IH]; simpl; [done|]. by rewrite H, IH. Qed.

Lemma collect_updated name attrs cs text :
  collectFormattedSegments (updateParagraphText (Element name attrs cs) text)
  = match text with [] => [] | _ => parseMarkdown text end.
Proof.
  unfold updateParagraphText. cbn [withChildren childNodes].
  rewrite collect_children. cbn [childNodes].
  rewrite flat_map_app, collect_kept. cbn [app].
  destruct text as [|c text]; [reflexivity|].
  rewrite forSegments_nonempty by (by apply parseMarkdown_nonempty).
  apply flat_map_singletons. intros seg. apply collect_formattedRun.
Qed.

Lemma collect_basicRun seg : collectStep (basicRun seg) = [seg].
Proof.
  destruct seg as [text bold italic].
  destruct bold, italic.
  - exact (collect_run_with_props [] [] (mkSegment text true true) (List.Forall_nil _)).
  - exact (collect_run_with_props [] [] (mkSegment text true false) (List.Forall_nil _)).
  - exact (collect_run_with_props [] [] (mkSegment text false true) (List.Forall_nil _)).
  - exact (collect_run_with_props [] [] (mkSegment text false false) (List.Forall_nil _)).
Qed.

Lemma collect_basic text :
  collectFormattedSegments (createBasicParagraph text)
  = match text with [] => [] | _ => parseMarkdown text end.
Proof.
  unfold createBasicParagraph. rewrite collect_children. cbn [childNodes].
  destruct text as [|c text]; [reflexivity|].
  rewrite forSegments_nonempty by (by apply parseMarkdown_nonempty).
  apply flat_map_singletons. intros seg. apply collect_basicRun.
Qed.

Lemma plain_run_with_props attrs cs text :
  getPlainText (Element (js "w:r") [] [Element (js "w:rPr") attrs cs; textElement text])
  = text.
Proof.
  change (getPlainText _) with ((text ++ []) ++ []). by rewrite !app_nil_r.
Qed.

Lemma plain_run_text text : getPlainText (Element (js "w:r") [] [textElement text]) = text.
Proof.
  change (getPlainText _) with ((text ++ []) ++ []). by rewrite !app_nil_r.
Qed.

Lemma plain_basicRun seg : getPlainText (basicRun seg) = seg_text seg.
Proof.
  destruct seg as [text bold italic].
  destruct bold, italic; (apply plain_run_with_props || apply plain_run_text).
Qed.

Lemma getPlainText_runs (runs : list Node) (texts : list jsstring) :
  Forall2 (fun run text => has_name (js "w:r") run = true /\ getPlainText run = text)
          runs texts ->
  getPlainText (Element (js "w:p") [] runs) = concat texts.
Proof.
  cbn [getPlainText]. induction 1 as [|run text runs texts [Hn Hp] _ IH]; [done|].
  cbn [flat_map concat]. rewrite IH. f_equal.
  apply has_name_element in Hn as (attrs & cs & ->). exact Hp.
Qed.

Lemma plain_basic text :
  getPlainText (createBasicParagraph text)
  = match text with [] => [] | _ => flat_map seg_text (parseMarkdown text) end.
Proof.
  unfold createBasicParagraph. destruct text as [|c text]; [reflexivity|].
  rewrite forSegments_nonempty by (by apply parseMarkdown_nonempty).
  rewrite (getPlainText_runs _ (List.map seg_text (parseMarkdown (c :: text)))).
  - by rewrite <- flat_map_concat_map.
  - induction (parseMarkdown (c :: text)) as [|seg segs IH]; constructor; [|done].
    split; [by destruct seg as [? [] []]|apply plain_basicRun].
Qed.

(** X4. The segments read from a paragraph after its text was written are
    those the parser found in the text, none for the empty text: whatever
    runs, links and run properties the paragraph had. The same holds for a
    paragraph created for a text, whose plain text is the text of these
    segments. *)
Theorem written_segments_are_read (name : jsstring) (attrs : list (jsstring * jsstring))
        (children : list Node) (text : jsstring) :
  collectFormattedSegments (updateParagraphText (Element name attrs children) text)
  = match text with [] => [] | _ => parseMarkdown text end
  /\ collectFormattedSegments (createBasicParagraph text)
     = match text with [] => [] | _ => parseMarkdown text end
  /\ getPlainText (createBasicParagraph text)
     = match text with [] => [] | _ => flat_map seg_text (parseMarkdown text) end.
Proof. split; [apply collect_updated|]. split; [apply collect_basic|apply plain_basic]. Qed.

Lemma alternating_no_plain_neighbours segs :
  alternating segs = true -> no_plain_neighbours segs = true.
Proof.
  induction segs as [|a segs IH]; [done|]. destruct segs as [|b segs]; [done|].
  change (alternating (a :: b :: segs))
    with (negb (same_flags a b) && alternating (b :: segs)).
  change (no_plain_neighbours (a :: b :: segs))
    with (negb (is_plain a && is_plain b) && no_plain_neighbours (b :: segs)).
  intros [Hf Hr]%andb_true_iff. rewrite IH by done. rewrite andb_true_r.
  destruct a as [? [] []], b as [? [] []]; done.
Qed.

Lemma render_nonempty segs :
  segs <> [] -> Forall (fun seg => clean_text (seg_text seg) = true) segs ->
  flat_map renderSegment segs <> [].
Proof.
  intros Hne Hc. destruct segs as [|seg segs]; [done|].
  apply Forall_cons in Hc as [Hc _]. pose proof (render_length seg Hc) as Hl.
  cbn [flat_map]. intros [H _]%app_eq_nil. rewrite H in Hl. simpl in Hl. lia.
Qed.

Lemma formatted_of_segments n segs :
  alternating segs = true -> collectFormattedSegments n = segs ->
  getFormattedText n = flat_map renderSegment segs.
Proof. intros Ha Hc. unfold getFormattedText. by rewrite Hc, mergeSegments_fixed. Qed.

Lemma formatted_updated_canonical name attrs children text :
  canonical text ->
  getFormattedText (updateParagraphText (Element name attrs children) text) = text.
Proof.
  intros [->|(segs & Hne & Hc & Ha & ->)].
  - unfold getFormattedText. by rewrite collect_updated.
  - apply formatted_of_segments; [done|]. rewrite collect_updated.
    pose proof (render_nonempty segs Hne Hc) as Ht.
    destruct (flat_map renderSegment segs) eqn:Hr; [done|]. rewrite <- Hr.
    apply parseMarkdown_rendered; auto using alternating_no_plain_neighbours.
Qed.

Lemma formatted_basic_canonical text :
  canonical text -> getFormattedText (createBasicParagraph text) = text.
Proof.
  intros [->|(segs & Hne & Hc & Ha & ->)]; [reflexivity|].
  apply formatted_of_segments; [done|]. rewrite collect_basic.
  pose proof (render_nonempty segs Hne Hc) as Ht.
  destruct (flat_map renderSegment segs) eqn:Hr; [done|]. rewrite <- Hr.
  apply parseMarkdown_rendered; auto using alternating_no_plain_neighbours.
Qed.

(** X5. A canonical text is read back as it was written: the formatted
    text of the paragraph it was written to, or of the paragraph created
    for it, is that text. *)
Theorem formatted_text_round_trip (name : jsstring) (attrs : list (jsstring * jsstring))
        (children : list Node) (text : jsstring) :
  canonical text ->
  getFormattedText (updateParagraphText (Element name attrs children) text) = text
  /\ getFormattedText (createBasicParagraph text) = text.
Proof.
  intros H. split; [by apply formatted_updated_canonical|by apply formatted_basic_canonical].
Qed.

(** *** What rebuilding keeps of a paragraph *)

Ltac tags_differ := let H := fresh in intros H; apply js_inj in H; discriminate H.

Lemma classify_by_markup q hs :
  classifyParagraph q hs =
    let text := trim (getFormattedText q) in
    match markupLevel q hs with
    | Some level => CHeading level text
    | None =>
        match detectHeadingByPattern (trim (getPlainText q)) with
        | Some k => CHeading (Z.of_nat k) text
        | None => if isListItem q then CListItem (getListLevel q) text else CParagraph text
        end
    end.
Proof.
  unfold classifyParagraph, markupLevel. cbv zeta.
  destruct (getFirstChild (Some q) (js "w:pPr") ≫= (fun pPr => styleLevel pPr hs));
    [reflexivity|].
  by destruct (getFirstChild (Some q) (js "w:pPr") ≫= outlineLevel).
Qed.

Section Prune.

(** A function that removes some of the elements below a node and keeps
    everything else. *)
Variable F : Node -> Node.
Variable drop : Node -> bool.
Hypothesis F_element : forall name attrs cs,
  F (Element name attrs cs)
  = Element name attrs (flat_map (fun c => if drop c then [] else [F c]) cs).
Hypothesis F_other : forall n, is_element n = false -> F n = n.

Lemma prune_has_name tag n : has_name tag (F n) = has_name tag n.
Proof.
  destruct n as [name attrs cs| |]; [by rewrite F_element|by rewrite F_other..].
Qed.

Lemma prune_attribute n name : getAttribute (F n) name = getAttribute n name.
Proof.
  destruct n as [nm attrs cs| |]; [by rewrite F_element|by rewrite F_other..].
Qed.

Lemma prune_find tag cs : kept drop tag ->
  List.find (has_name tag) (flat_map (fun c => if drop c then [] else [F c]) cs)
  = F <$> List.find (has_name tag) cs.
Proof.
  intros Hk. induction cs as [|c cs IH]; [done|]. cbn [flat_map List.find].
  destruct (has_name tag c) eqn:Hc.
  - rewrite (Hk c Hc). cbn [app List.find]. by rewrite prune_has_name, Hc.
  - destruct (drop c); cbn [app List.find]; [done|]. by rewrite prune_has_name, Hc.
Qed.

Lemma prune_first tag n : kept drop tag ->
  getFirstChild (Some (F n)) tag = F <$> getFirstChild (Some n) tag.
Proof.
  intros Hk. unfold getFirstChild.
  destruct n as [name attrs cs| |]; [|by rewrite F_other..].
  rewrite F_element. cbn [childNodes]. by apply prune_find.
Qed.

Lemma prune_direct tag n : kept drop tag ->
  getDirectChildren (F n) tag = List.map F (getDirectChildren n tag).
Proof.
  intros Hk. unfold getDirectChildren.
  destruct n as [name attrs cs| |]; [|by rewrite F_other..].
  rewrite F_element. cbn [childNodes].
  induction cs as [|c cs IH]; [done|]. cbn [flat_map List.filter].
  destruct (has_name tag c) eqn:Hc.
  - rewrite (Hk c Hc). cbn [app List.filter List.map]. by rewrite prune_has_name, Hc, IH.
  - destruct (drop c); cbn [app List.filter]; [done|]. by rewrite prune_has_name, Hc, IH.
Qed.

Lemma prune_parseIntAttr n : parseIntAttr (F n) = parseIntAttr n.
Proof. unfold parseIntAttr. by rewrite prune_attribute. Qed.

Lemma prune_styleLevel pPr hs : kept drop (js "w:pStyle") ->
  styleLevel (F pPr) hs = styleLevel pPr hs.
Proof.
  intros Hk. unfold styleLevel. rewrite prune_first by done.
  destruct (getFirstChild (Some pPr) (js "w:pStyle")); [|done].
  cbn [fmap option_fmap option_map]. by rewrite prune_attribute.
Qed.

Lemma prune_outlineLevel pPr : kept drop (js "w:outlineLvl") ->
  outlineLevel (F pPr) = outlineLevel pPr.
Proof.
  intros Hk. unfold outlineLevel. rewrite prune_first by done.
  destruct (getFirstChild (Some pPr) (js "w:outlineLvl")); [|done].
  cbn [fmap option_fmap option_map]. by rewrite prune_parseIntAttr.
Qed.

Hypothesis kept_pPr : kept drop (js "w:pPr").
Hypothesis kept_pStyle : kept drop (js "w:pStyle").
Hypothesis kept_outlineLvl : kept drop (js "w:outlineLvl").
Hypothesis kept_numPr : kept drop (js "w:numPr").
Hypothesis kept_ilvl : kept drop (js "w:ilvl").

Lemma prune_markupLevel p hs : markupLevel (F p) hs = markupLevel p hs.
Proof.
  unfold markupLevel. cbv zeta. rewrite prune_first by done.
  destruct (getFirstChild (Some p) (js "w:pPr")) as [pPr|]; [|done].
  cbn [fmap option_fmap option_map mbind option_bind].
  by rewrite prune_styleLevel, prune_outlineLevel.
Qed.

Lemma prune_isListItem p : isListItem (F p) = isListItem p.
Proof.
  unfold isListItem. rewrite prune_first by done.
  destruct (getFirstChild (Some p) (js "w:pPr")) as [pPr|]; [|done].
  cbn [fmap option_fmap option_map]. rewrite prune_first by done.
  by destruct (getFirstChild (Some pPr) (js "w:numPr")).
Qed.

Lemma prune_getListLevel p : getListLevel (F p) = getListLevel p.
Proof.
  unfold getListLevel. rewrite prune_first by done.
  destruct (getFirstChild (Some p) (js "w:pPr")) as [pPr|]; [|done].
  cbn [fmap option_fmap option_map]. rewrite prune_first by done.
  destruct (getFirstChild (Some pPr) (js "w:numPr")) as [numPr|]; [|done].
  cbn [fmap option_fmap option_map]. rewrite prune_first by done.
  destruct (getFirstChild (Some numPr) (js "w:ilvl")) as [ilvl|]; [|done].
  cbn [fmap option_fmap option_map]. by rewrite prune_parseIntAttr.
Qed.

Lemma prune_paragraphStyleId p : paragraphStyleId (F p) = paragraphStyleId p.
Proof.
  unfold paragraphStyleId. rewrite prune_first by done.
  destruct (getFirstChild (Some p) (js "w:pPr")) as [pPr|]; [|done].
  cbn [fmap option_fmap option_map]. rewrite prune_first by done.
  destruct (getFirstChild (Some pPr) (js "w:pStyle")) as [pStyle|]; [|done].
  cbn [fmap option_fmap option_map]. by rewrite prune_attribute.
Qed.

Lemma prune_safe_attribute o : safe_attribute (F <$> o) = safe_attribute o.
Proof.
  unfold safe_attribute. destruct o as [n|]; [|done].
  cbn [fmap option_fmap option_map mbind option_bind]. by rewrite prune_parseIntAttr.
Qed.

Lemma prune_exactness p : exactness (F p) = exactness p.
Proof.
  unfold exactness, own_style, safe_levels. cbv zeta.
  rewrite prune_paragraphStyleId, prune_first by done.
  destruct (getFirstChild (Some p) (js "w:pPr")) as [pPr|]; [|done].
  cbn [fmap option_fmap option_map]. rewrite !prune_first by done.
  rewrite prune_safe_attribute.
  destruct (getFirstChild (Some pPr) (js "w:numPr")) as [numPr|]; [|done].
  cbn [fmap option_fmap option_map]. rewrite prune_first by done.
  by rewrite prune_safe_attribute.
Qed.

End Prune.

Lemma removeByTagName_element tag name attrs cs :
  removeByTagName tag (Element name attrs cs)
  = Element name attrs
      (flat_map (fun c => if has_name tag c then [] else [removeByTagName tag c]) cs).
Proof. reflexivity. Qed.

Lemma removeByTagName_other tag n : is_element n = false -> removeByTagName tag n = n.
Proof. by destruct n. Qed.

Lemma removeEmptyRuns_element name attrs cs :
  removeEmptyRuns (Element name attrs cs)
  = Element name attrs
      (flat_map (fun c => if has_name (js "w:r") c && negb (hasContent c) then []
                          else [removeEmptyRuns c]) cs).
Proof. reflexivity. Qed.

Lemma removeEmptyRuns_other n : is_element n = false -> removeEmptyRuns n = n.
Proof. by destruct n. Qed.

Lemma kept_by_tag tag0 tag : tag <> tag0 -> kept (has_name tag0) tag.
Proof. intros Hne c Hc. by apply (has_name_other tag). Qed.

Lemma kept_by_runs tag : tag <> js "w:r" ->
  kept (fun c => has_name (js "w:r") c && negb (hasContent c)) tag.
Proof. intros Hne c Hc. by rewrite (has_name_other tag). Qed.

Lemma markup_removeByTagName tag0 p hs :
  js "w:pPr" <> tag0 -> js "w:pStyle" <> tag0 -> js "w:outlineLvl" <> tag0 ->
  js "w:numPr" <> tag0 -> js "w:ilvl" <> tag0 ->
  markup (removeByTagName tag0 p) hs = markup p hs.
Proof.
  intros H1 H2 H3 H4 H5. unfold markup.
  rewrite (prune_markupLevel _ (has_name tag0)), (prune_isListItem _ (has_name tag0)),
    (prune_getListLevel _ (has_name tag0));
    auto using removeByTagName_element, removeByTagName_other, kept_by_tag.
Qed.

Lemma markup_removeEmptyRuns p hs : markup (removeEmptyRuns p) hs = markup p hs.
Proof.
  unfold markup.
  rewrite (prune_markupLevel _ (fun c => has_name (js "w:r") c && negb (hasContent c))),
    (prune_isListItem _ (fun c => has_name (js "w:r") c && negb (hasContent c))),
    (prune_getListLevel _ (fun c => has_name (js "w:r") c && negb (hasContent c)));
    auto using removeEmptyRuns_element, removeEmptyRuns_other;
    apply kept_by_runs; tags_differ.
Qed.

Lemma markup_removeImages p hs : markup (removeImages p) hs = markup p hs.
Proof.
  unfold removeImages.
  destruct (str_eqb _ _ || str_eqb _ _); rewrite ?markup_removeEmptyRuns;
    rewrite !markup_removeByTagName; try done; tags_differ.
Qed.

Lemma find_filter_keep {A} (P Q : A -> bool) l :
  (forall x, P x = true -> Q x = true) ->
  List.find P (List.filter Q l) = List.find P l.
Proof.
  intros H. induction l as [|x l IH]; [done|]. cbn [List.filter List.find].
  destruct (P x) eqn:HP.
  - rewrite (H x HP). cbn [List.find]. by rewrite HP.
  - destruct (Q x); cbn [List.find]; by rewrite ?HP.
Qed.

Lemma forSegments_runs f segs :
  (forall seg, exists attrs cs, f seg = Element (js "w:r") attrs cs) ->
  Forall (fun n => has_name (js "w:r") n = true) (forSegments f segs).
Proof.
  intros Hf. unfold forSegments. induction segs as [|seg segs IH]; [constructor|].
  cbn [flat_map]. destruct (seg_text seg); [done|].
  cbn [app]. constructor; [|done]. by destruct (Hf seg) as (a & c & ->).
Qed.

Lemma formattedRun_run base seg :
  exists attrs cs, formattedRun base seg = Element (js "w:r") attrs cs.
Proof. unfold formattedRun. eauto. Qed.

Lemma update_first_pPr name attrs cs text :
  getFirstChild (Some (updateParagraphText (Element name attrs cs) text)) (js "w:pPr")
  = getFirstChild (Some (Element name attrs cs)) (js "w:pPr").
Proof.
  unfold updateParagraphText, getFirstChild. cbn [withChildren childNodes].
  rewrite find_app, find_filter_keep.
  - destruct (List.find (has_name (js "w:pPr")) cs); [done|].
    apply find_none_forall.
    eapply Forall_impl; [apply forSegments_runs, formattedRun_run|].
    intros n Hn. apply (has_name_other (js "w:r")); [done|tags_differ].
  - intros c Hc. apply has_name_eq in Hc. unfold is_replaced. by rewrite Hc.
Qed.

Lemma markup_update p text hs : markup (updateParagraphText p text) hs = markup p hs.
Proof.
  destruct p as [name attrs cs| |]; [|done..].
  unfold markup, markupLevel, isListItem, getListLevel. cbv zeta.
  by rewrite update_first_pPr.
Qed.

Lemma markup_rebuilt p text hs :
  markup (updateParagraphText (removeImages p) text) hs = markup p hs.
Proof. by rewrite markup_update, markup_removeImages. Qed.

Lemma exactness_removeByTagName tag0 p :
  js "w:pPr" <> tag0 -> js "w:pStyle" <> tag0 -> js "w:outlineLvl" <> tag0 ->
  js "w:numPr" <> tag0 -> js "w:ilvl" <> tag0 ->
  exactness (removeByTagName tag0 p) = exactness p.
Proof.
  intros H1 H2 H3 H4 H5.
  apply (prune_exactness _ (has_name tag0));
    auto using removeByTagName_element, removeByTagName_other, kept_by_tag.
Qed.

Lemma exactness_removeEmptyRuns p : exactness (removeEmptyRuns p) = exactness p.
Proof.
  apply (prune_exactness _ (fun c => has_name (js "w:r") c && negb (hasContent c)));
    auto using removeEmptyRuns_element, removeEmptyRuns_other;
    apply kept_by_runs; tags_differ.
Qed.

Lemma exactness_removeImages p : exactness (removeImages p) = exactness p.
Proof.
  unfold removeImages.
  destruct (str_eqb _ _ || str_eqb _ _); rewrite ?exactness_removeEmptyRuns;
    rewrite !exactness_removeByTagName; try done; tags_differ.
Qed.

Lemma exactness_update p text : exactness (updateParagraphText p text) = exactness p.
Proof.
  destruct p as [name attrs cs| |]; [|done..].
  unfold exactness, own_style, safe_levels, paragraphStyleId. cbv zeta.
  by rewrite update_first_pPr.
Qed.

Lemma is_element_removeByTagName tag p : is_element (removeByTagName tag p) = is_element p.
Proof. destruct p; [by rewrite removeByTagName_element|done..]. Qed.

Lemma is_element_removeEmptyRuns p : is_element (removeEmptyRuns p) = is_element p.
Proof. destruct p; [by rewrite removeEmptyRuns_element|done..]. Qed.

Lemma is_element_removeImages p : is_element (removeImages p) = is_element p.
Proof.
  unfold removeImages. destruct (str_eqb _ _ || str_eqb _ _);
    by rewrite ?is_element_removeEmptyRuns, !is_element_removeByTagName.
Qed.

Lemma plain_formattedRun p seg : getPlainText (formattedRun (baseRPr p) seg) = seg_text seg.
Proof.
  unfold formattedRun. destruct (baseRPr p) as [b|] eqn:Hb; cbn [default].
  - apply baseRPr_ok in Hb as [Hn _].
    apply has_name_element in Hn as (attrs & cs & ->).
    unfold id. rewrite fold_left_appendChild. cbn [childNodes].
    destruct (cs ++ formatProps seg); [apply plain_run_text|apply plain_run_with_props].
  - unfold createElement. rewrite fold_left_appendChild. cbn [childNodes].
    destruct ([] ++ formatProps seg); [apply plain_run_text|apply plain_run_with_props].
Qed.

Lemma getPlainText_app name attrs cs1 cs2 :
  getPlainText (Element name attrs (cs1 ++ cs2))
  = getPlainText (Element name attrs cs1) ++ getPlainText (Element name attrs cs2).
Proof. cbn [getPlainText]. apply flat_map_app. Qed.

Lemma plain_new_runs name attrs p segs :
  getPlainText (Element name attrs (forSegments (formattedRun (baseRPr p)) segs))
  = flat_map seg_text segs.
Proof.
  unfold forSegments. induction segs as [|seg segs IH]; [done|].
  cbn [flat_map]. rewrite getPlainText_app, IH. f_equal.
  destruct (seg_text seg) as [|c s] eqn:Hs; [done|].
  pose proof (plain_formattedRun p seg) as Hp. rewrite Hs in Hp.
  pose proof (formattedRun_run (baseRPr p) seg) as (a & cs & Hr).
  rewrite Hr in *. cbn [getPlainText flat_map]. rewrite app_nil_r.
  exact Hp.
Qed.

(** X6. Rebuilding a paragraph of the original with a new text keeps what
    its properties say, for a paragraph whose style id names no member of
    [Object.prototype] and whose outline and list levels are safe
    integers. A paragraph that was a heading by its style or its outline
    level is extracted again as a heading of the same level, whatever the
    text. For any other paragraph the numbered-heading pattern is tested
    on the plain text of the rebuilt paragraph: a match gives a heading,
    and otherwise the paragraph is a list item of the list level of the
    original if the original has [w:numPr], else a paragraph. The plain
    text of the rebuilt paragraph is that of the children that are kept
    (all but runs, hyperlinks and bookmarks) followed by the texts of the
    segments of the new text. *)
Theorem rebuilt_paragraph_keeps_markup (p : Node) (text : jsstring) (hs : gmap jsstring Z) :
  let q := updateParagraphText (removeImages p) text in
  let kept := List.filter (fun c => negb (is_replaced c)) (childNodes (removeImages p)) in
  own_style p = true -> safe_levels p = true ->
  classifyParagraph q hs =
    match markupLevel p hs with
    | Some level => CHeading level (trim (getFormattedText q))
    | None =>
        match detectHeadingByPattern (trim (getPlainText q)) with
        | Some k => CHeading (Z.of_nat k) (trim (getFormattedText q))
        | None =>
            if isListItem p then CListItem (getListLevel p) (trim (getFormattedText q))
            else CParagraph (trim (getFormattedText q))
        end
    end
  /\ (is_element p = true ->
      getPlainText q
      = getPlainText (withChildren (removeImages p) kept)
          ++ flat_map seg_text (parseMarkdown text))
  /\ own_style q = true /\ safe_levels q = true.
Proof.
  intros q kept Hown Hsafe. split; [|split].
  - rewrite classify_by_markup. cbv zeta.
    pose proof (markup_rebuilt p text hs) as H. unfold markup in H. fold q in H.
    injection H as -> -> ->. reflexivity.
  - intros Hp. unfold q, kept, updateParagraphText.
    destruct (removeImages p) as [name attrs cs|d|d] eqn:Hr.
    + cbn [withChildren childNodes]. rewrite getPlainText_app. f_equal.
      apply plain_new_runs.
    + by rewrite <- (is_element_removeImages p), Hr in Hp.
    + by rewrite <- (is_element_removeImages p), Hr in Hp.
  - pose proof (exactness_update (removeImages p) text) as H.
    rewrite exactness_removeImages in H. unfold exactness in H. fold q in H.
    injection H as -> ->. done.
Qed.

(** *** Tables: the grid *)

Lemma extractCells_imap k r tcs : forall c0,
  extractCells k r c0 tcs
  = imap (fun c tc => mkCell (cellId k r (c0 + c)) (cellText tc)) tcs.
Proof.
  induction tcs as [|tc tcs IH]; intros c0; [done|].
  cbn [extractCells imap]. rewrite Nat.add_0_r, IH. f_equal.
  apply imap_ext. intros i x _. simpl. by rewrite Nat.add_succ_r.
Qed.

Lemma extractRows_imap k trs : forall r0,
  extractRows k r0 trs
  = imap (fun r tr => imap (fun c tc => mkCell (cellId k (r0 + r) c) (cellText tc))
                           (getDirectChildren tr (js "w:tc"))) trs.
Proof.
  induction trs as [|tr trs IH]; intros r0; [done|].
  cbn [extractRows imap]. rewrite Nat.add_0_r, IH, extractCells_imap. f_equal.
  apply imap_ext. intros i x _. simpl. by rewrite Nat.add_succ_r.
Qed.

Lemma extractTable_imap tbl k :
  extractTable tbl k =
    Table (blockId k)
      (imap (fun r tr => imap (fun c tc => mkCell (cellId k r c) (cellText tc))
                              (getDirectChildren tr (js "w:tc")))
            (getDirectChildren tbl (js "w:tr"))).
Proof. unfold extractTable. by rewrite extractRows_imap. Qed.

Lemma map_length_imap {A B C} (f : nat -> A -> list B) (g : A -> list C) (l : list A) :
  (forall i x, length (f i x) = length (g x)) ->
  List.map (@length B) (imap f l) = List.map (fun x => length (g x)) l.
Proof.
  intros H. revert f H. induction l as [|x l IH]; intros f H; [done|].
  cbn [imap List.map]. rewrite H. f_equal. apply IH. intros i y. apply H.
Qed.

Lemma extractTable_shape tbl k :
  List.map (@length Cell) (table_rows (extractTable tbl k)) = grid_shape tbl.
Proof.
  rewrite extractTable_imap. cbn [table_rows]. unfold grid_shape.
  apply map_length_imap. intros i tr. apply length_imap.
Qed.

(** **** Edits by name *)

Lemma has_name_withChildren tag n cs : has_name tag (withChildren n cs) = has_name tag n.
Proof. by destruct n. Qed.

Lemma has_name_editNamed tag tag' f n : has_name tag (editNamed tag' f n) = has_name tag n.
Proof. apply has_name_withChildren. Qed.

Lemma childNodes_withChildren n cs :
  is_element n = true -> childNodes (withChildren n cs) = cs.
Proof. by destruct n. Qed.

Lemma filter_mapNamed tag f cs : forall k,
  (forall i c, has_name tag c = true -> has_name tag (f i c) = true) ->
  List.filter (has_name tag) (mapNamed tag f k cs)
  = imap (fun i c => f (k + i) c) (List.filter (has_name tag) cs).
Proof.
  induction cs as [|c cs IH]; intros k Hf; [done|].
  cbn [mapNamed List.filter]. destruct (has_name tag c) eqn:Hc.
  - cbn [List.filter imap]. rewrite (Hf k c Hc), Nat.add_0_r, IH by done. f_equal.
    apply imap_ext. intros i x _. simpl. by rewrite Nat.add_succ_r.
  - cbn [List.filter]. rewrite Hc. by apply IH.
Qed.

Lemma direct_editNamed tag f n :
  (forall i c, has_name tag c = true -> has_name tag (f i c) = true) ->
  getDirectChildren (editNamed tag f n) tag = imap f (getDirectChildren n tag).
Proof.
  intros Hf. unfold getDirectChildren, editNamed.
  destruct n as [name attrs cs| |]; [|done..]. cbn [withChildren childNodes].
  by rewrite filter_mapNamed.
Qed.

Lemma has_name_updateCellText tag tc text :
  has_name tag (updateCellText tc text) = has_name tag tc.
Proof.
  unfold updateCellText. destruct (getDirectChildren tc (js "w:p")); [done|].
  apply has_name_editNamed.
Qed.

Lemma updateTableText_shape tbl rows : grid_shape (updateTableText tbl rows) = grid_shape tbl.
Proof.
  unfold grid_shape, updateTableText.
  rewrite direct_editNamed.
  - generalize (getDirectChildren tbl (js "w:tr")) as trs. intros trs.
    generalize rows. clear rows.
    induction trs as [|tr trs IH]; intros rows; [done|].
    cbn [imap List.map]. f_equal.
    + cbn [nth_error]. destruct rows as [|modRow rows]; [done|].
      rewrite direct_editNamed.
      * apply length_imap.
      * intros i c Hc. destruct (nth_error modRow i); [|done].
        by rewrite has_name_updateCellText.
    + destruct rows as [|modRow rows].
      * rewrite <- (IH []). f_equal. apply imap_ext. intros i x _. simpl.
        by destruct i.
      * rewrite <- (IH rows). f_equal.
  - intros i c Hc. destruct (nth_error rows i); [|done]. by rewrite has_name_editNamed.
Qed.

Lemma grid_shape_prune (F : Node -> Node) (drop : Node -> bool) (tbl : Node) :
  (forall name attrs cs,
     F (Element name attrs cs)
     = Element name attrs (flat_map (fun c => if drop c then [] else [F c]) cs)) ->
  (forall n, is_element n = false -> F n = n) ->
  kept drop (js "w:tr") -> kept drop (js "w:tc") ->
  grid_shape (F tbl) = grid_shape tbl.
Proof.
  intros HF Ho Htr Htc. unfold grid_shape.
  rewrite (prune_direct F drop HF Ho) by done. rewrite List.map_map.
  apply List.map_ext. intros tr.
  rewrite (prune_direct F drop HF Ho) by done. apply length_map.
Qed.

Lemma removeImages_shape tbl : grid_shape (removeImages tbl) = grid_shape tbl.
Proof.
  unfold removeImages.
  assert (Hrm : forall tag n, js "w:tr" <> tag -> js "w:tc" <> tag ->
                 grid_shape (removeByTagName tag n) = grid_shape n).
  { intros tag n H1 H2.
    apply (grid_shape_prune _ (has_name tag));
      auto using removeByTagName_element, removeByTagName_other, kept_by_tag. }
  assert (Hre : forall n, grid_shape (removeEmptyRuns n) = grid_shape n).
  { intros n.
    apply (grid_shape_prune _ (fun c => has_name (js "w:r") c && negb (hasContent c)));
      auto using removeEmptyRuns_element, removeEmptyRuns_other;
      apply kept_by_runs; tags_differ. }
  destruct (str_eqb _ _ || str_eqb _ _); rewrite ?Hre; rewrite !Hrm; try done; tags_differ.
Qed.

(** X8. Rebuilding a table of the original never changes its grid:
    whatever rows the candidate block holds, the table extracted from the
    rebuilt element has as many rows as the one extracted from the
    original element, and as many cells in each row. *)
Theorem rebuilt_table_keeps_grid (tbl : Node) (rows : list (list Cell)) (k : nat) :
  List.map (@length Cell) (table_rows (extractTable (updateTableText (removeImages tbl) rows) k))
  = List.map (@length Cell) (table_rows (extractTable tbl k)).
Proof.
  by rewrite !extractTable_shape, updateTableText_shape, removeImages_shape.
Qed.

(** **** New tables *)

Lemma cloneOf_named template tag :
  Forall (fun n => has_name tag n = true) (cloneOf template tag).
Proof.
  unfold cloneOf. destruct (getFirstChild template tag) as [n|] eqn:H; [|constructor].
  repeat constructor. unfold getFirstChild in H. destruct template; [|done].
  by apply find_some in H as [_ H].
Qed.

Lemma filter_none {A} (P : A -> bool) l :
  Forall (fun x => P x = false) l -> List.filter P l = [].
Proof. induction 1 as [|x l Hx _ IH]; simpl; [done|]. by rewrite Hx. Qed.

Lemma filter_all {A} (P : A -> bool) l :
  Forall (fun x => P x = true) l -> List.filter P l = l.
Proof. induction 1 as [|x l Hx _ IH]; simpl; [done|]. by rewrite Hx, IH. Qed.

Lemma cloneOf_filter_other template tag tag' :
  tag <> tag' -> List.filter (has_name tag') (cloneOf template tag) = [].
Proof.
  intros Hne. apply filter_none.
  eapply Forall_impl; [apply cloneOf_named|]. intros n Hn. by apply (has_name_other tag).
Qed.

Lemma cellText_new_cell props text :
  List.filter (has_name (js "w:p")) props = [] ->
  cellText (Element (js "w:tc") [] (props ++ [createBasicParagraph text]))
  = trim (getFormattedText (createBasicParagraph text)).
Proof.
  intros H. unfold cellText, getDirectChildren. cbn [childNodes].
  rewrite List.filter_app, H. reflexivity.
Qed.

Lemma imap_map {A B C} (f : nat -> B -> C) (g : A -> B) (l : list A) :
  imap f (List.map g l) = imap (fun i x => f i (g x)) l.
Proof.
  revert f. induction l as [|x l IH]; intros f; [done|].
  cbn [List.map imap]. by rewrite IH.
Qed.

Lemma extract_new_table rows template k :
  extractTable (createNewTable rows template) k =
    Table (blockId k)
      (imap (fun r row =>
               imap (fun c cell =>
                       mkCell (cellId k r c)
                              (trim (getFormattedText (createBasicParagraph (cell_text cell)))))
                    row)
            rows).
Proof.
  rewrite extractTable_imap. f_equal.
  unfold createNewTable, getDirectChildren at 2. cbn [childNodes].
  rewrite List.filter_app.
  assert (Hp : forall (l : list Node),
             l = match template with
                 | Some _ => cloneOf template (js "w:tblPr") ++ cloneOf template (js "w:tblGrid")
                 | None =>
                     [Element (js "w:tblPr") []
                        [Element (js "w:tblW") [(js "w:w", js "0"); (js "w:type", js "auto")] []]]
                 end -> List.filter (has_name (js "w:tr")) l = []).
  { intros l ->. destruct template; [|reflexivity].
    rewrite List.filter_app, !cloneOf_filter_other; [done|tags_differ..]. }
  rewrite (Hp _ eq_refl). cbn [app].
  rewrite filter_all by (apply List.Forall_forall; intros x (row & <- & _)%in_map_iff; done).
  rewrite imap_map. apply imap_ext. intros r row _.
  unfold getDirectChildren. cbn [childNodes].
  rewrite List.filter_app, cloneOf_filter_other by tags_differ. cbn [app].
  rewrite filter_all by (apply List.Forall_forall; intros x (cell & <- & _)%in_map_iff; done).
  rewrite imap_map. apply imap_ext. intros c cell _. f_equal.
  apply cellText_new_cell. apply cloneOf_filter_other. tags_differ.
Qed.

(** X9. The table extracted from the element created for a new table block
    has the rows and the cells of the block. Cell [c] of row [r] is named
    after the index of the table, [r] and [c], whatever id the block gave
    it, and its text is the formatted text of the paragraph created for
    the text of the cell, trimmed: the text of the cell, trimmed, when
    that text is canonical. *)
Theorem new_table_round_trip (rows : list (list Cell)) (template : option Node) (k : nat) :
  extractTable (createNewTable rows template) k =
    Table (blockId k)
      (imap (fun r row =>
               imap (fun c cell =>
                       mkCell (cellId k r c)
                              (trim (getFormattedText (createBasicParagraph (cell_text cell)))))
                    row)
            rows)
  /\ (Forall (Forall (fun cell => canonical (cell_text cell))) rows ->
      extractTable (createNewTable rows template) k =
        Table (blockId k)
          (imap (fun r row =>
                   imap (fun c cell => mkCell (cellId k r c) (trim (cell_text cell))) row)
                rows)).
Proof.
  split; [apply extract_new_table|]. intros Hc. rewrite extract_new_table. f_equal.
  apply imap_ext. intros r row Hr. apply imap_ext. intros c cell Hcell.
  rewrite formatted_basic_canonical; [done|].
  apply list_elem_of_lookup_2 in Hr, Hcell.
  rewrite Forall_forall in Hc. specialize (Hc _ Hr). rewrite Forall_forall in Hc.
  by apply Hc.
Qed.

(** *** The two maps of the heading styles *)

Lemma headingStyleStep_entry m style :
  headingStyleStep m style =
    match styleEntry style with Some (id, l) => setStyleLevel id l m | None => m end.
Proof.
  unfold headingStyleStep, styleEntry.
  destruct (getAttribute style (js "w:type")) as [type|]; [|done].
  destruct (getAttribute style (js "w:styleId")) as [[|c id]|]; [done| |done].
  destruct (negb (str_eqb type (js "paragraph"))); [done|]. cbv zeta.
  destruct (getElementsByTagName style (js "w:outlineLvl")) as [|o os].
  - destruct (is_heading_name (styleName style)); [|done].
    by destruct (first_digits (styleName style) ≫= parseInt).
  - by destruct (parseIntAttr o).
Qed.

Lemma reverseStyleStep_entry m style :
  reverseStyleStep m style =
    match styleEntry style with Some (id, l) => <[l := id]> m | None => m end.
Proof.
  unfold reverseStyleStep, styleEntry.
  destruct (getAttribute style (js "w:type")) as [type|]; [|done].
  destruct (getAttribute style (js "w:styleId")) as [[|c id]|]; [done| |done].
  destruct (negb (str_eqb type (js "paragraph"))); [done|]. cbv zeta.
  destruct (getElementsByTagName style (js "w:outlineLvl")) as [|o os].
  - destruct (is_heading_name (styleName style)); [|done].
    by destruct (first_digits (styleName style) ≫= parseInt).
  - by destruct (parseIntAttr o).
Qed.

Lemma styleEntry_id style id l :
  styleEntry style = Some (id, l) -> getAttribute style (js "w:styleId") = Some id /\ id <> [].
Proof.
  unfold styleEntry.
  destruct (getAttribute style (js "w:type")) as [type|]; [|done].
  destruct (getAttribute style (js "w:styleId")) as [[|c i]|]; [done| |done].
  destruct (negb (str_eqb type (js "paragraph"))); [done|].
  destruct (getElementsByTagName style (js "w:outlineLvl")) as [|o os].
  - destruct (is_heading_name (styleName style)); [|done].
    destruct (first_digits (styleName style) ≫= parseInt); [|done].
    intros H. by injection H as <- <-.
  - destruct (parseIntAttr o); [|done]. intros H. by injection H as <- <-.
Qed.

Lemma omap_cons_eq {A B} (f : A -> option B) x l :
  omap f (x :: l) = match f x with Some y => y :: omap f l | None => omap f l end.
Proof. reflexivity. Qed.

Lemma setStyleLevel_other id l m :
  id <> js "__proto__" -> setStyleLevel id l m = <[id := l]> m.
Proof. intros H. unfold setStyleLevel. by rewrite str_eqb_neq. Qed.

Lemma setStyleLevel_proto l m : setStyleLevel (js "__proto__") l m = m.
Proof. reflexivity. Qed.

Lemma maps_agree_fold styles : forall seen fm rm,
  maps_agree seen fm rm ->
  NoDup (seen ++ omap (fun style => getAttribute style (js "w:styleId")) styles) ->
  exists seen', maps_agree seen' (fold_left headingStyleStep styles fm)
                           (fold_left reverseStyleStep styles rm).
Proof.
  induction styles as [|style styles IH]; intros seen fm rm Hm Hnd; [by exists seen|].
  cbn [fold_left]. rewrite headingStyleStep_entry, reverseStyleStep_entry.
  rewrite omap_cons_eq in Hnd.
  destruct (styleEntry style) as [[id l]|] eqn:He.
  - apply styleEntry_id in He as [Hid Hne]. rewrite Hid in Hnd.
    apply (IH (seen ++ [id])); [|by rewrite <- app_assoc].
    destruct Hm as (Ha & Hs & Hp).
    destruct (decide (id = js "__proto__")) as [->|Hproto].
    + rewrite setStyleLevel_proto. split; [|split; [|done]].
      * intros l' id' H. destruct (decide (l' = l)) as [->|Hl].
        { rewrite lookup_insert_eq in H. injection H as <-. done. }
        rewrite lookup_insert_ne in H by done. by apply Ha.
      * intros id' Hx. apply in_or_app. left. by apply Hs.
    + rewrite setStyleLevel_other by done. split; [|split].
      * intros l' id' H. destruct (decide (l' = l)) as [->|Hl].
        { rewrite lookup_insert_eq in H. injection H as <-.
          split; [done|]. intros _. by rewrite lookup_insert_eq. }
        rewrite lookup_insert_ne in H by done. destruct (Ha _ _ H) as [Hn Hf].
        split; [done|]. intros Hp'. rewrite lookup_insert_ne; [by apply Hf|].
        intros <-. apply NoDup_app in Hnd as (_ & Hd & _).
        apply (Hd id); [apply list_elem_of_In, Hs; exists l'; by apply Hf|left].
      * intros id' [x Hx]. apply in_or_app.
        destruct (decide (id' = id)) as [->|Hi]; [right; by left|].
        rewrite lookup_insert_ne in Hx by done. left. apply Hs. eauto.
      * by rewrite lookup_insert_ne.
  - apply (IH seen); [done|].
    destruct (getAttribute style (js "w:styleId")); [|done].
    apply NoDup_app in Hnd as (H1 & H2 & H3). apply NoDup_app.
    split; [done|]. split.
    + intros x Hx Hin. apply (H2 x Hx). by right.
    + by apply NoDup_cons in H3 as [_ H3].
Qed.

Lemma maps_agree_built doc :
  NoDup (style_ids doc) ->
  exists seen, maps_agree seen (buildHeadingStyleMap (Some doc))
                          (buildHeadingStyleReverseMap (Some doc)).
Proof.
  intros H. unfold buildHeadingStyleMap, buildHeadingStyleReverseMap.
  apply (maps_agree_fold _ []); [|done].
  split; [intros l id Hl; by rewrite lookup_empty in Hl|].
  split; [|apply lookup_empty].
  intros id [x Hx]. by rewrite lookup_empty in Hx.
Qed.

Lemma style_maps_round_trip_aux (doc : Node) (level : Z) (id : jsstring) :
  NoDup (style_ids doc) ->
  buildHeadingStyleReverseMap (Some doc) !! level = Some id ->
  id <> js "__proto__" ->
  buildHeadingStyleMap (Some doc) !! id = Some level /\ id <> [].
Proof.
  intros Hnd H Hp. destruct (maps_agree_built doc Hnd) as (seen & Ha & _).
  destruct (Ha _ _ H) as [Hne Hf]. split; [by apply Hf|done].
Qed.

Lemma no_level_for_proto styles : forall fm,
  fm !! js "__proto__" = None ->
  fold_left headingStyleStep styles fm !! js "__proto__" = None.
Proof.
  induction styles as [|style styles IH]; intros fm Hfm; [done|].
  cbn [fold_left]. apply IH. rewrite headingStyleStep_entry.
  destruct (styleEntry style) as [[id l]|]; [|done].
  destruct (decide (id = js "__proto__")) as [->|Hproto]; [done|].
  rewrite setStyleLevel_other by done. by rewrite lookup_insert_ne.
Qed.

(** X11. When the ids of the styles are pairwise distinct and the numbers
    read from the styles are safe integers, the style the reconstructor
    picks for a level is one the extractor reads as a heading of that
    level, unless it is [__proto__]: the map by level goes back through
    the map by id. (Two styles of the same level share one entry of the
    map by level, so the other direction does not hold.) The map by id
    never has an entry for [__proto__], whatever the styles. *)
Theorem style_maps_round_trip (doc : Node) (level : Z) (id : jsstring) :
  NoDup (style_ids doc) -> safe_styles doc = true ->
  buildHeadingStyleReverseMap (Some doc) !! level = Some id ->
  id <> []
  /\ (id <> js "__proto__" -> buildHeadingStyleMap (Some doc) !! id = Some level)
  /\ buildHeadingStyleMap (Some doc) !! js "__proto__" = None.
Proof.
  intros Hnd _ H. destruct (maps_agree_built doc Hnd) as (seen & Ha & _ & Hp).
  destruct (Ha _ _ H) as [Hne Hf]. done.
Qed.

(** **** New headings *)

Lemma classify_heading_by_markup q hs level :
  markupLevel q hs = Some level ->
  classifyParagraph q hs = CHeading level (trim (getFormattedText q)).
Proof. intros H. rewrite classify_by_markup. cbv zeta. by rewrite H. Qed.

Lemma markupLevel_styled (attrs : list (jsstring * jsstring)) (level : Z) (rm : gmap Z jsstring) (hs : gmap jsstring Z)
      (rest : list Node) (c : N) (s : jsstring) :
  rm !! level = Some (c :: s) -> hs !! (c :: s) = Some level ->
  markupLevel
    (Element (js "w:p") attrs
       (Element (js "w:pPr") []
          [Element (js "w:pStyle") [(js "w:val", headingStyleId level rm)] []] :: rest))
    hs = Some level.
Proof.
  intros Hr Hh. unfold headingStyleId. rewrite Hr.
  change (markupLevel _ hs) with
    (match hs !! (c :: s) with
     | Some l => Some l
     | None => None
     end).
  by rewrite Hh.
Qed.

Lemma mapNamed_find tag f cs : forall k,
  (forall c, has_name tag (f k c) = has_name tag c) ->
  List.find (has_name tag) (mapNamed tag f k cs) = f k <$> List.find (has_name tag) cs.
Proof.
  induction cs as [|c cs IH]; intros k Hf; [done|]. cbn [mapNamed List.find].
  destruct (has_name tag c) eqn:Hc.
  - cbn [List.find]. by rewrite Hf, Hc.
  - cbn [List.find]. rewrite Hc. by apply IH.
Qed.

Lemma first_editNamed tag f n :
  (forall c, has_name tag (f 0 c) = has_name tag c) ->
  getFirstChild (Some (editNamed tag f n)) tag = f 0 <$> getFirstChild (Some n) tag.
Proof.
  intros Hf. unfold getFirstChild, editNamed.
  destruct n as [name attrs cs| |]; [|done..]. cbn [withChildren childNodes].
  by apply mapNamed_find.
Qed.

Lemma assoc_setAttr name value attrs : assoc name (setAttr name value attrs) = Some value.
Proof.
  induction attrs as [|[k v] attrs IH]; cbn [setAttr assoc].
  - by rewrite str_eqb_refl.
  - destruct (str_eqb k name) eqn:Hk; cbn [assoc]; by rewrite Hk.
Qed.

Lemma getAttribute_setAttribute n name value :
  is_element n = true -> getAttribute (setAttribute n name value) name = Some value.
Proof. destruct n; [|done..]. intros _. apply assoc_setAttr. Qed.

Lemma has_name_setAttribute tag n name value :
  has_name tag (setAttribute n name value) = has_name tag n.
Proof. by destruct n. Qed.

Lemma has_name_is_element tag n : has_name tag n = true -> is_element n = true.
Proof. unfold has_name. by intros [H _]%andb_true_iff. Qed.

Lemma styleLevel_restyled (pPr : Node) (hs : gmap jsstring Z) (level : Z) (c : N) (s : jsstring) :
  is_element pPr = true -> hs !! (c :: s) = Some level ->
  styleLevel
    (match getFirstChild (Some pPr) (js "w:pStyle") with
     | Some _ =>
         editNamed (js "w:pStyle")
           (fun j pStyle =>
              if j =? 0 then setAttribute pStyle (js "w:val") (c :: s) else pStyle)
           pPr
     | None =>
         withChildren pPr
           (setAttribute (createElement (js "w:pStyle")) (js "w:val") (c :: s)
            :: childNodes pPr)
     end) hs = Some level.
Proof.
  intros He Hh. unfold styleLevel.
  destruct (getFirstChild (Some pPr) (js "w:pStyle")) as [pStyle|] eqn:Hp.
  - rewrite first_editNamed by (intros x; apply has_name_setAttribute).
    rewrite Hp. cbn [fmap option_fmap option_map Nat.eqb].
    rewrite getAttribute_setAttribute; [done|].
    unfold getFirstChild in Hp. apply find_some in Hp as [_ Hp].
    by apply has_name_is_element in Hp.
  - destruct pPr as [name attrs cs| |]; [|done..].
    change (getFirstChild _ (js "w:pStyle"))
      with (Some (setAttribute (createElement (js "w:pStyle")) (js "w:val") (c :: s))).
    cbv beta iota. by rewrite getAttribute_setAttribute.
Qed.

Lemma markupLevel_restyle (node : Node) (hs : gmap jsstring Z) (rm : gmap Z jsstring) (level : Z)
      (c : N) (s : jsstring) :
  is_Some (getFirstChild (Some node) (js "w:pPr")) ->
  rm !! level = Some (c :: s) -> hs !! (c :: s) = Some level ->
  markupLevel (restyle level rm node) hs = Some level.
Proof.
  intros [pPr Hp] Hr Hh. unfold restyle. rewrite Hr. unfold markupLevel. cbv zeta.
  rewrite first_editNamed.
  - rewrite Hp. cbn [fmap option_fmap option_map Nat.eqb mbind option_bind].
    rewrite (styleLevel_restyled pPr hs level c s); [done| |done].
    unfold getFirstChild in Hp. apply find_some in Hp as [_ Hp].
    by apply has_name_is_element in Hp.
  - intros x. cbn [Nat.eqb].
    destruct (getFirstChild (Some x) (js "w:pStyle"));
      [apply has_name_editNamed|apply has_name_withChildren].
Qed.

Lemma markupLevel_removeImages p hs : markupLevel (removeImages p) hs = markupLevel p hs.
Proof. pose proof (markup_removeImages p hs) as H. by injection H. Qed.

Lemma markupLevel_update p text hs :
  markupLevel (updateParagraphText p text) hs = markupLevel p hs.
Proof. pose proof (markup_update p text hs) as H. by injection H. Qed.

Lemma first_pPr_removeImages p :
  is_Some (getFirstChild (Some p) (js "w:pPr")) ->
  is_Some (getFirstChild (Some (removeImages p)) (js "w:pPr")).
Proof.
  intros H. unfold removeImages.
  assert (Hrm : forall tag n, js "w:pPr" <> tag ->
                 is_Some (getFirstChild (Some n) (js "w:pPr")) ->
                 is_Some (getFirstChild (Some (removeByTagName tag n)) (js "w:pPr"))).
  { intros tag n Hne [x Hx].
    rewrite (prune_first _ (has_name tag));
      auto using removeByTagName_element, removeByTagName_other, kept_by_tag.
    rewrite Hx. eauto. }
  assert (Hre : forall n, is_Some (getFirstChild (Some n) (js "w:pPr")) ->
                 is_Some (getFirstChild (Some (removeEmptyRuns n)) (js "w:pPr"))).
  { intros n [x Hx].
    rewrite (prune_first _ (fun c => has_name (js "w:r") c && negb (hasContent c)));
      auto using removeEmptyRuns_element, removeEmptyRuns_other.
    - rewrite Hx. eauto.
    - apply kept_by_runs. tags_differ. }
  destruct (str_eqb _ _ || str_eqb _ _); [apply Hre|];
    (apply Hrm; [tags_differ|]; apply Hrm; [tags_differ|]; apply Hrm; [tags_differ|done]).
Qed.

(** X12. A new heading of a level for which the styles part has a style,
    other than [__proto__], is extracted again as a heading of that level,
    whatever its text: when no heading of the original serves as a
    template, and when the template is the heading of the closest level,
    provided that one has paragraph properties. With a template of the
    level itself, the new heading has the paragraph properties of the
    template.  The ids of the styles are pairwise distinct and the numbers
    read from the styles are safe integers. *)
Theorem new_heading_is_read_back (doc : Node) (text : jsstring) (level : Z)
        (headings : HeadingTemplates) (id : jsstring) :
  let hs := buildHeadingStyleMap (Some doc) in
  let rm := buildHeadingStyleReverseMap (Some doc) in
  let q := createNewHeading text level headings rm in
  NoDup (style_ids doc) -> safe_styles doc = true ->
  rm !! level = Some id -> id <> js "__proto__" ->
  match templateAt level headings with
  | Some template =>
      own_style template = true -> safe_levels template = true ->
      markupLevel q hs = markupLevel template hs
  | None =>
      match objectEntries headings with
      | first :: rest =>
          is_Some (getFirstChild (Some (snd (closestEntry level first rest))) (js "w:pPr")) ->
          classifyParagraph q hs = CHeading level (trim (getFormattedText q))
      | [] => classifyParagraph q hs = CHeading level (trim (getFormattedText q))
      end
  end.
Proof.
  intros hs rm q Hnd _ Hr Hproto.
  destruct (style_maps_round_trip_aux doc level id Hnd Hr Hproto) as [Hh Hne].
  destruct id as [|c s]; [done|].
  unfold q, createNewHeading.
  destruct (templateAt level headings) as [template|].
  { intros _ _. by rewrite markupLevel_update, markupLevel_removeImages. }
  destruct (objectEntries headings) as [|first rest].
  - apply classify_heading_by_markup. by apply (markupLevel_styled [] level rm hs _ c s).
  - intros Hp. apply classify_heading_by_markup.
    rewrite markupLevel_update. apply (markupLevel_restyle _ hs rm level c s); [|done..].
    by apply first_pPr_removeImages.
Qed.

(** *** The body that is rebuilt *)

Lemma same_kind_block a b : same_kind a b -> isBlockNode a = isBlockNode b.
Proof. intros [Hn He]. unfold isBlockNode. by rewrite Hn, He. Qed.

Lemma same_kind_trans a b c : same_kind a b -> same_kind b c -> same_kind a c.
Proof. intros [? ?] [? ?]. split; congruence. Qed.

Lemma same_kind_withChildren n cs : same_kind (withChildren n cs) n.
Proof. by destruct n. Qed.

Lemma same_kind_removeByTagName tag n : same_kind (removeByTagName tag n) n.
Proof. by destruct n. Qed.

Lemma same_kind_removeEmptyRuns n : same_kind (removeEmptyRuns n) n.
Proof. by destruct n. Qed.

Lemma same_kind_removeImages n : same_kind (removeImages n) n.
Proof.
  unfold removeImages.
  destruct (str_eqb _ _ || str_eqb _ _).
  - eapply same_kind_trans; [apply same_kind_removeEmptyRuns|].
    eapply same_kind_trans; [apply same_kind_removeByTagName|].
    eapply same_kind_trans; [apply same_kind_removeByTagName|].
    apply same_kind_removeByTagName.
  - eapply same_kind_trans; [apply same_kind_removeByTagName|].
    eapply same_kind_trans; [apply same_kind_removeByTagName|].
    apply same_kind_removeByTagName.
Qed.

Lemma same_kind_update n text : same_kind (updateParagraphText n text) n.
Proof. apply same_kind_withChildren. Qed.

Lemma same_kind_updateTable n rows : same_kind (updateTableText n rows) n.
Proof. apply same_kind_withChildren. Qed.

Lemma same_kind_restyle level rm n : same_kind (restyle level rm n) n.
Proof.
  unfold restyle. destruct (rm !! level) as [[|c s]|]; try done.
  apply same_kind_withChildren.
Qed.

Lemma has_name_block_p n : has_name (js "w:p") n = true -> isBlockNode n = true.
Proof.
  unfold has_name, isBlockNode. intros [-> ->]%andb_true_iff. done.
Qed.

Lemma has_name_block_tbl n : has_name (js "w:tbl") n = true -> isBlockNode n = true.
Proof.
  unfold has_name, isBlockNode. intros [-> ->]%andb_true_iff. apply orb_true_r.
Qed.

(** **** The templates are blocks of the body *)

Lemma keep_named tag slot child n :
  (forall m, slot = Some m -> has_name tag m = true) -> has_name tag child = true ->
  keep slot child = Some n -> has_name tag n = true.
Proof.
  intros Hs Hc. unfold keep. destruct slot as [m|]; intros H; injection H as <-; auto.
Qed.

Lemma recordTemplate_blocks origBlock child t :
  has_name (js "w:p") child = true -> templates_are_blocks t ->
  templates_are_blocks (recordTemplate origBlock child t).
Proof.
  intros Hc Ht0. pose proof Ht0 as (H1 & H2 & H3 & H4 & H5).
  destruct origBlock as [[id text|id level text|id text|id level text|id rows]|];
    cbn [recordTemplate]; try done.
  - destruct (t_title t) eqn:Ht; [done|]. repeat split; cbn [t_title t_paragraph t_headings t_list_item t_table]; try done.
    intros n H. by injection H as <-.
  - destruct (level =? 0)%Z; [done|].
    destruct (t_headings t !! level) eqn:Hl; [done|]. repeat split; cbn [t_title t_paragraph t_headings t_list_item t_table]; try done.
    intros l n H. destruct (decide (l = level)) as [->|Hne].
    + rewrite lookup_insert_eq in H. by injection H as <-.
    + rewrite lookup_insert_ne in H by done. eauto.
  - repeat split; cbn [t_title t_paragraph t_headings t_list_item t_table]; try done. intros n. by apply keep_named.
  - destruct (t_list_item t) eqn:Ht; [done|]. repeat split; cbn [t_title t_paragraph t_headings t_list_item t_table]; try done.
    intros n H. by injection H as <-.
  - repeat split; cbn [t_title t_paragraph t_headings t_list_item t_table]; try done. intros n. by apply keep_named.
Qed.

Lemma traverseStep_blocks oj st child :
  templates_are_blocks (templates st) ->
  templates_are_blocks (templates (traverseStep oj st child)).
Proof.
  intros Ht. unfold traverseStep.
  destruct (is_element child) eqn:He; cbn [negb]; [|done].
  destruct (str_eqb (nodeName child) (js "w:p")) eqn:Hp.
  - cbn [templates]. apply recordTemplate_blocks; [|done].
    unfold has_name. by rewrite He, Hp.
  - destruct (str_eqb (nodeName child) (js "w:tbl")) eqn:Hb; [|done].
    cbn [templates]. destruct Ht as (H1 & H2 & H3 & H4 & H5).
    repeat split; cbn [t_title t_paragraph t_headings t_list_item t_table]; try done. intros n. apply keep_named; [done|].
    unfold has_name. by rewrite He, Hb.
Qed.

Lemma traverse_blocks oj body : templates_are_blocks (templates (traverse oj body)).
Proof.
  unfold traverse.
  assert (H : forall cs st, templates_are_blocks (templates st) ->
              templates_are_blocks (templates (fold_left (traverseStep oj) cs st))).
  { induction cs as [|c cs IH]; intros st Hst; [done|].
    cbn [fold_left]. by apply IH, traverseStep_blocks. }
  apply H. repeat split; done.
Qed.

Lemma traverse_nodes_are_blocks oj body id n :
  originalBlockNodes (traverse oj body) !! id = Some n -> isBlockNode n = true.
Proof.
  unfold traverse.
  pose proof (fold_traverse oj (childNodes body) (mkTraversal ∅ emptyTemplates [] 0))
    as (_ & Hfound & Hother). cbn [blockIndex originalBlockNodes] in *.
  destruct (blockId_among_dec id (length (List.filter isBlockNode (childNodes body))))
    as [(j & Hj & ->)|Hno].
  - destruct (lookup_lt_is_Some_2 (List.filter isBlockNode (childNodes body)) j Hj)
      as [c Hc].
    pose proof (Hfound j c Hc) as Hf. cbn [Nat.add] in Hf. rewrite Hf.
    intros H. injection H as <-.
    apply list_elem_of_lookup_2, list_elem_of_In, filter_In in Hc. by destruct Hc.
  - rewrite Hother; [by rewrite lookup_empty|exact Hno].
Qed.

Lemma traverseStep_nonBlock oj st child :
  nonBlockNodes (traverseStep oj st child)
  = nonBlockNodes st ++ (if is_element child && negb (isBlockNode child) then [child] else []).
Proof.
  unfold traverseStep, isBlockNode.
  destruct (is_element child); cbn [negb andb]; [|by rewrite app_nil_r].
  destruct (str_eqb (nodeName child) (js "w:p")); cbn [orb negb nonBlockNodes];
    [by rewrite app_nil_r|].
  destruct (str_eqb (nodeName child) (js "w:tbl")); cbn [orb negb nonBlockNodes];
    [by rewrite app_nil_r|done].
Qed.

Lemma traverse_nonBlock oj body :
  nonBlockNodes (traverse oj body)
  = List.filter (fun c => is_element c && negb (isBlockNode c)) (childNodes body).
Proof.
  unfold traverse.
  assert (H : forall cs st,
             nonBlockNodes (fold_left (traverseStep oj) cs st)
             = nonBlockNodes st
               ++ List.filter (fun c => is_element c && negb (isBlockNode c)) cs).
  { induction cs as [|c cs IH]; intros st; cbn [fold_left List.filter];
      [by rewrite app_nil_r|].
    rewrite IH, traverseStep_nonBlock.
    destruct (is_element c && negb (isBlockNode c)); by rewrite <- app_assoc. }
  by rewrite H.
Qed.

(** **** The heading templates in the order they were set *)

Lemma templateAt_snoc l headings level child :
  templateAt l (headings ++ [(level, child)])
  = match templateAt l headings with
    | Some n => Some n
    | None => if (level =? l)%Z then Some child else None
    end.
Proof.
  induction headings as [|[l' n] headings IH]; cbn [app templateAt]; [done|].
  by destruct (l' =? l)%Z.
Qed.

Lemma headingsStep_agree oj hst st child :
  headings_agree hst st ->
  headings_agree (headingsStep oj hst child) (traverseStep oj st child).
Proof.
  destruct hst as [headings k]. intros (Hk & Hl & Hp). cbn [fst snd] in *. subst k.
  unfold headingsStep, traverseStep.
  destruct (is_element child) eqn:He; cbn [negb]; [|done].
  destruct (str_eqb (nodeName child) (js "w:p")) eqn:Hn.
  - set (origBlock := oj ≫= _).
    assert (Hc : has_name (js "w:p") child = true) by (unfold has_name; by rewrite He, Hn).
    split; [done|]. cbn [fst snd templates].
    destruct origBlock as [[id text|id level text|id text|id level text|id rows]|];
      cbn [recordTemplate]; try (split; [|done]; intros l; by rewrite Hl).
    + destruct (t_title (templates st)); (split; [|done]; intros l; by rewrite Hl).
    + destruct (level =? 0)%Z; [split; [|done]; intros l; by rewrite Hl|].
      rewrite Hl. destruct (t_headings (templates st) !! level) eqn:Hlv;
        [split; [|done]; intros l; by rewrite Hl|].
      split.
      * intros l. rewrite templateAt_snoc, Hl. cbn [t_headings].
        destruct (decide (level = l)) as [->|Hne].
        -- by rewrite Hlv, Z.eqb_refl, lookup_insert_eq.
        -- rewrite lookup_insert_ne by done.
           destruct (t_headings (templates st) !! l); [done|].
           by apply Z.eqb_neq in Hne as ->.
      * apply Forall_app. split; [done|]. by repeat constructor.
    + destruct (t_list_item (templates st)); (split; [|done]; intros l; by rewrite Hl).
  - destruct (str_eqb (nodeName child) (js "w:tbl")); [|done].
    split; [done|]. by split.
Qed.

Lemma headingTemplatesOf_agree oj body :
  headings_agree (fold_left (headingsStep oj) (childNodes body) ([], 0)) (traverse oj body).
Proof.
  unfold traverse.
  assert (H : forall cs hst st, headings_agree hst st ->
              headings_agree (fold_left (headingsStep oj) cs hst)
                             (fold_left (traverseStep oj) cs st)).
  { induction cs as [|c cs IH]; intros hst st Ha; [done|].
    cbn [fold_left]. by apply IH, headingsStep_agree. }
  apply H. split; [done|]. split; [|constructor]. intros l. cbn [fst templateAt].
  symmetry. apply lookup_empty.
Qed.

(** **** Every block of the candidate becomes one paragraph or table *)

Lemma createNewParagraph_block text template :
  (forall n, template = Some n -> has_name (js "w:p") n = true) ->
  isBlockNode (createNewParagraph text template) = true.
Proof.
  intros H. unfold createNewParagraph. destruct template as [n|]; [|reflexivity].
  rewrite (same_kind_block _ n).
  - by apply has_name_block_p, H.
  - eapply same_kind_trans; [apply same_kind_update|apply same_kind_removeImages].
Qed.

Lemma closestEntry_in level rest : forall first,
  In (closestEntry level first rest) (first :: rest).
Proof.
  unfold closestEntry. induction rest as [|b rest IH]; intros first; [by left|].
  cbn [fold_left].
  destruct (distance level b <? distance level first)%Z.
  - right. apply IH.
  - destruct (IH first) as [H|H]; [by left|]. right. by right.
Qed.

Lemma insertByKey_in e x l : In x (insertByKey e l) <-> x = e \/ In x l.
Proof.
  induction l as [|y l IH]; cbn [insertByKey].
  - simpl. split; [intros [H|[]]; by left|intros [H|[]]; by left].
  - destruct (fst e <=? fst y)%Z.
    + simpl. split; [intros [H|H]; [by left|by right]|intros [H|H]; [by left|by right]].
    + simpl. rewrite IH. split.
      * intros [H|[H|H]]; [right; by left|by left|right; by right].
      * intros [H|[H|H]]; [right; by left|by left|right; by right].
Qed.

Lemma sorted_in x l : In x (fold_right insertByKey [] l) <-> In x l.
Proof.
  induction l as [|y l IH]; [done|]. cbn [fold_right].
  rewrite insertByKey_in, IH. simpl. split; (intros [H|H]; [by left|by right]).
Qed.

Lemma objectEntries_in x headings : In x (objectEntries headings) <-> In x headings.
Proof.
  unfold objectEntries. rewrite in_app_iff, sorted_in, !filter_In. split.
  - by intros [[H _]|[H _]].
  - intros H. destruct (is_index x); [left|right]; by split.
Qed.

Lemma createNewHeading_block text level headings rm :
  Forall (fun e => has_name (js "w:p") (snd e) = true) headings ->
  isBlockNode (createNewHeading text level headings rm) = true.
Proof.
  intros Hp. unfold createNewHeading.
  assert (Ht : forall l n, templateAt l headings = Some n -> has_name (js "w:p") n = true).
  { intros l n. induction Hp as [|[l' n'] hs Hx _ IH]; cbn [templateAt]; [done|].
    destruct (l' =? l)%Z; [|done]. intros H. by injection H as <-. }
  destruct (templateAt level headings) as [template|] eqn:Hl.
  { rewrite (same_kind_block _ template).
    - by apply has_name_block_p, (Ht level).
    - eapply same_kind_trans; [apply same_kind_update|apply same_kind_removeImages]. }
  destruct (objectEntries headings) as [|first rest] eqn:Ho; [reflexivity|].
  rewrite (same_kind_block _ (snd (closestEntry level first rest))).
  - apply has_name_block_p.
    pose proof (closestEntry_in level rest first) as Hin. rewrite <- Ho in Hin.
    apply (proj1 (objectEntries_in _ _)) in Hin.
    rewrite List.Forall_forall in Hp. exact (Hp _ Hin).
  - eapply same_kind_trans; [apply same_kind_update|].
    eapply same_kind_trans; [apply same_kind_restyle|apply same_kind_removeImages].
Qed.

Lemma orElse_named tag a b n :
  (forall m, a = Some m -> has_name tag m = true) ->
  (forall m, b = Some m -> has_name tag m = true) ->
  orElse a b = Some n -> has_name tag n = true.
Proof. intros Ha Hb. unfold orElse. destruct a; eauto. Qed.

Lemma createNewBlock_block block t headings rm :
  templates_are_blocks t ->
  Forall (fun e => has_name (js "w:p") (snd e) = true) headings ->
  isBlockNode (createNewBlock block t headings rm) = true.
Proof.
  intros (H1 & H2 & H3 & H4 & H5) Hh.
  destruct block; cbn [createNewBlock].
  - apply createNewParagraph_block. intros n. by apply orElse_named.
  - by apply createNewHeading_block.
  - by apply createNewParagraph_block.
  - apply createNewParagraph_block. intros n. by apply orElse_named.
  - reflexivity.
Qed.

Lemma rebuildBlock_block oj body rm block :
  isBlockNode (rebuildBlock (traverse oj body) (headingTemplatesOf oj body) rm block) = true.
Proof.
  unfold rebuildBlock.
  destruct (originalBlockNodes (traverse oj body) !! block_id block) as [original|] eqn:Ho.
  - apply traverse_nodes_are_blocks in Ho. rewrite <- Ho.
    destruct block; apply same_kind_block;
      (eapply same_kind_trans;
       [first [apply same_kind_update|apply same_kind_updateTable]
       |apply same_kind_removeImages]).
  - apply createNewBlock_block; [apply traverse_blocks|].
    by destruct (headingTemplatesOf_agree oj body) as (_ & _ & H).
Qed.

Lemma filter_app_blocks (built : list Node) (others : list Node) :
  Forall (fun n => isBlockNode n = true) built ->
  Forall (fun n => isBlockNode n = false) others ->
  List.filter isBlockNode (built ++ others) = built.
Proof.
  intros Hb Ho. rewrite List.filter_app, filter_all, filter_none by done.
  apply app_nil_r.
Qed.

Lemma nonBlock_not_block oj body :
  Forall (fun n => isBlockNode n = false) (nonBlockNodes (traverse oj body)).
Proof.
  rewrite traverse_nonBlock. apply List.Forall_forall. intros n [_ H]%filter_In.
  apply andb_true_iff in H as [_ H]. by apply negb_true_iff.
Qed.

Lemma rebuilt_blockNodes name attrs children rm cand oj :
  blockNodes (reconstructDocx (Element name attrs children) rm cand oj)
  = List.map (rebuildBlock (traverse oj (Element name attrs children))
                           (headingTemplatesOf oj (Element name attrs children)) rm)
             (blocks cand).
Proof.
  unfold blockNodes, reconstructDocx. cbn [withChildren childNodes].
  apply filter_app_blocks; [|apply nonBlock_not_block].
  apply List.Forall_forall. intros n (b & <- & _)%in_map_iff. apply rebuildBlock_block.
Qed.

(** X14. The body that is serialised holds one paragraph or table for each
    block of the candidate, in the order of the candidate, then the
    elements of the original body that are no paragraphs and no tables, in
    their order; text and comments between the children of the original
    body are dropped. So the block at position [j] of the candidate is the
    node a later traversal finds under the id of index [j], whatever id
    the block has, and the next extraction numbers the blocks by position.
    The heading templates taken in the order in which they were set are
    those of the traversal. *)
Theorem rebuilt_body_structure (name : jsstring) (attrs : list (jsstring * jsstring))
        (children : list Node) (headingStyleMap : gmap Z jsstring)
        (modifiedJson : Document) (originalJson later : option Document) :
  let body := Element name attrs children in
  let rebuilt := reconstructDocx body headingStyleMap modifiedJson originalJson in
  let nodes := List.map (rebuildBlock (traverse originalJson body)
                                      (headingTemplatesOf originalJson body)
                                      headingStyleMap)
                        (blocks modifiedJson) in
  childNodes rebuilt
  = nodes ++ List.filter (fun c => is_element c && negb (isBlockNode c)) children
  /\ blockNodes rebuilt = nodes
  /\ blockIndex (traverse later rebuilt) = length (blocks modifiedJson)
  /\ (forall j node, nodes !! j = Some node ->
        originalBlockNodes (traverse later rebuilt) !! blockId j = Some node)
  /\ (forall level,
        templateAt level (headingTemplatesOf originalJson body)
        = t_headings (templates (traverse originalJson body)) !! level).
Proof.
  intros body rebuilt nodes.
  assert (Hb : blockNodes rebuilt = nodes) by apply rebuilt_blockNodes.
  split.
  { unfold rebuilt, reconstructDocx. cbn [withChildren childNodes body].
    by rewrite traverse_nonBlock. }
  split; [done|].
  pose proof (fold_traverse later (childNodes rebuilt) (mkTraversal ∅ emptyTemplates [] 0))
    as (Hlen & Hfound & _). cbn [blockIndex originalBlockNodes] in *.
  fold (blockNodes rebuilt) in Hlen, Hfound. rewrite Hb in Hlen, Hfound.
  split; [unfold traverse; rewrite Hlen; unfold nodes; by rewrite length_map|].
  split; [intros j node Hj; by apply (Hfound j node)|].
  intros level. by destruct (headingTemplatesOf_agree originalJson body) as (_ & H & _).
Qed.

(** *** The template of the closest level *)

Lemma closest_fold level rest : forall best pre mid,
  (forall x, In x pre -> (distance level best < distance level x)%Z) ->
  (forall x, In x mid -> (distance level best <= distance level x)%Z) ->
  exists pre' post',
    pre ++ best :: mid ++ rest = pre' ++ closestEntry level best rest :: post'
    /\ (forall x, In x pre' ->
          (distance level (closestEntry level best rest) < distance level x)%Z)
    /\ (forall x, In x post' ->
          (distance level (closestEntry level best rest) <= distance level x)%Z).
Proof.
  unfold closestEntry.
  induction rest as [|b rest IH]; intros best pre mid Hpre Hmid; cbn [fold_left].
  - exists pre, mid. by rewrite app_nil_r.
  - destruct (distance level b <? distance level best)%Z eqn:Hlt.
    + apply Z.ltb_lt in Hlt.
      destruct (IH b (pre ++ best :: mid) []) as (pre' & post' & He & H1 & H2).
      * intros x [Hx|[<-|Hx]]%in_app_or; [specialize (Hpre x Hx); lia|lia|].
        specialize (Hmid x Hx). lia.
      * intros x [].
      * exists pre', post'. split; [|done]. rewrite <- He.
        by rewrite <- !app_assoc.
    + apply Z.ltb_ge in Hlt.
      destruct (IH best pre (mid ++ [b])) as (pre' & post' & He & H1 & H2).
      * done.
      * intros x [Hx|[<-|[]]]%in_app_or; [by apply Hmid|done].
      * exists pre', post'. split; [|done]. rewrite <- He.
        by rewrite <- !app_assoc.
Qed.

Lemma closest_first level first rest :
  exists pre post,
    first :: rest = pre ++ closestEntry level first rest :: post
    /\ (forall x, In x pre ->
          (distance level (closestEntry level first rest) < distance level x)%Z)
    /\ (forall x, In x post ->
          (distance level (closestEntry level first rest) <= distance level x)%Z).
Proof. by apply (closest_fold level rest first [] []). Qed.

Lemma insertByKey_ascending e l : ascending l -> ascending (insertByKey e l).
Proof.
  induction l as [|x l IH]; intros Ha; cbn [insertByKey].
  - by split.
  - destruct Ha as [Hx Hl]. destruct (fst e <=? fst x)%Z eqn:Hle.
    + apply Z.leb_le in Hle. split; [|by split].
      intros y [<-|Hy]; [done|]. specialize (Hx y Hy). lia.
    + apply Z.leb_gt in Hle. split; [|by apply IH].
      intros y [->|Hy]%insertByKey_in; [lia|by apply Hx].
Qed.

Lemma sorted_ascending l : ascending (fold_right insertByKey [] l).
Proof. induction l as [|x l IH]; [done|]. by apply insertByKey_ascending. Qed.

Lemma objectEntries_ascending headings :
  forallb is_index headings = true -> ascending (objectEntries headings).
Proof.
  intros H. unfold objectEntries.
  rewrite (filter_none (fun e => negb (is_index e))), app_nil_r.
  - apply sorted_ascending.
  - apply List.Forall_forall. intros x Hx.
    rewrite forallb_forall in H. by rewrite (H x Hx).
Qed.

Lemma ascending_after pre e post x :
  ascending (pre ++ e :: post) -> In x post -> (fst e <= fst x)%Z.
Proof.
  induction pre as [|p pre IH]; cbn [app ascending].
  - intros [H _] Hx. by apply H.
  - intros [_ H]. by apply IH.
Qed.

Lemma distance_exact level headings e :
  exact_distances level headings = true -> In e headings ->
  distance level e = Z.abs (fst e - level).
Proof.
  unfold exact_distances, distance. intros [Hl Hh]%andb_true_iff Hin.
  rewrite forallb_forall in Hh. specialize (Hh e Hin).
  apply Z.ltb_lt in Hl, Hh. rewrite roundToDouble_exact; [done|].
  change (2 ^ 53)%Z with (2 ^ 52 + 2 ^ 52)%Z. lia.
Qed.

(** X13. A new heading of a level that has no template among the headings
    of the original is built on the template whose level is the closest to
    it: no heading template is at a lesser distance, the distance being
    the absolute difference of the levels as the code computes it, in
    doubles.  When the levels of the templates are array indices, as all
    levels from 0 to 2^32 - 2 are, a template at the same distance has a
    level that is not lower: the lower of two levels at the same distance
    wins.  When the levels are below 2^52 in absolute value the distance
    is the exact difference. *)
Theorem new_heading_uses_closest_template (text : jsstring) (level : Z)
        (headings : HeadingTemplates) (headingStyleMap : gmap Z jsstring) :
  templateAt level headings = None -> headings <> [] ->
  exists l template,
    In (l, template) headings
    /\ createNewHeading text level headings headingStyleMap
       = updateParagraphText (restyle level headingStyleMap (removeImages template)) text
    /\ (forall e, In e headings -> (distance level (l, template) <= distance level e)%Z)
    /\ (forallb is_index headings = true ->
        forall e, In e headings -> distance level e = distance level (l, template) ->
        (l <= fst e)%Z)
    /\ (exact_distances level headings = true ->
        forall e, In e headings -> (Z.abs (l - level) <= Z.abs (fst e - level))%Z).
Proof.
  intros Hnone Hne. unfold createNewHeading. rewrite Hnone.
  destruct (objectEntries headings) as [|first rest] eqn:Ho.
  { destruct headings as [|h hs]; [done|].
    assert (Hin : In h (objectEntries (h :: hs))) by (apply objectEntries_in; by left).
    by rewrite Ho in Hin. }
  destruct (closest_first level first rest) as (pre & post & He & Hpre & Hpost).
  destruct (closestEntry level first rest) as [l template] eqn:Hc.
  exists l, template. cbn [snd].
  assert (Hall : forall e, In e headings -> In e (pre ++ (l, template) :: post)).
  { intros e Hin. rewrite <- He, <- Ho. by apply objectEntries_in. }
  assert (Hself : In (l, template) headings).
  { apply objectEntries_in. rewrite Ho, He. apply in_or_app. right. by left. }
  assert (Hmin : forall e, In e headings ->
                           (distance level (l, template) <= distance level e)%Z).
  { intros e Hin. apply Hall in Hin.
    apply in_app_or in Hin as [Hin|[<-|Hin]].
    - specialize (Hpre e Hin). lia.
    - lia.
    - by apply Hpost. }
  split; [done|]. split; [done|]. split; [done|]. split.
  - intros Hidx e Hin Hd. apply Hall in Hin.
    apply in_app_or in Hin as [Hin|[<-|Hin]].
    + specialize (Hpre e Hin). lia.
    + done.
    + apply objectEntries_ascending in Hidx. rewrite Ho, He in Hidx.
      by apply (ascending_after pre (l, template) post e).
  - intros Hexact e Hin. specialize (Hmin e Hin).
    rewrite (distance_exact level headings e Hexact Hin) in Hmin.
    by rewrite (distance_exact level headings (l, template) Hexact Hself) in Hmin.
Qed.

(** *** What the validator accepts of typed documents *)

Lemma mkVState_prepend E s : mkVState E s = prepend E (mkVState [] s).
Proof. unfold prepend. simpl. by rewrite app_nil_r. Qed.

Lemma verdict_bind f g seen P s1 (Q : list JsVal -> Prop) (s2 : list JsVal -> list JsVal) :
  verdict f seen P s1 ->
  (forall e0, commutes e0 g) ->
  (forall seen1, verdict g seen1 (Q seen1) (s2 seen1)) ->
  verdict (fun st => f st ≫= g) seen (P /\ Q s1) (s2 s1).
Proof.
  intros (E1 & seen1 & Hf & HP & Hs1) Hg Hv.
  destruct (Hv seen1) as (E2 & seen2 & Hg2 & HQ & Hs2).
  exists (E1 ++ E2), seen2. split.
  - rewrite Hf. cbn [mbind option_bind]. rewrite (mkVState_prepend E1 seen1), Hg, Hg2.
    reflexivity.
  - split.
    + split.
      * intros [H1 H2]%app_eq_nil. rewrite (Hs1 H1) in *. split; [by apply HP|by apply HQ].
      * intros [HP' HQ']. apply HP in HP'. rewrite (Hs1 HP') in *. apply HQ in HQ'.
        by rewrite HP', HQ'.
    + intros [H1 H2]%app_eq_nil. rewrite (Hs1 H1) in *. by apply Hs2.
Qed.

Lemma verdict_iff f seen P P' s : verdict f seen P s -> (P <-> P') -> verdict f seen P' s.
Proof.
  intros (E & s' & Hf & HP & Hs) Hiff. exists E, s'. split; [done|]. split; [|done].
  by rewrite HP.
Qed.

Lemma verdict_seen f seen P s s' : verdict f seen P s -> (P -> s = s') -> verdict f seen P s'.
Proof.
  intros (E & s0 & Hf & HP & Hs) Heq. exists E, s0. split; [done|]. split; [done|].
  intros HE. rewrite (Hs HE). apply Heq. by apply HP.
Qed.

Lemma verdict_ext f g seen P s :
  (forall st, f st = g st) -> verdict g seen P s -> verdict f seen P s.
Proof. intros H (E & s' & Hg & HP). exists E, s'. by rewrite H. Qed.

Lemma verdict_ret seen : verdict Some seen True seen.
Proof. exists [], seen. by repeat split. Qed.

Lemma verdict_push_if (b : bool) e seen :
  verdict (fun st => Some (push_if b e st)) seen (b = false) seen.
Proof.
  destruct b; cbn [push_if].
  - exists [e], seen. by repeat split.
  - exists [], seen. by repeat split.
Qed.

Lemma seen_has_in x errs seen :
  seen_has (JStr x) (mkVState errs seen) = true <-> In (JStr x) seen.
Proof.
  unfold seen_has. cbn [st_seen]. rewrite existsb_exists. split.
  - intros (v & Hv & Heq). apply strict_eq_str in Heq. by subst v.
  - intros H. exists (JStr x). split; [done|apply strict_eq_str_refl].
Qed.

Lemma seen_has_not_in x errs seen :
  seen_has (JStr x) (mkVState errs seen) = false <-> ~ In (JStr x) seen.
Proof.
  rewrite <- seen_has_in with (errs := errs).
  destruct (seen_has (JStr x) (mkVState errs seen)); split; done.
Qed.

(** **** Cells and rows *)

Lemma validateCell_verdict i id r c (cell : Cell) seen :
  verdict (validateCell i id r c (cell_to_js cell)) seen
          (cell_id cell <> [] /\ ~ In (JStr (cell_id cell)) seen)
          (JStr (cell_id cell) :: seen).
Proof.
  unfold verdict, validateCell.
  change (truthy (cell_to_js cell)) with true.
  change (is_object (cell_to_js cell)) with true.
  rewrite getProp_cell_id, getProp_cell_text.
  cbn [negb orb mbind option_bind is_string].
  destruct (cell_id cell) as [|x xs] eqn:Hid.
  - cbn [truthy negb orb push_if].
    destruct (seen_has (JStr []) (push (ECellIdMissing i id r c) (mkVState [] seen)));
      cbn [push_if push st_errors st_seen app];
      (eexists _, _; split; [reflexivity|]; split; [split; [done|by intros [? _]]|done]).
  - cbn [truthy negb orb push_if].
    destruct (seen_has (JStr (x :: xs)) (mkVState [] seen)) eqn:Hs;
      cbn [push_if push seen_add st_errors st_seen app];
      (eexists _, _; split; [reflexivity|]).
    + apply seen_has_in in Hs. split; [split; [done|by intros [_ ?]]|done].
    + apply seen_has_not_in in Hs. by repeat split.
Qed.

Lemma fresh_nil seen : fresh [] seen.
Proof. by intros x []. Qed.

Lemma good_ids_cons x ids seen :
  (x <> [] /\ ~ In (JStr x) seen)
  /\ (Forall (fun y => y <> []) ids /\ NoDup ids /\ fresh ids (JStr x :: seen))
  <-> Forall (fun y => y <> []) (x :: ids) /\ NoDup (x :: ids) /\ fresh (x :: ids) seen.
Proof.
  split.
  - intros [[Hx Hin] (Hne & Hnd & Hf)]. split; [by constructor|]. split.
    + apply NoDup_cons. split; [|done]. rewrite list_elem_of_In. intros Hx'.
      apply (Hf x Hx'). by left.
    + intros y [<-|Hy]; [done|]. intros Hi. apply (Hf y Hy). by right.
  - intros (Hne & Hnd & Hf). apply Forall_cons in Hne as [Hx Hne].
    destruct (fresh_cons_inv x ids seen Hnd Hf) as (Hin & Hnd' & Hf'). done.
Qed.

Lemma good_ids_app ids1 ids2 seen :
  (Forall (fun y => y <> []) ids1 /\ NoDup ids1 /\ fresh ids1 seen)
  /\ (Forall (fun y => y <> []) ids2 /\ NoDup ids2 /\ fresh ids2 (seen_after ids1 seen))
  <-> Forall (fun y => y <> []) (ids1 ++ ids2) /\ NoDup (ids1 ++ ids2)
      /\ fresh (ids1 ++ ids2) seen.
Proof.
  split.
  - intros [(Hne1 & Hnd1 & Hf1) (Hne2 & Hnd2 & Hf2)]. split; [by apply Forall_app|]. split.
    + apply NoDup_app. split; [done|]. split; [|done].
      intros x Hx1%list_elem_of_In Hx2%list_elem_of_In. apply (Hf2 x Hx2).
      unfold seen_after. apply in_or_app. left. apply -> in_rev. by apply in_map.
    + intros x [Hx|Hx]%in_app_or; [by apply Hf1|]. intros Hin. apply (Hf2 x Hx).
      unfold seen_after. apply in_or_app. by right.
  - intros (Hne & Hnd & Hf). apply Forall_app in Hne as [Hne1 Hne2].
    destruct (fresh_app_inv ids1 ids2 seen Hnd Hf) as (Hnd1 & Hf1 & Hnd2 & Hf2). done.
Qed.

Lemma validateCells_verdict i id r (cells : list Cell) : forall c seen,
  verdict (validateCells i id r c (List.map cell_to_js cells)) seen
          (Forall (fun y => y <> []) (List.map cell_id cells)
           /\ NoDup (List.map cell_id cells) /\ fresh (List.map cell_id cells) seen)
          (seen_after (List.map cell_id cells) seen).
Proof.
  induction cells as [|cell rest IH]; intros c seen.
  - exists [], seen. split; [done|]. split; [|done]. split; [|done].
    intros _. split; [constructor|]. split; [constructor|apply fresh_nil].
  - change (List.map cell_to_js (cell :: rest))
      with (cell_to_js cell :: List.map cell_to_js rest).
    change (List.map cell_id (cell :: rest)) with (cell_id cell :: List.map cell_id rest).
    eapply verdict_iff; [|apply good_ids_cons].
    rewrite seen_after_cons.
    apply (verdict_bind (validateCell i id r c (cell_to_js cell))
                        (validateCells i id r (S c) (List.map cell_to_js rest))
                        seen _ _
                        (fun s => Forall (fun y => y <> []) (List.map cell_id rest)
                                  /\ NoDup (List.map cell_id rest)
                                  /\ fresh (List.map cell_id rest) s)
                        (fun s => seen_after (List.map cell_id rest) s)).
    + apply validateCell_verdict.
    + intros e0. apply validateCells_commutes.
    + intros seen1. apply IH.
Qed.

Lemma validateRows_verdict i id (rows : list (list Cell)) : forall r seen,
  verdict (validateRows i id r (List.map row_to_js rows)) seen
          (Forall (fun y => y <> []) (List.map cell_id (concat rows))
           /\ NoDup (List.map cell_id (concat rows))
           /\ fresh (List.map cell_id (concat rows)) seen)
          (seen_after (List.map cell_id (concat rows)) seen).
Proof.
  induction rows as [|row rest IH]; intros r seen.
  - exists [], seen. split; [done|]. split; [|done]. split; [|done].
    intros _. split; [constructor|]. split; [constructor|apply fresh_nil].
  - change (concat (row :: rest)) with (row ++ concat rest). rewrite List.map_app.
    eapply verdict_iff; [|apply good_ids_app]. rewrite seen_after_app.
    apply (verdict_bind (validateCells i id r 0 (List.map cell_to_js row))
                        (validateRows i id (S r) (List.map row_to_js rest))
                        seen _ _
                        (fun s => Forall (fun y => y <> []) (List.map cell_id (concat rest))
                                  /\ NoDup (List.map cell_id (concat rest))
                                  /\ fresh (List.map cell_id (concat rest)) s)
                        (fun s => seen_after (List.map cell_id (concat rest)) s)).
    + apply validateCells_verdict.
    + intros e0. apply validateRows_commutes.
    + intros seen1. apply IH.
Qed.

(** **** The geometry of a table *)

Lemma compareRows_exact i id (rows orows : list (list Cell)) (rs : list nat) : forall errs seen,
  Forall (fun r => r < length rows) rs -> length rows = length orows ->
  compareRows i id (JArr (List.map row_to_js rows)) (JArr (List.map row_to_js orows)) rs
              (mkVState errs seen)
  = Some (mkVState (errs ++ flat_map (cellCountAt i id rows orows) rs) seen).
Proof.
  induction rs as [|r rest IH]; intros errs seen Hall Hlen.
  { simpl. by rewrite app_nil_r. }
  apply Forall_cons in Hall as [Hr Hrest].
  cbn [compareRows flat_map]. unfold compareRow, getIndex.
  rewrite !nth_row_to_js by lia. cbn [mbind option_bind truthy row_to_js andb].
  fold (row_to_js (nth r rows [])). fold (row_to_js (nth r orows [])).
  rewrite !getProp_row_length. cbn [mbind option_bind].
  rewrite push_if_with_ok by reflexivity. cbn [mbind option_bind].
  rewrite strict_eq_num. unfold cellCountAt at 1.
  destruct (length (nth r rows []) =? length (nth r orows [])); cbn [negb push_if].
  - by rewrite IH.
  - unfold push. cbn [st_errors st_seen]. rewrite IH by done. by rewrite <- app_assoc.
Qed.

Lemma tableGeometry_exact i id (rows orows : list (list Cell)) oid seen :
  tableGeometry i id (List.map row_to_js rows) (block_to_js (Table oid orows))
                (mkVState [] seen)
  = Some (mkVState (geometryViolations i id rows orows) seen).
Proof.
  unfold tableGeometry, geometryViolations.
  rewrite truthy_block, getProp_block_type. cbn [mbind option_bind type_name].
  rewrite strict_eq_str_refl, getProp_table_rows. cbn [mbind option_bind].
  rewrite getProp_array_length. cbn [mbind option_bind].
  rewrite !length_map, strict_eq_num.
  destruct (Nat.eqb_spec (length rows) (length orows)) as [Hlen|Hne]; cbn [negb].
  - rewrite compareRows_exact; [done| |done].
    apply Forall_forall. intros r Hr%elem_of_seq. lia.
  - reflexivity.
Qed.

Lemma cellCount_nil i id (rows orows : list (list Cell)) (rs : list nat) :
  flat_map (cellCountAt i id rows orows) rs = []
  <-> forall r, In r rs -> length (nth r rows []) = length (nth r orows []).
Proof.
  induction rs as [|r rest IH]; [by split|]. cbn [flat_map]. split.
  - intros [H1 H2]%app_eq_nil r' [<-|Hr'].
    + unfold cellCountAt in H1. by destruct (Nat.eqb_spec (length (nth r rows []))
                                                            (length (nth r orows []))).
    + by apply IH.
  - intros H. rewrite (proj2 IH) by (intros r' Hr'; apply H; by right).
    unfold cellCountAt. rewrite (H r) by (by left). by rewrite Nat.eqb_refl.
Qed.

Lemma map_length_nth {A} (l1 l2 : list (list A)) :
  List.map (@length A) l1 = List.map (@length A) l2
  <-> length l1 = length l2
      /\ forall r, r < length l1 -> length (nth r l1 []) = length (nth r l2 []).
Proof.
  revert l2. induction l1 as [|x l1 IH]; intros [|y l2]; cbn [List.map length nth];
    try (split; [done|by intros [? _]]).
  split.
  - intros H. injection H as Hxy Hl. apply IH in Hl as [Hlen Hnth].
    split; [by rewrite Hlen|]. intros [|r] Hr; [done|]. apply Hnth. lia.
  - intros [Hlen Hnth]. f_equal; [apply (Hnth 0); lia|].
    apply IH. split; [lia|]. intros r Hr. apply (Hnth (S r)). lia.
Qed.

Lemma geometryViolations_nil i id (rows orows : list (list Cell)) :
  geometryViolations i id rows orows = []
  <-> List.map (@length Cell) orows = List.map (@length Cell) rows.
Proof.
  unfold geometryViolations, cellCountViolations.
  destruct (Nat.eqb_spec (length rows) (length orows)) as [Hlen|Hne].
  - rewrite cellCount_nil, map_length_nth. split.
    + intros H. split; [done|]. intros r Hr. symmetry. apply H.
      apply list_elem_of_In, elem_of_seq. lia.
    + intros [_ H] r Hr%list_elem_of_In%elem_of_seq. symmetry. apply H. lia.
  - split; [done|]. intros H. apply (f_equal (@length nat)) in H.
    rewrite !length_map in H. done.
Qed.

(** **** One block *)

Lemma agrees_split o b : agrees o b <-> cross_ok o b /\ geom_ok o b.
Proof.
  unfold cross_ok, geom_ok.
  destruct o, b; cbn [agrees type_name]; split; try done;
    try (intros [[H _] _]; apply js_inj in H; discriminate H);
    try (by intros [[_ ?] _]); try (by intros [_ ?]); try (by intros ->).
Qed.

Lemma crossReference_typed i id (o b : Block) st :
  crossReference i id (block_to_js b) (JStr (type_name b)) (block_to_js o) st
  = Some
      (let st1 := push_if (negb (str_eqb (type_name b) (type_name o)))
                          (ETypeChanged i id (JStr (type_name o)) (JStr (type_name b))) st in
       match o, b with
       | Heading _ level _, Heading _ level' _ =>
           push_if (negb (strict_eq (level_to_js level') (level_to_js level)))
                   (ELevelChanged i id (level_to_js level) (level_to_js level')) st1
       | _, _ => st1
       end).
Proof.
  unfold crossReference. rewrite truthy_block, !getProp_block_type.
  cbn [mbind option_bind]. rewrite push_if_with_ok by reflexivity.
  cbn [mbind option_bind].
  destruct o, b; try reflexivity.
  cbn [type_name]. change (strict_eq (JStr (js "heading")) (JStr (js "heading"))) with true.
  cbn [andb block_to_js getProp field].
  change (str_eqb (js "id") (js "level")) with false.
  change (str_eqb (js "type") (js "level")) with false.
  change (str_eqb (js "text") (js "level")) with false.
  change (str_eqb (js "level") (js "level")) with true.
  cbv beta iota. cbn [mbind option_bind].
  by rewrite push_if_with_ok by reflexivity.
Qed.

Lemma strict_eq_levels l l' : strict_eq (level_to_js l) (level_to_js l') = (l =? l')%Z.
Proof. apply Qeq_bool_inject. Qed.

Lemma crossReference_verdict i id (o b : Block) seen :
  verdict (crossReference i id (block_to_js b) (JStr (type_name b)) (block_to_js o)) seen
          (cross_ok o b) seen.
Proof.
  unfold verdict, cross_ok. rewrite crossReference_typed. cbv zeta.
  destruct (str_eqb (type_name b) (type_name o)) eqn:Ht.
  - apply str_eqb_eq in Ht. cbn [negb push_if].
    destruct o as [| oid l ot | | |], b as [| bid l' bt | | |];
      try (exists [], seen; by repeat split).
    rewrite strict_eq_levels.
    destruct (Z.eqb_spec l' l) as [->|Hne]; cbn [negb push_if].
    + exists [], seen. by repeat split.
    + eexists _, seen. split; [reflexivity|]. split; [|done].
      split; [done|]. by intros [_ ?].
  - assert (Hne : type_name b <> type_name o).
    { intros Heq. apply str_eqb_eq in Heq. congruence. }
    cbn [negb push_if].
    destruct o as [| oid l ot | | |], b as [| bid l' bt | | |];
      try (eexists _, seen; split; [reflexivity|]; split; [|done];
           split; [done|by intros [? _]]).
    by destruct Hne.
Qed.

Lemma crossReference_absent i id block type seen :
  verdict (crossReference i id block type JUndefined) seen True seen.
Proof. exists [], seen. by repeat split. Qed.

Lemma bad_level_iff l : bad_level (level_to_js l) = false <-> (1 <= l)%Z.
Proof.
  unfold level_to_js, bad_level, Qle_bool, inject_Z. cbn [Qnum Qden].
  rewrite negb_false_iff, Z.leb_le. lia.
Qed.

Lemma tableGeometry_verdict i id (rows : list (list Cell)) (o : Block) seen :
  verdict (tableGeometry i id (List.map row_to_js rows) (block_to_js o)) seen
          (geom_ok o (Table id rows)) seen.
Proof.
  destruct (is_table o) eqn:Ho.
  - destruct o as [| | | |oid orows]; try done.
    exists (geometryViolations i id rows orows), seen.
    split; [apply tableGeometry_exact|]. split; [|done]. apply geometryViolations_nil.
  - exists [], seen. split; [by apply tableGeometry_other|].
    split; [|done]. split; [|done]. intros _. by destruct o.
Qed.

Lemma tableGeometry_verdict_absent i id items seen :
  verdict (tableGeometry i id items JUndefined) seen True seen.
Proof. exists [], seen. by repeat split. Qed.

(** **** One block *)

Lemma verdict_seen_id i id seen :
  verdict (fun st => Some (seen_add (JStr id)
                             (push_if (seen_has (JStr id) st) (EDuplicateId i id) st)))
          seen (~ In (JStr id) seen) (JStr id :: seen).
Proof.
  unfold verdict. destruct (seen_has (JStr id) (mkVState [] seen)) eqn:Hs.
  - apply seen_has_in in Hs. eexists _, _. split; [reflexivity|]. by repeat split.
  - apply seen_has_not_in in Hs. exists [], (JStr id :: seen). by repeat split.
Qed.

Lemma compatible_found original o b :
  NoDup (List.map block_id original) -> In o original -> block_id o = block_id b ->
  compatible original b <-> agrees o b.
Proof.
  intros Hnd Ho Hid. split; [intros H; by apply H|].
  intros Ha o' Ho' Hid'.
  by rewrite (NoDup_block_id_inj original o' o Hnd Ho' Ho) by congruence.
Qed.

Lemma compatible_absent original b :
  (forall o, In o original -> block_id o <> block_id b) -> compatible original b.
Proof. intros H o Ho Hid. by destruct (H o Ho). Qed.

Lemma validateBlock_typed m i (b : Block) c s st :
  block_id b = c :: s ->
  validateBlock m i (block_to_js b) st =
    (st2 ← crossReference i (c :: s) (block_to_js b) (JStr (type_name b))
                          (map_get (JStr (c :: s)) m)
                          (seen_add (JStr (c :: s))
                             (push_if (seen_has (JStr (c :: s)) st)
                                      (EDuplicateId i (c :: s)) st));
     typedChecks i b (map_get (JStr (c :: s)) m) st2).
Proof.
  intros Hid. destruct b as [id t|id l t|id t|id l t|id rows]; cbn [block_id] in Hid; subst id.
  - rewrite validateBlock_title. cbv zeta. by destruct (crossReference _ _ _ _ _ _).
  - rewrite validateBlock_heading. reflexivity.
  - rewrite validateBlock_paragraph. cbv zeta. by destruct (crossReference _ _ _ _ _ _).
  - rewrite validateBlock_list_item. reflexivity.
  - rewrite validateBlock_table. reflexivity.
Qed.

Lemma typedChecks_commutes e0 i b origBlock : commutes e0 (typedChecks i b origBlock).
Proof.
  destruct b; try done.
  - intros st. cbn [typedChecks]. by rewrite push_if_prepend.
  - intros st. cbn [typedChecks]. by rewrite push_if_prepend.
  - apply commutes_bind; [apply validateRows_commutes|apply tableGeometry_commutes].
Qed.

Lemma typedChecks_verdict i (b o : Block) seen :
  verdict (typedChecks i b (block_to_js o)) seen
          ((Forall (fun y => y <> []) (tl (block_ids b)) /\ NoDup (tl (block_ids b))
            /\ fresh (tl (block_ids b)) seen)
           /\ level_ok b /\ geom_ok o b)
          (seen_after (tl (block_ids b)) seen).
Proof.
  destruct b as [id t|id l t|id t|id l t|id rows]; cbn [typedChecks block_ids tl level_ok].
  - exists [], seen. split; [done|]. split; [|done]. split; [|done]. intros _.
    repeat split; try constructor; try apply fresh_nil. by destruct o.
  - eapply verdict_iff; [apply verdict_push_if|]. rewrite bad_level_iff. split.
    + intros H. repeat split; try constructor; try apply fresh_nil; [done|by destruct o].
    + by intros (_ & H & _).
  - exists [], seen. split; [done|]. split; [|done]. split; [|done]. intros _.
    repeat split; try constructor; try apply fresh_nil. by destruct o.
  - eapply verdict_iff; [apply verdict_push_if|]. rewrite bad_level_iff. split.
    + intros H. repeat split; try constructor; try apply fresh_nil; [done|by destruct o].
    + by intros (_ & H & _).
  - eapply verdict_iff.
    + apply (verdict_bind (validateRows i id 0 (List.map row_to_js rows))
                          (tableGeometry i id (List.map row_to_js rows) (block_to_js o))
                          seen
                          (Forall (fun y => y <> []) (List.map cell_id (concat rows))
                           /\ NoDup (List.map cell_id (concat rows))
                           /\ fresh (List.map cell_id (concat rows)) seen)
                          (seen_after (List.map cell_id (concat rows)) seen)
                          (fun _ => geom_ok o (Table id rows)) (fun s => s)).
      * apply validateRows_verdict.
      * intros e0. apply tableGeometry_commutes.
      * intros seen1. apply tableGeometry_verdict.
    + tauto.
Qed.

Lemma typedChecks_verdict_absent i (b : Block) seen :
  verdict (typedChecks i b JUndefined) seen
          ((Forall (fun y => y <> []) (tl (block_ids b)) /\ NoDup (tl (block_ids b))
            /\ fresh (tl (block_ids b)) seen)
           /\ level_ok b)
          (seen_after (tl (block_ids b)) seen).
Proof.
  destruct b as [id t|id l t|id t|id l t|id rows]; cbn [typedChecks block_ids tl level_ok].
  - exists [], seen. split; [done|]. split; [|done]. split; [|done]. intros _.
    repeat split; try constructor; apply fresh_nil.
  - eapply verdict_iff; [apply verdict_push_if|]. rewrite bad_level_iff. split.
    + intros H. repeat split; try constructor; try apply fresh_nil; done.
    + by intros (_ & H).
  - exists [], seen. split; [done|]. split; [|done]. split; [|done]. intros _.
    repeat split; try constructor; apply fresh_nil.
  - eapply verdict_iff; [apply verdict_push_if|]. rewrite bad_level_iff. split.
    + intros H. repeat split; try constructor; try apply fresh_nil; done.
    + by intros (_ & H).
  - eapply verdict_iff.
    + apply (verdict_bind (validateRows i id 0 (List.map row_to_js rows))
                          (tableGeometry i id (List.map row_to_js rows) JUndefined)
                          seen
                          (Forall (fun y => y <> []) (List.map cell_id (concat rows))
                           /\ NoDup (List.map cell_id (concat rows))
                           /\ fresh (List.map cell_id (concat rows)) seen)
                          (seen_after (List.map cell_id (concat rows)) seen)
                          (fun _ => True) (fun s => s)).
      * apply validateRows_verdict.
      * intros e0. apply tableGeometry_commutes.
      * intros seen1. apply tableGeometry_verdict_absent.
    + tauto.
Qed.

Lemma block_ids_cons b : block_ids b = block_id b :: tl (block_ids b).
Proof. by destruct b. Qed.

Lemma validateBlock_verdict original i (b : Block) seen :
  NoDup (List.map block_id original) ->
  verdict (validateBlock (rev (List.map block_entry original)) i (block_to_js b)) seen
          (good_block original seen b) (seen_after (block_ids b) seen).
Proof.
  intros Hnd. unfold good_block. rewrite (block_ids_cons b).
  destruct (block_id b) as [|c s] eqn:Hid.
  { exists [EIdInvalid i], seen. split.
    - destruct b; cbn [block_id] in Hid; subst; reflexivity.
    - split; [|done]. split; [done|]. intros [(H & _) _].
      apply Forall_cons in H as [H _]. done. }
  eapply verdict_ext; [intros st; by apply validateBlock_typed|].
  rewrite seen_after_cons.
  destruct (classic_in_blocks (mkDocument (mkMetadata [] [] 0 0) original) (c :: s))
    as [(o & Ho & Hoid)|Habs]; cbn [blocks] in *.
  - pose proof (map_get_typed original o Hnd Ho) as Hget. rewrite Hoid in Hget.
    rewrite Hget.
    eapply verdict_iff.
    + apply (verdict_bind
               (fun st => Some (seen_add (JStr (c :: s))
                                  (push_if (seen_has (JStr (c :: s)) st)
                                           (EDuplicateId i (c :: s)) st)))
               (fun st => crossReference i (c :: s) (block_to_js b) (JStr (type_name b))
                                         (block_to_js o) st
                          ≫= typedChecks i b (block_to_js o))
               seen (~ In (JStr (c :: s)) seen) (JStr (c :: s) :: seen)
               (fun s1 => cross_ok o b
                          /\ ((Forall (fun y => y <> []) (tl (block_ids b))
                               /\ NoDup (tl (block_ids b)) /\ fresh (tl (block_ids b)) s1)
                              /\ level_ok b /\ geom_ok o b))
               (fun s1 => seen_after (tl (block_ids b)) s1)).
      * apply verdict_seen_id.
      * intros e0. apply commutes_bind;
          [apply crossReference_commutes|apply typedChecks_commutes].
      * intros seen1.
        apply (verdict_bind _ _ seen1 (cross_ok o b) seen1
                 (fun s1 => (Forall (fun y => y <> []) (tl (block_ids b))
                             /\ NoDup (tl (block_ids b)) /\ fresh (tl (block_ids b)) s1)
                            /\ level_ok b /\ geom_ok o b)
                 (fun s1 => seen_after (tl (block_ids b)) s1)).
        -- apply crossReference_verdict.
        -- intros e0. apply typedChecks_commutes.
        -- intros seen2. apply typedChecks_verdict.
    + rewrite (compatible_found original o b Hnd Ho) by congruence.
      rewrite agrees_split, <- good_ids_cons.
      assert (Hne : c :: s <> []) by done. tauto.
  - rewrite (map_get_typed_absent original (c :: s) Habs).
    eapply verdict_iff.
    + apply (verdict_bind
               (fun st => Some (seen_add (JStr (c :: s))
                                  (push_if (seen_has (JStr (c :: s)) st)
                                           (EDuplicateId i (c :: s)) st)))
               (fun st => crossReference i (c :: s) (block_to_js b) (JStr (type_name b))
                                         JUndefined st
                          ≫= typedChecks i b JUndefined)
               seen (~ In (JStr (c :: s)) seen) (JStr (c :: s) :: seen)
               (fun s1 => True
                          /\ ((Forall (fun y => y <> []) (tl (block_ids b))
                               /\ NoDup (tl (block_ids b)) /\ fresh (tl (block_ids b)) s1)
                              /\ level_ok b))
               (fun s1 => seen_after (tl (block_ids b)) s1)).
      * apply verdict_seen_id.
      * intros e0. apply commutes_bind;
          [apply crossReference_commutes|apply typedChecks_commutes].
      * intros seen1.
        apply (verdict_bind _ _ seen1 True seen1
                 (fun s1 => (Forall (fun y => y <> []) (tl (block_ids b))
                             /\ NoDup (tl (block_ids b)) /\ fresh (tl (block_ids b)) s1)
                            /\ level_ok b)
                 (fun s1 => seen_after (tl (block_ids b)) s1)).
        -- apply crossReference_absent.
        -- intros e0. apply typedChecks_commutes.
        -- intros seen2. apply typedChecks_verdict_absent.
    + rewrite <- good_ids_cons.
      assert (Hne : c :: s <> []) by done.
      assert (Hc : compatible original b).
      { apply compatible_absent. intros o Ho. rewrite Hid. by apply Habs. }
      tauto.
Qed.

(** **** All blocks *)

Lemma validateBlocks_verdict original (bs : list Block) :
  NoDup (List.map block_id original) ->
  forall i seen,
    verdict (validateBlocks (rev (List.map block_entry original)) i (List.map block_to_js bs))
            seen
            ((Forall (fun y => y <> []) (all_ids bs) /\ NoDup (all_ids bs)
              /\ fresh (all_ids bs) seen)
             /\ Forall level_ok bs /\ Forall (compatible original) bs)
            (seen_after (all_ids bs) seen).
Proof.
  intros Hnd. induction bs as [|b rest IH]; intros i seen.
  - exists [], seen. split; [done|]. split; [|done]. split; [|done]. intros _.
    repeat split; try constructor. apply fresh_nil.
  - change (all_ids (b :: rest)) with (block_ids b ++ all_ids rest).
    change (List.map block_to_js (b :: rest))
      with (block_to_js b :: List.map block_to_js rest).
    rewrite seen_after_app.
    eapply verdict_iff.
    + apply (verdict_bind
               (validateBlock (rev (List.map block_entry original)) i (block_to_js b))
               (validateBlocks (rev (List.map block_entry original)) (S i)
                               (List.map block_to_js rest))
               seen (good_block original seen b) (seen_after (block_ids b) seen)
               (fun s1 => (Forall (fun y => y <> []) (all_ids rest) /\ NoDup (all_ids rest)
                           /\ fresh (all_ids rest) s1)
                          /\ Forall level_ok rest /\ Forall (compatible original) rest)
               (fun s1 => seen_after (all_ids rest) s1)).
      * by apply validateBlock_verdict.
      * intros e0. apply validateBlocks_commutes.
      * intros seen1. apply IH.
    + unfold good_block. rewrite <- good_ids_app, !Forall_cons. tauto.
Qed.

Lemma validate_typed_result (candidate original : Document) :
  NoDup (List.map block_id (blocks original)) ->
  exists E,
    validateModifiedJson (document_to_js candidate) (document_to_js original)
    = Some (mkResult (Nat.eqb (length E) 0) E)
    /\ (E = [] <-> ids_ok (blocks candidate) /\ Forall level_ok (blocks candidate)
                   /\ Forall (compatible (blocks original)) (blocks candidate)).
Proof.
  intros Hnd.
  destruct (validateBlocks_verdict (blocks original) (blocks candidate) Hnd 0 [])
    as (E & s & Hv & HE & _).
  exists E. split.
  - unfold validateModifiedJson.
    change (truthy (document_to_js candidate)) with true.
    change (is_object (document_to_js candidate)) with true.
    change (getProp (document_to_js candidate) (js "metadata"))
      with (Some (metadata_to_js (metadata candidate))).
    change (getProp (document_to_js candidate) (js "blocks"))
      with (Some (JArr (List.map block_to_js (blocks candidate)))).
    cbn [negb orb mbind option_bind truthy metadata_to_js is_object typeof].
    rewrite originalMap_typed. cbn [mbind option_bind]. rewrite Hv. reflexivity.
  - rewrite HE. unfold ids_ok. split.
    + intros ((Hne & Hnd' & _) & Hl & Hc). done.
    + intros ((Hnd' & Hne) & Hl & Hc). repeat split; try done. by intros x _ [].
Qed.

(** X15. Against an original with distinct block ids, the validator
    returns a result for every typed candidate, and it accepts the
    candidate exactly when: the ids of its blocks and cells are not empty
    and pairwise distinct; the levels of its headings and list items are
    at least 1; and every block whose id is in the original agrees with
    the block of the original, in type, in level for a heading, and in the
    number of rows and of cells in each row for a table. Texts, the levels
    of list items, the order of the blocks, removals and new blocks are
    free. *)
Theorem typed_candidate_accepted_iff (candidate original : Document) :
  NoDup (List.map block_id (blocks original)) ->
  (exists r, validateModifiedJson (document_to_js candidate) (document_to_js original)
             = Some r)
  /\ (validateModifiedJson (document_to_js candidate) (document_to_js original)
      = Some (mkResult true [])
      <-> ids_ok (blocks candidate) /\ Forall level_ok (blocks candidate)
          /\ Forall (compatible (blocks original)) (blocks candidate)).
Proof.
  intros Hnd. destruct (validate_typed_result candidate original Hnd) as (E & Hv & HE).
  split; [eauto|]. rewrite Hv, <- HE. split.
  - intros H. injection H as _ H. done.
  - by intros ->.
Qed.

(** ** The name of the download *)

Lemma is_docx_length s : is_docx s = true -> length s = 5.
Proof. by destruct s as [|a [|b [|c [|d [|e [|f s]]]]]]. Qed.

Lemma rx_lit_ci_spec (l : jsstring) : forall s,
  rx_lit_ci l s
  = if matches_ci l (firstn (length l) s)
    then [(firstn (length l) s, skipn (length l) s)] else [].
Proof.
  induction l as [|p l IH]; intros s; [done|].
  cbn [rx_lit_ci length]. unfold rx_bind at 1. unfold rx_class at 1.
  destruct s as [|c s]; [done|]. cbn [firstn skipn matches_ci].
  destruct (if is_lower p then eq_ci p c else (c =? p)%N); [|done].
  cbn [flat_map fst snd andb]. rewrite app_nil_r. unfold rx_bind. rewrite IH.
  by destruct (matches_ci l (firstn (length l) s)).
Qed.

Lemma is_docx_matches s : is_docx s = matches_ci [46; 100; 111; 99; 120]%N s.
Proof.
  destruct s as [|a [|b [|c [|d [|e [|f s]]]]]]; cbn [is_docx matches_ci];
    change (is_lower 46) with false; change (is_lower 100) with true;
    change (is_lower 111) with true; change (is_lower 99) with true;
    change (is_lower 120) with true; unfold eq_ci;
    change (100 - 32)%N with 68%N; change (111 - 32)%N with 79%N;
    change (99 - 32)%N with 67%N; change (120 - 32)%N with 88%N;
    rewrite ?andb_true_r, ?andb_false_r, ?andb_assoc; reflexivity.
Qed.

Lemma docx_suffix_here s :
  docx_suffix_regex s = if is_docx s then [(s, [])] else [].
Proof.
  unfold docx_suffix_regex, rx_bind. rewrite rx_lit_ci_spec, is_docx_matches.
  change (js ".docx") with [46; 100; 111; 99; 120]%N. cbn [length].
  destruct (le_lt_dec (length s) 5) as [Hle|Hgt].
  - rewrite firstn_all2 by done. rewrite skipn_all2 by done.
    by destruct (matches_ci [46; 100; 111; 99; 120]%N s).
  - assert (Hs : matches_ci [46; 100; 111; 99; 120]%N s = false).
    { rewrite <- is_docx_matches. destruct (is_docx s) eqn:H; [|done].
      apply is_docx_length in H. lia. }
    rewrite Hs.
    destruct (matches_ci [46; 100; 111; 99; 120]%N (firstn 5 s)); [|done].
    cbn [flat_map fst snd app]. unfold rx_eof.
    destruct (skipn 5 s) eqn:Hk; [|done].
    apply (f_equal (@length N)) in Hk. rewrite length_skipn in Hk. cbn [length] in Hk. lia.
Qed.

Lemma rx_exec_eq {A} (m : Rx A) s :
  rx_exec m s
  = match rx_match m s with
    | Some (a, rest) => Some ([], a, rest)
    | None =>
        match s with
        | [] => None
        | c :: s' =>
            match rx_exec m s' with
            | Some (skipped, a, rest) => Some (c :: skipped, a, rest)
            | None => None
            end
        end
    end.
Proof. by destruct s. Qed.

Lemma docx_exec : forall s,
  rx_exec docx_suffix_regex s
  = if is_docx (skipn (length s - 5) s)
    then Some (firstn (length s - 5) s, skipn (length s - 5) s, [])
    else None.
Proof.
  induction s as [|c s IH]; [done|].
  - rewrite rx_exec_eq. unfold rx_match. rewrite docx_suffix_here.
    destruct (is_docx (c :: s)) eqn:Hhere.
    + apply is_docx_length in Hhere as Hlen. rewrite Hlen.
      cbn [Nat.sub skipn firstn head]. by rewrite Hhere.
    + cbn [head]. rewrite IH. cbn [length].
      destruct (le_lt_dec 5 (length s)) as [Hge|Hlt].
      * replace (S (length s) - 5) with (S (length s - 5)) by lia.
        cbn [skipn firstn]. by destruct (is_docx (skipn (length s - 5) s)).
      * replace (S (length s) - 5) with 0 by lia.
        replace (length s - 5) with 0 by lia.
        assert (Hs : is_docx s = false).
        { destruct (is_docx s) eqn:Hs; [|done]. apply is_docx_length in Hs. lia. }
        change (skipn 0 s) with s. change (skipn 0 (c :: s)) with (c :: s).
        by rewrite Hhere, Hs.
Qed.

(** X17. A file whose name ends in [.docx], in any mix of cases, is
    downloaded under the name without that ending followed by
    [_modificado.docx]; any other name is kept as it is. *)
Theorem download_name (fileName : jsstring) :
  newFileName fileName
  = if is_docx (skipn (length fileName - 5) fileName)
    then firstn (length fileName - 5) fileName ++ js "_modificado.docx"
    else fileName.
Proof.
  unfold newFileName. rewrite docx_exec.
  destruct (is_docx (skipn (length fileName - 5) fileName)); [|done].
  by rewrite app_nil_r.
Qed.

(** ** The text of the answer *)

Lemma trimStart_blank_app ws s : blank ws = true -> trimStart (ws ++ s) = trimStart s.
Proof.
  induction ws as [|c ws IH]; [done|]. cbn [blank forallb app trimStart].
  intros [Hc Hws]%andb_true_iff. rewrite Hc. by apply IH.
Qed.

Lemma trimStart_blank ws : blank ws = true -> trimStart ws = [].
Proof.
  intros H. rewrite <- (app_nil_r ws). by rewrite trimStart_blank_app.
Qed.

Lemma blank_rev ws : blank (rev ws) = blank ws.
Proof.
  unfold blank. induction ws as [|c ws IH]; [done|].
  cbn [rev forallb]. rewrite forallb_app, IH. cbn [forallb]. destruct (is_space c), (forallb is_space ws); done.
Qed.

Lemma trimEnd_app_blank s ws : blank ws = true -> trimEnd (s ++ ws) = trimEnd s.
Proof.
  intros H. unfold trimEnd. rewrite rev_app_distr, trimStart_blank_app; [done|].
  by rewrite blank_rev.
Qed.

Lemma trimEnd_snoc s c : is_space c = false -> trimEnd (s ++ [c]) = s ++ [c].
Proof.
  intros H. unfold trimEnd. rewrite rev_app_distr. cbn [rev app trimStart].
  rewrite H. cbn [rev]. by rewrite rev_involutive.
Qed.

Lemma trimStart_cases s :
  trimStart s = [] \/ exists c s', trimStart s = c :: s' /\ is_space c = false.
Proof.
  induction s as [|c s IH]; [by left|]. cbn [trimStart].
  destruct (is_space c) eqn:Hc; [done|]. right. by exists c, s.
Qed.

Lemma trimStart_idem s : trimStart (trimStart s) = trimStart s.
Proof.
  destruct (trimStart_cases s) as [->|(c & s' & -> & Hc)]; [done|].
  cbn [trimStart]. by rewrite Hc.
Qed.

Lemma trimEnd_idem s : trimEnd (trimEnd s) = trimEnd s.
Proof. unfold trimEnd. by rewrite rev_involutive, trimStart_idem. Qed.

Lemma trimStart_snoc u c : is_space c = false -> trimStart (u ++ [c]) = trimStart u ++ [c].
Proof.
  intros Hc. induction u as [|y u IH]; cbn [app trimStart]; [by rewrite Hc|].
  by destruct (is_space y).
Qed.

Lemma trimEnd_cons c s : is_space c = false -> trimEnd (c :: s) = c :: trimEnd s.
Proof.
  intros Hc. unfold trimEnd. cbn [rev]. rewrite trimStart_snoc by done.
  by rewrite rev_app_distr.
Qed.

Lemma trim_idem s : trim (trim s) = trim s.
Proof.
  unfold trim. destruct (trimStart_cases s) as [->|(c & s' & -> & Hc)]; [done|].
  rewrite trimEnd_cons by done. cbn [trimStart]. rewrite Hc.
  rewrite trimEnd_cons by done. by rewrite trimEnd_idem.
Qed.

(** White space around a text that begins and ends with a unit that is
    no white space is what [trim] strips. *)
Lemma trim_around before c mid d after :
  blank before = true -> blank after = true ->
  is_space c = false -> is_space d = false ->
  trim (before ++ (c :: mid ++ [d]) ++ after) = c :: mid ++ [d].
Proof.
  intros Hb Ha Hc Hd. unfold trim. rewrite trimStart_blank_app by done.
  cbn [app trimStart]. rewrite Hc.
  change (c :: (mid ++ [d]) ++ after) with ((c :: mid ++ [d]) ++ after).
  rewrite trimEnd_app_blank by done.
  change (c :: mid ++ [d]) with ((c :: mid) ++ [d]). by apply trimEnd_snoc.
Qed.

Lemma ends_with_app p s : ends_with p (s ++ p) = true.
Proof. unfold ends_with. rewrite rev_app_distr. apply starts_with_app. Qed.

Lemma firstn_before {A} (s p : list A) : firstn (length (s ++ p) - length p) (s ++ p) = s.
Proof.
  rewrite length_app. replace (length s + length p - length p) with (length s + 0) by lia.
  rewrite firstn_app_2. cbn [firstn]. by rewrite app_nil_r.
Qed.

(** What is left of a fenced text whose fence is tagged [json] *)
Lemma cleanResponse_json before body after :
  blank before = true -> blank after = true ->
  cleanResponse (before ++ js "```json" ++ body ++ js "```" ++ after) = trim body.
Proof.
  intros Hb Ha. unfold cleanResponse.
  assert (Htrim : trim (before ++ js "```json" ++ body ++ js "```" ++ after)
                  = js "```json" ++ body ++ js "```").
  { change (js "```json") with ([96; 96; 96; 106; 115; 111; 110])%N.
    change (js "```") with ([96; 96; 96])%N.
    pose (mid := ([96; 96; 106; 115; 111; 110] ++ body ++ [96; 96])%N).
    transitivity (trim (before ++ (96%N :: mid ++ [96%N]) ++ after)).
    - f_equal. f_equal. unfold mid. cbn [app]. rewrite <- ?app_assoc. by cbn [app].
    - rewrite (trim_around before 96%N mid 96%N after Hb Ha) by reflexivity.
      unfold mid. cbn [app]. rewrite <- ?app_assoc. by cbn [app]. }
  cbv zeta. rewrite Htrim, starts_with_app.
  change 7 with (length (js "```json")). rewrite skipn_app_length, ends_with_app.
  change 3 with (length (js "```")). by rewrite firstn_before.
Qed.

Lemma starts_with_json_fence body t :
  starts_with (js "json") (body ++ 96%N :: t) = starts_with (js "json") body.
Proof.
  change (js "json") with [106; 115; 111; 110]%N.
  destruct body as [|a [|b [|c [|d body]]]]; cbn [app starts_with];
    repeat match goal with
           | |- context [(?x =? ?y)%N] =>
               lazymatch y with
               | 96%N => change (x =? y)%N with false
               | _ => destruct (x =? y)%N
               end; cbn [andb]
           end; reflexivity.
Qed.

Lemma starts_with_cancel p q s : starts_with (p ++ q) (p ++ s) = starts_with q s.
Proof.
  induction p as [|c p IH]; [done|]. cbn [app starts_with]. by rewrite N.eqb_refl.
Qed.

(** X18. An answer between code fences is parsed as what the fences hold,
    trimmed: with the fence tagged [json], and with the bare fence, where
    a text that begins with [json] is read as the tag and the rest. White
    space around the fences makes no difference. An answer that, trimmed,
    neither begins nor ends with a fence is parsed as it is, trimmed. *)
Theorem fenced_answer_is_unwrapped (JSON_parse : jsstring -> option JsVal)
        (before body after : jsstring) :
  blank before = true -> blank after = true ->
  parseJsonResponse JSON_parse (before ++ js "```json" ++ body ++ js "```" ++ after)
  = JSON_parse (trim body)
  /\ parseJsonResponse JSON_parse (before ++ js "```" ++ body ++ js "```" ++ after)
     = JSON_parse (trim (if starts_with (js "json") body then skipn 4 body else body))
  /\ (starts_with (js "```") (trim body) = false ->
      ends_with (js "```") (trim body) = false ->
      parseJsonResponse JSON_parse body = JSON_parse (trim body)).
Proof.
  intros Hb Ha. unfold parseJsonResponse. split; [|split].
  - by rewrite cleanResponse_json.
  - f_equal. destruct (starts_with (js "json") body) eqn:Hj.
    + apply starts_with_split in Hj. rewrite Hj at 1.
      change (length (js "json")) with 4.
      change (js "```" ++ (js "json" ++ skipn 4 body) ++ js "```" ++ after)
        with (js "```" ++ js "json" ++ skipn 4 body ++ js "```" ++ after).
      rewrite (app_assoc (js "```") (js "json")).
      change (js "```" ++ js "json") with (js "```json").
      by apply cleanResponse_json.
    + unfold cleanResponse.
      assert (Htrim : trim (before ++ js "```" ++ body ++ js "```" ++ after)
                      = js "```" ++ body ++ js "```").
      { change (js "```") with ([96; 96; 96])%N.
        pose (mid := ([96; 96] ++ body ++ [96; 96])%N).
        transitivity (trim (before ++ (96%N :: mid ++ [96%N]) ++ after)).
        - f_equal. f_equal. unfold mid. cbn [app]. rewrite <- ?app_assoc. by cbn [app].
        - rewrite (trim_around before 96%N mid 96%N after Hb Ha) by reflexivity.
          unfold mid. cbn [app]. rewrite <- ?app_assoc. by cbn [app]. }
      assert (Hnot : starts_with (js "```json") (js "```" ++ body ++ js "```") = false).
      { change (js "```json") with (js "```" ++ js "json"). rewrite starts_with_cancel.
        change (body ++ js "```") with (body ++ 96%N :: [96; 96]%N).
        by rewrite starts_with_json_fence. }
      cbv zeta. rewrite Htrim, Hnot, starts_with_app.
      change 3 with (length (js "```")). rewrite skipn_app_length, ends_with_app.
      by rewrite firstn_before.
  - intros Hs He. f_equal. unfold cleanResponse. cbv zeta.
    assert (Hj : starts_with (js "```json") (trim body) = false).
    { destruct (starts_with (js "```json") (trim body)) eqn:H; [|done].
      apply starts_with_split in H. rewrite H in Hs.
      change (js "```json") with (js "```" ++ js "json") in Hs.
      by rewrite <- app_assoc, starts_with_app in Hs. }
    rewrite Hj, Hs, He. apply trim_idem.
Qed.

(** ** Classification *)

(** *** The numeral that is taken whole *)

(** What follows a dotted numeral inside a longer one starts with a digit
    or with a dot and a digit. *)
Lemma dotted_extension k q : dotted k q -> forall p z, q = p ++ z -> z <> [] ->
  (exists c z', z = c :: z' /\ is_digit c = true)
  \/ (exists c z', z = 46%N :: c :: z' /\ is_digit c = true).
Proof.
  assert (Hdigits : forall d p z, forallb is_digit d = true -> d = p ++ z -> z <> [] ->
                                  exists c z', z = c :: z' /\ is_digit c = true).
  { intros d p [|c z'] Hd -> Hz; [done|]. exists c, z'. split; [done|].
    rewrite forallb_app in Hd. apply andb_true_iff in Hd as [_ Hd].
    cbn [forallb] in Hd. by apply andb_true_iff in Hd as [Hc _]. }
  induction 1 as [d Hne Hd|k q d Hq IH Hne Hd]; intros p z Heq Hz.
  - left. by apply (Hdigits d p z).
  - apply app_eq_app in Heq as [l [[-> Hl]|[-> Hl]]].
    + destruct l as [|c l].
      * right. destruct d as [|c d]; [done|]. cbn [app] in Hl. subst z.
        exists c, d. split; [done|]. cbn [forallb] in Hd.
        by apply andb_true_iff in Hd as [Hc _].
      * destruct (IH p (c :: l) eq_refl) as [(c' & z' & Hc' & Hd')|(c' & z' & Hc' & Hd')];
          [done| |].
        -- injection Hc' as <- <-. left. subst z. exists c, (l ++ 46%N :: d). done.
        -- injection Hc' as -> ->. right. subst z. exists c', (z' ++ 46%N :: d). done.
    + destruct l as [|c l].
      * right. destruct d as [|c d]; [done|]. cbn [app] in Hl. subst z.
        exists c, d. split; [done|]. cbn [forallb] in Hd.
        by apply andb_true_iff in Hd as [Hc _].
      * cbn [app] in Hl. injection Hl as <- Hl. left. by apply (Hdigits d l z).
Qed.

Lemma space_not_digit c : is_space c = true -> is_digit c = false.
Proof.
  unfold is_space, is_digit. intros H.
  destruct (N.leb_spec 48 c), (N.leb_spec c 57); try done. exfalso.
  repeat (apply orb_true_iff in H as [H|H]);
    repeat match goal with
           | H : _ && _ = true |- _ => apply andb_true_iff in H as [? ?]
           | H : (_ <=? _)%N = true |- _ => apply N.leb_le in H
           | H : (_ =? _)%N = true |- _ => apply N.eqb_eq in H
           end; lia.
Qed.

Lemma space_not_dot c : is_space c = true -> c <> 46%N.
Proof. intros H ->. vm_compute in H. discriminate. Qed.

Lemma sep_not_digit c : is_heading_sep c = true -> is_digit c = false.
Proof.
  unfold is_heading_sep, is_digit. intros H.
  destruct (N.leb_spec 48 c), (N.leb_spec c 57); try done. exfalso.
  repeat (apply orb_true_iff in H as [H|H]); apply N.eqb_eq in H; lia.
Qed.

(** A numeral that is taken whole is the longest numeral of the text
    that a separator follows. *)
Lemma numeral_then_separator_longest k t :
  numeral_then_separator k t ->
  numbered_prefix k t /\ forall k', numbered_prefix k' t -> k' <= k.
Proof.
  intros (p & ws & sep & rest & Heq & Hk & Hws & Hsep & Hwhole).
  split; [by exists p, ws, sep, rest|].
  intros k' (p' & ws' & sep' & rest' & Heq' & Hk' & _ & _).
  destruct (Nat.le_gt_cases (length p') (length p)) as [Hlen|Hlen].
  - destruct (prefix_of_longer t p' p _ _ Heq' Heq Hlen) as [z ->].
    rewrite <- (dotted_level _ _ Hk), <- (dotted_level _ _ Hk').
    unfold split_dot_length. rewrite List.filter_app, length_app. lia.
  - exfalso.
    destruct (prefix_of_longer t p p' _ _ Heq Heq' ltac:(lia)) as [z ->].
    assert (Hz : z <> []) by (intros ->; rewrite app_nil_r in Hlen; lia).
    rewrite Heq, <- app_assoc in Heq'. apply app_inv_head in Heq'.
    destruct (dotted_extension _ _ Hk' p z eq_refl Hz)
      as [(c & z' & -> & Hc)|(c & z' & -> & Hc)].
    + destruct ws as [|w ws]; cbn [app] in Heq'; injection Heq' as -> _.
      * by rewrite (sep_not_digit _ Hsep) in Hc.
      * cbn [forallb] in Hws. apply andb_true_iff in Hws as [Hw _].
        by rewrite (space_not_digit _ Hw) in Hc.
    + destruct ws as [|w ws]; cbn [app] in Heq'.
      * injection Heq' as -> Hrest. apply Hwhole. split; [done|]. split; [done|].
        subst rest. by exists c, (z' ++ ws' ++ sep' :: rest').
      * injection Heq' as -> _. cbn [forallb] in Hws.
        apply andb_true_iff in Hws as [Hw _]. by apply (space_not_dot _ Hw).
Qed.

Lemma detect_whole_numeral k text :
  numeral_then_separator k (trim text) -> detectHeadingByPattern text = Some k.
Proof.
  intros [Hk Hmax]%numeral_then_separator_longest.
  apply detectHeadingByPattern_spec. by left.
Qed.

Lemma detect_integer_then_upper text :
  (forall k, ~ numbered_prefix k (trim text)) -> integer_then_upper (trim text) ->
  detectHeadingByPattern text = Some 1.
Proof. intros Hno Hup. apply detectHeadingByPattern_spec. by right. Qed.

Lemma detect_nothing text :
  (forall k, ~ numbered_prefix k (trim text)) -> ~ integer_then_upper (trim text) ->
  detectHeadingByPattern text = None.
Proof.
  intros Hno Hup. destruct (detectHeadingByPattern text) as [l|] eqn:Hd; [|done].
  apply detectHeadingByPattern_spec in Hd as [[Hl _]|(_ & Hu & _)];
    [by apply Hno in Hl | by apply Hup in Hu].
Qed.

(** *** The order of the tests *)

Lemma level_by_style (pNode : Node) (hs : gmap jsstring Z) :
  getFirstChild (Some pNode) (js "w:pPr") ≫= (fun pPr => styleLevel pPr hs)
  = match paragraphStyleId pNode with
    | Some (c :: v) => hs !! (c :: v)
    | _ => None
    end.
Proof.
  unfold paragraphStyleId, styleLevel.
  destruct (getFirstChild (Some pNode) (js "w:pPr")) as [pPr|]; [|done].
  cbn [mbind option_bind].
  by destruct (getFirstChild (Some pPr) (js "w:pStyle")).
Qed.

Lemma level_by_outline (pNode : Node) :
  getFirstChild (Some pNode) (js "w:pPr") ≫= outlineLevel
  = (fun n => roundToDouble (n + 1))
      <$> (getFirstChild (getFirstChild (Some pNode) (js "w:pPr")) (js "w:outlineLvl")
             ≫= parseIntAttr).
Proof.
  unfold outlineLevel.
  destruct (getFirstChild (Some pNode) (js "w:pPr")) as [pPr|]; [|done].
  cbn [mbind option_bind].
  by destruct (getFirstChild (Some pPr) (js "w:outlineLvl")).
Qed.

(** C7, as amended.  For a paragraph whose style id names no member of
    [Object.prototype] and whose outline and list levels are safe
    integers (so that the read of the map is that of the embedding and
    the [+ 1] of the code is exact), [classifyParagraph] tests in this order, the first match
    winning: (1) the style id, the non-empty [w:val] of [w:pStyle], is a
    key of the heading-style map: heading of the mapped level; (2)
    [w:outlineLvl] holds a number n: heading of level n + 1; (3) the
    trimmed plain text starts with a dotted numeral, taken whole, that is
    followed, after optional white space, by a separator: heading of the
    number of components of the numeral; or no dotted numeral at its start
    is followed by a separator and it starts with an integer, white space
    and an uppercase or accented letter: heading of level 1; (4) neither,
    and the paragraph has [w:numPr]: list item of level indent + 1; (5)
    otherwise a paragraph.  A text whose whole numeral is followed by no
    separator while a shorter one is, is not covered. *)
Theorem classification_precedence (pNode : Node) (hs : gmap jsstring Z) :
  let pPr := getFirstChild (Some pNode) (js "w:pPr") in
  let text := trim (getFormattedText pNode) in
  let plain := trim (getPlainText pNode) in
  let byStyle := match paragraphStyleId pNode with
                 | Some (c :: v) => hs !! (c :: v)
                 | _ => None
                 end in
  let outline := getFirstChild pPr (js "w:outlineLvl") ≫= parseIntAttr in
  let numPr := getFirstChild pPr (js "w:numPr") in
  let unnumbered := (forall k, ~ numbered_prefix k plain) /\ ~ integer_then_upper plain in
  own_style pNode = true -> safe_levels pNode = true ->
  (forall level, byStyle = Some level -> classifyParagraph pNode hs = CHeading level text)
  /\ (byStyle = None -> forall n, outline = Some n ->
        classifyParagraph pNode hs = CHeading (n + 1) text)
  /\ (byStyle = None -> outline = None ->
        forall k, numeral_then_separator k plain ->
        classifyParagraph pNode hs = CHeading (Z.of_nat k) text)
  /\ (byStyle = None -> outline = None ->
        (forall k, ~ numbered_prefix k plain) -> integer_then_upper plain ->
        classifyParagraph pNode hs = CHeading 1 text)
  /\ (byStyle = None -> outline = None -> unnumbered ->
        forall n, numPr = Some n ->
        classifyParagraph pNode hs = CListItem (listIndent n + 1) text)
  /\ (byStyle = None -> outline = None -> unnumbered -> numPr = None ->
        classifyParagraph pNode hs = CParagraph text).
Proof.
  cbv zeta. intros _ Hsafe. unfold classifyParagraph.
  rewrite level_by_style, level_by_outline.
  pose proof (trim_idem (getPlainText pNode)) as Hidem.
  unfold safe_levels in Hsafe. cbv zeta in Hsafe.
  apply andb_true_iff in Hsafe as [Houtline Hilvl].
  split; [|split; [|split; [|split; [|split]]]].
  - by intros level ->.
  - intros -> n Hn. unfold safe_attribute in Houtline. rewrite Hn in *.
    cbn [fmap option_fmap option_map]. by rewrite roundToDouble_succ.
  - intros -> -> k Hk. rewrite (detect_whole_numeral k); [done|by rewrite Hidem].
  - intros -> -> Hno Hup. by rewrite detect_integer_then_upper by (by rewrite Hidem).
  - intros -> -> [Hno Hup] n Hn.
    rewrite detect_nothing by (by rewrite Hidem).
    cbn [fmap option_fmap option_map].
    unfold isListItem, getListLevel, listIndent.
    destruct (getFirstChild (Some pNode) (js "w:pPr")) as [p|]; [|done].
    change (getFirstChild (Some p) (js "w:numPr") = Some n) in Hn.
    rewrite Hn in *. rewrite bool_decide_eq_true_2 by eauto.
    unfold safe_attribute in Hilvl.
    destruct (getFirstChild (Some n) (js "w:ilvl")) as [ilvl|]; [|done].
    cbn [mbind option_bind] in Hilvl.
    destruct (parseIntAttr ilvl) as [v|]; cbn [default]; [|done].
    by rewrite roundToDouble_succ.
  - intros -> -> [Hno Hup] Hn.
    rewrite detect_nothing by (by rewrite Hidem).
    cbn [fmap option_fmap option_map].
    unfold isListItem.
    destruct (getFirstChild (Some pNode) (js "w:pPr")) as [p|]; [|done].
    change (getFirstChild (Some p) (js "w:numPr") = None) in Hn.
    rewrite Hn. by rewrite bool_decide_eq_false_2 by (by intros [? ?]).
Qed.

(** ** The texts of a rebuilt table *)

Lemma splitOn_nonempty sep s : splitOn sep s <> [].
Proof.
  destruct s as [|c s]; [done|]. cbn [splitOn].
  destruct (c =? sep)%N; [done|]. by destruct (splitOn sep s).
Qed.

Lemma join_cons sep l rest : rest <> [] -> join sep (l :: rest) = l ++ sep ++ join sep rest.
Proof. by destruct rest. Qed.

Lemma join_head sep (c : N) piece pieces :
  join sep ((c :: piece) :: pieces) = c :: join sep (piece :: pieces).
Proof. by destruct pieces. Qed.

Lemma join_splitOn sep s : join [sep] (splitOn sep s) = s.
Proof.
  induction s as [|c s IH]; [done|]. cbn [splitOn].
  destruct (c =? sep)%N eqn:Hc.
  - apply N.eqb_eq in Hc as ->.
    rewrite join_cons by apply splitOn_nonempty. by rewrite IH.
  - destruct (splitOn sep s) as [|piece pieces] eqn:Hs.
    + by destruct (splitOn_nonempty sep s).
    + rewrite join_head. f_equal. exact IH.
Qed.

Lemma join_empties k : join [10%N] ([] :: repeat [] k) = repeat 10%N k.
Proof.
  induction k as [|k IH]; [done|].
  change (repeat [] (S k)) with (@nil N :: repeat [] k).
  rewrite join_cons by done. by rewrite IH.
Qed.

Lemma join_trailing_empty lines k :
  lines <> [] -> join [10%N] (lines ++ repeat [] k) = join [10%N] lines ++ repeat 10%N k.
Proof.
  induction lines as [|l rest IH]; [done|]. intros _.
  destruct rest as [|r rest].
  - destruct k as [|k]; [by rewrite !app_nil_r|].
    change ([l] ++ repeat [] (S k)) with (l :: [] :: repeat [] k).
    rewrite join_cons by done. by rewrite join_empties.
  - change ((l :: r :: rest) ++ repeat [] k) with (l :: ((r :: rest) ++ repeat [] k)).
    rewrite !join_cons by done. rewrite IH by done. by rewrite <- !app_assoc.
Qed.

Lemma blank_newlines k : blank (repeat 10%N k) = true.
Proof. induction k as [|k IH]; [done|]. cbn [repeat blank forallb]. exact IH. Qed.

Lemma trim_app_blank s ws : blank ws = true -> trim (s ++ ws) = trim s.
Proof.
  intros Hws. unfold trim. induction s as [|c s IH].
  - cbn [app]. by rewrite trimStart_blank.
  - cbn [app trimStart]. destruct (is_space c); [done|].
    change (c :: s ++ ws) with ((c :: s) ++ ws). by apply trimEnd_app_blank.
Qed.

Lemma imap_imap {A B C} (f : nat -> B -> C) (g : nat -> A -> B) (l : list A) :
  imap f (imap g l) = imap (fun i x => f i (g i x)) l.
Proof.
  revert f g. induction l as [|x l IH]; intros f g; [done|].
  cbn [imap]. f_equal. apply IH.
Qed.

Lemma map_imap {A B C} (f : B -> C) (g : nat -> A -> B) (l : list A) :
  List.map f (imap g l) = imap (fun i x => f (g i x)) l.
Proof.
  revert g. induction l as [|x l IH]; intros g; [done|].
  cbn [imap List.map]. f_equal. apply IH.
Qed.

Lemma Forall2_map_left {A B C} (R : B -> C -> Prop) (f : A -> B) (l : list A) (k : list C) :
  Forall2 R (List.map f l) k <-> Forall2 (fun x y => R (f x) y) l k.
Proof.
  split; revert k; induction l as [|x l IH]; intros k H; inversion H; subst;
    constructor; auto.
Qed.

Lemma imap_Forall2 {A B C} (R : A -> B -> Prop) (f : nat -> A -> C) (g : nat -> B -> C)
      (l : list A) (l' : list B) :
  Forall2 R l l' ->
  (forall i x y, l !! i = Some x -> l' !! i = Some y -> R x y -> f i x = g i y) ->
  imap f l = imap g l'.
Proof.
  intros H. revert f g. induction H as [|x y l l' Hxy H IH]; intros f g Hfg; [done|].
  cbn [imap]. f_equal.
  - by apply (Hfg 0).
  - apply IH. intros i a b Ha Hb. by apply (Hfg (S i)).
Qed.

Lemma imap_nth {A} (d : jsstring) (ps : list A) : forall lines : list jsstring,
  imap (fun i _ => nth i lines d) ps
  = firstn (length ps) lines ++ repeat d (length ps - length lines).
Proof.
  induction ps as [|p ps IH]; intros lines; [done|].
  cbn [imap length]. destruct lines as [|l lines].
  - cbn [nth firstn app Nat.sub length repeat]. f_equal.
    transitivity (imap (fun i (_ : A) => nth i (@nil jsstring) d) ps).
    + apply imap_ext. intros i x _. simpl. by destruct i.
    + rewrite IH. by destruct (length ps).
  - cbn [nth firstn app Nat.sub length]. f_equal. rewrite <- IH. by apply imap_ext.
Qed.

Lemma nth_error_lookup {A} (l : list A) : forall i, nth_error l i = l !! i.
Proof. induction l as [|x l IH]; intros [|i]; try done. apply IH. Qed.

Lemma canonical_nth lines i : Forall canonical lines -> canonical (nth i lines []).
Proof.
  intros H. revert i. induction H as [|l lines Hl H IH]; intros [|i]; try (by left); [done|].
  apply IH.
Qed.

(** A text that fits the cell is read back from the cell it was written
    to, trimmed. *)
Lemma cell_round_trip tc text :
  fits tc text -> cellText (updateCellText tc text) = trim text.
Proof.
  intros [Hlen Hcan]. unfold cellText, updateCellText.
  destruct (getDirectChildren tc (js "w:p")) as [|p0 ps0] eqn:Hps.
  { exfalso. pose proof (splitOn_nonempty 10%N text) as Hne.
    destruct (splitOn 10%N text); [done|]. cbn [length] in Hlen. lia. }
  rewrite <- Hps in *. clear Hps p0 ps0.
  rewrite direct_editNamed.
  - rewrite map_imap.
    rewrite (imap_ext _ (fun i _ => nth i (splitOn 10%N text) [])).
    + rewrite imap_nth, firstn_all2 by done.
      rewrite join_trailing_empty by apply splitOn_nonempty.
      rewrite join_splitOn. apply trim_app_blank, blank_newlines.
    + intros i p Hp. cbv beta zeta.
      assert (Hlt : (length (getDirectChildren tc (js "w:p")) <? length (splitOn 10%N text))
                    = false) by (apply Nat.ltb_ge; lia).
      rewrite Hlt, andb_false_r.
      apply list_elem_of_lookup_2, list_elem_of_In in Hp.
      unfold getDirectChildren in Hp. apply filter_In in Hp as [_ Hp].
      apply has_name_element in Hp as (attrs & cs & ->).
      apply formatted_updated_canonical. by apply canonical_nth.
  - intros i c Hc. cbv zeta.
    destruct ((i =? _) && _); [unfold appendExtra; rewrite has_name_editNamed|];
      unfold updateParagraphText; by rewrite has_name_withChildren.
Qed.

(** The cells of a table rewritten with fitting texts *)
Lemma rewritten_table T rows k :
  Forall2 (Forall2 (fun tc cell => fits tc (cell_text cell))) (table_cells T) rows ->
  extractTable (updateTableText T rows) k
  = Table (blockId k)
      (imap (fun r row =>
               imap (fun c cell => mkCell (cellId k r c) (trim (cell_text cell))) row)
            rows).
Proof.
  intros H. rewrite extractTable_imap. f_equal. unfold updateTableText.
  rewrite direct_editNamed.
  - rewrite imap_imap. unfold table_cells in H. apply (proj1 (Forall2_map_left _ _ _ _)) in H.
    apply (imap_Forall2 _ _ _ _ _ H). intros r tr row _ Hrow Hfit. cbv beta.
    rewrite nth_error_lookup, Hrow. rewrite direct_editNamed.
    + rewrite imap_imap.
      apply (imap_Forall2 _ _ _ _ _ Hfit). intros c tc cell _ Hcell Hc.
      rewrite nth_error_lookup, Hcell. f_equal. by apply cell_round_trip.
    + intros i c Hc. destruct (nth_error row i); [|done].
      by rewrite has_name_updateCellText.
  - intros i c Hc. destruct (nth_error rows i); [|done]. by rewrite has_name_editNamed.
Qed.

(** Removing elements that are no rows, cells or paragraphs changes no
    fit. *)
Lemma cells_fit_prune (F : Node -> Node) (drop : Node -> bool) (T : Node)
      (rows : list (list Cell)) :
  (forall name attrs cs,
     F (Element name attrs cs)
     = Element name attrs (flat_map (fun c => if drop c then [] else [F c]) cs)) ->
  (forall n, is_element n = false -> F n = n) ->
  kept drop (js "w:tr") -> kept drop (js "w:tc") -> kept drop (js "w:p") ->
  Forall2 (Forall2 (fun tc cell => fits tc (cell_text cell))) (table_cells T) rows ->
  Forall2 (Forall2 (fun tc cell => fits tc (cell_text cell))) (table_cells (F T)) rows.
Proof.
  intros HF Ho Htr Htc Hp H. unfold table_cells in *.
  rewrite (prune_direct F drop HF Ho) by done. rewrite List.map_map.
  apply (proj2 (Forall2_map_left _ _ _ _)). apply (proj1 (Forall2_map_left _ _ _ _)) in H.
  eapply Forall2_impl; [exact H|]. intros tr row Hrow. cbv beta in *.
  rewrite (prune_direct F drop HF Ho) by done.
  apply (proj2 (Forall2_map_left _ _ _ _)). eapply Forall2_impl; [exact Hrow|].
  intros tc cell [Hlen Hcan]. unfold fits.
  rewrite (prune_direct F drop HF Ho) by done. by rewrite length_map.
Qed.

(** X10. A table of the original rebuilt with texts that fit its cells is
    extracted as the rows of the candidate: when the candidate has the
    rows and cells of the element, every cell of the element has a
    paragraph for each line of its new text, and every line is canonical,
    the extracted cells hold the new texts, trimmed, under the ids of
    their positions. *)
Theorem rebuilt_table_round_trip (tbl : Node) (rows : list (list Cell)) (k : nat) :
  Forall2 (Forall2 (fun tc cell => fits tc (cell_text cell))) (table_cells tbl) rows ->
  extractTable (updateTableText (removeImages tbl) rows) k
  = Table (blockId k)
      (imap (fun r row =>
               imap (fun c cell => mkCell (cellId k r c) (trim (cell_text cell))) row)
            rows).
Proof.
  intros H. apply rewritten_table. unfold removeImages.
  assert (Hrm : forall tag n,
             js "w:tr" <> tag -> js "w:tc" <> tag -> js "w:p" <> tag ->
             Forall2 (Forall2 (fun tc cell => fits tc (cell_text cell))) (table_cells n) rows ->
             Forall2 (Forall2 (fun tc cell => fits tc (cell_text cell)))
                     (table_cells (removeByTagName tag n)) rows).
  { intros tag n H1 H2 H3.
    apply (cells_fit_prune _ (has_name tag));
      auto using removeByTagName_element, removeByTagName_other, kept_by_tag. }
  assert (Hre : forall n,
             Forall2 (Forall2 (fun tc cell => fits tc (cell_text cell))) (table_cells n) rows ->
             Forall2 (Forall2 (fun tc cell => fits tc (cell_text cell)))
                     (table_cells (removeEmptyRuns n)) rows).
  { intros n.
    apply (cells_fit_prune _ (fun c => has_name (js "w:r") c && negb (hasContent c)));
      auto using removeEmptyRuns_element, removeEmptyRuns_other;
      apply kept_by_runs; tags_differ. }
  cbv zeta. destruct (str_eqb _ _ || str_eqb _ _); [apply Hre|];
    (apply Hrm; [tags_differ..|]; apply Hrm; [tags_differ..|]; apply Hrm; [tags_differ..|];
     exact H).
Qed.

(** ** No image in what is rebuilt *)

Lemma hasDescendant_element tag nm a cs :
  hasDescendant tag (Element nm a cs) = existsb (at_or_below tag) cs.
Proof. reflexivity. Qed.

Lemma existsb_false {A} (p : A -> bool) (l : list A) :
  existsb p l = false <-> Forall (fun x => p x = false) l.
Proof.
  induction l as [|x l IH]; [split; [constructor|done]|].
  cbn [existsb]. rewrite orb_false_iff, IH. split.
  - intros [H1 H2]. by constructor.
  - intros H. by inversion H.
Qed.

Lemma free_child tag n c :
  hasDescendant tag n = false -> In c (childNodes n) -> at_or_below tag c = false.
Proof.
  destruct n as [nm a cs| |]; [|done..]. rewrite hasDescendant_element, existsb_false.
  intros H Hin. cbn [childNodes] in Hin. by apply (proj1 (List.Forall_forall _ _) H).
Qed.

Lemma at_or_below_element tag nm a cs :
  has_name tag (Element nm a cs) = false ->
  Forall (fun c => at_or_below tag c = false) cs ->
  at_or_below tag (Element nm a cs) = false.
Proof.
  intros Hn Hcs. unfold at_or_below. rewrite Hn, hasDescendant_element.
  by apply existsb_false.
Qed.

(** Removing elements puts no element below a node. *)
Lemma prune_free (F : Node -> Node) (drop : Node -> bool) (tag : jsstring) :
  (forall name attrs cs,
     F (Element name attrs cs)
     = Element name attrs (flat_map (fun c => if drop c then [] else [F c]) cs)) ->
  (forall n, is_element n = false -> F n = n) ->
  forall n, hasDescendant tag n = false -> hasDescendant tag (F n) = false.
Proof.
  intros HF Ho. induction n as [nm a cs IH|d|d] using Node_induction;
    [|by rewrite Ho..].
  rewrite HF, !hasDescendant_element, !existsb_false. intros H.
  induction IH as [|c cs IHc _ IHcs]; [constructor|].
  inversion H as [|? ? Hc Hcs]; subst. cbn [flat_map].
  apply Forall_app. split; [|by apply IHcs].
  destruct (drop c); constructor; [|constructor].
  unfold at_or_below in *. apply orb_false_iff in Hc as [Hc1 Hc2].
  rewrite (prune_has_name F drop HF Ho), Hc1. by apply IHc.
Qed.

(** After [removeByTagName] no element of the name is below the node. *)
Lemma removed_free tag : forall n, hasDescendant tag (removeByTagName tag n) = false.
Proof.
  induction n as [nm a cs IH|d|d] using Node_induction; [|done..].
  rewrite removeByTagName_element, hasDescendant_element, existsb_false.
  induction IH as [|c cs IHc _ IHcs]; [constructor|]. cbn [flat_map].
  apply Forall_app. split; [|exact IHcs].
  destruct (has_name tag c) eqn:Hc; constructor; [|constructor].
  unfold at_or_below.
  rewrite (prune_has_name (removeByTagName tag) (has_name tag)
             (removeByTagName_element tag) (removeByTagName_other tag)), Hc.
  exact IHc.
Qed.

Lemma removeImages_free tag node :
  image_tag tag -> hasDescendant tag (removeImages node) = false.
Proof.
  intros Htag. unfold removeImages.
  assert (Hrm : forall t n, hasDescendant tag n = false ->
                            hasDescendant tag (removeByTagName t n) = false).
  { intros t. apply (prune_free _ (has_name t));
      auto using removeByTagName_element, removeByTagName_other. }
  assert (Hre : forall n, hasDescendant tag n = false ->
                          hasDescendant tag (removeEmptyRuns n) = false).
  { apply (prune_free _ (fun c => has_name (js "w:r") c && negb (hasContent c)));
      auto using removeEmptyRuns_element, removeEmptyRuns_other. }
  cbv zeta. destruct (str_eqb _ _ || str_eqb _ _); [apply Hre|];
    destruct Htag as [->|[->| ->]];
    first [ apply removed_free
          | apply Hrm, removed_free
          | apply Hrm, Hrm, removed_free ].
Qed.

(** The elements the reconstructor creates hold no image by their
    name. *)
Lemma created_not_image tag nm a cs :
  image_tag tag ->
  In nm [js "w:r"; js "w:rPr"; js "w:t"; js "w:b"; js "w:bCs"; js "w:i"; js "w:iCs"; js "w:p"] ->
  has_name tag (Element nm a cs) = false.
Proof.
  intros [->|[->| ->]] Hin; cbn [In] in Hin;
    repeat (destruct Hin as [<-|Hin]; [reflexivity|]); done.
Qed.

Ltac created := apply created_not_image; [done|cbn [In]; tauto].

Lemma textElement_free tag text : image_tag tag -> at_or_below tag (textElement text) = false.
Proof.
  intros Htag. unfold textElement. apply at_or_below_element; [created|].
  by constructor.
Qed.

Lemma formatProps_free tag seg :
  image_tag tag -> Forall (fun c => at_or_below tag c = false) (formatProps seg).
Proof.
  intros Htag. unfold formatProps, createElement.
  destruct (seg_bold seg), (seg_italic seg); cbn [app];
    repeat (constructor; [apply at_or_below_element; [created|constructor]|]); constructor.
Qed.

Lemma fold_appendChild_free tag props : forall rPr,
  at_or_below tag rPr = false ->
  Forall (fun c => at_or_below tag c = false) props ->
  at_or_below tag (fold_left appendChild props rPr) = false.
Proof.
  induction props as [|p props IH]; intros rPr Hr Hp; [done|].
  inversion Hp as [|? ? Hp1 Hp2]; subst. cbn [fold_left]. apply IH; [|done].
  destruct rPr as [nm a cs| |]; [|done..].
  unfold at_or_below in Hr. apply orb_false_iff in Hr as [Hn Hd].
  change (appendChild (Element nm a cs) p) with (Element nm a (cs ++ [p])).
  apply at_or_below_element; [done|].
  rewrite hasDescendant_element, existsb_false in Hd.
  apply Forall_app. split; [done|by constructor].
Qed.

Lemma removeChildrenByName_free tag n t :
  at_or_below tag n = false -> at_or_below tag (removeChildrenByName n t) = false.
Proof.
  destruct n as [nm a cs| |]; [|done..]. unfold at_or_below.
  intros [Hn Hd]%orb_false_iff.
  change (removeChildrenByName (Element nm a cs) t)
    with (Element nm a (List.filter (fun c => negb (str_eqb (nodeName c) t)) cs)).
  apply at_or_below_element; [done|].
  rewrite hasDescendant_element, existsb_false in Hd.
  apply List.Forall_forall. intros c [Hc _]%filter_In.
  by apply (proj1 (List.Forall_forall _ _) Hd).
Qed.

Lemma baseRPr_free tag q b :
  hasDescendant tag q = false -> baseRPr q = Some b -> at_or_below tag b = false.
Proof.
  intros Hq. unfold baseRPr.
  destruct (getDirectChildren q (js "w:r")) as [|run runs] eqn:Hruns; [done|].
  destruct (getFirstChild (Some run) (js "w:rPr")) as [rPr|] eqn:HrPr; [|done].
  intros [= <-].
  assert (Hrun : at_or_below tag run = false).
  { apply (free_child tag q); [done|].
    assert (Hin : In run (getDirectChildren q (js "w:r"))) by (rewrite Hruns; by left).
    unfold getDirectChildren in Hin. by apply filter_In in Hin as [Hin _]. }
  assert (HrPr' : at_or_below tag rPr = false).
  { unfold at_or_below in Hrun. apply orb_false_iff in Hrun as [_ Hrun].
    apply (free_child tag run); [done|].
    unfold getFirstChild in HrPr. by apply find_some in HrPr as [Hin _]. }
  by repeat apply removeChildrenByName_free.
Qed.

Lemma formattedRun_free tag base seg :
  image_tag tag ->
  (forall b, base = Some b -> at_or_below tag b = false) ->
  at_or_below tag (formattedRun base seg) = false.
Proof.
  intros Htag Hbase. unfold formattedRun. cbv zeta.
  apply at_or_below_element; [created|].
  assert (HrPr : at_or_below tag (fold_left appendChild (formatProps seg)
                                    (default (createElement (js "w:rPr")) base)) = false).
  { apply fold_appendChild_free; [|by apply formatProps_free].
    destruct base as [b|]; [by apply Hbase|].
    apply at_or_below_element; [created|constructor]. }
  apply Forall_app. split.
  - destruct (childNodes _); constructor; [done|constructor].
  - constructor; [by apply textElement_free|constructor].
Qed.

Lemma forSegments_free tag f segs :
  (forall seg, at_or_below tag (f seg) = false) ->
  Forall (fun c => at_or_below tag c = false) (forSegments f segs).
Proof.
  intros Hf. unfold forSegments. induction segs as [|seg segs IH]; [constructor|].
  cbn [flat_map]. apply Forall_app. split; [|done].
  destruct (seg_text seg); constructor; [apply Hf|constructor].
Qed.

Lemma update_free tag q text :
  image_tag tag -> hasDescendant tag q = false ->
  hasDescendant tag (updateParagraphText q text) = false.
Proof.
  intros Htag Hq. unfold updateParagraphText. cbv zeta.
  destruct q as [nm a cs| |] eqn:Eq; [|done..].
  cbn [withChildren childNodes]. rewrite hasDescendant_element, existsb_false.
  apply Forall_app. split.
  - apply List.Forall_forall. intros c [Hc _]%filter_In. by apply (free_child tag _ c Hq).
  - apply forSegments_free. intros seg. apply formattedRun_free; [done|].
    intros b Hb. by apply (baseRPr_free tag _ b Hq).
Qed.

Lemma basicRun_free tag seg : image_tag tag -> at_or_below tag (basicRun seg) = false.
Proof.
  intros Htag. unfold basicRun. apply at_or_below_element; [created|].
  apply Forall_app. split; [|constructor; [by apply textElement_free|constructor]].
  destruct (seg_bold seg || seg_italic seg); constructor; [|constructor].
  apply at_or_below_element; [created|by apply formatProps_free].
Qed.

Lemma basic_free tag text :
  image_tag tag -> hasDescendant tag (createBasicParagraph text) = false.
Proof.
  intros Htag. unfold createBasicParagraph. rewrite hasDescendant_element, existsb_false.
  destruct text; [constructor|]. apply forSegments_free. intros seg. by apply basicRun_free.
Qed.

Lemma hasImage_free n :
  (forall tag, image_tag tag -> hasDescendant tag n = false) -> hasImage n = false.
Proof.
  intros H. unfold hasImage.
  rewrite !H; [done|unfold image_tag; tauto..].
Qed.

(** X16. Nothing that is rebuilt from a paragraph holds an image: after
    [removeImages] no drawing, picture or alternate content is below the
    node, writing a text brings none back, and a new paragraph has none,
    with or without a template. So no rebuilt paragraph is skipped as an
    image by the next extraction. *)
Theorem rebuilt_paragraph_holds_no_image (node : Node) (text : jsstring)
        (template : option Node) :
  hasImage (removeImages node) = false
  /\ hasImage (updateParagraphText (removeImages node) text) = false
  /\ hasImage (createNewParagraph text template) = false
  /\ isImageOnlyParagraph (updateParagraphText (removeImages node) text) = false
  /\ isImageOnlyParagraph (createNewParagraph text template) = false.
Proof.
  assert (H1 : forall n, hasImage (removeImages n) = false).
  { intros n. apply hasImage_free. intros tag Htag. by apply removeImages_free. }
  assert (H2 : forall n, hasImage (updateParagraphText (removeImages n) text) = false).
  { intros n. apply hasImage_free. intros tag Htag.
    by apply update_free, removeImages_free. }
  assert (H3 : hasImage (createNewParagraph text template) = false).
  { destruct template as [t|]; [apply H2|].
    apply hasImage_free. intros tag Htag. by apply basic_free. }
  unfold isImageOnlyParagraph. by rewrite H1, H2, H3.
Qed.

(** *** More theorems at concrete inputs *)

Lemma canonical_a : canonical (js "a").
Proof.
  right. exists [mkSegment (js "a") false false].
  split; [discriminate|]. split; [repeat constructor|].
  split; [reflexivity|]. vm_compute. reflexivity.
Qed.

Lemma parseMarkdown_loses_nothing_witness :
  flat_map renderSegment (parseMarkdown (js "a **b**")) = js "a **b**"
  /\ Forall (fun seg => seg_text seg <> []) (parseMarkdown (js "a **b**")).
Proof.
  destruct (parseMarkdown_loses_nothing (js "a **b**")) as [H1 H2].
  split; [exact H1|]. apply H2. vm_compute. discriminate.
Defined.

Lemma parseMarkdown_inverts_rendering_witness :
  parseMarkdown (flat_map renderSegment bold_after_plain) = bold_after_plain.
Proof.
  apply parseMarkdown_inverts_rendering.
  - discriminate.
  - repeat constructor.
  - reflexivity.
Defined.

Lemma formatted_text_round_trip_witness :
  getFormattedText (updateParagraphText (Element (js "w:p") [] []) (js "a **b**"))
  = js "a **b**"
  /\ getFormattedText (createBasicParagraph (js "a **b**")) = js "a **b**".
Proof.
  apply formatted_text_round_trip.
  right. exists bold_after_plain.
  split; [discriminate|]. split; [repeat constructor|].
  split; [reflexivity|]. vm_compute. reflexivity.
Defined.

Lemma new_table_round_trip_witness :
  extractTable (createNewTable one_cell_rows None) 0
  = Table (blockId 0) [[mkCell (cellId 0 0 0) (js "a")]].
Proof.
  apply (proj2 (new_table_round_trip one_cell_rows None 0)).
  constructor; [|constructor]. constructor; [|constructor]. apply canonical_a.
Defined.

Lemma style_maps_round_trip_witness :
  js "Heading2" <> []
  /\ (js "Heading2" <> js "__proto__" ->
      buildHeadingStyleMap (Some two_heading_styles) !! js "Heading2" = Some 2%Z)
  /\ buildHeadingStyleMap (Some two_heading_styles) !! js "__proto__" = None.
Proof.
  apply style_maps_round_trip.
  - apply (bool_decide_unpack _). vm_compute. reflexivity.
  - reflexivity.
  - vm_compute. reflexivity.
Defined.

Lemma new_heading_is_read_back_witness :
  classifyParagraph
    (createNewHeading (js "T") 1 [(2%Z, styled_heading)]
       (buildHeadingStyleReverseMap (Some two_heading_styles)))
    (buildHeadingStyleMap (Some two_heading_styles))
  = CHeading 1 (js "T").
Proof.
  rewrite (new_heading_is_read_back two_heading_styles (js "T") 1 [(2%Z, styled_heading)]
             (js "Heading1")).
  - vm_compute. reflexivity.
  - apply (bool_decide_unpack _). vm_compute. reflexivity.
  - reflexivity.
  - vm_compute. reflexivity.
  - vm_compute. discriminate.
  - vm_compute. eauto.
Defined.

Lemma rebuilt_body_structure_witness :
  originalBlockNodes
    (traverse None (reconstructDocx sample_body ∅ one_new_paragraph None)) !! blockId 0
  = Some (createBasicParagraph (js "New")).
Proof.
  apply (proj1 (proj2 (proj2 (proj2
           (rebuilt_body_structure (js "w:body") []
              [wp [wr [] [wt (js "Hello")]]; Element (js "w:sectPr") [] []; wp [];
               Element (js "w:tbl") [] []]
              ∅ one_new_paragraph None None)))) 0).
  vm_compute. reflexivity.
Defined.

Lemma new_heading_uses_closest_template_witness :
  createNewHeading (js "T") 2 two_heading_templates ∅
  = updateParagraphText
      (restyle 2 ∅ (removeImages (wp [wr [] [wt (js "one")]]))) (js "T").
Proof.
  destruct (new_heading_uses_closest_template (js "T") 2 two_heading_templates ∅
              eq_refl ltac:(discriminate))
    as (l & template & Hin & Heq & _ & Htie & _).
  destruct Hin as [Hin|[Hin|[]]]; injection Hin as <- <-.
  - specialize (Htie eq_refl (1%Z, wp [wr [] [wt (js "one")]])
                     (or_intror (or_introl eq_refl)) eq_refl).
    cbn [fst] in Htie. lia.
  - exact Heq.
Defined.

Lemma typed_candidate_accepted_iff_witness :
  (exists r, validateModifiedJson (document_to_js one_new_paragraph)
                                  (document_to_js hello_document) = Some r)
  /\ (validateModifiedJson (document_to_js one_new_paragraph) (document_to_js hello_document)
      = Some (mkResult true [])
      <-> ids_ok (blocks one_new_paragraph) /\ Forall level_ok (blocks one_new_paragraph)
          /\ Forall (compatible (blocks hello_document)) (blocks one_new_paragraph)).
Proof.
  apply typed_candidate_accepted_iff. apply NoDup_singleton.
Defined.

Lemma fenced_answer_is_unwrapped_witness :
  parseJsonResponse empty_object_parser
    (js " " ++ js "```json" ++ js "{}" ++ js "```" ++ [10%N])
  = Some (JObj [])
  /\ parseJsonResponse empty_object_parser (js "{}") = Some (JObj []).
Proof.
  destruct (fenced_answer_is_unwrapped empty_object_parser (js " ") (js "{}") [10%N])
    as (H1 & _ & H3); [reflexivity..|].
  split; [exact H1|]. apply H3; reflexivity.
Defined.

Lemma rebuilt_table_round_trip_witness :
  extractTable (updateTableText (removeImages one_cell_table) one_cell_rows) 0
  = Table (blockId 0) [[mkCell (cellId 0 0 0) (js "a")]].
Proof.
  apply (rebuilt_table_round_trip one_cell_table one_cell_rows 0).
  constructor; [|constructor]. constructor; [|constructor]. split.
  - vm_compute. lia.
  - constructor; [apply canonical_a|constructor].
Defined.

Lemma tab_and_break_are_unformatted_witness :
  runSegments true true wtab = [mkSegment [9%N] false false]
  /\ texts_without_breaks runs_with_breaks = true
  /\ Forall (fun seg => has_break (seg_text seg) = true ->
                        flagged seg = false /\ renderSegment seg = seg_text seg)
            (mergeSegments (collectFormattedSegments runs_with_breaks))
  /\ getFormattedText runs_with_breaks
     = js "**a**" ++ [9%N] ++ js "**b**" ++ [10%N] ++ js "*c*".
Proof.
  destruct (tab_and_break_are_unformatted true true wtab [] [] [] runs_with_breaks)
    as (Htab & _ & _ & _ & _ & _ & Hbreaks & _).
  split; [apply Htab; reflexivity|]. split; [reflexivity|].
  split; [apply Hbreaks; reflexivity|reflexivity].
Defined.

Lemma classification_precedence_witness :
  classifyParagraph outline_paragraph ∅ = CHeading 3 (js "Scope")
  /\ classifyParagraph (paragraph_of "2.1 - Cab") ∅ = CHeading 2 (js "2.1 - Cab")
  /\ classifyParagraph (paragraph_of "7 Anexos") ∅ = CHeading 1 (js "7 Anexos").
Proof.
  split; [|split].
  - exact (proj1 (proj2 (classification_precedence outline_paragraph ∅ eq_refl eq_refl))
             eq_refl 2%Z eq_refl).
  - apply (proj1 (proj2 (proj2 (classification_precedence (paragraph_of "2.1 - Cab") ∅
                                  eq_refl eq_refl))) eq_refl eq_refl 2).
    exists (js "2.1"), (js " "), 45%N, (js " Cab").
    split; [reflexivity|]. split.
    { apply (dotted_more 1 (js "2") (js "1")); [apply dotted_one|..]; done. }
    split; [reflexivity|]. split; [reflexivity|]. intros (Hws & _). discriminate Hws.
  - apply (proj1 (proj2 (proj2 (proj2 (classification_precedence (paragraph_of "7 Anexos") ∅
                                         eq_refl eq_refl)))) eq_refl eq_refl).
    + intros k Hnp. unfold numbered_prefix in Hnp.
      destruct Hnp as (p & ws & sep & rest & Heq & Hk & Hws & Hsep).
      apply dotted_split in Hk as (d & more & -> & [Hne Hd] & Hmore).
      destruct d as [|c d]; [done|]. vm_compute in Heq. injection Heq as <- Heq.
      destruct d as [|c d].
      * destruct Hmore as [|a b Ha Hb].
        -- destruct ws as [|w ws]; cbn [app] in Heq.
           ++ injection Heq as <- _. vm_compute in Hsep. discriminate.
           ++ injection Heq as <- Heq. destruct ws as [|w ws]; cbn [app] in Heq.
              ** injection Heq as <- _. vm_compute in Hsep. discriminate.
              ** injection Heq as <- _. vm_compute in Hws. discriminate.
        -- destruct Ha as (x & y & -> & (c & -> & Hc%is_dot_eq) & _). subst c.
           cbn [app] in Heq. discriminate.
      * cbn [app] in Heq. injection Heq as <- _. vm_compute in Hd. discriminate.
    + exists (js "7"), (js " "), 65%N, (js "nexos"). repeat split; done.
Defined.

Lemma rebuilt_paragraph_keeps_markup_witness :
  classifyParagraph (updateParagraphText (removeImages outline_paragraph) (js "1. New")) ∅
  = CHeading 3 (js "1. New")
  /\ getPlainText (updateParagraphText (removeImages outline_paragraph) (js "1. New"))
     = js "1. New".
Proof.
  destruct (rebuilt_paragraph_keeps_markup outline_paragraph (js "1. New") ∅ eq_refl eq_refl)
    as (Hclass & Hplain & _).
  split.
  - rewrite Hclass. vm_compute. reflexivity.
  - rewrite (Hplain eq_refl). vm_compute. reflexivity.
Defined.
